(** * SyncDB: value codec, record model, range scans and the free list

    A shallow embedding of [table.go] and of the free-list source of the
    SyncDB repository, with the properties listed in the specification's
    section 8 stated and settled against the embedded code.

    Conventions of the embedding
    - a Go [byte] is a [Z] in [0, 256); a [[]byte] is a [list Z];
    - [uint32], [uint64] and [int64] are [Z] with the wrap-around written
      out ([wrap32], [wrap64], [to_int64]);
    - a Go function that may return an [error] and may [panic] (failed
      [assert], index out of range) returns a [result]. *)

From Stdlib Require Import ZArith List Lia String Ascii Bool.
From stdpp Require Import base option list gmap strings.
Import ListNotations.
Local Open Scope Z_scope.

(** ** Errors and panics *)

Inductive result (A : Type) : Type :=
| Ok (a : A)
| Error (msg : string)
| Panic.
Arguments Ok {A} a.
Arguments Error {A} msg.
Arguments Panic {A}.

Definition bind {A B} (r : result A) (k : A -> result B) : result B :=
  match r with
  | Ok a => k a
  | Error msg => Error msg
  | Panic => Panic
  end.

Declare Scope go_scope.
Delimit Scope go_scope with go.
Notation "'let*' x ':=' r 'in' k" := (bind r (fun x => k))
  (at level 10, x pattern, r at level 100, k at level 200) : go_scope.
Local Open Scope go_scope.

(** [assert(cond)] *)
Definition assert (cond : bool) : result unit :=
  if cond then Ok tt else Panic.

(** [fmt.Errorf("<prefix>%s", s)] *)
Definition Errorf (prefix s : string) : string := String.append prefix s.

(** ** Machine integers and bytes *)

Definition wrap32 (z : Z) : Z := z mod 2 ^ 32.
Definition wrap64 (z : Z) : Z := z mod 2 ^ 64.
(** [int64(u)] for a [uint64] [u]: two's complement reinterpretation. *)
Definition to_int64 (u : Z) : Z := (u + 2 ^ 63) mod 2 ^ 64 - 2 ^ 63.

Definition byte_ok (b : Z) : Prop := 0 <= b < 256.
Definition bytes_ok (l : list Z) : Prop := Forall byte_ok l.
Definition int64_ok (z : Z) : Prop := - 2 ^ 63 <= z < 2 ^ 63.
Definition uint64_ok (z : Z) : Prop := 0 <= z < 2 ^ 64.
Definition uint32_ok (z : Z) : Prop := 0 <= z < 2 ^ 32.

(** [[]byte(s)] for a Go string [s]. *)
Definition bytes_of_string (s : string) : list Z :=
  map (fun c => Z.of_N (N_of_ascii c)) (list_ascii_of_string s).

(** *** [encoding/binary] *)

(** The [n] low-order base-256 digits of [u], least significant first. *)
Fixpoint le_digits (n : nat) (u : Z) : list Z :=
  match n with
  | O => []
  | S n' => u mod 256 :: le_digits n' (u / 256)
  end.

Fixpoint le_value (l : list Z) : Z :=
  match l with
  | [] => 0
  | b :: r => b + 256 * le_value r
  end.

Module BigEndian.
Definition PutUint64 (u : Z) : list Z := rev (le_digits 8 u).
Definition PutUint32 (u : Z) : list Z := rev (le_digits 4 u).
(** Panics (index out of range) on fewer than 8 bytes. *)
Definition Uint64 (b : list Z) : result Z :=
  if (length b <? 8)%nat then Panic else Ok (le_value (rev (firstn 8 b))).
End BigEndian.

Module LittleEndian.
Definition Uint32 (b : list Z) : result Z :=
  if (length b <? 4)%nat then Panic else Ok (le_value (firstn 4 b)).
Definition Uint64 (b : list Z) : result Z :=
  if (length b <? 8)%nat then Panic else Ok (le_value (firstn 8 b)).
(** [PutUint32(b, v)] overwrites the first four bytes of [b]. *)
Definition PutUint32 (b : list Z) (v : Z) : result (list Z) :=
  if (length b <? 4)%nat then Panic else Ok (le_digits 4 v ++ skipn 4 b).
Definition PutUint64 (b : list Z) (v : Z) : result (list Z) :=
  if (length b <? 8)%nat then Panic else Ok (le_digits 8 v ++ skipn 8 b).
End LittleEndian.

(** *** [bytes] *)

(** [bytes.Compare]: lexicographic order on unsigned bytes. *)
Fixpoint bytes_Compare (a b : list Z) : comparison :=
  match a, b with
  | [], [] => Eq
  | [], _ :: _ => Lt
  | _ :: _, [] => Gt
  | x :: a', y :: b' =>
      match x ?= y with
      | Eq => bytes_Compare a' b'
      | c => c
      end
  end.

(** [bytes.Count(in, []byte{b})] *)
Fixpoint bytes_Count (l : list Z) (b : Z) : Z :=
  match l with
  | [] => 0
  | x :: r => (if x =? b then 1 else 0) + bytes_Count r b
  end.

(** [bytes.IndexByte(in, b)]: index of the first [b], or [-1]. *)
Fixpoint bytes_IndexByte (l : list Z) (b : Z) : Z :=
  match l with
  | [] => -1
  | x :: r =>
      if x =? b then 0
      else let i := bytes_IndexByte r b in if i <? 0 then -1 else i + 1
  end.

(** ** Data model ([table.go]) *)

Definition TYPE_ERROR : Z := 0.
Definition TYPE_BYTES : Z := 1.
Definition TYPE_INT64 : Z := 2.

(** A table cell. The Go field [Type] is spelled [Type_]. *)
Record Value : Type := mkValue {
  Type_ : Z;
  I64 : Z;
  Str : list Z
}.

(** The zero [Value{}]. *)
Definition Value_zero : Value := mkValue 0 0 [].

(** A list of column names and values. *)
Record Record_ : Type := mkRecord {
  RCols : list string;
  RVals : list Value
}.

Definition Record_empty : Record_ := mkRecord [] [].

Definition AddStr (rec : Record_) (col : string) (val : list Z) : Record_ :=
  mkRecord (RCols rec ++ [col]) (RVals rec ++ [mkValue TYPE_BYTES 0 val]).

Definition AddInt64 (rec : Record_) (col : string) (val : Z) : Record_ :=
  mkRecord (RCols rec ++ [col]) (RVals rec ++ [mkValue TYPE_INT64 val []]).

(** ** Value codec *)

Fixpoint escape_loop (l : list Z) : list Z :=
  match l with
  | [] => []
  | ch :: r =>
      if ch <=? 1 then 1 :: (ch + 1) mod 256 :: escape_loop r
      else ch :: escape_loop r
  end.

Definition escapeString (l : list Z) : list Z :=
  let toEscape := bytes_Count l 0 + bytes_Count l 1 in
  if toEscape =? 0 then l else escape_loop l.

Fixpoint unescape_loop (l : list Z) : result (list Z) :=
  match l with
  | [] => Ok []
  | ch :: r =>
      if ch =? 1 then
        match r with
        | [] => Panic
        | n :: r' =>
            let* _ := assert ((n =? 1) || (n =? 2)) in
            let* out := unescape_loop r' in
            Ok ((n - 1) mod 256 :: out)
        end
      else
        let* out := unescape_loop r in Ok (ch :: out)
  end.

Definition unescapeString (l : list Z) : result (list Z) :=
  if bytes_Count l 1 =? 0 then Ok l else unescape_loop l.

Definition encodeValue (v : Value) : result (list Z) :=
  if Type_ v =? TYPE_INT64 then
    let u := wrap64 (wrap64 (I64 v) + 2 ^ 63) in
    Ok (BigEndian.PutUint64 u)
  else if Type_ v =? TYPE_BYTES then
    Ok (escapeString (Str v) ++ [0])
  else Panic.

Fixpoint encodeValues (out : list Z) (vals : list Value) : result (list Z) :=
  match vals with
  | [] => Ok out
  | v :: vs =>
      let* e := encodeValue v in
      encodeValues (out ++ e) vs
  end.

Definition encodeKey (out : list Z) (prefix : Z) (vals : list Value) : result (list Z) :=
  encodeValues (out ++ BigEndian.PutUint32 prefix) vals.

(** One iteration of the loop of [decodeValues]: fills [o] from the front
    of [inp] and returns it with the rest of the input. *)
Definition decodeValue (inp : list Z) (o : Value) : result (Value * list Z) :=
  if Type_ o =? TYPE_INT64 then
    let* u := BigEndian.Uint64 inp in
    Ok (mkValue (Type_ o) (to_int64 (wrap64 (u - 2 ^ 63))) (Str o), skipn 8 inp)
  else if Type_ o =? TYPE_BYTES then
    let idx := bytes_IndexByte inp 0 in
    let* _ := assert (0 <=? idx) in
    let* s := unescapeString (firstn (Z.to_nat idx) inp) in
    Ok (mkValue (Type_ o) (I64 o) s, skipn (Z.to_nat idx + 1) inp)
  else Panic.

Fixpoint decodeValues_loop (inp : list Z) (out : list Value) : result (list Value * list Z) :=
  match out with
  | [] => Ok ([], inp)
  | o :: os =>
      let* (o', inp') := decodeValue inp o in
      let* (os', rest) := decodeValues_loop inp' os in
      Ok (o' :: os', rest)
  end.

(** [decodeValues(in, out)] updates [out] in place; the result is the
    updated [out]. *)
Definition decodeValues (inp : list Z) (out : list Value) : result (list Value) :=
  let* (out', rest) := decodeValues_loop inp out in
  let* _ := assert (Nat.eqb (length rest) 0) in
  Ok out'.

Definition decodeKey (inp : list Z) (out : list Value) : result (list Value) :=
  if (length inp <? 4)%nat then Panic else decodeValues (skipn 4 inp) out.

(** *** Well-formed values

    A typed value carries the tag [TYPE_INT64] with a 64-bit signed
    integer, or the tag [TYPE_BYTES] with a byte string. *)
Definition typed (v : Value) : Prop :=
  (Type_ v = TYPE_INT64 /\ int64_ok (I64 v)) \/
  (Type_ v = TYPE_BYTES /\ bytes_ok (Str v)).

(** The field that the tag does not select holds its zero value, as in the
    values built by [AddStr] and [AddInt64] and in the blank values
    [Value{Type: t}] that [Deref] hands to the decoder. *)
Definition canonical (v : Value) : Prop :=
  (Type_ v = TYPE_INT64 -> Str v = []) /\ (Type_ v = TYPE_BYTES -> I64 v = 0).

(** [o] carries the same tag and the same selected field as [v]. *)
Definition same_payload (v o : Value) : Prop :=
  Type_ o = Type_ v /\
  (Type_ v = TYPE_INT64 -> I64 o = I64 v) /\
  (Type_ v = TYPE_BYTES -> Str o = Str v).

(** What the decoder leaves in [o] when it reads back the encoding of
    [v]: the field selected by the tag comes from [v], the other one is
    not written. *)
Definition filled (v o : Value) : Value :=
  if Type_ o =? TYPE_INT64 then mkValue (Type_ o) (I64 v) (Str o)
  else mkValue (Type_ o) (I64 o) (Str v).

(** [bytes.Compare(a, b) < 0] *)
Definition bytes_lt (a b : list Z) : Prop := bytes_Compare a b = Lt.

(** ** Table schemas ([table.go])

    The functions of [table.go] read one key prefix and one primary-key
    count per table ([tdef.Prefix], [tdef.PKeys]) and the primary-key
    column list [tdef.Indexes[0]]; the struct declaration spells the first
    as [Prefixes] and does not list [PKeys]. The record below carries the
    fields in the form the functions read them (specification, sections 3
    and 9: one [Prefix] and one [PKeys] per table). *)
Record TableDef : Type := mkTableDef {
  Name : string;
  Types : list Z;
  Cols : list string;
  PKeys : Z;
  Prefix : Z;
  Indexes : list (list string)
}.

(** Internal tables: [@meta] has prefix 1 and [@table] prefix 2, each with
    its first column as primary key. *)
Definition TDEF_META : TableDef :=
  mkTableDef "@meta" [TYPE_BYTES; TYPE_BYTES] ["key"; "val"]%string 1 1 [["key"%string]].

Definition TDEF_TABLE : TableDef :=
  mkTableDef "@table" [TYPE_BYTES; TYPE_BYTES] ["name"; "def"]%string 1 2 [["name"%string]].

Definition INTERNAL_TABLES : gmap string TableDef :=
  <["@meta"%string := TDEF_META]> (<["@table"%string := TDEF_TABLE]> ∅).

(** *** Records *)

(** Index of the first column named [key]. *)
Fixpoint Get_index (cols : list string) (key : string) : option nat :=
  match cols with
  | [] => None
  | c :: cs => if String.eqb c key then Some O else option_map S (Get_index cs key)
  end.

(** [rec.Get(key)]: the first value stored under [key], [None] for Go's
    [nil]. Indexing [rec.Vals] past its end panics. *)
Definition Get (rec : Record_) (key : string) : result (option Value) :=
  match Get_index (RCols rec) key with
  | None => Ok None
  | Some i =>
      match nth_error (RVals rec) i with
      | Some v => Ok (Some v)
      | None => Panic
      end
  end.

(** [a[i]] on a slice. *)
Definition index {A} (l : list A) (i : nat) : result A :=
  match nth_error l i with
  | Some x => Ok x
  | None => Panic
  end.

(** [a[:n]] and [a[n:]] for a slice whose capacity is its length. *)
Definition slice_to {A} (l : list A) (n : Z) : result (list A) :=
  if (n <? 0) || (Z.of_nat (length l) <? n) then Panic
  else Ok (firstn (Z.to_nat n) l).

Definition slice_from {A} (l : list A) (n : Z) : result (list A) :=
  if (n <? 0) || (Z.of_nat (length l) <? n) then Panic
  else Ok (skipn (Z.to_nat n) l).

(** The loop of [reorderRecord] over the schema columns from index [i]
    on; the result lists [out[i:]]. *)
Fixpoint reorder_loop (tdef : TableDef) (rec : Record_) (cols : list string) (i : nat)
  : result (list Value) :=
  match cols with
  | [] => Ok []
  | c :: cs =>
      let* v := Get rec c in
      match v with
      | None =>
          let* out := reorder_loop tdef rec cs (S i) in
          Ok (Value_zero :: out)
      | Some v =>
          let* t := index (Types tdef) i in
          if negb (Type_ v =? t) then Error (Errorf "bad column type: " c)
          else let* out := reorder_loop tdef rec cs (S i) in Ok (v :: out)
      end
  end.

(** reorder records to defined col. order *)
Definition reorderRecord (tdef : TableDef) (rec : Record_) : result (list Value) :=
  let* _ := assert (Nat.eqb (length (RCols rec)) (length (RVals rec))) in
  reorder_loop tdef rec (Cols tdef) 0.

Fixpoint valuesComplete_loop (tdef : TableDef) (vals : list Value) (i : nat) (n : Z)
  : result unit :=
  match vals with
  | [] => Ok tt
  | v :: vs =>
      if (Z.of_nat i <? n) && (Type_ v =? 0) then
        let* c := index (Cols tdef) i in Error (Errorf "missing column: " c)
      else if (n <=? Z.of_nat i) && negb (Type_ v =? 0) then
        let* c := index (Cols tdef) i in Error (Errorf "extra column: " c)
      else valuesComplete_loop tdef vs (S i) n
  end.

Definition valuesComplete (tdef : TableDef) (vals : list Value) (n : Z) : result unit :=
  valuesComplete_loop tdef vals 0 n.

(** check for missing columns *)
Definition checkRecord (tdef : TableDef) (rec : Record_) (n : Z) : result (list Value) :=
  let* vals := reorderRecord tdef rec in
  let* _ := valuesComplete tdef vals n in
  Ok vals.

(** [slices.Index(s, v)]: index of the first [v], or [-1]. *)
Definition slices_Index (s : list string) (v : string) : Z :=
  match Get_index s v with
  | Some i => Z.of_nat i
  | None => -1
  end.

(** [a[i]] for a signed index. *)
Definition index_Z {A} (l : list A) (i : Z) : result A :=
  if i <? 0 then Panic else index l (Z.to_nat i).

Fixpoint getValues_loop (tdef : TableDef) (rec : Record_) (cols : list string) (i : nat)
  : result (list Value) :=
  match cols with
  | [] => Ok []
  | c :: cs =>
      let* v := Get rec c in
      match v with
      | None =>
          let* ci := index (Cols tdef) i in
          Error (Errorf "missing col.: " ci)
      | Some v =>
          let* t := index_Z (Types tdef) (slices_Index (Cols tdef) c) in
          if negb (Type_ v =? t) then Error (Errorf "bad column type: " c)
          else let* out := getValues_loop tdef rec cs (S i) in Ok (v :: out)
      end
  end.

(** extract multiple col. values *)
Definition getValues (tdef : TableDef) (rec : Record_) (cols : list string)
  : result (list Value) :=
  getValues_loop tdef rec cols 0.

(** ** The ordered key-value store

    [table.go] calls the store through [db.kv.Update], [db.kv.Del],
    [db.kv.tree.Seek], the iterator [BIter] and [cmpOk]; their source is
    not part of [table.go]. *)

(** Modelled from the spec: the comparator constants of a scan bound. The
    sign gives the direction (positive: ascending, towards larger keys;
    negative: descending), the magnitude inclusive or exclusive. *)
Definition CMP_GE : Z := 3.
Definition CMP_GT : Z := 2.
Definition CMP_LT : Z := -2.
Definition CMP_LE : Z := -3.

(** Modelled from the spec: [cmpOk(key, cmp, ref)] tells whether [key]
    stands in the relation [cmp] to [ref] under unsigned byte order; an
    unknown comparator is a fatal error. *)
Definition cmpOk (key : list Z) (cmp : Z) (ref : list Z) : result bool :=
  let r := bytes_Compare key ref in
  if cmp =? CMP_GE then Ok (match r with Lt => false | _ => true end)
  else if cmp =? CMP_GT then Ok (match r with Gt => true | _ => false end)
  else if cmp =? CMP_LT then Ok (match r with Lt => true | _ => false end)
  else if cmp =? CMP_LE then Ok (match r with Gt => false | _ => true end)
  else Panic.

(** Modelled from the spec: the update modes of the store. *)
Definition MODE_UPSERT : Z := 0.
Definition MODE_UPDATE_ONLY : Z := 1.
Definition MODE_INSERT_ONLY : Z := 2.

(** Modelled from the spec: the tree of the store, as the list of its
    entries in ascending key order. *)
Definition BTree : Type := list (list Z * list Z).

(** Modelled from the spec: the handle of the key-value store. *)
Record KV : Type := mkKV {
  KVPath : string;
  tree : BTree
}.

(** Modelled from the spec: an iterator is a position in the ordered
    entries; it is valid while the position is on an entry. *)
Record BIter : Type := mkBIter {
  entries : BTree;
  pos : Z
}.

Module Iter.
Definition Valid (it : BIter) : bool :=
  (0 <=? pos it) && (pos it <? Z.of_nat (length (entries it))).
Definition Next (it : BIter) : BIter := mkBIter (entries it) (pos it + 1).
Definition Prev (it : BIter) : BIter := mkBIter (entries it) (pos it - 1).
Definition Deref (it : BIter) : result (list Z * list Z) :=
  if Valid it then index (entries it) (Z.to_nat (pos it)) else Panic.
End Iter.

(** Number of leading entries whose key fails [p]. *)
Fixpoint skip_while_not (p : list Z -> bool) (l : BTree) : nat :=
  match l with
  | [] => O
  | (k, _) :: r => if p k then O else S (skip_while_not p r)
  end.

Definition cmp_holds (cmp : Z) (ref key : list Z) : bool :=
  match cmpOk key cmp ref with
  | Ok b => b
  | _ => false
  end.

(** Modelled from the spec: [Seek(key, cmp)] positions an iterator on the
    entry closest to [key] among those in the relation [cmp] to it: the
    first such entry for an ascending comparator, the last one for a
    descending comparator; the iterator is invalid when there is none. *)
Definition Seek (t : BTree) (key : list Z) (cmp : Z) : result BIter :=
  let* _ := cmpOk key cmp key in
  if 0 <? cmp then
    Ok (mkBIter t (Z.of_nat (skip_while_not (cmp_holds cmp key) t)))
  else
    Ok (mkBIter t (Z.of_nat (length t) - 1
                   - Z.of_nat (skip_while_not (cmp_holds cmp key) (rev t)))).

Record UpdateReq : Type := mkUpdateReq {
  Key : list Z;
  Val : list Z;
  Mode : Z;
  Added : bool;
  Updated : bool
}.

(** Modelled from the spec: the conditional write. Insert-only leaves an
    existing key alone, update-only leaves an absent key absent, upsert
    writes unconditionally; the result tells whether a key was added and
    whether the store was written. *)
Fixpoint tree_update (t : BTree) (key val : list Z) (mode : Z) : BTree * bool * bool :=
  match t with
  | [] =>
      if mode =? MODE_UPDATE_ONLY then ([], false, false)
      else ([(key, val)], true, true)
  | (k, v) :: r =>
      match bytes_Compare k key with
      | Lt => let '(r', a, u) := tree_update r key val mode in ((k, v) :: r', a, u)
      | Eq => if mode =? MODE_INSERT_ONLY then (t, false, false)
              else ((key, val) :: r, false, true)
      | Gt => if mode =? MODE_UPDATE_ONLY then (t, false, false)
              else ((key, val) :: t, true, true)
      end
  end.

Definition KV_Update (kv : KV) (req : UpdateReq) : result (KV * UpdateReq * bool) :=
  let '(t, a, u) := tree_update (tree kv) (Key req) (Val req) (Mode req) in
  Ok (mkKV (KVPath kv) t, mkUpdateReq (Key req) (Val req) (Mode req) a u, u).

(** Modelled from the spec: delete by key, telling whether it existed. *)
Fixpoint tree_delete (t : BTree) (key : list Z) : BTree * bool :=
  match t with
  | [] => ([], false)
  | (k, v) :: r =>
      match bytes_Compare k key with
      | Eq => (r, true)
      | _ => let '(r', b) := tree_delete r key in ((k, v) :: r', b)
      end
  end.

Definition KV_Del (kv : KV) (key : list Z) : result (KV * bool) :=
  let '(t, b) := tree_delete (tree kv) key in Ok (mkKV (KVPath kv) t, b).

(** ** The table store ([table.go]) *)

Record DB : Type := mkDB {
  Path : string;
  kv : KV;
  tables : gmap string TableDef
}.

(** scanner decodes KV's into rows; [None] stands for a [nil] pointer. *)
Record Scanner : Type := mkScanner {
  Cmp1 : Z;
  Cmp2 : Z;
  Key1 : Record_;
  Key2 : Record_;
  sc_tdef : option TableDef;
  iter : option BIter;
  keyEnd : list Z
}.

(** A scan request as the caller builds it: the internal fields unset. *)
Definition Scanner_new (cmp1 cmp2 : Z) (key1 key2 : Record_) : Scanner :=
  mkScanner cmp1 cmp2 key1 key2 None None [].

Module Sc.
(** within range or not *)
Definition Valid (sc : Scanner) : result bool :=
  match iter sc with
  | None => Panic
  | Some it =>
      if negb (Iter.Valid it) then Ok false
      else
        let* (key, _) := Iter.Deref it in
        cmpOk key (Cmp2 sc) (keyEnd sc)
  end.

(** movin underlying B+ tree iterator *)
Definition Next (sc : Scanner) : result Scanner :=
  let* v := Valid sc in
  let* _ := assert v in
  match iter sc with
  | None => Panic
  | Some it =>
      let it' := if 0 <? Cmp1 sc then Iter.Next it else Iter.Prev it in
      Ok (mkScanner (Cmp1 sc) (Cmp2 sc) (Key1 sc) (Key2 sc) (sc_tdef sc) (Some it') (keyEnd sc))
  end.

(** return current row *)
Definition Deref (sc : Scanner) (rec : Record_) : result Record_ :=
  let* v := Valid sc in
  let* _ := assert v in
  match iter sc, sc_tdef sc with
  | Some it, Some tdef =>
      let* (key, val) := Iter.Deref it in
      let vals := map (fun t => mkValue t 0 []) (Types tdef) in
      let* kvals := slice_to vals (PKeys tdef) in
      let* kvals' := decodeKey key kvals in
      let* vvals := slice_from vals (PKeys tdef) in
      let* vvals' := decodeValues val vvals in
      Ok (mkRecord (Cols tdef) (kvals' ++ vvals'))
  | _, _ => Panic
  end.
End Sc.

(** [dbScan] fills the internal fields of the request through its
    pointer argument and returns an [error]: the result is the request as
    the call leaves it, with [None] for a [nil] error. *)
Definition dbScan (db : DB) (tdef : TableDef) (req : Scanner)
  : result (Scanner * option string) :=
  if ((0 <? Cmp1 req) && (Cmp2 req <? 0)) || ((Cmp1 req <? 0) && (0 <? Cmp2 req)) then
    let req := mkScanner (Cmp1 req) (Cmp2 req) (Key1 req) (Key2 req)
                         (Some tdef) (iter req) (keyEnd req) in
    (* reorder input cols acc. to schema *)
    match checkRecord tdef (Key1 req) (PKeys tdef) with
    | Panic => Panic
    | Error msg => Ok (req, Some msg)
    | Ok val1 =>
        match checkRecord tdef (Key2 req) (PKeys tdef) with
        | Panic => Panic
        | Error msg => Ok (req, Some msg)
        | Ok val2 =>
            (* encode primary key *)
            let* k1 := slice_to val1 (PKeys tdef) in
            let* keyStart := encodeKey [] (Prefix tdef) k1 in
            let* k2 := slice_to val2 (PKeys tdef) in
            let* keyEnd := encodeKey [] (Prefix tdef) k2 in
            (* seek to start key *)
            let* it := Seek (tree (kv db)) keyStart (Cmp1 req) in
            Ok (mkScanner (Cmp1 req) (Cmp2 req) (Key1 req) (Key2 req)
                          (Some tdef) (Some it) keyEnd, None)
        end
    end
  else Ok (req, Some "bad range"%string).

(** get a single row by primary key *)
Definition dbGet (db : DB) (tdef : TableDef) (rec : Record_) : result (bool * Record_) :=
  let* pk := index (Indexes tdef) 0 in
  let* vals := getValues tdef rec pk in
  let sc := Scanner_new CMP_GE CMP_LE (mkRecord pk vals) (mkRecord pk vals) in
  let* (sc', err) := dbScan db tdef sc in
  match err with
  | Some msg => Error msg
  | None =>
      let* v := Sc.Valid sc' in
      if negb v then Ok (false, rec)
      else
        let* rec' := Sc.Deref sc' rec in
        Ok (true, rec')
  end.

Definition TABLE_PREFIX_MIN : Z := 100.

Definition tableDefCheck (tdef : TableDef) : result unit :=
  let bad := String.eqb (Name tdef) "" || Nat.eqb (length (Cols tdef)) 0 in
  let bad := bad || negb (Nat.eqb (length (Cols tdef)) (length (Types tdef))) in
  let bad := bad || negb ((1 <=? PKeys tdef) && (PKeys tdef <=? Z.of_nat (length (Cols tdef)))) in
  if bad then Error (Errorf "bad table schema: " (Name tdef)) else Ok tt.

Record DBUpdateReq : Type := mkDBUpdateReq {
  URecord : Record_;
  UMode : Z;
  UUpdated : bool;
  UAdded : bool
}.

(** add row to table *)
Definition dbUpdate (db : DB) (tdef : TableDef) (dbreq : DBUpdateReq)
  : result (DB * DBUpdateReq * bool) :=
  let* values := checkRecord tdef (URecord dbreq) (Z.of_nat (length (Cols tdef))) in
  let* kvals := slice_to values (PKeys tdef) in
  let* key := encodeKey [] (Prefix tdef) kvals in
  let* vvals := slice_from values (PKeys tdef) in
  let* val := encodeValues [] vvals in
  let req := mkUpdateReq key val (UMode dbreq) false false in
  let* (kv', req', _) := KV_Update (kv db) req in
  Ok (mkDB (Path db) kv' (tables db),
      mkDBUpdateReq (URecord dbreq) (UMode dbreq) (Updated req') (Added req'),
      Updated req').

(** delete a record by primary key *)
Definition dbDelete (db : DB) (tdef : TableDef) (rec : Record_) : result (DB * bool) :=
  let* vals := checkRecord tdef rec (PKeys tdef) in
  let* kvals := slice_to vals (PKeys tdef) in
  let* key := encodeKey [] (Prefix tdef) kvals in
  let* (kv', b) := KV_Del (kv db) key in
  Ok (mkDB (Path db) kv' (tables db), b).

(** The value stored under [col], for [rec.Get(col).Str]; a [nil] result
    of [Get] is dereferenced, which panics. *)
Definition Get_Str (rec : Record_) (col : string) : result (list Z) :=
  let* v := Get rec col in
  match v with
  | Some v => Ok (Str v)
  | None => Panic
  end.

(** Writes [s] to the bytes of the first value stored under [col]: the
    effect of [binary.LittleEndian.PutUint32(rec.Get(col).Str, ...)],
    which writes through the slice that the record holds. *)
Definition Set_Str (rec : Record_) (col : string) (s : list Z) : result Record_ :=
  match Get_index (RCols rec) col with
  | None => Panic
  | Some i =>
      match nth_error (RVals rec) i with
      | None => Panic
      | Some v =>
          Ok (mkRecord (RCols rec) (<[i := mkValue (Type_ v) (I64 v) s]> (RVals rec)))
      end
  end.

Section TableStore.

(** [json.Marshal] and [json.Unmarshal] on table definitions, from the Go
    library. *)
Variable json_Marshal : TableDef -> result (list Z).
Variable json_Unmarshal : list Z -> result TableDef.

(** [TableNew] assigns [tdef.Prefix] through its pointer argument: the
    result carries the updated definition next to the new database. *)
Definition TableNew (db : DB) (tdef : TableDef) : result (DB * TableDef) :=
  let* _ := tableDefCheck tdef in
  (* check existing table *)
  let table := AddStr Record_empty "name" (bytes_of_string (Name tdef)) in
  match dbGet db TDEF_TABLE table with
  | Ok (ok, table) =>
      if ok then Error (Errorf "table exists: " (Name tdef))
      else
        (* alllocate a new prefix *)
        let* _ := assert (Prefix tdef =? 0) in
        let meta := AddStr Record_empty "key" (bytes_of_string "next_prefix") in
        match dbGet db TDEF_META meta with
        | Ok (ok, meta) =>
            let* (prefix, meta) :=
              (if ok then
                 let* s := Get_Str meta "val" in
                 let* p := LittleEndian.Uint32 s in
                 let* _ := assert (TABLE_PREFIX_MIN <? p) in
                 Ok (p, meta)
               else
                 Ok (TABLE_PREFIX_MIN, AddStr meta "val" [0; 0; 0; 0])) in
            let tdef := mkTableDef (Name tdef) (Types tdef) (Cols tdef) (PKeys tdef)
                                   prefix (Indexes tdef) in
            let* s := Get_Str meta "val" in
            let* s' := LittleEndian.PutUint32 s (wrap32 (prefix + 1)) in
            let* meta := Set_Str meta "val" s' in
            let* (db, _, _) := dbUpdate db TDEF_META (mkDBUpdateReq meta 0 false false) in
            let* val := (match json_Marshal tdef with Ok v => Ok v | _ => Panic end) in
            let table := AddStr table "def" val in
            let* (db, _, _) := dbUpdate db TDEF_TABLE (mkDBUpdateReq table 0 false false) in
            Ok (db, tdef)
        | _ => Panic (* assert(err == nil) *)
        end
  | _ => Panic (* assert(err == nil) *)
  end.

Definition getTableDefDB (db : DB) (name : string) : result (option TableDef) :=
  let rec := AddStr Record_empty "name" (bytes_of_string name) in
  match dbGet db TDEF_TABLE rec with
  | Ok (ok, rec) =>
      if negb ok then Ok None
      else
        let* s := Get_Str rec "def" in
        match json_Unmarshal s with
        | Ok tdef => Ok (Some tdef)
        | _ => Panic
        end
  | _ => Panic
  end.

(** get table schema by naem; the cache [db.tables] is updated. *)
Definition getTableDef (db : DB) (name : string) : result (DB * option TableDef) :=
  match INTERNAL_TABLES !! name with
  | Some tdef => Ok (db, Some tdef)
  | None =>
      match tables db !! name with
      | Some tdef => Ok (db, Some tdef)
      | None =>
          let* r := getTableDefDB db name in
          match r with
          | Some tdef => Ok (mkDB (Path db) (kv db) (<[name := tdef]> (tables db)), Some tdef)
          | None => Ok (db, None)
          end
      end
  end.

Definition DB_Get (db : DB) (table : string) (rec : Record_) : result (DB * bool * Record_) :=
  let* (db, tdef) := getTableDef db table in
  match tdef with
  | None => Error (Errorf "table not found: " table)
  | Some tdef => let* (ok, rec) := dbGet db tdef rec in Ok (db, ok, rec)
  end.

(** addin a record *)
Definition DB_Set (db : DB) (table : string) (dbreq : DBUpdateReq)
  : result (DB * DBUpdateReq * bool) :=
  let* (db, tdef) := getTableDef db table in
  match tdef with
  | None => Error (Errorf "table not found: " table)
  | Some tdef => dbUpdate db tdef dbreq
  end.

Definition DB_Insert (db : DB) (table : string) (rec : Record_) :=
  DB_Set db table (mkDBUpdateReq rec MODE_INSERT_ONLY false false).
Definition DB_Update (db : DB) (table : string) (rec : Record_) :=
  DB_Set db table (mkDBUpdateReq rec MODE_UPDATE_ONLY false false).
Definition DB_Upsert (db : DB) (table : string) (rec : Record_) :=
  DB_Set db table (mkDBUpdateReq rec MODE_UPSERT false false).

Definition DB_Delete (db : DB) (table : string) (rec : Record_) : result (DB * bool) :=
  let* (db, tdef) := getTableDef db table in
  match tdef with
  | None => Error (Errorf "table not found: " table)
  | Some tdef => dbDelete db tdef rec
  end.

Definition DB_Scan (db : DB) (table : string) (req : Scanner)
  : result (DB * Scanner * option string) :=
  let* (db, tdef) := getTableDef db table in
  match tdef with
  | None => Ok (db, req, Some (Errorf "table not found: " table))
  | Some tdef => let* (sc, err) := dbScan db tdef req in Ok (db, sc, err)
  end.

End TableStore.

(** *** Vocabulary of the properties *)

(** A comparator is ascending when it is positive, descending when it is
    negative. *)
Definition ascending (cmp : Z) : Prop := 0 < cmp.
Definition descending (cmp : Z) : Prop := cmp < 0.

(** The two legal combinations of scan comparators. *)
Definition legal_range (cmp1 cmp2 : Z) : Prop :=
  (ascending cmp1 /\ descending cmp2) \/ (descending cmp1 /\ ascending cmp2).

(** A boundary record as a scan takes it: it holds every primary-key
    column of the schema, with a non-zero tag that is the declared type
    of the column, and holds no other column of the schema with a
    non-zero tag. *)
Definition boundary_ok (tdef : TableDef) (rec : Record_) : Prop :=
  forall j c, nth_error (Cols tdef) j = Some c ->
    if Z.of_nat j <? PKeys tdef then
      exists v, Get rec c = Ok (Some v) /\ Type_ v <> 0 /\
                nth_error (Types tdef) j = Some (Type_ v)
    else
      Get rec c = Ok None \/ exists v, Get rec c = Ok (Some v) /\ Type_ v = 0.

(** The request as [dbScan] leaves it when it returns a column error:
    the table definition is set, no key is encoded and no iterator
    sought. *)
Definition with_tdef (req : Scanner) (tdef : TableDef) : Scanner :=
  mkScanner (Cmp1 req) (Cmp2 req) (Key1 req) (Key2 req) (Some tdef) (iter req) (keyEnd req).

(** The computation returns a value or panics: it reports no [error]. *)
Definition no_error {A} (r : result A) : Prop := forall msg, r <> Error msg.





(** The value that an exact-match scan (seek with [CMP_GE], bound
    [CMP_LE], same key) finds under [key]. *)
Fixpoint tree_get (t : BTree) (key : list Z) : option (list Z) :=
  match t with
  | [] => None
  | (k, v) :: r =>
      match bytes_Compare k key with
      | Lt => tree_get r key
      | Eq => Some v
      | Gt => None
      end
  end.

(** The key of [@meta] under which the prefix counter is stored, and the
    record that [TableNew] looks it up with. *)
Definition next_prefix_rec : Record_ :=
  AddStr Record_empty "key" (bytes_of_string "next_prefix").

(** Reads the counter the way [TableNew] does: the bytes of the [val]
    column of the [@meta] row with key ["next_prefix"], if any. *)
Definition read_next_prefix (db : DB) : result (option (list Z)) :=
  let* (ok, meta) := dbGet db TDEF_META next_prefix_rec in
  if ok then let* s := Get_Str meta "val" in Ok (Some s) else Ok None.

(** A database on an empty store. *)
Definition DB_fresh (path : string) : DB := mkDB path (mkKV path []) ∅.

(** Successive calls of [TableNew], each on the database the previous
    call left; the result lists the definitions as the calls updated
    them. *)
Fixpoint TableNew_seq (json_Marshal : TableDef -> result (list Z))
  (db : DB) (tdefs : list TableDef) : result (DB * list TableDef) :=
  match tdefs with
  | [] => Ok (db, [])
  | t :: ts =>
      let* (db1, t') := TableNew json_Marshal db t in
      let* (db2, outs) := TableNew_seq json_Marshal db1 ts in
      Ok (db2, t' :: outs)
  end.

(** A caller's loop [for sc.Valid() { sc.Deref(&rec); ...; sc.Next() }],
    run for at most [fuel] rows: the rows read, and whether the scanner
    is still valid when the loop stops. *)
Fixpoint scan_rows (fuel : nat) (sc : Scanner) : result (list Record_ * bool) :=
  let* v := Sc.Valid sc in
  if negb v then Ok ([], false)
  else
    match fuel with
    | O => Ok ([], true)
    | S fuel' =>
        let* rec := Sc.Deref sc Record_empty in
        let* sc' := Sc.Next sc in
        let* (rows, more) := scan_rows fuel' sc' in
        Ok (rec :: rows, more)
    end.

(** The encoded key of the counter row, and the stored form of a counter
    value [p]: the encoding of the [val] column holding the four
    little-endian bytes of [p]. *)
Definition next_prefix_key : list Z :=
  BigEndian.PutUint32 1 ++ escapeString (bytes_of_string "next_prefix") ++ [0].

Definition counter_bytes (p : Z) : list Z := le_digits 4 p.

Definition counter_stored (p : Z) : list Z := escapeString (counter_bytes p) ++ [0].

(** The state of the counter after [k] successful calls on a fresh
    database. *)
Definition counter_after (k : nat) (db : DB) : Prop :=
  match k with
  | O => tree_get (tree (kv db)) next_prefix_key = None
  | S _ =>
      tree_get (tree (kv db)) next_prefix_key =
        Some (counter_stored (wrap32 (TABLE_PREFIX_MIN + Z.of_nat k))) /\
      TABLE_PREFIX_MIN + Z.of_nat k <= 2 ^ 32
  end.


(** *** The example of the scan boundaries

    Table [t] (prefix 100) has the INT64 primary key [id] and one more
    column; its rows have the keys 1, 2, 3 and 5, inserted in another
    order. Table [u] (prefix 101) shares the store. *)
Definition example_t : TableDef :=
  mkTableDef "t" [TYPE_INT64; TYPE_BYTES] ["id"; "name"]%string 1 100 [["id"%string]].

Definition example_u : TableDef :=
  mkTableDef "u" [TYPE_INT64] ["id"%string] 1 101 [["id"%string]].

Definition example_row (id : Z) (name : list Z) : Record_ :=
  AddStr (AddInt64 Record_empty "id" id) "name" name.

Definition example_key (id : Z) : Record_ := AddInt64 Record_empty "id" id.

(** Inserts the rows one after the other with [db.Insert]. *)
Fixpoint insert_all (db : DB) (table : string) (rows : list Record_) : result DB :=
  match rows with
  | [] => Ok db
  | r :: rs =>
      let* (db1, _, _) := DB_Insert (fun _ => Panic) db table r in
      insert_all db1 table rs
  end.

Definition example_db : result DB :=
  let db := mkDB "" (mkKV "" [])
                 (<["t"%string := example_t]> (<["u"%string := example_u]> ∅)) in
  let* db := insert_all db "u" [example_key 4; example_key 0] in
  insert_all db "t" [example_row 5 [101]; example_row 1 [97];
                     example_row 3 [99]; example_row 2 [98]].

(** A caller that opens a scan on [table] with [db.Scan] and reads it to
    the end: the error of [Scan] if any, else the rows read and whether
    the scanner is still valid after [fuel] rows. *)
Definition scan_table (fuel : nat) (db : DB) (table : string) (req : Scanner)
  : result (option string * list Record_ * bool) :=
  let* (_, sc, err) := DB_Scan (fun _ => Panic) db table req in
  match err with
  | Some msg => Ok (Some msg, [], false)
  | None => let* (rows, more) := scan_rows fuel sc in Ok (None, rows, more)
  end.

(** The same on the example database. *)
Definition example_scan (cmp1 cmp2 : Z) (key1 key2 : Z)
  : result (option string * list Record_ * bool) :=
  let* db := example_db in
  scan_table 10 db "t" (Scanner_new cmp1 cmp2 (example_key key1) (example_key key2)).

(** ** The free list *)

Section FreeListDefs.

(** The page size of the tree, a constant of the repository that the
    free-list source uses and does not declare. *)
Variable BTREE_PAGE_SIZE : Z.

(** node format: | next | pointers | unused | *)
Definition LNode : Type := list Z.

Definition FREE_LIST_HEADER : Z := 8.
Definition FREE_LIST_CAP : Z := (BTREE_PAGE_SIZE - FREE_LIST_HEADER) / 8.

(** [node[a:b]] and [node[a:]] on a page whose capacity is its length. *)
Definition subslice (node : LNode) (a b : Z) : result (list Z) :=
  if (a <? 0) || (b <? a) || (Z.of_nat (length node) <? b) then Panic
  else Ok (firstn (Z.to_nat (b - a)) (skipn (Z.to_nat a) node)).

(** Writes [bytes] over the page from offset [a] on. *)
Definition overwrite (node : LNode) (a : Z) (bytes : list Z) : LNode :=
  firstn (Z.to_nat a) node ++ bytes ++ skipn (Z.to_nat a + length bytes) node.

Definition getNext (node : LNode) : result Z :=
  let* b := subslice node 0 8 in
  LittleEndian.Uint64 b.

Definition setNext (node : LNode) (next : Z) : result LNode :=
  let* b := subslice node 0 8 in
  let* b' := LittleEndian.PutUint64 b next in
  Ok (overwrite node 0 b').

(** In [getPtr] and [setPtr] the index and the offset are [int]s. The
    offset is computed here without the wrap-around of [int]: it is the
    offset of the source for every index with [8 + 8 * idx] in the range
    of [int], which is the range of the statements on these functions
    (the list calls them with [seq2idx] of a counter and with 0). *)
Definition getPtr (node : LNode) (idx : Z) : result Z :=
  let offset := FREE_LIST_HEADER + 8 * idx in
  let* b := slice_from node offset in
  LittleEndian.Uint64 b.

Definition setPtr (node : LNode) (idx : Z) (ptr : Z) : result LNode :=
  let* _ := assert (idx <? FREE_LIST_CAP) in
  let offset := FREE_LIST_HEADER + 8 * idx in
  let* b := slice_from node offset in
  let* b' := LittleEndian.PutUint64 b ptr in
  Ok (overwrite node offset b').

(** The list controller together with the page store that its callbacks
    [get], [set] and [new] work on: page [p] is [pages !! p], and [new]
    appends a page and returns its number. *)
Record FreeList : Type := mkFreeList {
  pages : list LNode;
  headPage : Z;
  headSeq : Z;
  tailPage : Z;
  tailSeq : Z;
  maxSeq : Z
}.

(** [fl.get(ptr)]: read a page. *)
Definition fl_get (fl : FreeList) (ptr : Z) : result LNode :=
  index_Z (pages fl) ptr.

(** [f(LNode(fl.set(ptr)))] for an [f] that writes to the page: the page
    [ptr] of the store is updated in place. *)
Definition fl_set (fl : FreeList) (ptr : Z) (f : LNode -> result LNode) : result FreeList :=
  let* node := index_Z (pages fl) ptr in
  let* node' := f node in
  Ok (mkFreeList (<[Z.to_nat ptr := node']> (pages fl))
                 (headPage fl) (headSeq fl) (tailPage fl) (tailSeq fl) (maxSeq fl)).

(** [fl.new(node)]: append a new page. *)
Definition fl_new (fl : FreeList) (node : LNode) : FreeList * Z :=
  (mkFreeList (pages fl ++ [node])
              (headPage fl) (headSeq fl) (tailPage fl) (tailSeq fl) (maxSeq fl),
   Z.of_nat (length (pages fl))).

Definition seq2idx (seq : Z) : Z := seq mod FREE_LIST_CAP.

Definition SetMaxSeq (fl : FreeList) : FreeList :=
  mkFreeList (pages fl) (headPage fl) (headSeq fl) (tailPage fl) (tailSeq fl) (tailSeq fl).

(** rmeove 1 item from head node & remove head node if empty *)
Definition flPop (fl : FreeList) : result (Z * Z * FreeList) :=
  if headSeq fl =? maxSeq fl then Ok (0, 0, fl)
  else
    let* node := fl_get fl (headPage fl) in
    let* ptr := getPtr node (seq2idx (headSeq fl)) in
    let headSeq' := wrap64 (headSeq fl + 1) in
    if seq2idx headSeq' =? 0 then
      let head := headPage fl in
      let* next := getNext node in
      let* _ := assert (negb (next =? 0)) in
      Ok (ptr, head,
          mkFreeList (pages fl) next headSeq' (tailPage fl) (tailSeq fl) (maxSeq fl))
    else
      Ok (ptr, 0,
          mkFreeList (pages fl) (headPage fl) headSeq' (tailPage fl) (tailSeq fl) (maxSeq fl)).

Definition with_tail (fl : FreeList) (tailPage' tailSeq' : Z) : FreeList :=
  mkFreeList (pages fl) (headPage fl) (headSeq fl) tailPage' tailSeq' (maxSeq fl).

Definition PushTail (fl : FreeList) (ptr : Z) : result FreeList :=
  (* addin to tail node *)
  let* fl := fl_set fl (tailPage fl) (fun node => setPtr node (seq2idx (tailSeq fl)) ptr) in
  let fl := with_tail fl (tailPage fl) (wrap64 (tailSeq fl + 1)) in
  if seq2idx (tailSeq fl) =? 0 then
    let* (next, head, fl) := flPop fl in
    (* allocate new node by appending *)
    let (fl, next) :=
      if next =? 0 then fl_new fl (repeat 0 (Z.to_nat BTREE_PAGE_SIZE)) else (fl, next) in
    (* link to new tail node *)
    let* fl := fl_set fl (tailPage fl) (fun node => setNext node next) in
    let fl := with_tail fl next (tailSeq fl) in
    (* add head node if its removed *)
    if negb (head =? 0) then
      let* fl := fl_set fl (tailPage fl) (fun node => setPtr node 0 head) in
      Ok (with_tail fl (tailPage fl) (wrap64 (tailSeq fl + 1)))
    else Ok fl
  else Ok fl.

(** get 1 item form list head *)
Definition PopHead (fl : FreeList) : result (Z * FreeList) :=
  let* (ptr, head, fl) := flPop fl in
  if negb (head =? 0) then
    let* fl := PushTail fl head in Ok (ptr, fl)
  else Ok (ptr, fl).

(** *** Operation sequences *)

Inductive op : Type :=
| OpPushTail (ptr : Z)
| OpPopHead
| OpSetMaxSeq.

(** One operation; a [PopHead] also yields the value it returns. *)
Definition step (fl : FreeList) (o : op) : result (FreeList * option Z) :=
  match o with
  | OpPushTail ptr => let* fl' := PushTail fl ptr in Ok (fl', None)
  | OpPopHead => let* (ptr, fl') := PopHead fl in Ok (fl', Some ptr)
  | OpSetMaxSeq => Ok (SetMaxSeq fl, None)
  end.

(** Runs the operations in order and lists what the [PopHead] calls
    returned. *)
Fixpoint run (fl : FreeList) (ops : list op) : result (FreeList * list Z) :=
  match ops with
  | [] => Ok (fl, [])
  | o :: ops' =>
      let* (fl1, r) := step fl o in
      let* (fl2, rs) := run fl1 ops' in
      Ok (fl2, match r with Some ptr => ptr :: rs | None => rs end)
  end.

(** The invariant of the counters. *)
Definition seq_inv (fl : FreeList) : Prop :=
  headSeq fl <= maxSeq fl /\ maxSeq fl <= tailSeq fl.

(** The free list as it is first created: an empty list on one node. *)
Definition fl_fresh (pages : list LNode) (node : Z) : FreeList :=
  mkFreeList pages node 0 node 0 0.

End FreeListDefs.

(** The three counters of a list. *)
Definition counters (fl : FreeList) : Z * Z * Z := (headSeq fl, maxSeq fl, tailSeq fl).


(** A page of the store has the page size. *)
Definition node_ok (PAGE : Z) (pg : LNode) : Prop := Z.of_nat (length pg) = PAGE.

(** The byte offset of pointer slot [i] in a node. *)
Definition ptr_offset (i : Z) : nat := Z.to_nat (FREE_LIST_HEADER + 8 * i).

(** *** The queue that a free list represents

    The logical content of a list: its three counters, the queued page
    numbers from the head position to the tail position ([a_items]), the
    chain of node pages from the head node to the tail node ([a_nodes])
    and the size of the page store. The functions below are the
    operations of the list on this content. *)
Record AQ : Type := mkAQ {
  a_head : Z;
  a_max : Z;
  a_tail : Z;
  a_items : list Z;
  a_nodes : list Z;
  a_npages : Z
}.

Section AbstractQueue.

Variable PAGE : Z.

Definition a_flPop (a : AQ) : Z * Z * AQ :=
  if a_head a =? a_max a then (0, 0, a)
  else
    match a_items a with
    | [] => (0, 0, a)
    | x :: q =>
        if (a_head a + 1) mod FREE_LIST_CAP PAGE =? 0 then
          match a_nodes a with
          | h :: ns => (x, h, mkAQ (a_head a + 1) (a_max a) (a_tail a) q ns (a_npages a))
          | [] => (x, 0, mkAQ (a_head a + 1) (a_max a) (a_tail a) q [] (a_npages a))
          end
        else (x, 0, mkAQ (a_head a + 1) (a_max a) (a_tail a) q (a_nodes a) (a_npages a))
    end.

Definition a_PushTail (a : AQ) (ptr : Z) : AQ :=
  let a1 := mkAQ (a_head a) (a_max a) (a_tail a + 1) (a_items a ++ [ptr])
                 (a_nodes a) (a_npages a) in
  if (a_tail a + 1) mod FREE_LIST_CAP PAGE =? 0 then
    let '(next, head, a2) := a_flPop a1 in
    let '(next, np) :=
      if next =? 0 then (a_npages a2, a_npages a2 + 1) else (next, a_npages a2) in
    let a3 := mkAQ (a_head a2) (a_max a2) (a_tail a2) (a_items a2)
                   (a_nodes a2 ++ [next]) np in
    if negb (head =? 0) then
      mkAQ (a_head a3) (a_max a3) (a_tail a3 + 1) (a_items a3 ++ [head])
           (a_nodes a3) (a_npages a3)
    else a3
  else a1.

Definition a_PopHead (a : AQ) : Z * AQ :=
  let '(ptr, head, a1) := a_flPop a in
  if negb (head =? 0) then (ptr, a_PushTail a1 head) else (ptr, a1).

Definition a_SetMaxSeq (a : AQ) : AQ :=
  mkAQ (a_head a) (a_tail a) (a_tail a) (a_items a) (a_nodes a) (a_npages a).

Definition a_step (a : AQ) (o : op) : AQ :=
  match o with
  | OpPushTail ptr => a_PushTail a ptr
  | OpPopHead => snd (a_PopHead a)
  | OpSetMaxSeq => a_SetMaxSeq a
  end.

(** The content of the fresh list on node [node] in a store of [np]
    pages. *)
Definition a_fresh (np node : Z) : AQ := mkAQ 0 0 0 [] [node] np.

(** [fl] represents [a]: the counters agree, the node pages are chained
    by their next pointers from [headPage] to [tailPage], the slot of
    sequence number [s] (slot [s mod cap] of the node of block
    [s / cap]) holds the item queued at [s], and nodes and items are
    distinct pages of the store. [tb] is the block of the tail node: the
    block of [tailSeq], or the block before it while [PushTail] is
    replacing a full tail node. *)
Record Rep (fl : FreeList) (a : AQ) (tb : Z) : Prop := mkRep {
  r_head : headSeq fl = a_head a;
  r_max : maxSeq fl = a_max a;
  r_tail : tailSeq fl = a_tail a;
  r_np : Z.of_nat (length (pages fl)) = a_npages a;
  r_h0 : 0 <= a_head a;
  r_hm : a_head a <= a_max a;
  r_mt : a_max a <= a_tail a;
  r_qlen : Z.of_nat (length (a_items a)) = a_tail a - a_head a;
  r_nslen : Z.of_nat (length (a_nodes a)) = tb - a_head a / FREE_LIST_CAP PAGE + 1;
  r_tb : a_max a / FREE_LIST_CAP PAGE <= tb;
  r_headPage : a_nodes a !! 0%nat = Some (headPage fl);
  r_tailPage : last (a_nodes a) = Some (tailPage fl);
  r_pages : Forall (node_ok PAGE) (pages fl);
  r_items : forall (k : nat) (x : Z), a_items a !! k = Some x ->
    exists n pg,
      a_nodes a !! Z.to_nat ((a_head a + Z.of_nat k) / FREE_LIST_CAP PAGE
                             - a_head a / FREE_LIST_CAP PAGE) = Some n /\
      pages fl !! Z.to_nat n = Some pg /\
      getPtr pg ((a_head a + Z.of_nat k) mod FREE_LIST_CAP PAGE) = Ok x;
  r_next : forall (j : nat) (n n' : Z),
    a_nodes a !! j = Some n -> a_nodes a !! S j = Some n' ->
    exists pg, pages fl !! Z.to_nat n = Some pg /\ getNext pg = Ok n';
  r_valid : forall x, x ∈ a_nodes a ++ a_items a -> 0 < x < a_npages a;
  r_nodup : NoDup (a_nodes a ++ a_items a)
}.

(** A well-formed list: it represents [a], with the tail node in the
    block of [tailSeq]. *)
Definition represents (fl : FreeList) (a : AQ) : Prop :=
  Rep fl a (a_tail a / FREE_LIST_CAP PAGE).

(** [ptr] is a page that may be freed: a page of the store other than
    page 0 that is neither queued nor a node of the list. *)
Definition free_page (a : AQ) (ptr : Z) : Prop :=
  0 < ptr < a_npages a /\ ptr ∉ a_nodes a ++ a_items a.

(** Every [PushTail] of the sequence frees such a page. *)
Fixpoint frees_ok (a : AQ) (ops : list op) : Prop :=
  match ops with
  | [] => True
  | o :: ops' =>
      match o with
      | OpPushTail ptr => free_page a ptr
      | _ => True
      end /\ frees_ok (a_step a o) ops'
  end.

(** The counters and the page numbers have room for [n] operations. *)
Definition headroom (a : AQ) (n : Z) : Prop :=
  a_tail a + 2 * n < 2 ^ 64 /\ a_npages a + n < 2 ^ 64.

(** The items that [PopHead] may return: those below the watermark. *)
Definition committed (a : AQ) : list Z :=
  take (Z.to_nat (a_max a - a_head a)) (a_items a).

End AbstractQueue.

(** The page that [PopHead] pushes itself: the head node it has emptied,
    which [flPop] hands back and [PopHead] passes to [PushTail]. *)
Definition recycled (PAGE : Z) (fl : FreeList) : list Z :=
  match flPop PAGE fl with
  | Ok (_, head, _) => if negb (head =? 0) then [head] else []
  | _ => []
  end.

(** The watermark barrier on a run: no [PopHead] returns a page pushed by
    a [PushTail] since the latest [SetMaxSeq]. [pending] lists those
    pages: the arguments of the [PushTail] calls of the run and the head
    nodes that [PopHead] pushes itself. *)
Fixpoint barrier_holds (PAGE : Z) (fl : FreeList) (pending : list Z) (ops : list op)
  : Prop :=
  match ops with
  | [] => True
  | OpPushTail ptr :: ops' =>
      forall fl', PushTail PAGE fl ptr = Ok fl' ->
                  barrier_holds PAGE fl' (ptr :: pending) ops'
  | OpPopHead :: ops' =>
      forall ptr fl', PopHead PAGE fl = Ok (ptr, fl') ->
                      (ptr ∉ pending) /\
                      barrier_holds PAGE fl' (recycled PAGE fl ++ pending) ops'
  | OpSetMaxSeq :: ops' => barrier_holds PAGE (SetMaxSeq fl) [] ops'
  end.

(** The arithmetic of a queue: the counters are in order and the items
    fill the positions from head to tail. *)
Definition aq_ok (a : AQ) : Prop :=
  0 <= a_head a /\ a_head a <= a_max a /\ a_max a <= a_tail a /\
  Z.of_nat (length (a_items a)) = a_tail a - a_head a.

(** The queue after a sequence of operations, and what its [PopHead]
    calls return. *)
Fixpoint a_run (PAGE : Z) (a : AQ) (ops : list op) : AQ * list Z :=
  match ops with
  | [] => (a, [])
  | o :: ops' =>
      let '(a2, rs) := a_run PAGE (a_step PAGE a o) ops' in
      (a2, match o with
           | OpPopHead => fst (a_PopHead PAGE a) :: rs
           | _ => rs
           end)
  end.

(** Decision procedures for [free_page] and [frees_ok]. *)
Definition free_pageb (a : AQ) (ptr : Z) : bool :=
  (0 <? ptr) && (ptr <? a_npages a) &&
  negb (existsb (Z.eqb ptr) (a_nodes a ++ a_items a)).

Fixpoint frees_okb (PAGE : Z) (a : AQ) (ops : list op) : bool :=
  match ops with
  | [] => true
  | o :: ops' =>
      match o with
      | OpPushTail ptr => free_pageb a ptr
      | _ => true
      end && frees_okb PAGE (a_step PAGE a o) ops'
  end.

(** The run of the FIFO property: push the pages [xs], advance the
    watermark, pop as many times as pages were pushed. *)
Definition push_then_pop (xs : list Z) : list op :=
  map OpPushTail xs ++ OpSetMaxSeq :: repeat OpPopHead (length xs).

(** The queue after [j] of the pages [xs] were popped: the head nodes
    pushed back meanwhile come after the pages left. *)
Definition popping (PAGE : Z) (xs : list Z) (j : nat) (a : AQ) : Prop :=
  a_head a = Z.of_nat j /\ a_max a = Z.of_nat (length xs) /\
  Z.of_nat (length xs) <= a_tail a
    <= Z.of_nat (length xs) + Z.of_nat j / FREE_LIST_CAP PAGE /\
  exists extra, a_items a = drop j xs ++ extra.

(** *** Vocabulary of the further properties *)

(** [a] is below [b] as a key column value: both INT64 with [a < b], or
    both BYTES with the bytes of [a] below those of [b]. *)
Definition value_lt (a b : Value) : Prop :=
  (Type_ a = TYPE_INT64 /\ Type_ b = TYPE_INT64 /\
   int64_ok (I64 a) /\ int64_ok (I64 b) /\ I64 a < I64 b) \/
  (Type_ a = TYPE_BYTES /\ Type_ b = TYPE_BYTES /\
   bytes_ok (Str a) /\ bytes_ok (Str b) /\ bytes_lt (Str a) (Str b)).

(** The type tag is one that the codec handles. *)
Definition known_type (v : Value) : Prop :=
  Type_ v = TYPE_INT64 \/ Type_ v = TYPE_BYTES.

(** A schema as the table functions expect it: one type per column, no
    column name twice, a primary key of the first [PKeys] columns, listed
    as the first index. *)
Definition schema_ok (tdef : TableDef) : Prop :=
  length (Types tdef) = length (Cols tdef) /\
  NoDup (Cols tdef) /\
  1 <= PKeys tdef <= Z.of_nat (length (Cols tdef)) /\
  nth_error (Indexes tdef) 0 = Some (firstn (Z.to_nat (PKeys tdef)) (Cols tdef)).

(** The blank values that [Deref] hands to the decoder. *)
Definition blanks (types : list Z) : list Value := map (fun t => mkValue t 0 []) types.

(** The key of the row of [@table] that holds the definition of the table
    [name]. *)
Definition table_key (name : string) : list Z :=
  BigEndian.PutUint32 2 ++ escapeString (bytes_of_string name) ++ [0].

(** What [dbGet] returns once the key of its record is encoded: the row
    stored under that key, decoded the way [Deref] does, or the report
    that there is none. *)
Definition lookup_row (tdef : TableDef) (rec : Record_) (key : list Z) (t : BTree)
  : result (bool * Record_) :=
  match tree_get t key with
  | None => Ok (false, rec)
  | Some v =>
      let blanks := map (fun t => mkValue t 0 []) (Types tdef) in
      let* kvals := slice_to blanks (PKeys tdef) in
      let* kvals' := decodeKey key kvals in
      let* vvals := slice_from blanks (PKeys tdef) in
      let* vvals' := decodeValues v vvals in
      Ok (true, mkRecord (Cols tdef) (kvals' ++ vvals'))
  end.

(** [fl'] holds every page of [fl] unchanged, except those whose number
    is in [ws]; the page store has not shrunk. *)
Definition written_within (fl fl' : FreeList) (ws : list Z) : Prop :=
  (length (pages fl) <= length (pages fl'))%nat /\
  forall (p : nat) (pg : LNode),
    pages fl !! p = Some pg -> Z.of_nat p ∉ ws -> pages fl' !! p = Some pg.

(** The pages that a list holds: its nodes and its queued items. *)
Definition held (a : AQ) : list Z := a_nodes a ++ a_items a.

(** The entries of a store are in strictly ascending key order. *)
Fixpoint keys_ascending (t : BTree) : Prop :=
  match t with
  | [] => True
  | (k, _) :: r =>
      match r with
      | [] => True
      | (k', _) :: _ => bytes_lt k k'
      end /\ keys_ascending r
  end.

(** The first key of [t], if any, is above [k]. *)
Definition head_above (k : list Z) (t : BTree) : Prop :=
  match t with
  | [] => True
  | (k', _) :: _ => bytes_lt k k'
  end.

(** * Properties *)

(** ** The result monad *)

Lemma bind_Ok {A B} (r : result A) (k : A -> result B) (b : B) :
  bind r k = Ok b -> exists a, r = Ok a /\ k a = Ok b.
Proof. destruct r; simpl; intros H; try discriminate. eauto. Qed.

Lemma assert_Ok (c : bool) : assert c = Ok tt -> c = true.
Proof. destruct c; simpl; [reflexivity | discriminate]. Qed.

Ltac inv_bind H :=
  let a := fresh "a" in
  let Ha := fresh "Ha" in
  apply bind_Ok in H; destruct H as (a & Ha & H).

(** ** Base-256 digits *)

Lemma le_digits_length n u : length (le_digits n u) = n.
Proof. revert u; induction n; intros; simpl; [reflexivity | now rewrite IHn]. Qed.

Lemma le_digits_ok n u : bytes_ok (le_digits n u).
Proof.
  revert u; induction n; intros; simpl; constructor.
  - unfold byte_ok; apply Z.mod_pos_bound; lia.
  - apply IHn.
Qed.

Lemma le_value_digits n u : le_value (le_digits n u) = u mod 256 ^ Z.of_nat n.
Proof.
  revert u; induction n; intros u.
  - simpl. now rewrite Z.mod_1_r.
  - cbn [le_digits le_value]. rewrite IHn.
    rewrite Nat2Z.inj_succ, Z.pow_succ_r by lia.
    rewrite Z.rem_mul_r by lia. lia.
Qed.

Lemma le_value_digits_small n u :
  0 <= u < 256 ^ Z.of_nat n -> le_value (le_digits n u) = u.
Proof. intros H. rewrite le_value_digits. now apply Z.mod_small. Qed.

Lemma bytes_ok_app l1 l2 : bytes_ok l1 -> bytes_ok l2 -> bytes_ok (l1 ++ l2).
Proof. unfold bytes_ok; intros; apply Forall_app; auto. Qed.

Lemma bytes_ok_rev l : bytes_ok l -> bytes_ok (rev l).
Proof. unfold bytes_ok; intros; now apply Forall_rev. Qed.

(** ** Lexicographic comparison *)

Lemma bytes_Compare_refl l : bytes_Compare l l = Eq.
Proof. induction l; simpl; [reflexivity | now rewrite Z.compare_refl]. Qed.

Lemma bytes_Compare_app_same p a b :
  bytes_Compare (p ++ a) (p ++ b) = bytes_Compare a b.
Proof. induction p; simpl; [reflexivity | now rewrite Z.compare_refl]. Qed.

(** Comparing equally long strings extended by one byte each. *)
Lemma bytes_Compare_snoc a b x y :
  length a = length b ->
  bytes_Compare (a ++ [x]) (b ++ [y]) =
  match bytes_Compare a b with Eq => x ?= y | c => c end.
Proof.
  revert b; induction a as [|h a IH]; intros [|k b] Hlen; simpl in *; try discriminate.
  - now destruct (x ?= y).
  - destruct (h ?= k); auto.
Qed.

(** Big-endian digits of equal width compare like the numbers. *)
Lemma be_digits_compare n a b :
  0 <= a < 256 ^ Z.of_nat n -> 0 <= b < 256 ^ Z.of_nat n ->
  bytes_Compare (rev (le_digits n a)) (rev (le_digits n b)) = (a ?= b).
Proof.
  revert a b; induction n as [|n IH]; intros a b Ha Hb.
  - simpl in *. assert (a = 0) by lia. assert (b = 0) by lia. now subst.
  - rewrite Nat2Z.inj_succ, Z.pow_succ_r in Ha, Hb by lia.
    cbn [le_digits rev].
    rewrite bytes_Compare_snoc by now rewrite !length_rev, !le_digits_length.
    rewrite IH.
    + pose proof (Z.div_mod a 256 ltac:(lia)) as Ea.
      pose proof (Z.div_mod b 256 ltac:(lia)) as Eb.
      pose proof (Z.mod_pos_bound a 256 ltac:(lia)).
      pose proof (Z.mod_pos_bound b 256 ltac:(lia)).
      destruct (Z.compare_spec (a / 256) (b / 256)) as [E|L|G].
      * destruct (Z.compare_spec (a mod 256) (b mod 256));
          symmetry; [apply Z.compare_eq_iff | apply Z.compare_lt_iff | apply Z.compare_gt_iff]; lia.
      * symmetry; apply Z.compare_lt_iff; lia.
      * symmetry; apply Z.compare_gt_iff; lia.
    + split; [apply Z.div_pos; lia | apply Z.div_lt_upper_bound; lia].
    + split; [apply Z.div_pos; lia | apply Z.div_lt_upper_bound; lia].
Qed.

(** ** Escaping *)

Lemma escape_loop_ok l : bytes_ok l -> bytes_ok (escape_loop l).
Proof.
  induction 1 as [|ch r Hch _ IH]; simpl; [constructor|].
  destruct (ch <=? 1).
  - constructor; [unfold byte_ok; lia|].
    constructor; [unfold byte_ok; apply Z.mod_pos_bound; lia | exact IH].
  - constructor; assumption.
Qed.

(** The fast path of [escapeString] agrees with its loop. *)
Lemma escape_loop_id l :
  bytes_ok l -> bytes_Count l 0 + bytes_Count l 1 = 0 -> escape_loop l = l.
Proof.
  induction 1 as [|ch r Hch Hr IH]; simpl; [reflexivity|].
  assert (0 <= bytes_Count r 0 /\ 0 <= bytes_Count r 1) as [? ?].
  { clear. induction r; simpl; [lia|].
    destruct (a =? 0), (a =? 1); lia. }
  unfold byte_ok in Hch.
  destruct (Z.eqb_spec ch 0), (Z.eqb_spec ch 1); try lia.
  intros Hc. destruct (Z.leb_spec ch 1); [lia|]. now rewrite IH by lia.
Qed.

Lemma escapeString_loop l : bytes_ok l -> escapeString l = escape_loop l.
Proof.
  intros Hl. unfold escapeString.
  destruct (Z.eqb_spec (bytes_Count l 0 + bytes_Count l 1) 0); [|reflexivity].
  symmetry; now apply escape_loop_id.
Qed.

Lemma escapeString_ok l : bytes_ok l -> bytes_ok (escapeString l).
Proof. intros H; rewrite escapeString_loop by assumption; now apply escape_loop_ok. Qed.

Lemma unescape_escape_loop l : bytes_ok l -> unescape_loop (escape_loop l) = Ok l.
Proof.
  induction 1 as [|ch r Hch Hr IH]; simpl; [reflexivity|].
  unfold byte_ok in Hch.
  destruct (Z.leb_spec ch 1).
  - cbn [unescape_loop]. rewrite Z.eqb_refl.
    assert (Hc : ch = 0 \/ ch = 1) by lia.
    destruct Hc; subst ch; simpl; rewrite IH; reflexivity.
  - cbn [unescape_loop]. destruct (Z.eqb_spec ch 1); [lia|].
    rewrite IH. reflexivity.
Qed.

(** The fast path of [unescapeString] agrees with its loop. *)
Lemma unescape_loop_id l : bytes_Count l 1 = 0 -> unescape_loop l = Ok l.
Proof.
  assert (Hnn : forall r, 0 <= bytes_Count r 1).
  { induction r; simpl; [lia|]. destruct (a =? 1); lia. }
  induction l as [|ch r IH]; simpl; [reflexivity|].
  pose proof (Hnn r).
  destruct (Z.eqb_spec ch 1); [lia|].
  intros Hc. now rewrite IH by lia.
Qed.

Lemma unescapeString_loop l : unescapeString l = unescape_loop l.
Proof.
  unfold unescapeString.
  destruct (Z.eqb_spec (bytes_Count l 1) 0); [|reflexivity].
  symmetry; now apply unescape_loop_id.
Qed.

Lemma unescape_escape l : bytes_ok l -> unescapeString (escapeString l) = Ok l.
Proof.
  intros H. rewrite unescapeString_loop, escapeString_loop by assumption.
  now apply unescape_escape_loop.
Qed.

(** The escaped form holds no NUL: the first NUL of an encoded string is
    its terminator. *)
Lemma IndexByte_escape_loop l rest :
  bytes_ok l ->
  bytes_IndexByte (escape_loop l ++ 0 :: rest) 0 = Z.of_nat (length (escape_loop l)).
Proof.
  induction 1 as [|ch r Hch Hr IH]; [reflexivity|].
  unfold byte_ok in Hch. cbn [escape_loop].
  destruct (Z.leb_spec ch 1).
  - cbn [app bytes_IndexByte length]. rewrite IH.
    assert (Hc : ch = 0 \/ ch = 1) by lia.
    destruct (Z.eqb_spec 1 0); [lia|].
    destruct (Z.eqb_spec ((ch + 1) mod 256) 0) as [E|_].
    { destruct Hc; subst ch; vm_compute in E; discriminate E. }
    destruct (Z.ltb_spec (Z.of_nat (length (escape_loop r))) 0); [lia|].
    destruct (Z.ltb_spec (Z.of_nat (length (escape_loop r)) + 1) 0); lia.
  - cbn [app bytes_IndexByte length]. rewrite IH.
    destruct (Z.eqb_spec ch 0); [lia|].
    destruct (Z.ltb_spec (Z.of_nat (length (escape_loop r))) 0); lia.
Qed.

(** ** Encoding and decoding one value *)

Lemma int64_bias_roundtrip x :
  int64_ok x ->
  to_int64 (wrap64 (wrap64 (wrap64 x + 2 ^ 63) - 2 ^ 63)) = x.
Proof.
  unfold int64_ok, to_int64, wrap64. intros Hx.
  change (2 ^ 64) with 18446744073709551616 in *.
  change (2 ^ 63) with 9223372036854775808 in *.
  Z.div_mod_to_equations. lia.
Qed.

Lemma int64_bias_range x :
  int64_ok x -> wrap64 (wrap64 x + 2 ^ 63) = x + 2 ^ 63.
Proof.
  unfold int64_ok, wrap64. intros Hx.
  change (2 ^ 64) with 18446744073709551616 in *.
  change (2 ^ 63) with 9223372036854775808 in *.
  Z.div_mod_to_equations. lia.
Qed.

Lemma BigEndian_Uint64_Put u rest :
  uint64_ok u -> BigEndian.Uint64 (BigEndian.PutUint64 u ++ rest) = Ok u.
Proof.
  intros Hu. unfold BigEndian.Uint64, BigEndian.PutUint64.
  assert (Hlen : length (rev (le_digits 8 u)) = 8%nat)
    by now rewrite length_rev, le_digits_length.
  rewrite length_app, Hlen.
  replace (8 + length rest <? 8)%nat with false by (symmetry; apply Nat.ltb_ge; lia).
  rewrite firstn_app, Hlen, Nat.sub_diag, firstn_O, app_nil_r.
  rewrite firstn_all2 by lia.
  rewrite rev_involutive, le_value_digits_small; [reflexivity|exact Hu].
Qed.

Lemma skipn_PutUint64 u rest : skipn 8 (BigEndian.PutUint64 u ++ rest) = rest.
Proof.
  unfold BigEndian.PutUint64.
  rewrite skipn_app, length_rev, le_digits_length, Nat.sub_diag.
  rewrite skipn_all2 by now rewrite length_rev, le_digits_length.
  reflexivity.
Qed.

Lemma wrap64_ok z : uint64_ok (wrap64 z).
Proof. unfold uint64_ok, wrap64. apply Z.mod_pos_bound. lia. Qed.

(** Decoding the encoding of [v], followed by any [rest], into a value
    [o] of the same type fills [o] from [v] and leaves [rest]. *)
Lemma decode_encode_value v o e rest :
  typed v -> Type_ o = Type_ v ->
  encodeValue v = Ok e ->
  decodeValue (e ++ rest) o = Ok (filled v o, rest).
Proof.
  intros Hv Ht He. unfold encodeValue in He. unfold decodeValue, filled.
  rewrite Ht.
  destruct Hv as [[Hty Hr]|[Hty Hr]]; rewrite Hty in *.
  - change (TYPE_INT64 =? TYPE_INT64) with true in *. cbn iota in *.
    injection He as <-.
    rewrite BigEndian_Uint64_Put by apply wrap64_ok. cbn [bind].
    rewrite skipn_PutUint64, int64_bias_roundtrip by assumption.
    reflexivity.
  - change (TYPE_BYTES =? TYPE_INT64) with false in *.
    change (TYPE_BYTES =? TYPE_BYTES) with true in *. cbn iota in *.
    injection He as <-.
    rewrite <- app_assoc. cbn [app].
    rewrite escapeString_loop by assumption.
    rewrite IndexByte_escape_loop by assumption.
    replace (0 <=? Z.of_nat (length (escape_loop (Str v)))) with true
      by (symmetry; apply Z.leb_le; lia).
    cbn [assert bind]. rewrite Nat2Z.id.
    rewrite firstn_app, Nat.sub_diag, firstn_O, app_nil_r, firstn_all.
    rewrite unescapeString_loop, unescape_escape_loop by assumption.
    cbn [bind].
    rewrite skipn_app.
    rewrite skipn_all2 by lia.
    replace (length (escape_loop (Str v)) + 1 - length (escape_loop (Str v)))%nat
      with 1%nat by lia.
    reflexivity.
Qed.

Lemma encodeValues_app out vals enc :
  encodeValues [] vals = Ok enc -> encodeValues out vals = Ok (out ++ enc).
Proof.
  assert (G : forall vals o1 o2 enc,
             encodeValues o1 vals = Ok enc ->
             encodeValues (o2 ++ o1) vals = Ok (o2 ++ enc)).
  { clear. induction vals as [|v vs IH]; intros o1 o2 enc H; simpl in *.
    - now injection H as <-.
    - destruct (encodeValue v) as [e| |]; simpl in *; try discriminate.
      rewrite <- app_assoc. now apply IH. }
  intros H. specialize (G vals [] out enc H). now rewrite app_nil_r in G.
Qed.

Lemma encodeValues_cons v vs e enc :
  encodeValue v = Ok e -> encodeValues [] vs = Ok enc ->
  encodeValues [] (v :: vs) = Ok (e ++ enc).
Proof.
  intros He Hvs. simpl. rewrite He. simpl. now apply encodeValues_app.
Qed.

Lemma encodeValue_typed v : typed v -> exists e, encodeValue v = Ok e.
Proof.
  unfold encodeValue. intros [[-> _]|[-> _]]; eexists; reflexivity.
Qed.

Lemma encodeValues_typed vals :
  Forall typed vals -> exists enc, encodeValues [] vals = Ok enc.
Proof.
  induction 1 as [|v vs Hv _ [enc IH]]; [now exists []|].
  destruct (encodeValue_typed v Hv) as [e He].
  exists (e ++ enc). now apply encodeValues_cons.
Qed.

Lemma decode_encode_loop vals : forall out enc rest,
  Forall typed vals -> map Type_ out = map Type_ vals ->
  encodeValues [] vals = Ok enc ->
  decodeValues_loop (enc ++ rest) out = Ok (zip_with filled vals out, rest).
Proof.
  induction vals as [|v vs IH]; intros out enc rest Hty Hshape Henc.
  - destruct out; [|discriminate]. simpl in *. now injection Henc as <-.
  - destruct out as [|o os]; [discriminate|].
    simpl in Hshape. injection Hshape as Ho Hos.
    inversion Hty as [|? ? Hv Hvs]; subst.
    destruct (encodeValue_typed v Hv) as [e He].
    destruct (encodeValues_typed vs Hvs) as [enc' Henc'].
    rewrite (encodeValues_cons _ _ _ _ He Henc') in Henc. injection Henc as <-.
    cbn [decodeValues_loop zip_with].
    rewrite <- app_assoc.
    rewrite (decode_encode_value v o e (enc' ++ rest) Hv Ho He). cbn [bind].
    rewrite (IH os enc' rest Hvs Hos Henc'). reflexivity.
Qed.

Lemma filled_same_payload v o : Type_ o = Type_ v -> same_payload v (filled v o).
Proof.
  intros Ht. unfold same_payload, filled. rewrite Ht.
  destruct (Z.eqb_spec (Type_ v) TYPE_INT64) as [E|E]; cbn; repeat split; auto;
    intros E'; try congruence.
  rewrite E in E'. discriminate E'.
Qed.

Lemma filled_canonical v o :
  Type_ o = Type_ v -> typed v -> canonical v -> canonical o -> filled v o = v.
Proof.
  intros Ht Hv [Hv1 Hv2] [Ho1 Ho2]. unfold filled.
  destruct v as [t i s]; cbn in *.
  destruct Hv as [[E _]|[E _]]; cbn in E; rewrite E in *; rewrite Ht.
  - change (TYPE_INT64 =? TYPE_INT64) with true. cbn iota.
    rewrite (Ho1 Ht), (Hv1 eq_refl); reflexivity.
  - change (TYPE_BYTES =? TYPE_INT64) with false. cbn iota.
    rewrite (Ho2 Ht), (Hv2 eq_refl); reflexivity.
Qed.

(** ** Round trip of the value codec *)

Lemma zip_filled_payload vals : forall out,
  map Type_ out = map Type_ vals ->
  Forall2 same_payload vals (zip_with filled vals out).
Proof.
  induction vals as [|v vs IH]; intros [|o os] Hs; try discriminate; cbn.
  - constructor.
  - injection Hs as Ho Hos. constructor; [now apply filled_same_payload | now apply IH].
Qed.

Lemma zip_filled_canonical vals : forall out,
  map Type_ out = map Type_ vals ->
  Forall typed vals -> Forall canonical vals -> Forall canonical out ->
  zip_with filled vals out = vals.
Proof.
  induction vals as [|v vs IH]; intros [|o os] Hs Hty Hcv Hco; try discriminate; cbn.
  - reflexivity.
  - injection Hs as Ho Hos.
    inversion Hty; inversion Hcv; inversion Hco; subst.
    rewrite filled_canonical by assumption. now rewrite IH.
Qed.

(** C1. Round trip: for every sequence [vals] of typed values (tag BYTES
    or INT64) and every [out] of the same type shape, [encodeValues]
    succeeds and [decodeValues] on its output fills [out] with the tags
    and payloads of [vals]; byte strings are arbitrary, so they may hold
    0x00 and 0x01 anywhere. When [vals] and [out] keep the unselected
    field at zero (values built by [AddStr]/[AddInt64], blank outputs as
    built by [Deref]), the decoded sequence is exactly [vals]. *)
Theorem decode_encode_roundtrip (vals out : list Value) :
  Forall typed vals ->
  map Type_ out = map Type_ vals ->
  exists enc out',
    encodeValues [] vals = Ok enc /\
    decodeValues enc out = Ok out' /\
    Forall2 same_payload vals out' /\
    (Forall canonical vals -> Forall canonical out -> out' = vals).
Proof.
  intros Hty Hshape.
  destruct (encodeValues_typed vals Hty) as [enc Henc].
  exists enc, (zip_with filled vals out).
  split; [exact Henc|]. split; [|split].
  - unfold decodeValues.
    rewrite <- (app_nil_r enc).
    rewrite (decode_encode_loop vals out enc [] Hty Hshape Henc).
    reflexivity.
  - now apply zip_filled_payload.
  - intros Hcv Hco. now apply zip_filled_canonical.
Qed.

Ltac solve_bytes_ok :=
  repeat (apply List.Forall_cons; [unfold byte_ok; lia|]); apply List.Forall_nil.
Ltac solve_typed :=
  repeat (apply List.Forall_cons;
          [ first [ left; split; [reflexivity | unfold int64_ok; cbn [I64]; lia]
                  | right; split; [reflexivity | cbn [Str]; solve_bytes_ok] ] | ]);
  apply List.Forall_nil.

Lemma decode_encode_roundtrip_witness :
  exists enc out',
    encodeValues []
      [mkValue TYPE_BYTES 0 [0; 1; 97; 0; 0; 1; 255]; mkValue TYPE_INT64 (-5) [];
       mkValue TYPE_BYTES 0 []; mkValue TYPE_INT64 (2 ^ 63 - 1) []] = Ok enc /\
    decodeValues enc
      [mkValue TYPE_BYTES 0 []; mkValue TYPE_INT64 0 [];
       mkValue TYPE_BYTES 0 []; mkValue TYPE_INT64 0 []] = Ok out' /\
    Forall2 same_payload
      [mkValue TYPE_BYTES 0 [0; 1; 97; 0; 0; 1; 255]; mkValue TYPE_INT64 (-5) [];
       mkValue TYPE_BYTES 0 []; mkValue TYPE_INT64 (2 ^ 63 - 1) []] out' /\
    (Forall canonical
       [mkValue TYPE_BYTES 0 [0; 1; 97; 0; 0; 1; 255]; mkValue TYPE_INT64 (-5) [];
        mkValue TYPE_BYTES 0 []; mkValue TYPE_INT64 (2 ^ 63 - 1) []] ->
     Forall canonical
       [mkValue TYPE_BYTES 0 []; mkValue TYPE_INT64 0 [];
        mkValue TYPE_BYTES 0 []; mkValue TYPE_INT64 0 []] ->
     out' =
       [mkValue TYPE_BYTES 0 [0; 1; 97; 0; 0; 1; 255]; mkValue TYPE_INT64 (-5) [];
        mkValue TYPE_BYTES 0 []; mkValue TYPE_INT64 (2 ^ 63 - 1) []]).
Proof.
  apply (decode_encode_roundtrip
           [mkValue TYPE_BYTES 0 [0; 1; 97; 0; 0; 1; 255]; mkValue TYPE_INT64 (-5) [];
            mkValue TYPE_BYTES 0 []; mkValue TYPE_INT64 (2 ^ 63 - 1) []]
           [mkValue TYPE_BYTES 0 []; mkValue TYPE_INT64 0 [];
            mkValue TYPE_BYTES 0 []; mkValue TYPE_INT64 0 []]).
  - solve_typed.
  - reflexivity.
Defined.

(** ** Order preservation *)

Lemma escape_loop_lt x : forall y,
  bytes_ok x -> bytes_ok y -> bytes_lt x y ->
  bytes_lt (escape_loop x ++ [0]) (escape_loop y ++ [0]).
Proof.
  unfold bytes_lt.
  induction x as [|a x IH]; intros [|b y] Hx Hy Hlt; try discriminate.
  - inversion Hy as [|? ? Hb _]; subst. unfold byte_ok in Hb.
    cbn [escape_loop]. destruct (Z.leb_spec b 1); cbn [app bytes_Compare].
    + reflexivity.
    + destruct (Z.compare_spec 0 b); try lia; reflexivity.
  - inversion Hx as [|? ? Ha Hx']; inversion Hy as [|? ? Hb Hy']; subst.
    unfold byte_ok in Ha, Hb.
    cbn [bytes_Compare] in Hlt. cbn [escape_loop].
    destruct (Z.compare_spec a b) as [E|L|G]; try discriminate.
    + subst b. destruct (Z.leb_spec a 1); cbn [app bytes_Compare];
        rewrite ?Z.compare_refl; now apply IH.
    + destruct (Z.leb_spec a 1), (Z.leb_spec b 1); cbn [app bytes_Compare]; try lia.
      * assert (a = 0) by lia. assert (b = 1) by lia. subst. reflexivity.
      * destruct (Z.compare_spec 1 b); try lia; reflexivity.
      * destruct (Z.compare_spec a b); try lia; reflexivity.
Qed.

(** C2. Order preservation: for INT64 values [a < b] the encoding of
    [[a]] is below the encoding of [[b]] under unsigned byte-wise
    comparison, and for BYTES values [x < y] (lexicographic byte order)
    the encoding of [[x]] is below the encoding of [[y]]. *)
Theorem encode_order_preserving :
  (forall a b sa sb, int64_ok a -> int64_ok b -> a < b ->
     exists ea eb,
       encodeValues [] [mkValue TYPE_INT64 a sa] = Ok ea /\
       encodeValues [] [mkValue TYPE_INT64 b sb] = Ok eb /\
       bytes_lt ea eb) /\
  (forall x y ix iy, bytes_ok x -> bytes_ok y -> bytes_lt x y ->
     exists ex ey,
       encodeValues [] [mkValue TYPE_BYTES ix x] = Ok ex /\
       encodeValues [] [mkValue TYPE_BYTES iy y] = Ok ey /\
       bytes_lt ex ey).
Proof.
  split.
  - intros a b sa sb Ha Hb Hlt.
    exists (BigEndian.PutUint64 (wrap64 (wrap64 a + 2 ^ 63))),
           (BigEndian.PutUint64 (wrap64 (wrap64 b + 2 ^ 63))).
    split; [reflexivity|]. split; [reflexivity|].
    unfold bytes_lt, BigEndian.PutUint64.
    rewrite !int64_bias_range by assumption.
    unfold int64_ok in Ha, Hb.
    rewrite be_digits_compare.
    + apply Z.compare_lt_iff. lia.
    + change (256 ^ Z.of_nat 8) with (2 ^ 64).
      change (2 ^ 64) with (2 * 2 ^ 63). lia.
    + change (256 ^ Z.of_nat 8) with (2 ^ 64).
      change (2 ^ 64) with (2 * 2 ^ 63). lia.
  - intros x y ix iy Hx Hy Hlt.
    exists (escapeString x ++ [0]), (escapeString y ++ [0]).
    split; [reflexivity|]. split; [reflexivity|].
    rewrite !escapeString_loop by assumption.
    now apply escape_loop_lt.
Qed.

Lemma encode_order_preserving_witness :
  (exists ea eb,
     encodeValues [] [mkValue TYPE_INT64 (-1) []] = Ok ea /\
     encodeValues [] [mkValue TYPE_INT64 0 []] = Ok eb /\
     bytes_lt ea eb) /\
  (exists ex ey,
     encodeValues [] [mkValue TYPE_BYTES 0 [97; 0]] = Ok ex /\
     encodeValues [] [mkValue TYPE_BYTES 0 [97; 0; 0]] = Ok ey /\
     bytes_lt ex ey).
Proof.
  split.
  - apply (proj1 encode_order_preserving (-1) 0 [] []);
      unfold int64_ok; lia.
  - apply (proj2 encode_order_preserving [97; 0] [97; 0; 0] 0 0);
      [solve_bytes_ok | solve_bytes_ok | reflexivity].
Defined.

(** ** Records against schemas *)

Lemma no_error_bind {A B} (r : result A) (k : A -> result B) :
  no_error r -> (forall a, no_error (k a)) -> no_error (bind r k).
Proof.
  intros Hr Hk msg. destruct r as [a|m|]; simpl.
  - apply Hk.
  - exfalso. now apply (Hr m).
  - discriminate.
Qed.

Lemma no_error_Ok {A} (a : A) : no_error (Ok a).
Proof. intros msg; discriminate. Qed.

Lemma no_error_Panic {A} : no_error (@Panic A).
Proof. intros msg; discriminate. Qed.

Lemma no_error_assert c : no_error (assert c).
Proof. destruct c; [apply no_error_Ok | apply no_error_Panic]. Qed.

Lemma no_error_index {A} (l : list A) i : no_error (index l i).
Proof. unfold index. destruct (nth_error l i); [apply no_error_Ok | apply no_error_Panic]. Qed.

Lemma no_error_slice_to {A} (l : list A) n : no_error (slice_to l n).
Proof. unfold slice_to. destruct (_ || _); [apply no_error_Panic | apply no_error_Ok]. Qed.

Lemma no_error_slice_from {A} (l : list A) n : no_error (slice_from l n).
Proof. unfold slice_from. destruct (_ || _); [apply no_error_Panic | apply no_error_Ok]. Qed.

Lemma no_error_cmpOk key cmp ref : no_error (cmpOk key cmp ref).
Proof.
  unfold cmpOk.
  repeat match goal with |- no_error (if ?c then _ else _) => destruct c end;
    try apply no_error_Ok; apply no_error_Panic.
Qed.

Lemma no_error_unescape_loop l : no_error (unescape_loop l).
Proof.
  induction l as [l IH] using (induction_ltof1 _ (@length Z)). unfold ltof in IH.
  destruct l as [|ch r]; [apply no_error_Ok|].
  cbn [unescape_loop]. destruct (ch =? 1).
  - destruct r as [|n r']; [apply no_error_Panic|].
    apply no_error_bind; [apply no_error_assert|]. intros _.
    apply no_error_bind; [apply IH; simpl; lia|]. intros; apply no_error_Ok.
  - apply no_error_bind; [apply IH; simpl; lia|]. intros; apply no_error_Ok.
Qed.

Lemma no_error_unescapeString l : no_error (unescapeString l).
Proof.
  unfold unescapeString. destruct (_ =? 0); [apply no_error_Ok | apply no_error_unescape_loop].
Qed.

Lemma no_error_decodeValue inp o : no_error (decodeValue inp o).
Proof.
  unfold decodeValue. destruct (_ =? TYPE_INT64).
  - apply no_error_bind; [|intros; apply no_error_Ok].
    unfold BigEndian.Uint64. destruct (_ <? _)%nat; [apply no_error_Panic | apply no_error_Ok].
  - destruct (_ =? TYPE_BYTES); [|apply no_error_Panic].
    apply no_error_bind; [apply no_error_assert|]. intros _.
    apply no_error_bind; [apply no_error_unescapeString|]. intros; apply no_error_Ok.
Qed.

Lemma no_error_decodeValues_loop out : forall inp, no_error (decodeValues_loop inp out).
Proof.
  induction out as [|o os IH]; intros inp; cbn [decodeValues_loop]; [apply no_error_Ok|].
  apply no_error_bind; [apply no_error_decodeValue|]. intros [o' inp'].
  apply no_error_bind; [apply IH|]. intros [os' rest]. apply no_error_Ok.
Qed.

Lemma no_error_decodeValues inp out : no_error (decodeValues inp out).
Proof.
  unfold decodeValues.
  apply no_error_bind; [apply no_error_decodeValues_loop|]. intros [out' rest].
  apply no_error_bind; [apply no_error_assert|]. intros; apply no_error_Ok.
Qed.

Lemma no_error_decodeKey inp out : no_error (decodeKey inp out).
Proof.
  unfold decodeKey. destruct (_ <? _)%nat; [apply no_error_Panic | apply no_error_decodeValues].
Qed.

Lemma no_error_Iter_Deref it : no_error (Iter.Deref it).
Proof.
  unfold Iter.Deref. destruct (Iter.Valid it); [apply no_error_index | apply no_error_Panic].
Qed.

Lemma no_error_Valid sc : no_error (Sc.Valid sc).
Proof.
  unfold Sc.Valid. destruct (iter sc); [|apply no_error_Panic].
  destruct (negb _); [apply no_error_Ok|].
  apply no_error_bind; [apply no_error_Iter_Deref|]. intros [key val].
  apply no_error_cmpOk.
Qed.

Lemma no_error_Next sc : no_error (Sc.Next sc).
Proof.
  unfold Sc.Next.
  apply no_error_bind; [apply no_error_Valid|]. intros v.
  apply no_error_bind; [apply no_error_assert|]. intros _.
  destruct (iter sc); [apply no_error_Ok | apply no_error_Panic].
Qed.

Lemma no_error_Deref sc rec : no_error (Sc.Deref sc rec).
Proof.
  unfold Sc.Deref.
  apply no_error_bind; [apply no_error_Valid|]. intros v.
  apply no_error_bind; [apply no_error_assert|]. intros _.
  destruct (iter sc); [|apply no_error_Panic].
  destruct (sc_tdef sc); [|apply no_error_Panic].
  apply no_error_bind; [apply no_error_Iter_Deref|]. intros [key val].
  apply no_error_bind; [apply no_error_slice_to|]. intros kvals.
  apply no_error_bind; [apply no_error_decodeKey|]. intros kvals'.
  apply no_error_bind; [apply no_error_slice_from|]. intros vvals.
  apply no_error_bind; [apply no_error_decodeValues|]. intros vvals'.
  apply no_error_Ok.
Qed.

(** *** The errors of [reorderRecord] and [valuesComplete] *)


Lemma bind_Error {A B} (r : result A) (k : A -> result B) msg :
  bind r k = Error msg -> r = Error msg \/ exists a, r = Ok a /\ k a = Error msg.
Proof. destruct r; simpl; intros H; try discriminate; eauto. left; congruence. Qed.

Lemma Get_no_error rec c : no_error (Get rec c).
Proof.
  unfold Get. destruct (Get_index _ _); [|apply no_error_Ok].
  destruct (nth_error _ _); [apply no_error_Ok | apply no_error_Panic].
Qed.

(** A type error of the reordering loop names a schema column that the
    record supplies with a type other than the declared one. *)
Lemma reorder_loop_error tdef rec cols : forall i msg,
  reorder_loop tdef rec cols i = Error msg ->
  exists j c v t,
    nth_error cols j = Some c /\ Get rec c = Ok (Some v) /\
    nth_error (Types tdef) (i + j) = Some t /\ Type_ v <> t /\
    msg = Errorf "bad column type: " c.
Proof.
  induction cols as [|c cs IH]; intros i msg H; [discriminate|].
  cbn [reorder_loop] in H.
  destruct (Get rec c) as [[v|]|m|] eqn:HG; cbn [bind] in H; try discriminate;
    [| |exfalso; exact (Get_no_error _ _ _ HG)].
  - unfold index in H. destruct (nth_error (Types tdef) i) as [t|] eqn:Ht;
      cbn [bind] in H; [|discriminate].
    destruct (Z.eqb_spec (Type_ v) t) as [E|E]; cbn [negb] in H.
    + apply bind_Error in H. destruct H as [H|(a & H & H')]; [|discriminate].
      destruct (IH _ _ H) as (j & c' & v' & t' & ? & ? & ? & ? & ?).
      exists (S j), c', v', t'. repeat split; auto.
      now replace (i + S j)%nat with (S i + j)%nat by lia.
    + injection H as <-. exists O, c, v, t. rewrite Nat.add_0_r. repeat split; auto.
  - apply bind_Error in H. destruct H as [H|(a & H & H')]; [|discriminate].
    destruct (IH _ _ H) as (j & c' & v' & t' & ? & ? & ? & ? & ?).
    exists (S j), c', v', t'. repeat split; auto.
    now replace (i + S j)%nat with (S i + j)%nat by lia.
Qed.

(** An error of [valuesComplete] names the schema column at the position
    that is unset below [n], or set from [n] on. *)
Lemma valuesComplete_loop_error tdef vals n : forall i msg,
  valuesComplete_loop tdef vals i n = Error msg ->
  exists j c v,
    nth_error vals j = Some v /\ nth_error (Cols tdef) (i + j) = Some c /\
    ((Z.of_nat (i + j) < n /\ Type_ v = 0 /\ msg = Errorf "missing column: " c) \/
     (n <= Z.of_nat (i + j) /\ Type_ v <> 0 /\ msg = Errorf "extra column: " c)).
Proof.
  induction vals as [|v vs IH]; intros i msg H; [discriminate|].
  cbn [valuesComplete_loop] in H.
  destruct (Z.ltb_spec (Z.of_nat i) n) as [L|L];
    destruct (Z.eqb_spec (Type_ v) 0) as [E|E]; cbn [andb negb] in H.
  - unfold index in H. destruct (nth_error (Cols tdef) i) as [c|] eqn:Hc; [|discriminate].
    cbn [bind] in H. injection H as <-.
    exists O, c, v. rewrite Nat.add_0_r. repeat split; auto.
  - destruct (Z.leb_spec n (Z.of_nat i)); [lia|]. cbn [andb] in H.
    destruct (IH _ _ H) as (j & c & v' & ? & ? & Hor).
    exists (S j), c, v'. replace (i + S j)%nat with (S i + j)%nat by lia. auto.
  - destruct (Z.leb_spec n (Z.of_nat i)); [|lia]. cbn [andb] in H.
    destruct (IH _ _ H) as (j & c & v' & ? & ? & Hor).
    exists (S j), c, v'. replace (i + S j)%nat with (S i + j)%nat by lia. auto.
  - destruct (Z.leb_spec n (Z.of_nat i)); [|lia]. cbn [andb] in H.
    unfold index in H. destruct (nth_error (Cols tdef) i) as [c|] eqn:Hc; [|discriminate].
    cbn [bind] in H. injection H as <-.
    exists O, c, v. rewrite Nat.add_0_r. repeat split; auto.
Qed.

(** Every error of [checkRecord] is one of the three record errors and
    names a column of the schema. *)
Lemma checkRecord_error tdef rec n msg :
  checkRecord tdef rec n = Error msg ->
  exists c, In c (Cols tdef) /\
    (msg = Errorf "bad column type: " c \/
     msg = Errorf "missing column: " c \/
     msg = Errorf "extra column: " c).
Proof.
  unfold checkRecord, reorderRecord, valuesComplete. intros H.
  apply bind_Error in H. destruct H as [H|(vals & Hv & H)].
  - apply bind_Error in H. destruct H as [H|(a & Ha & H)].
    + exfalso. exact (no_error_assert _ _ H).
    + destruct (reorder_loop_error _ _ _ _ _ H) as (j & c & v & t & Hc & _ & _ & _ & ->).
      exists c. split; [eapply nth_error_In; eauto | auto].
  - apply bind_Error in H. destruct H as [H|(a & Ha & H)]; [|discriminate].
    destruct (valuesComplete_loop_error _ _ _ _ _ H) as (j & c & v & _ & Hc & Hor).
    exists c. split; [eapply nth_error_In; eauto|].
    destruct Hor as [(_ & _ & ->)|(_ & _ & ->)]; auto.
Qed.

(** ** The shape of a checked record *)

Lemma index_Ok {A} (l : list A) i x : index l i = Ok x <-> nth_error l i = Some x.
Proof.
  unfold index. destruct (nth_error l i); split; intros H; try discriminate;
    injection H as ->; reflexivity.
Qed.

Lemma reorder_loop_shape tdef rec cols : forall i vals,
  reorder_loop tdef rec cols i = Ok vals ->
  length vals = length cols /\
  forall j c, nth_error cols j = Some c ->
    (Get rec c = Ok None /\ nth_error vals j = Some Value_zero) \/
    (exists v, Get rec c = Ok (Some v) /\ nth_error vals j = Some v /\
               nth_error (Types tdef) (i + j) = Some (Type_ v)).
Proof.
  induction cols as [|c cs IH]; intros i vals H; cbn [reorder_loop] in H.
  - injection H as <-. split; [reflexivity|]. intros [|j] c' Hc; discriminate.
  - destruct (Get rec c) as [[v|]| |] eqn:Eg; cbn [bind] in H; try discriminate.
    + destruct (index (Types tdef) i) as [t| |] eqn:Et; cbn [bind] in H; try discriminate.
      destruct (Z.eqb_spec (Type_ v) t) as [Etv|N]; cbn [negb] in H; [|discriminate].
      destruct (reorder_loop tdef rec cs (S i)) as [out| |] eqn:Er; cbn [bind] in H;
        try discriminate.
      injection H as <-. destruct (IH _ _ Er) as [Hl Hs].
      split; [cbn [length]; lia|].
      intros [|j] c' Hc; cbn [nth_error] in *.
      * injection Hc as <-. right. exists v. split; [exact Eg|]. split; [reflexivity|].
        rewrite Nat.add_0_r. apply index_Ok in Et. now rewrite Etv.
      * replace (i + S j)%nat with (S i + j)%nat by lia. now apply Hs.
    + destruct (reorder_loop tdef rec cs (S i)) as [out| |] eqn:Er; cbn [bind] in H;
        try discriminate.
      injection H as <-. destruct (IH _ _ Er) as [Hl Hs].
      split; [cbn [length]; lia|].
      intros [|j] c' Hc; cbn [nth_error] in *.
      * injection Hc as <-. left. auto.
      * replace (i + S j)%nat with (S i + j)%nat by lia. now apply Hs.
Qed.

Lemma reorderRecord_shape_aux tdef rec vals :
  reorderRecord tdef rec = Ok vals ->
  length vals = length (Cols tdef) /\
  forall j c, nth_error (Cols tdef) j = Some c ->
    (Get rec c = Ok None /\ nth_error vals j = Some Value_zero) \/
    (exists v, Get rec c = Ok (Some v) /\ nth_error vals j = Some v /\
               nth_error (Types tdef) j = Some (Type_ v)).
Proof.
  unfold reorderRecord. intros H.
  destruct (Nat.eqb (length (RCols rec)) (length (RVals rec)));
    cbn [assert bind] in H; [|discriminate].
  exact (reorder_loop_shape tdef rec (Cols tdef) 0 vals H).
Qed.

Lemma valuesComplete_loop_ok tdef vals : forall i n,
  valuesComplete_loop tdef vals i n = Ok tt ->
  forall j v, nth_error vals j = Some v ->
    (Z.of_nat (i + j) < n -> Type_ v <> 0) /\ (n <= Z.of_nat (i + j) -> Type_ v = 0).
Proof.
  induction vals as [|w ws IH]; intros i n H j v Hj; [destruct j; discriminate|].
  cbn [valuesComplete_loop] in H.
  destruct (Z.ltb_spec (Z.of_nat i) n) as [Hi|Hi];
    destruct (Z.eqb_spec (Type_ w) 0) as [Hw|Hw]; cbn [andb negb] in H.
  - destruct (index (Cols tdef) i); discriminate.
  - destruct (Z.leb_spec n (Z.of_nat i)); [lia|]. cbn [andb] in H.
    destruct j as [|j]; cbn [nth_error] in Hj.
    + injection Hj as <-. rewrite Nat.add_0_r. split; [auto | lia].
    + replace (i + S j)%nat with (S i + j)%nat by lia. now apply (IH _ _ H).
  - destruct (Z.leb_spec n (Z.of_nat i)); cbn [andb] in H;
      destruct j as [|j]; cbn [nth_error] in Hj.
    + injection Hj as <-. rewrite Nat.add_0_r. split; [lia | auto].
    + replace (i + S j)%nat with (S i + j)%nat by lia. now apply (IH _ _ H).
    + injection Hj as <-. rewrite Nat.add_0_r. split; [lia | auto].
    + replace (i + S j)%nat with (S i + j)%nat by lia. now apply (IH _ _ H).
  - destruct (Z.leb_spec n (Z.of_nat i)); [|lia]. cbn [andb] in H.
    destruct (index (Cols tdef) i); discriminate.
Qed.

(** ** Validation of a scan request *)

Lemma legal_range_dec cmp1 cmp2 :
  (((0 <? cmp1) && (cmp2 <? 0)) || ((cmp1 <? 0) && (0 <? cmp2))) = true <->
  legal_range cmp1 cmp2.
Proof.
  unfold legal_range, ascending, descending.
  rewrite orb_true_iff, !andb_true_iff, !Z.ltb_lt. reflexivity.
Qed.

Lemma column_error_not_bad_range c msg :
  msg = Errorf "bad column type: " c \/
  msg = Errorf "missing column: " c \/
  msg = Errorf "extra column: " c ->
  msg <> "bad range"%string.
Proof. intros [->|[->| ->]]; cbn; discriminate. Qed.

(** What [dbScan] returns when the comparators are legal: a column error
    of one of the boundary records, or no error. *)
Lemma dbScan_legal db tdef req sc err :
  legal_range (Cmp1 req) (Cmp2 req) ->
  dbScan db tdef req = Ok (sc, err) ->
  err = None \/
  exists msg c, err = Some msg /\ In c (Cols tdef) /\
    (msg = Errorf "bad column type: " c \/
     msg = Errorf "missing column: " c \/
     msg = Errorf "extra column: " c).
Proof.
  intros Hl H. unfold dbScan in H.
  apply legal_range_dec in Hl. rewrite Hl in H. cbn [Key1 Key2] in H.
  destruct (checkRecord tdef (Key1 req) (PKeys tdef)) as [val1|m1|] eqn:H1; [| |discriminate].
  - destruct (checkRecord tdef (Key2 req) (PKeys tdef)) as [val2|m2|] eqn:H2; [| |discriminate].
    + left. repeat inv_bind H. now injection H as _ <-.
    + right. injection H as _ <-.
      destruct (checkRecord_error _ _ _ _ H2) as (c & ? & ?). eauto.
  - right. injection H as _ <-.
    destruct (checkRecord_error _ _ _ _ H1) as (c & ? & ?). eauto.
Qed.

(** What [checkRecord] has accepted as a primary key is a boundary
    record. *)
Lemma checkRecord_boundary_ok tdef rec vals :
  checkRecord tdef rec (PKeys tdef) = Ok vals -> boundary_ok tdef rec.
Proof.
  unfold checkRecord. intros H.
  destruct (reorderRecord tdef rec) as [vs| |] eqn:Er; cbn [bind] in H; try discriminate.
  destruct (valuesComplete tdef vs (PKeys tdef)) as [[]| |] eqn:Ev; cbn [bind] in H;
    try discriminate.
  destruct (reorderRecord_shape_aux tdef rec vs Er) as [_ Hs].
  pose proof (valuesComplete_loop_ok tdef vs 0 (PKeys tdef) Ev) as Hc.
  intros j c Hj.
  destruct (Z.ltb_spec (Z.of_nat j) (PKeys tdef)) as [Hlt|Hge].
  - destruct (Hs j c Hj) as [[_ Hz]|(v & Hg & Hv & Ht)].
    + destruct (Hc j _ Hz) as [Hne _]. exfalso. now apply Hne.
    + exists v. destruct (Hc j _ Hv) as [Hne _]. auto.
  - destruct (Hs j c Hj) as [[Hg _]|(v & Hg & Hv & _)]; [now left|].
    right. exists v. split; [exact Hg|]. destruct (Hc j _ Hv) as [_ Hz]. now apply Hz.
Qed.

(** What [dbScan] has done when it returns no error. *)
Lemma dbScan_accepted db tdef req sc :
  dbScan db tdef req = Ok (sc, None) ->
  legal_range (Cmp1 req) (Cmp2 req) /\
  (exists val1, checkRecord tdef (Key1 req) (PKeys tdef) = Ok val1) /\
  (exists val2, checkRecord tdef (Key2 req) (PKeys tdef) = Ok val2) /\
  sc_tdef sc = Some tdef /\ exists it, iter sc = Some it.
Proof.
  unfold dbScan. intros H.
  destruct (((0 <? Cmp1 req) && (Cmp2 req <? 0)) || ((Cmp1 req <? 0) && (0 <? Cmp2 req)))
    eqn:E; [|discriminate].
  split; [now apply legal_range_dec|]. cbn [Key1 Key2 Cmp1 Cmp2] in H.
  destruct (checkRecord tdef (Key1 req) (PKeys tdef)) as [val1|m1|] eqn:H1; try discriminate.
  destruct (checkRecord tdef (Key2 req) (PKeys tdef)) as [val2|m2|] eqn:H2; try discriminate.
  split; [eauto|]. split; [eauto|].
  repeat inv_bind H. injection H as <-. cbn [sc_tdef iter]. eauto.
Qed.

(** C8. Scan validation: [dbScan] returns the "bad range" error exactly
    when [(Cmp1, Cmp2)] is neither (ascending, descending) nor
    (descending, ascending). When it rejects, the request is returned as
    it came: no boundary record was validated (the rejection is the same
    whatever the records hold), no key encoded, no iterator sought. With
    legal comparators a boundary record that [checkRecord] refuses is
    reported by [dbScan] itself, with the error of [checkRecord] ([Key1]
    first, then [Key2]) and before any key is encoded or the iterator
    sought; so whenever [dbScan] returns no error, both boundary records
    hold exactly the primary-key columns with their declared types and
    the iterator is in place. The only errors with legal comparators are
    these column errors, and [Valid], [Next] and [Deref] report no error
    at all (they return or panic). *)
Theorem dbScan_validation (db : DB) (tdef : TableDef) (req : Scanner) :
  ((exists sc, dbScan db tdef req = Ok (sc, Some "bad range"%string)) <->
     ~ legal_range (Cmp1 req) (Cmp2 req)) /\
  (~ legal_range (Cmp1 req) (Cmp2 req) ->
     dbScan db tdef req = Ok (req, Some "bad range"%string)) /\
  (forall msg, legal_range (Cmp1 req) (Cmp2 req) ->
     checkRecord tdef (Key1 req) (PKeys tdef) = Error msg ->
     dbScan db tdef req = Ok (with_tdef req tdef, Some msg)) /\
  (forall val1 msg, legal_range (Cmp1 req) (Cmp2 req) ->
     checkRecord tdef (Key1 req) (PKeys tdef) = Ok val1 ->
     checkRecord tdef (Key2 req) (PKeys tdef) = Error msg ->
     dbScan db tdef req = Ok (with_tdef req tdef, Some msg)) /\
  (forall sc, dbScan db tdef req = Ok (sc, None) ->
     legal_range (Cmp1 req) (Cmp2 req) /\
     boundary_ok tdef (Key1 req) /\ boundary_ok tdef (Key2 req) /\
     sc_tdef sc = Some tdef /\ exists it, iter sc = Some it) /\
  (forall sc err, legal_range (Cmp1 req) (Cmp2 req) ->
     dbScan db tdef req = Ok (sc, err) ->
     err = None \/
     exists msg c, err = Some msg /\ In c (Cols tdef) /\
       (msg = Errorf "bad column type: " c \/
        msg = Errorf "missing column: " c \/
        msg = Errorf "extra column: " c)) /\
  (forall sc rec,
     no_error (Sc.Valid sc) /\ no_error (Sc.Next sc) /\ no_error (Sc.Deref sc rec)).
Proof.
  assert (Hrej : ~ legal_range (Cmp1 req) (Cmp2 req) ->
                 dbScan db tdef req = Ok (req, Some "bad range"%string)).
  { intros Hn. unfold dbScan.
    destruct (((0 <? Cmp1 req) && (Cmp2 req <? 0)) || ((Cmp1 req <? 0) && (0 <? Cmp2 req)))
      eqn:E; [|reflexivity].
    exfalso. apply Hn. now apply legal_range_dec. }
  split; [|split; [exact Hrej|split; [|split; [|split; [|split]]]]].
  - split.
    + intros [sc H] Hl.
      destruct (dbScan_legal _ _ _ _ _ Hl H) as [E|(msg & c & E & _ & Hm)]; [discriminate|].
      injection E as <-. now apply (column_error_not_bad_range c "bad range"%string).
    + intros Hn. exists req. now apply Hrej.
  - intros msg Hl H1. unfold dbScan. apply legal_range_dec in Hl. rewrite Hl.
    cbn [Key1 Key2]. rewrite H1. reflexivity.
  - intros val1 msg Hl H1 H2. unfold dbScan. apply legal_range_dec in Hl. rewrite Hl.
    cbn [Key1 Key2]. rewrite H1, H2. reflexivity.
  - intros sc H.
    destruct (dbScan_accepted _ _ _ _ H) as (Hl & [val1 H1] & [val2 H2] & Ht & Hit).
    split; [exact Hl|]. split; [exact (checkRecord_boundary_ok _ _ _ H1)|].
    split; [exact (checkRecord_boundary_ok _ _ _ H2)|]. auto.
  - intros sc err Hl H. now apply (dbScan_legal db tdef req sc err).
  - intros sc rec. split; [apply no_error_Valid|].
    split; [apply no_error_Next | apply no_error_Deref].
Qed.

Lemma dbScan_validation_witness :
  let db := mkDB "" (mkKV "" []) ∅ in
  let tdef := mkTableDef "t" [TYPE_INT64; TYPE_BYTES] ["id"; "name"]%string 1 100
                         [["id"%string]] in
  let key := AddInt64 Record_empty "id" 2 in
  let bad := Scanner_new CMP_GE CMP_GE key (AddStr Record_empty "nope" [1]) in
  let untyped := Scanner_new CMP_GE CMP_LE (AddStr Record_empty "id" [50]) key in
  let missing := Scanner_new CMP_GE CMP_LE key Record_empty in
  let extra := Scanner_new CMP_GE CMP_LE key (AddStr key "name" [98]) in
  (~ legal_range (Cmp1 bad) (Cmp2 bad) /\
   dbScan db tdef bad = Ok (bad, Some "bad range"%string)) /\
  dbScan db tdef untyped = Ok (with_tdef untyped tdef, Some "bad column type: id"%string) /\
  dbScan db tdef missing = Ok (with_tdef missing tdef, Some "missing column: id"%string) /\
  dbScan db tdef extra = Ok (with_tdef extra tdef, Some "extra column: name"%string).
Proof.
  intros db tdef key bad untyped missing extra.
  assert (Hn : ~ legal_range (Cmp1 bad) (Cmp2 bad)).
  { unfold legal_range, ascending, descending, bad, CMP_GE; cbn. lia. }
  assert (Hl : legal_range CMP_GE CMP_LE).
  { left. unfold ascending, descending, CMP_GE, CMP_LE. lia. }
  split; [split; [exact Hn|]|split; [|split]].
  - exact (proj1 (proj2 (dbScan_validation db tdef bad)) Hn).
  - apply (proj1 (proj2 (proj2 (dbScan_validation db tdef untyped)))); [exact Hl | reflexivity].
  - apply (proj1 (proj2 (proj2 (proj2 (dbScan_validation db tdef missing))))
             [mkValue TYPE_INT64 2 []; Value_zero]); [exact Hl | reflexivity | reflexivity].
  - apply (proj1 (proj2 (proj2 (proj2 (dbScan_validation db tdef extra))))
             [mkValue TYPE_INT64 2 []; Value_zero]); [exact Hl | reflexivity | reflexivity].
Defined.

(** ** Column names in record errors *)

(** C9, at the failing input: the schema has columns [a] and [b], the
    record supplies [a] only and the caller asks for [b]. [getValues]
    fails as it must, and its message names [a], the schema column at the
    position of [b] in the request, in place of the absent [b]. The same
    message reaches the caller of [dbGet] when [b] is the primary key. *)
Theorem getValues_missing_names_other_column :
  let tdef := mkTableDef "t" [TYPE_BYTES; TYPE_BYTES] ["a"; "b"]%string 1 100 [["b"%string]] in
  let rec := AddStr Record_empty "a" [120] in
  let db := mkDB "" (mkKV "" []) ∅ in
  Get rec "b" = Ok None /\
  Get rec "a" = Ok (Some (mkValue TYPE_BYTES 0 [120])) /\
  getValues tdef rec ["b"%string] = Error "missing col.: a" /\
  dbGet db tdef rec = Error "missing col.: a".
Proof. cbv zeta. repeat split; reflexivity. Qed.


(** ** Columns that the schema does not know *)











(** ** The byte order *)

Lemma bytes_Compare_eq a : forall b, bytes_Compare a b = Eq -> a = b.
Proof.
  induction a as [|x a IH]; intros [|y b] H; simpl in H; try discriminate; [reflexivity|].
  destruct (Z.compare_spec x y); try discriminate. subst. f_equal. now apply IH.
Qed.

Lemma bytes_Compare_antisym a : forall b, bytes_Compare b a = CompOpp (bytes_Compare a b).
Proof.
  induction a as [|x a IH]; intros [|y b]; simpl; try reflexivity.
  rewrite (Z.compare_antisym x y). destruct (x ?= y); simpl; auto.
Qed.

Lemma bytes_Compare_trans_gt a : forall b c,
  bytes_Compare a b = Gt -> bytes_Compare b c = Gt -> bytes_Compare a c = Gt.
Proof.
  induction a as [|x a IH]; intros [|y b] [|z c] H1 H2; simpl in *; try discriminate; auto.
  destruct (Z.compare_spec x y), (Z.compare_spec y z); try discriminate; subst.
  - rewrite Z.compare_refl. eapply IH; eauto.
  - destruct (Z.compare_spec y z); try lia; reflexivity.
  - destruct (Z.compare_spec x z); try lia; reflexivity.
  - destruct (Z.compare_spec x z); try lia; reflexivity.
Qed.

(** ** Exact-match lookups in the store *)

Lemma tree_get_update_same t key val :
  tree_get (fst (fst (tree_update t key val MODE_UPSERT))) key = Some val.
Proof.
  induction t as [|[k v] r IH]; cbn [tree_update tree_get].
  - cbn. now rewrite bytes_Compare_refl.
  - destruct (bytes_Compare k key) eqn:E.
    + cbn. now rewrite bytes_Compare_refl.
    + destruct (tree_update r key val MODE_UPSERT) as [[r' a] u]. cbn in *. now rewrite E.
    + cbn. now rewrite bytes_Compare_refl.
Qed.

Lemma tree_get_update_other t key val key' :
  key <> key' ->
  tree_get (fst (fst (tree_update t key val MODE_UPSERT))) key' = tree_get t key'.
Proof.
  intros Hne.
  assert (Hk : bytes_Compare key key' <> Eq).
  { intros E. apply Hne. now apply bytes_Compare_eq. }
  induction t as [|[k v] r IH]; cbn [tree_update tree_get].
  - cbn. destruct (bytes_Compare key key'); congruence.
  - destruct (bytes_Compare k key) eqn:E.
    + apply bytes_Compare_eq in E. subst k. cbn.
      destruct (bytes_Compare key key'); congruence.
    + destruct (tree_update r key val MODE_UPSERT) as [[r' a] u]. cbn in *.
      destruct (bytes_Compare k key'); auto.
    + cbn. destruct (bytes_Compare key key') eqn:E'; [congruence|reflexivity|].
      rewrite (bytes_Compare_trans_gt _ _ _ E E'). reflexivity.
Qed.

Lemma cmp_holds_GE key k :
  cmp_holds CMP_GE key k = match bytes_Compare k key with Lt => false | _ => true end.
Proof. reflexivity. Qed.

(** The position that [Seek] with [CMP_GE] reaches, and what [tree_get]
    says of the entry there. *)
Lemma seek_ge_get t key :
  match nth_error t (skip_while_not (cmp_holds CMP_GE key) t) with
  | Some (k, v) =>
      match bytes_Compare k key with
      | Gt => tree_get t key = None
      | _ => k = key /\ tree_get t key = Some v
      end
  | None =>
      tree_get t key = None /\ skip_while_not (cmp_holds CMP_GE key) t = length t
  end.
Proof.
  induction t as [|[k v] r IH]; cbn [skip_while_not tree_get nth_error length]; [auto|].
  rewrite cmp_holds_GE.
  destruct (bytes_Compare k key) eqn:E; cbn [nth_error].
  - rewrite E. split; [now apply bytes_Compare_eq | reflexivity].
  - destruct (nth_error r _) as [[k' v']|]; [exact IH|].
    destruct IH as [H1 H2]. split; [exact H1 | now rewrite H2].
  - rewrite E. reflexivity.
Qed.

(** ** [dbGet] as an exact-match lookup *)

Lemma Valid_at t n c1 k1 k2 td key :
  Sc.Valid (mkScanner c1 CMP_LE k1 k2 td (Some (mkBIter t (Z.of_nat n))) key) =
  Ok (match nth_error t n with
      | Some (k, _) => match bytes_Compare k key with Gt => false | _ => true end
      | None => false
      end).
Proof.
  unfold Sc.Valid, Iter.Valid, Iter.Deref, Iter.Valid, index. cbn [iter entries pos Cmp2 keyEnd].
  rewrite Nat2Z.id.
  replace (0 <=? Z.of_nat n) with true by (symmetry; apply Z.leb_le; lia).
  cbn [andb].
  destruct (Z.ltb_spec (Z.of_nat n) (Z.of_nat (length t))) as [L|L]; cbn [negb].
  - destruct (nth_error t n) as [[k v]|] eqn:E.
    + cbn [bind]. reflexivity.
    + apply nth_error_None in E. lia.
  - destruct (nth_error t n) as [[k v]|] eqn:E; [|reflexivity].
    assert (n < length t)%nat by (apply nth_error_Some; congruence). lia.
Qed.

Lemma Deref_at t n c1 k1 k2 tdef key k v rec :
  nth_error t n = Some (k, v) ->
  bytes_Compare k key <> Gt ->
  Sc.Deref (mkScanner c1 CMP_LE k1 k2 (Some tdef) (Some (mkBIter t (Z.of_nat n))) key) rec =
  (let blanks := map (fun t => mkValue t 0 []) (Types tdef) in
   let* kvals := slice_to blanks (PKeys tdef) in
   let* kvals' := decodeKey k kvals in
   let* vvals := slice_from blanks (PKeys tdef) in
   let* vvals' := decodeValues v vvals in
   Ok (mkRecord (Cols tdef) (kvals' ++ vvals'))).
Proof.
  intros Hn Hc. unfold Sc.Deref. rewrite Valid_at, Hn.
  destruct (bytes_Compare k key) eqn:E; try congruence;
    cbn [bind assert iter sc_tdef];
    unfold Iter.Deref, Iter.Valid, index; cbn [entries pos];
    rewrite Nat2Z.id, Hn;
    assert (n < length t)%nat by (apply nth_error_Some; congruence);
    replace (0 <=? Z.of_nat n) with true by (symmetry; apply Z.leb_le; lia);
    replace (Z.of_nat n <? Z.of_nat (length t)) with true by (symmetry; apply Z.ltb_lt; lia);
    reflexivity.
Qed.

Lemma dbScan_exact db tdef R vals k key :
  checkRecord tdef R (PKeys tdef) = Ok vals ->
  slice_to vals (PKeys tdef) = Ok k ->
  encodeKey [] (Prefix tdef) k = Ok key ->
  dbScan db tdef (Scanner_new CMP_GE CMP_LE R R) =
  Ok (mkScanner CMP_GE CMP_LE R R (Some tdef)
        (Some (mkBIter (tree (kv db))
                 (Z.of_nat (skip_while_not (cmp_holds CMP_GE key) (tree (kv db))))))
        key, None).
Proof.
  intros H1 H2 H3. unfold dbScan, Scanner_new. cbn [Cmp1 Cmp2 Key1 Key2 iter keyEnd].
  change ((0 <? CMP_GE) && (CMP_LE <? 0) || (CMP_GE <? 0) && (0 <? CMP_LE)) with true.
  cbn iota. rewrite H1, H2. cbn [bind]. rewrite H3. cbn [bind].
  unfold Seek, cmpOk. change (CMP_GE =? CMP_GE) with true. cbn [bind].
  change (0 <? CMP_GE) with true. reflexivity.
Qed.

(** [dbGet] finds the row whose encoded key is stored, and decodes it. *)
Lemma dbGet_exact db tdef rec pk vals0 vals k key :
  index (Indexes tdef) 0 = Ok pk ->
  getValues tdef rec pk = Ok vals0 ->
  checkRecord tdef (mkRecord pk vals0) (PKeys tdef) = Ok vals ->
  slice_to vals (PKeys tdef) = Ok k ->
  encodeKey [] (Prefix tdef) k = Ok key ->
  dbGet db tdef rec =
  match tree_get (tree (kv db)) key with
  | None => Ok (false, rec)
  | Some v =>
      let blanks := map (fun t => mkValue t 0 []) (Types tdef) in
      let* kvals := slice_to blanks (PKeys tdef) in
      let* kvals' := decodeKey key kvals in
      let* vvals := slice_from blanks (PKeys tdef) in
      let* vvals' := decodeValues v vvals in
      Ok (true, mkRecord (Cols tdef) (kvals' ++ vvals'))
  end.
Proof.
  intros Hpk Hg H1 H2 H3. unfold dbGet. rewrite Hpk. cbn [bind]. rewrite Hg. cbn [bind].
  rewrite (dbScan_exact db tdef _ vals k key H1 H2 H3). cbn [bind].
  rewrite Valid_at.
  pose proof (seek_ge_get (tree (kv db)) key) as Hs.
  destruct (nth_error (tree (kv db)) _) as [[k' v]|] eqn:En.
  - destruct (bytes_Compare k' key) eqn:Ec.
    + destruct Hs as [-> ->]. cbn [bind negb].
      rewrite (Deref_at _ _ _ _ _ _ _ _ _ _ En) by (rewrite Ec; discriminate).
      cbv zeta.
      destruct (slice_to (map _ (Types tdef)) (PKeys tdef)) as [kvals|m|]; cbn [bind]; try reflexivity.
      destruct (decodeKey key kvals) as [kvals'|m|]; cbn [bind]; try reflexivity.
      destruct (slice_from (map _ (Types tdef)) (PKeys tdef)) as [vvals|m|]; cbn [bind]; try reflexivity.
      destruct (decodeValues v vvals) as [vvals'|m|]; cbn [bind]; reflexivity.
    + destruct Hs as [-> ->]. rewrite bytes_Compare_refl in Ec. discriminate.
    + rewrite Hs. reflexivity.
  - destruct Hs as [-> _]. reflexivity.
Qed.

Lemma dbGet_not_found db tdef rec rec' :
  dbGet db tdef rec = Ok (false, rec') -> rec' = rec.
Proof.
  unfold dbGet. intros H.
  inv_bind H. inv_bind H. inv_bind H. destruct a1 as [sc err].
  destruct err; [discriminate|]. inv_bind H.
  destruct (negb a1).
  - now injection H as <-.
  - inv_bind H. discriminate.
Qed.

(** ** [dbUpdate] as a write to the store *)

Lemma dbUpdate_exact db tdef rec mode f1 f2 values kvals key vvals val :
  checkRecord tdef rec (Z.of_nat (length (Cols tdef))) = Ok values ->
  slice_to values (PKeys tdef) = Ok kvals ->
  encodeKey [] (Prefix tdef) kvals = Ok key ->
  slice_from values (PKeys tdef) = Ok vvals ->
  encodeValues [] vvals = Ok val ->
  exists req' b,
    dbUpdate db tdef (mkDBUpdateReq rec mode f1 f2) =
    Ok (mkDB (Path db)
             (mkKV (KVPath (kv db)) (fst (fst (tree_update (tree (kv db)) key val mode))))
             (tables db), req', b).
Proof.
  intros H1 H2 H3 H4 H5. unfold dbUpdate. cbn [URecord UMode].
  rewrite H1. cbn [bind]. rewrite H2. cbn [bind]. rewrite H3. cbn [bind].
  rewrite H4. cbn [bind]. rewrite H5. cbn [bind].
  unfold KV_Update. cbn [Key Val Mode].
  destruct (tree_update (tree (kv db)) key val mode) as [[t a] u]. cbn [bind fst].
  eauto.
Qed.

(** ** The prefix counter of [TableNew] *)

Lemma counter_bytes_ok p : bytes_ok (counter_bytes p).
Proof. apply le_digits_ok. Qed.

Lemma Uint32_counter_bytes p :
  uint32_ok p -> LittleEndian.Uint32 (counter_bytes p) = Ok p.
Proof.
  intros Hp. unfold LittleEndian.Uint32, counter_bytes.
  rewrite le_digits_length. change (4 <? 4)%nat with false. cbn iota.
  rewrite firstn_all2 by now rewrite le_digits_length.
  now rewrite le_value_digits_small.
Qed.

Lemma PutUint32_counter_bytes p v :
  LittleEndian.PutUint32 (counter_bytes p) v = Ok (counter_bytes v).
Proof.
  unfold LittleEndian.PutUint32, counter_bytes.
  rewrite le_digits_length. change (4 <? 4)%nat with false. cbn iota.
  rewrite skipn_all2 by now rewrite le_digits_length.
  now rewrite app_nil_r.
Qed.

Lemma decode_counter p :
  decodeValues (counter_stored p) [mkValue TYPE_BYTES 0 []] =
  Ok [mkValue TYPE_BYTES 0 (counter_bytes p)].
Proof.
  unfold decodeValues.
  rewrite <- (app_nil_r (counter_stored p)).
  rewrite (decode_encode_loop [mkValue TYPE_BYTES 0 (counter_bytes p)]
             [mkValue TYPE_BYTES 0 []] (counter_stored p) []).
  - reflexivity.
  - constructor; [|constructor]. right. split; [reflexivity | apply counter_bytes_ok].
  - reflexivity.
  - reflexivity.
Qed.

Lemma wrap32_ok z : uint32_ok (wrap32 z).
Proof. unfold uint32_ok, wrap32. apply Z.mod_pos_bound. lia. Qed.

(** The lookup of the counter row by [TableNew]. *)
Lemma dbGet_next_prefix db :
  dbGet db TDEF_META next_prefix_rec =
  match tree_get (tree (kv db)) next_prefix_key with
  | None => Ok (false, next_prefix_rec)
  | Some v =>
      let* vv := decodeValues v [mkValue TYPE_BYTES 0 []] in
      Ok (true, mkRecord ["key"; "val"]%string
                  (mkValue TYPE_BYTES 0 (bytes_of_string "next_prefix") :: vv))
  end.
Proof.
  rewrite (dbGet_exact db TDEF_META next_prefix_rec ["key"%string]
             [mkValue TYPE_BYTES 0 (bytes_of_string "next_prefix")]
             [mkValue TYPE_BYTES 0 (bytes_of_string "next_prefix"); Value_zero]
             [mkValue TYPE_BYTES 0 (bytes_of_string "next_prefix")]
             next_prefix_key) by reflexivity.
  destruct (tree_get (tree (kv db)) next_prefix_key) as [v|]; [|reflexivity].
  cbv zeta.
  change (slice_to (map (fun t => mkValue t 0 []) (Types TDEF_META)) (PKeys TDEF_META))
    with (Ok [mkValue TYPE_BYTES 0 []]).
  change (slice_from (map (fun t => mkValue t 0 []) (Types TDEF_META)) (PKeys TDEF_META))
    with (Ok [mkValue TYPE_BYTES 0 []]).
  cbn [bind].
  replace (decodeKey next_prefix_key [mkValue TYPE_BYTES 0 []])
    with (Ok [mkValue TYPE_BYTES 0 (bytes_of_string "next_prefix")])
    by (vm_compute; reflexivity).
  cbn [bind].
  destruct (decodeValues v [mkValue TYPE_BYTES 0 []]); reflexivity.
Qed.

Lemma table_key_not_counter_key name :
  BigEndian.PutUint32 2 ++ escapeString name ++ [0] <> next_prefix_key.
Proof.
  intros E.
  assert (H : nth_error (BigEndian.PutUint32 2 ++ escapeString name ++ [0]) 3 =
              nth_error next_prefix_key 3) by now rewrite E.
  vm_compute in H. discriminate H.
Qed.

Section TableNewCounter.

Variable json_Marshal : TableDef -> result (list Z).

(** The two writes of a successful [TableNew]: the counter row of
    [@meta], then the definition row of [@table]. *)
Lemma TableNew_writes db tdef prefix meta s :
  Get_Str meta "val" = Ok s ->
  RCols meta = ["key"; "val"]%string ->
  (exists ik iv, RVals meta = [mkValue TYPE_BYTES ik (bytes_of_string "next_prefix");
                               mkValue TYPE_BYTES iv s]) ->
  length s = 4%nat ->
  forall db' tdef',
  (let tdef1 := mkTableDef (Name tdef) (Types tdef) (Cols tdef) (PKeys tdef)
                           prefix (Indexes tdef) in
   let* s0 := Get_Str meta "val" in
   let* s' := LittleEndian.PutUint32 s0 (wrap32 (prefix + 1)) in
   let* meta' := Set_Str meta "val" s' in
   let* (db1, _, _) := dbUpdate db TDEF_META (mkDBUpdateReq meta' 0 false false) in
   let* val := (match json_Marshal tdef1 with Ok v => Ok v | _ => Panic end) in
   let table := AddStr (AddStr Record_empty "name" (bytes_of_string (Name tdef))) "def" val in
   let* (db2, _, _) := dbUpdate db1 TDEF_TABLE (mkDBUpdateReq table 0 false false) in
   Ok (db2, tdef1)) = Ok (db', tdef') ->
  Prefix tdef' = prefix /\
  tree_get (tree (kv db')) next_prefix_key = Some (counter_stored (wrap32 (prefix + 1))).
Proof.
  intros Hs Hc (ik & iv & Hv) Hlen db' tdef' H. cbv zeta in H.
  rewrite Hs in H. cbn [bind] in H.
  assert (Hput : LittleEndian.PutUint32 s (wrap32 (prefix + 1)) =
                 Ok (counter_bytes (wrap32 (prefix + 1)))).
  { unfold LittleEndian.PutUint32. rewrite Hlen. change (4 <? 4)%nat with false. cbn iota.
    rewrite skipn_all2 by lia. now rewrite app_nil_r. }
  rewrite Hput in H. cbn [bind] in H.
  destruct meta as [mc mv]. cbn [RCols RVals] in Hc, Hv. subst mc mv.
  change (Set_Str _ "val" ?x) with
    (Ok (mkRecord ["key"; "val"]%string
           [mkValue TYPE_BYTES ik (bytes_of_string "next_prefix"); mkValue TYPE_BYTES iv x]))
    in H.
  cbn [bind] in H.
  destruct (dbUpdate_exact db TDEF_META
              (mkRecord ["key"; "val"]%string
                 [mkValue TYPE_BYTES ik (bytes_of_string "next_prefix");
                  mkValue TYPE_BYTES iv (counter_bytes (wrap32 (prefix + 1)))])
              0 false false
              [mkValue TYPE_BYTES ik (bytes_of_string "next_prefix");
               mkValue TYPE_BYTES iv (counter_bytes (wrap32 (prefix + 1)))]
              [mkValue TYPE_BYTES ik (bytes_of_string "next_prefix")]
              next_prefix_key
              [mkValue TYPE_BYTES iv (counter_bytes (wrap32 (prefix + 1)))]
              (counter_stored (wrap32 (prefix + 1)))
              eq_refl eq_refl eq_refl eq_refl eq_refl) as (req1 & b1 & Hu1).
  rewrite Hu1 in H. cbn [bind] in H.
  destruct (json_Marshal _) as [js|m|]; cbn [bind] in H; try discriminate.
  match type of H with
  | context [dbUpdate ?d TDEF_TABLE _] =>
      destruct (dbUpdate_exact d TDEF_TABLE
                  (AddStr (AddStr Record_empty "name" (bytes_of_string (Name tdef))) "def" js)
                  0 false false
                  [mkValue TYPE_BYTES 0 (bytes_of_string (Name tdef)); mkValue TYPE_BYTES 0 js]
                  [mkValue TYPE_BYTES 0 (bytes_of_string (Name tdef))]
                  (BigEndian.PutUint32 2 ++ escapeString (bytes_of_string (Name tdef)) ++ [0])
                  [mkValue TYPE_BYTES 0 js]
                  (escapeString js ++ [0])
                  eq_refl eq_refl eq_refl eq_refl eq_refl) as (req2 & b2 & Hu2)
  end.
  rewrite Hu2 in H. cbn [bind] in H.
  injection H as <- <-. cbn [Prefix kv tree]. split; [reflexivity|].
  rewrite tree_get_update_other by apply table_key_not_counter_key.
  apply tree_get_update_same.
Qed.

(** One successful call: on a store without counter row the table gets
    prefix 100 and the counter is stored as 101; on a store whose
    counter is [q] the table gets [q], which is above 100, and the
    counter becomes [q + 1] in 32 bits. *)
Lemma TableNew_step db tdef db' tdef' :
  TableNew json_Marshal db tdef = Ok (db', tdef') ->
  (tree_get (tree (kv db)) next_prefix_key = None ->
   Prefix tdef' = TABLE_PREFIX_MIN /\
   tree_get (tree (kv db')) next_prefix_key =
     Some (counter_stored (wrap32 (TABLE_PREFIX_MIN + 1)))) /\
  (forall q, uint32_ok q ->
   tree_get (tree (kv db)) next_prefix_key = Some (counter_stored q) ->
   TABLE_PREFIX_MIN < q /\ Prefix tdef' = q /\
   tree_get (tree (kv db')) next_prefix_key = Some (counter_stored (wrap32 (q + 1)))).
Proof.
  intros H. unfold TableNew in H.
  inv_bind H. clear Ha a.
  destruct (dbGet db TDEF_TABLE _) as [[ok table]|m|] eqn:Ht; try discriminate.
  destruct ok; [discriminate|].
  apply dbGet_not_found in Ht. subst table.
  inv_bind H. clear Ha a.
  change (AddStr Record_empty "key" (bytes_of_string "next_prefix")) with next_prefix_rec in H.
  rewrite dbGet_next_prefix in H.
  split.
  - intros Hnone. rewrite Hnone in H. cbn [bind] in H.
    eapply (TableNew_writes db tdef TABLE_PREFIX_MIN
              (AddStr next_prefix_rec "val" [0; 0; 0; 0]) [0; 0; 0; 0]);
      [reflexivity | reflexivity | | reflexivity | exact H].
    exists 0, 0. reflexivity.
  - intros q Hq Hsome. rewrite Hsome in H. rewrite decode_counter in H. cbn [bind] in H.
    change (Get_Str (mkRecord ["key"; "val"]%string
                       [mkValue TYPE_BYTES 0 (bytes_of_string "next_prefix");
                        mkValue TYPE_BYTES 0 (counter_bytes q)]) "val")
      with (Ok (counter_bytes q)) in H at 1.
    cbn [bind] in H. rewrite Uint32_counter_bytes in H by assumption. cbn [bind] in H.
    destruct (Z.ltb_spec TABLE_PREFIX_MIN q) as [L|L]; cbn [assert bind] in H; [|discriminate].
    split; [exact L|].
    eapply (TableNew_writes db tdef q
              (mkRecord ["key"; "val"]%string
                 [mkValue TYPE_BYTES 0 (bytes_of_string "next_prefix");
                  mkValue TYPE_BYTES 0 (counter_bytes q)]) (counter_bytes q));
      [reflexivity | reflexivity | | apply le_digits_length | exact H].
    exists 0, 0. reflexivity.
Qed.

End TableNewCounter.

Section PrefixMonotonicity.

Variable json_Marshal : TableDef -> result (list Z).

Lemma TableNew_counter_after k db tdef db' tdef' :
  counter_after k db ->
  TableNew json_Marshal db tdef = Ok (db', tdef') ->
  Prefix tdef' = TABLE_PREFIX_MIN + Z.of_nat k /\ counter_after (S k) db'.
Proof.
  intros Hk H. destruct (TableNew_step json_Marshal _ _ _ _ H) as [Hfresh Hnext].
  destruct k as [|k]; cbn [counter_after] in *; unfold TABLE_PREFIX_MIN in *.
  - destruct (Hfresh Hk) as [Hp Hc]. split; [rewrite Hp; lia|].
    split; [exact Hc | lia].
  - destruct Hk as [Hc Hb].
    destruct (Hnext _ (wrap32_ok _) Hc) as (Hlt & Hp & Hc').
    assert (Hsmall : 100 + Z.of_nat (S k) < 2 ^ 32).
    { destruct (Z.eq_dec (100 + Z.of_nat (S k)) (2 ^ 32)) as [E|E]; [|lia].
      rewrite E in Hlt. unfold wrap32 in Hlt. rewrite Z.mod_same in Hlt by lia. lia. }
    assert (Hq : wrap32 (100 + Z.of_nat (S k)) = 100 + Z.of_nat (S k)).
    { unfold wrap32. apply Z.mod_small. lia. }
    rewrite Hq in *. split; [exact Hp|].
    split; [|lia].
    rewrite Hc'. do 3 f_equal. lia.
Qed.

Lemma TableNew_seq_from tdefs : forall k db db' outs,
  counter_after k db ->
  TableNew_seq json_Marshal db tdefs = Ok (db', outs) ->
  map Prefix outs =
    map (fun i => TABLE_PREFIX_MIN + Z.of_nat i) (seq k (length tdefs)) /\
  counter_after (k + length tdefs) db'.
Proof.
  induction tdefs as [|t ts IH]; intros k db db' outs Hk H; cbn [TableNew_seq] in H.
  - injection H as <- <-. cbn. rewrite Nat.add_0_r. auto.
  - inv_bind H. destruct a as [db1 t']. inv_bind H. destruct a as [db2 outs'].
    injection H as <- <-.
    destruct (TableNew_counter_after _ _ _ _ _ Hk Ha) as [Hp Hk1].
    destruct (IH _ _ _ _ Hk1 Ha0) as [Hps Hk2].
    cbn [map seq length]. rewrite Hp, Hps.
    split; [reflexivity|]. now replace (k + S (length ts))%nat with (S k + length ts)%nat by lia.
Qed.

Lemma read_next_prefix_counter db p :
  tree_get (tree (kv db)) next_prefix_key = Some (counter_stored p) ->
  read_next_prefix db = Ok (Some (counter_bytes p)).
Proof.
  intros H. unfold read_next_prefix.
  rewrite dbGet_next_prefix, H, decode_counter. reflexivity.
Qed.

(** C6. Prefix monotonicity: when [N] successive calls of [TableNew] on a
    fresh database all succeed, the tables receive the prefixes 100, 101,
    ..., 100 + N - 1 in this order (so they are distinct and strictly
    increasing, the first being 100), and after the calls the row
    ["next_prefix"] of [@meta] holds the four little-endian bytes of
    100 + N (in 32 bits); before the first call there is no such row.
    Since this holds for every [N], each successful call raises the
    stored counter by one. *)
Theorem TableNew_prefix_monotonic (path : string) (tdefs : list TableDef)
    (db' : DB) (outs : list TableDef) :
  TableNew_seq json_Marshal (DB_fresh path) tdefs = Ok (db', outs) ->
  map Prefix outs =
    map (fun i => TABLE_PREFIX_MIN + Z.of_nat i) (seq 0 (length tdefs)) /\
  (forall i j pi pj, (i < j)%nat ->
     nth_error (map Prefix outs) i = Some pi ->
     nth_error (map Prefix outs) j = Some pj -> pi < pj) /\
  read_next_prefix (DB_fresh path) = Ok None /\
  read_next_prefix db' =
    Ok (match tdefs with
        | [] => None
        | _ :: _ => Some (counter_bytes (wrap32 (TABLE_PREFIX_MIN + Z.of_nat (length tdefs))))
        end).
Proof.
  intros H.
  destruct (TableNew_seq_from tdefs 0 (DB_fresh path) db' outs eq_refl H) as [Hps Hk].
  split; [exact Hps|]. split; [|split].
  - rewrite Hps. intros i j pi pj Hij Hi Hj.
    rewrite nth_error_map in Hi, Hj.
    destruct (nth_error (seq 0 (length tdefs)) i) as [a|] eqn:Ea; [|discriminate].
    destruct (nth_error (seq 0 (length tdefs)) j) as [b|] eqn:Eb; [|discriminate].
    cbn in Hi, Hj. injection Hi as <-. injection Hj as <-.
    assert (Hi : (i < length (seq 0 (length tdefs)))%nat)
      by (apply nth_error_Some; congruence).
    assert (Hj : (j < length (seq 0 (length tdefs)))%nat)
      by (apply nth_error_Some; congruence).
    rewrite List.length_seq in Hi, Hj.
    rewrite nth_error_seq in Ea, Eb.
    destruct (Nat.ltb_spec i (length tdefs)); [|lia].
    destruct (Nat.ltb_spec j (length tdefs)); [|lia].
    injection Ea as <-. injection Eb as <-. lia.
  - reflexivity.
  - destruct tdefs as [|t ts]; cbn [Nat.add length counter_after] in Hk.
    + cbn [TableNew_seq] in H. injection H as <- _. reflexivity.
    + destruct Hk as [Hc _]. now apply read_next_prefix_counter.
Qed.

End PrefixMonotonicity.

Lemma TableNew_prefix_monotonic_witness :
  let marshal := fun t : TableDef => Ok (bytes_of_string (Name t)) in
  let t1 := mkTableDef "users" [TYPE_INT64; TYPE_BYTES] ["id"; "name"]%string 1 0 [["id"%string]] in
  let t2 := mkTableDef "logs" [TYPE_BYTES] ["line"%string] 1 0 [["line"%string]] in
  let t3 := mkTableDef "kv" [TYPE_BYTES; TYPE_INT64] ["k"; "v"]%string 1 0 [["k"%string]] in
  exists db' outs,
    TableNew_seq marshal (DB_fresh "") [t1; t2; t3] = Ok (db', outs) /\
    map Prefix outs = [100; 101; 102] /\
    read_next_prefix db' = Ok (Some [103; 0; 0; 0]).
Proof.
  intros marshal t1 t2 t3.
  destruct (TableNew_seq marshal (DB_fresh "") [t1; t2; t3]) as [[db' outs]|m|] eqn:E;
    [|vm_compute in E; discriminate E|vm_compute in E; discriminate E].
  exists db', outs. split; [reflexivity|].
  destruct (TableNew_prefix_monotonic marshal "" [t1; t2; t3] db' outs E)
    as (Hp & _ & _ & Hc).
  split; [exact Hp | exact Hc].
Defined.

(** ** Scan boundaries on the example table *)

(** C7, as the code has it. On the example table, whose INT64 primary
    key holds exactly the rows 1, 2, 3 and 5, the scan with the inclusive
    ascending bounds [2, 5] ([Cmp1 = CMP_GE] on 2, [Cmp2 = CMP_LE] on 5),
    driven by [Valid], [Deref] and [Next], yields exactly the rows 2, 3
    and 5 in this order and then stops. The scan of the same bounds with
    both comparator signs reversed ([Cmp1 = CMP_LE] on 2, [Cmp2 = CMP_GE]
    on 5) is a legal descending request: [Scan] accepts it and the
    scanner is exhausted at once. A request whose comparators point the
    same way fails with "bad range". *)
Theorem scan_boundaries_example :
  example_scan CMP_GE CMP_LE 2 5 =
    Ok (None, [example_row 2 [98]; example_row 3 [99]; example_row 5 [101]], false) /\
  example_scan (- CMP_GE) (- CMP_LE) 2 5 = Ok (None, [], false) /\
  example_scan CMP_GE CMP_GE 2 5 = Ok (Some "bad range"%string, [], false) /\
  example_scan CMP_LE CMP_LE 2 5 = Ok (Some "bad range"%string, [], false).
Proof. repeat split; vm_compute; reflexivity. Qed.

(** The second half of C7 as the specification states it fails: with the
    comparator signs reversed the scan is not rejected as a bad range. *)
Lemma scan_reversed_signs_accepted :
  - CMP_GE < 0 /\ 0 < - CMP_LE /\
  example_scan (- CMP_GE) (- CMP_LE) 2 5 <> Ok (Some "bad range"%string, [], false).
Proof.
  split; [reflexivity|]. split; [reflexivity|].
  intros H. vm_compute in H. discriminate H.
Qed.

(** ** The free list: counters *)

Section FreeListCounters.

Variable PAGE : Z.

Lemma fl_set_counters fl p f fl' :
  fl_set fl p f = Ok fl' ->
  headSeq fl' = headSeq fl /\ tailSeq fl' = tailSeq fl /\ maxSeq fl' = maxSeq fl /\
  headPage fl' = headPage fl /\ tailPage fl' = tailPage fl.
Proof.
  unfold fl_set. intros H. inv_bind H. inv_bind H. injection H as <-. cbn. auto.
Qed.

(** What [flPop] does to the counters. *)
Lemma flPop_counters fl ptr head fl' :
  flPop PAGE fl = Ok (ptr, head, fl') ->
  tailSeq fl' = tailSeq fl /\ maxSeq fl' = maxSeq fl /\ tailPage fl' = tailPage fl /\
  ((headSeq fl = maxSeq fl /\ fl' = fl /\ ptr = 0 /\ head = 0) \/
   (headSeq fl <> maxSeq fl /\ headSeq fl' = wrap64 (headSeq fl + 1))).
Proof.
  unfold flPop. intros H.
  destruct (Z.eqb_spec (headSeq fl) (maxSeq fl)) as [E|E].
  - injection H as <- <- <-. do 3 (split; [reflexivity|]). left. auto.
  - inv_bind H. inv_bind H.
    destruct (seq2idx PAGE (wrap64 (headSeq fl + 1)) =? 0).
    + inv_bind H. inv_bind H. injection H as <- <- <-. cbn.
      do 3 (split; [reflexivity|]). right. auto.
    + injection H as <- <- <-. cbn. do 3 (split; [reflexivity|]). right. auto.
Qed.

(** What [PushTail] does to the counters: the tail moves by one or two,
    the head by at most one and only below the watermark. *)
Lemma PushTail_counters fl ptr fl' :
  PushTail PAGE fl ptr = Ok fl' ->
  maxSeq fl' = maxSeq fl /\
  (tailSeq fl' = wrap64 (tailSeq fl + 1) \/
   tailSeq fl' = wrap64 (wrap64 (tailSeq fl + 1) + 1)) /\
  (headSeq fl' = headSeq fl \/
   (headSeq fl <> maxSeq fl /\ headSeq fl' = wrap64 (headSeq fl + 1))).
Proof.
  unfold PushTail. intros H.
  inv_bind H. rename a into fl1.
  destruct (fl_set_counters _ _ _ _ Ha) as (Hh1 & Ht1 & Hm1 & _ & _).
  cbn [with_tail tailSeq] in H.
  match type of H with context [if ?c then _ else _] => destruct c end.
  - inv_bind H. destruct a as [[next head] fl2].
    destruct (flPop_counters _ _ _ _ Ha0) as (Ht2 & Hm2 & _ & Hpop).
    cbn [with_tail tailSeq maxSeq headSeq] in Ht2, Hm2, Hpop.
    assert (Hh2 : headSeq fl2 = headSeq fl \/
                  (headSeq fl <> maxSeq fl /\ headSeq fl2 = wrap64 (headSeq fl + 1))).
    { destruct Hpop as [(E & -> & _)|(E & E')]; cbn [with_tail headSeq] in *.
      - left; congruence.
      - right. split; congruence. }
    clear Hpop.
    destruct (next =? 0).
    + cbn [fl_new] in H. inv_bind H. rename a into fl3.
      destruct (fl_set_counters _ _ _ _ Ha1) as (Hh3 & Ht3 & Hm3 & _ & _).
      cbn [headSeq tailSeq maxSeq] in Hh3, Ht3, Hm3.
      destruct (negb (head =? 0)).
      * inv_bind H. rename a into fl4.
        destruct (fl_set_counters _ _ _ _ Ha2) as (Hh4 & Ht4 & Hm4 & _ & _).
        cbn [with_tail headSeq tailSeq maxSeq] in Hh4, Ht4, Hm4.
        injection H as <-. cbn [with_tail headSeq tailSeq maxSeq].
        rewrite Hm4, Hm3, Hm2, Hm1, Ht4, Ht3, Ht2, Ht1, Hh4, Hh3.
        split; [reflexivity|]. split; [right; reflexivity|].
        destruct Hh2 as [->|[? ->]]; auto.
      * injection H as <-. cbn [with_tail headSeq tailSeq maxSeq].
        rewrite Hm3, Hm2, Hm1, Ht3, Ht2, Ht1, Hh3.
        split; [reflexivity|]. split; [left; reflexivity|].
        destruct Hh2 as [->|[? ->]]; auto.
    + inv_bind H. rename a into fl3.
      destruct (fl_set_counters _ _ _ _ Ha1) as (Hh3 & Ht3 & Hm3 & _ & _).
      destruct (negb (head =? 0)).
      * inv_bind H. rename a into fl4.
        destruct (fl_set_counters _ _ _ _ Ha2) as (Hh4 & Ht4 & Hm4 & _ & _).
        cbn [with_tail headSeq tailSeq maxSeq] in Hh4, Ht4, Hm4.
        injection H as <-. cbn [with_tail headSeq tailSeq maxSeq].
        rewrite Hm4, Hm3, Hm2, Hm1, Ht4, Ht3, Ht2, Ht1, Hh4, Hh3.
        split; [reflexivity|]. split; [right; reflexivity|].
        destruct Hh2 as [->|[? ->]]; auto.
      * injection H as <-. cbn [with_tail headSeq tailSeq maxSeq].
        rewrite Hm3, Hm2, Hm1, Ht3, Ht2, Ht1, Hh3.
        split; [reflexivity|]. split; [left; reflexivity|].
        destruct Hh2 as [->|[? ->]]; auto.
  - injection H as <-. cbn [with_tail headSeq tailSeq maxSeq].
    rewrite Hm1, Ht1, Hh1. auto.
Qed.

Lemma wrap64_small z : 0 <= z < 2 ^ 64 -> wrap64 z = z.
Proof. intros. unfold wrap64. now apply Z.mod_small. Qed.

(** One operation keeps the invariant as long as the tail counter stays
    two below the 64-bit limit, and moves the tail by at most two. *)
Lemma step_seq_inv fl o fl' r :
  seq_inv fl -> 0 <= headSeq fl -> tailSeq fl + 2 < 2 ^ 64 ->
  step PAGE fl o = Ok (fl', r) ->
  seq_inv fl' /\ 0 <= headSeq fl' /\ tailSeq fl' <= tailSeq fl + 2.
Proof.
  unfold seq_inv. intros [Hhm Hmt] Hh0 Hroom H.
  assert (PT : forall f x f', seq_inv f -> 0 <= headSeq f -> tailSeq f + 2 < 2 ^ 64 ->
                 PushTail PAGE f x = Ok f' ->
                 seq_inv f' /\ 0 <= headSeq f' /\ tailSeq f' <= tailSeq f + 2 /\
                 tailSeq f < tailSeq f').
  { clear. unfold seq_inv. intros f x f' [A B] C D E.
    destruct (PushTail_counters _ _ _ E) as (Hm & Ht & Hh).
    rewrite (wrap64_small (tailSeq f + 1)) in Ht by lia.
    rewrite (wrap64_small (tailSeq f + 1 + 1)) in Ht by lia.
    destruct Hh as [Hh|[Hne Hh]].
    - rewrite Hm, Hh. destruct Ht as [-> | ->]; lia.
    - rewrite wrap64_small in Hh by lia. rewrite Hm, Hh. destruct Ht as [-> | ->]; lia. }
  destruct o as [ptr| |]; cbn [step] in H.
  - inv_bind H. injection H as <- <-.
    destruct (PT _ _ _ (conj Hhm Hmt) Hh0 Hroom Ha) as (? & ? & ? & ?).
    split; [assumption|]. split; [assumption|lia].
  - inv_bind H. destruct a as [ptr fl1]. injection H as <- <-.
    unfold PopHead in Ha. inv_bind Ha. destruct a as [[p head] fl2].
    destruct (flPop_counters _ _ _ _ Ha0) as (Ht2 & Hm2 & _ & Hpop).
    assert (I2 : seq_inv fl2 /\ 0 <= headSeq fl2).
    { unfold seq_inv. destruct Hpop as [(E & -> & _)|(E & E')]; [auto|].
      rewrite wrap64_small in E' by lia. rewrite Hm2, Ht2, E'. lia. }
    destruct I2 as [I2 H02].
    destruct (negb (head =? 0)).
    + inv_bind Ha. injection Ha as <- <-.
      destruct (PT _ _ _ I2 H02 ltac:(lia) Ha1) as (? & ? & ? & ?).
      split; [assumption|]. split; [assumption|lia].
    + injection Ha as <- <-. split; [assumption|]. split; [assumption|lia].
  - injection H as <- <-. cbn. lia.
Qed.

(** C5, as the code has it. From a state with
    [headSeq <= maxSeq <= tailSeq], every sequence of [PushTail],
    [PopHead] and [SetMaxSeq] operations leads to a state with
    [headSeq <= maxSeq <= tailSeq], as long as the 64-bit tail counter
    cannot wrap around: it starts at least two counts per operation below
    [2 ^ 64]. *)
Theorem seq_inv_preserved (ops : list op) : forall fl fl' rs,
  seq_inv fl -> 0 <= headSeq fl ->
  tailSeq fl + 2 * Z.of_nat (length ops) < 2 ^ 64 ->
  run PAGE fl ops = Ok (fl', rs) ->
  seq_inv fl'.
Proof.
  induction ops as [|o ops IH]; intros fl fl' rs Hinv Hh Hroom H; cbn [run] in H.
  - now injection H as <- _.
  - inv_bind H. destruct a as [fl1 r]. inv_bind H. destruct a as [fl2 rs'].
    injection H as <- _.
    cbn [length] in Hroom.
    destruct (step_seq_inv _ _ _ _ Hinv Hh ltac:(lia) Ha) as (I1 & H1 & T1).
    apply (IH fl1 fl2 rs' I1 H1); [lia | exact Ha0].
Qed.

End FreeListCounters.

Lemma seq_inv_preserved_witness :
  let page := repeat 0 (Z.to_nat 4096) in
  let fl := fl_fresh [page; page; page; page] 1 in
  let ops := [OpPushTail 2; OpPushTail 3; OpSetMaxSeq; OpPopHead; OpPushTail 2; OpPopHead; OpPopHead] in
  exists fl' rs, run 4096 fl ops = Ok (fl', rs) /\ seq_inv fl'.
Proof.
  intros page fl ops.
  destruct (run 4096 fl ops) as [[fl' rs]|m|] eqn:E.
  - exists fl', rs. split; [reflexivity|].
    apply (seq_inv_preserved 4096 ops fl fl' rs);
      [ unfold seq_inv, fl, fl_fresh; cbn [headSeq maxSeq tailSeq]; lia
      | unfold fl, fl_fresh; cbn [headSeq]; lia
      | vm_compute; reflexivity
      | exact E ].
  - exfalso.
    assert (H : (let* (f, r) := run 4096 fl ops in Ok (counters f, r)) = Error m)
      by now rewrite E.
    vm_compute in H. discriminate H.
  - exfalso.
    assert (H : (let* (f, r) := run 4096 fl ops in Ok (counters f, r)) = Panic)
      by now rewrite E.
    vm_compute in H. discriminate H.
Defined.

(** The invariant as C5 states it, for every state that satisfies the
    inequalities, fails at the end of the 64-bit range: a [PushTail] on a
    list whose three counters are [2 ^ 64 - 1] wraps the tail counter to
    zero, below the watermark. *)
Lemma seq_inv_wraps_at_uint64_max :
  let page := repeat 0 (Z.to_nat 4096) in
  let fl := mkFreeList [page; page] 1 (2 ^ 64 - 1) 1 (2 ^ 64 - 1) (2 ^ 64 - 1) in
  seq_inv fl /\
  exists fl', run 4096 fl [OpPushTail 7] = Ok (fl', []) /\ ~ seq_inv fl'.
Proof.
  intros page fl. split; [unfold seq_inv, fl; cbn [headSeq maxSeq tailSeq]; lia|].
  assert (H : (let* (f, r) := run 4096 fl [OpPushTail 7] in Ok (counters f, r)) =
              Ok ((2 ^ 64 - 1, 2 ^ 64 - 1, 0), [])) by (vm_compute; reflexivity).
  destruct (run 4096 fl [OpPushTail 7]) as [[fl' rs]|m|]; cbn [bind] in H; try discriminate H.
  injection H as Hh Hm Ht Hr. subst rs.
  exists fl'. split; [reflexivity|].
  unfold seq_inv. rewrite Hm, Ht. lia.
Qed.

(** ** The free list: nodes as bytes *)

Lemma nth_error_lookup {A} (l : list A) (i : nat) : nth_error l i = l !! i.
Proof. revert i; induction l as [|x l IH]; intros [|i]; cbn; auto. Qed.

(** A list with the eight bytes [d] written at offset [b], read at [k]. *)
Lemma lookup_patch (l d : list Z) (b k : nat) :
  length d = 8%nat -> (b + 8 <= length l)%nat ->
  (take b l ++ d ++ drop (b + 8) l) !! k =
  if (k <? b)%nat then l !! k
  else if (k <? b + 8)%nat then d !! (k - b)%nat else l !! k.
Proof.
  intros Hd Hl.
  assert (Ht : length (take b l) = b) by (rewrite length_take; lia).
  destruct (Nat.ltb_spec k b) as [L|L].
  - rewrite lookup_app_l by lia. now rewrite lookup_take_lt.
  - rewrite lookup_app_r by lia. rewrite Ht.
    destruct (Nat.ltb_spec k (b + 8)) as [L'|L'].
    + now rewrite lookup_app_l by lia.
    + rewrite lookup_app_r by lia. rewrite lookup_drop, Hd. f_equal. lia.
Qed.

Lemma length_patch (l d : list Z) (b : nat) :
  length d = 8%nat -> (b + 8 <= length l)%nat ->
  length (take b l ++ d ++ drop (b + 8) l) = length l.
Proof.
  intros Hd Hl. rewrite !length_app, length_take, length_drop. lia.
Qed.

Lemma window_patch_same (l d : list Z) (b : nat) :
  length d = 8%nat -> (b + 8 <= length l)%nat ->
  take 8 (drop b (take b l ++ d ++ drop (b + 8) l)) = d.
Proof.
  intros Hd Hl. apply list_eq. intros i.
  destruct (Nat.lt_ge_cases i 8) as [L|L].
  - rewrite lookup_take_lt by lia. rewrite lookup_drop, lookup_patch by assumption.
    destruct (Nat.ltb_spec (b + i) b); [lia|].
    destruct (Nat.ltb_spec (b + i) (b + 8)); [|lia].
    f_equal. lia.
  - rewrite lookup_take_ge by lia. symmetry. apply lookup_ge_None. lia.
Qed.

Lemma window_patch_other (l d : list Z) (a b : nat) :
  length d = 8%nat -> (b + 8 <= length l)%nat ->
  (a + 8 <= b)%nat \/ (b + 8 <= a)%nat ->
  take 8 (drop a (take b l ++ d ++ drop (b + 8) l)) = take 8 (drop a l).
Proof.
  intros Hd Hl Hab. apply list_eq. intros i.
  destruct (Nat.lt_ge_cases i 8) as [L|L].
  - rewrite !lookup_take_lt by lia. rewrite !lookup_drop, lookup_patch by assumption.
    destruct (Nat.ltb_spec (a + i) b); [reflexivity|].
    destruct (Nat.ltb_spec (a + i) (b + 8)); [lia|reflexivity].
  - now rewrite !lookup_take_ge by lia.
Qed.

Section FreeListNodes.

Variable PAGE : Z.
Hypothesis HPAGE : 24 <= PAGE.

Local Abbreviation CAP := (FREE_LIST_CAP PAGE).

Lemma cap_bounds : 2 <= CAP /\ 8 + 8 * CAP <= PAGE.
Proof.
  unfold FREE_LIST_CAP, FREE_LIST_HEADER. Z.div_mod_to_equations. lia.
Qed.

Lemma getNext_eq pg :
  node_ok PAGE pg -> getNext pg = Ok (le_value (take 8 pg)).
Proof.
  unfold node_ok. intros Hpg. unfold getNext, subslice.
  destruct (Z.ltb_spec (Z.of_nat (length pg)) 8) as [L|L]; [lia|].
  change ((0 <? 0) || (8 <? 0) || false) with false. cbn iota.
  change (Z.to_nat (8 - 0)) with 8%nat.
  change (Z.to_nat 0) with 0%nat. rewrite skipn_O. cbn [bind].
  unfold LittleEndian.Uint64.
  assert (Hlen : length (firstn 8 pg) = 8%nat) by (rewrite length_take; lia).
  rewrite Hlen. change (8 <? 8)%nat with false. cbn iota.
  now rewrite firstn_all2 by lia.
Qed.

Lemma setNext_eq pg n :
  node_ok PAGE pg -> setNext pg n = Ok (le_digits 8 n ++ drop 8 pg).
Proof.
  unfold node_ok. intros Hpg. unfold setNext, subslice.
  destruct (Z.ltb_spec (Z.of_nat (length pg)) 8) as [L|L]; [lia|].
  change ((0 <? 0) || (8 <? 0) || false) with false. cbn iota.
  change (Z.to_nat (8 - 0)) with 8%nat.
  change (Z.to_nat 0) with 0%nat. rewrite skipn_O. cbn [bind].
  unfold LittleEndian.PutUint64.
  assert (Hlen : length (firstn 8 pg) = 8%nat) by (rewrite length_take; lia).
  rewrite Hlen. change (8 <? 8)%nat with false. cbn [bind].
  unfold overwrite.
  rewrite skipn_all2 by lia. rewrite app_nil_r, le_digits_length.
  reflexivity.
Qed.

Lemma getPtr_eq pg i :
  node_ok PAGE pg -> 0 <= i < CAP ->
  getPtr pg i = Ok (le_value (take 8 (drop (ptr_offset i) pg))).
Proof.
  unfold node_ok. intros Hpg Hi. pose proof cap_bounds as [_ Hc].
  unfold getPtr, slice_from, ptr_offset, FREE_LIST_HEADER in *.
  destruct (Z.ltb_spec (8 + 8 * i) 0) as [L|L]; [lia|].
  destruct (Z.ltb_spec (Z.of_nat (length pg)) (8 + 8 * i)) as [L'|L']; [lia|].
  cbn [orb bind]. unfold LittleEndian.Uint64.
  rewrite length_drop.
  destruct (Nat.ltb_spec (length pg - Z.to_nat (8 + 8 * i)) 8) as [L2|L2]; [lia|].
  reflexivity.
Qed.

Lemma setPtr_eq pg i v :
  node_ok PAGE pg -> 0 <= i < CAP ->
  setPtr PAGE pg i v =
  Ok (take (ptr_offset i) pg ++ le_digits 8 v ++ drop (ptr_offset i + 8) pg).
Proof.
  unfold node_ok. intros Hpg Hi. pose proof cap_bounds as [_ Hc].
  unfold setPtr, slice_from, ptr_offset, FREE_LIST_HEADER in *.
  destruct (Z.ltb_spec i CAP) as [L0|L0]; [|lia]. cbn [assert bind].
  destruct (Z.ltb_spec (8 + 8 * i) 0) as [L|L]; [lia|].
  destruct (Z.ltb_spec (Z.of_nat (length pg)) (8 + 8 * i)) as [L'|L']; [lia|].
  cbn [orb bind]. unfold LittleEndian.PutUint64.
  rewrite length_drop.
  destruct (Nat.ltb_spec (length pg - Z.to_nat (8 + 8 * i)) 8) as [L2|L2]; [lia|].
  cbn [bind]. unfold overwrite.
  rewrite length_app, le_digits_length, !length_drop.
  rewrite (skipn_all2 (n := Z.to_nat (8 + 8 * i) +
                               (8 + (length pg - Z.to_nat (8 + 8 * i) - 8)))) by lia.
  rewrite app_nil_r, drop_drop. reflexivity.
Qed.

Lemma ptr_offset_bounds pg i :
  node_ok PAGE pg -> 0 <= i < CAP ->
  (8 <= ptr_offset i)%nat /\ (ptr_offset i + 8 <= length pg)%nat /\
  Z.of_nat (ptr_offset i) = 8 + 8 * i.
Proof.
  unfold node_ok, ptr_offset, FREE_LIST_HEADER. intros Hpg Hi. pose proof cap_bounds. lia.
Qed.

(** The laws of the node accessors on page-sized nodes. *)
Lemma setPtr_laws pg i v :
  node_ok PAGE pg -> 0 <= i < CAP -> uint64_ok v ->
  exists pg',
    setPtr PAGE pg i v = Ok pg' /\ node_ok PAGE pg' /\
    getPtr pg' i = Ok v /\
    (forall j, 0 <= j < CAP -> j <> i -> getPtr pg' j = getPtr pg j) /\
    getNext pg' = getNext pg.
Proof.
  intros Hpg Hi Hv.
  destruct (ptr_offset_bounds pg i Hpg Hi) as (Ho1 & Ho2 & Ho3).
  eexists. split; [apply setPtr_eq; assumption|].
  assert (Hok : node_ok PAGE (take (ptr_offset i) pg ++ le_digits 8 v ++
                              drop (ptr_offset i + 8) pg)).
  { unfold node_ok in *. rewrite length_patch; auto using le_digits_length. }
  split; [exact Hok|]. split; [|split].
  - rewrite getPtr_eq by assumption.
    rewrite window_patch_same by auto using le_digits_length.
    now rewrite le_value_digits_small.
  - intros j Hj Hne.
    destruct (ptr_offset_bounds pg j Hpg Hj) as (Hj1 & Hj2 & Hj3).
    rewrite !getPtr_eq by assumption.
    rewrite window_patch_other; auto using le_digits_length; lia.
  - rewrite !getNext_eq by assumption.
    change (take 8 ?l) with (take 8 (drop 0 l)).
    rewrite window_patch_other; auto using le_digits_length; lia.
Qed.

Lemma setNext_laws pg n :
  node_ok PAGE pg -> uint64_ok n ->
  exists pg',
    setNext pg n = Ok pg' /\ node_ok PAGE pg' /\
    getNext pg' = Ok n /\
    (forall j, 0 <= j < CAP -> getPtr pg' j = getPtr pg j).
Proof.
  intros Hpg Hn. pose proof cap_bounds as [_ Hc].
  assert (Hl : (0 + 8 <= length pg)%nat) by (unfold node_ok in Hpg; lia).
  eexists. split; [apply setNext_eq; assumption|].
  change (le_digits 8 n ++ drop 8 pg)
    with (take 0 pg ++ le_digits 8 n ++ drop (0 + 8) pg).
  assert (Hok : node_ok PAGE (take 0 pg ++ le_digits 8 n ++ drop (0 + 8) pg)).
  { unfold node_ok in *. rewrite length_patch; auto using le_digits_length. }
  split; [exact Hok|]. split.
  - rewrite getNext_eq by assumption.
    change (take 8 ?l) with (take 8 (drop 0 l)).
    rewrite window_patch_same by auto using le_digits_length.
    now rewrite le_value_digits_small.
  - intros j Hj.
    destruct (ptr_offset_bounds pg j Hpg Hj) as (Hj1 & Hj2 & Hj3).
    rewrite !getPtr_eq by assumption.
    rewrite window_patch_other; auto using le_digits_length; lia.
Qed.

Lemma getPtr_total pg i :
  node_ok PAGE pg -> 0 <= i < CAP -> exists v, getPtr pg i = Ok v.
Proof. intros. eexists. now apply getPtr_eq. Qed.

End FreeListNodes.

(** ** The free list: the list refines the queue *)

Lemma dm_wrap c s :
  0 < c -> (s + 1) mod c = 0 -> (s + 1) / c = s / c + 1 /\ s mod c = c - 1.
Proof.
  intros Hc H.
  pose proof (Z.div_mod s c ltac:(lia)). pose proof (Z.div_mod (s + 1) c ltac:(lia)).
  pose proof (Z.mod_pos_bound s c Hc). pose proof (Z.mod_pos_bound (s + 1) c Hc).
  rewrite H in *.
  assert ((s + 1) / c = s / c + 1) by nia.
  split; [assumption | nia].
Qed.

Lemma dm_step c s :
  0 < c -> (s + 1) mod c <> 0 -> (s + 1) / c = s / c /\ (s + 1) mod c = s mod c + 1.
Proof.
  intros Hc H.
  pose proof (Z.div_mod s c ltac:(lia)). pose proof (Z.div_mod (s + 1) c ltac:(lia)).
  pose proof (Z.mod_pos_bound s c Hc). pose proof (Z.mod_pos_bound (s + 1) c Hc).
  assert ((s + 1) / c = s / c) by nia.
  split; [assumption | nia].
Qed.

Lemma dm_inj c s t : 0 < c -> s / c = t / c -> s mod c = t mod c -> s = t.
Proof.
  intros Hc Hd Hm.
  pose proof (Z.div_mod s c ltac:(lia)). pose proof (Z.div_mod t c ltac:(lia)).
  rewrite Hd, Hm in *. lia.
Qed.

Lemma dm_mono c s t : 0 < c -> s <= t -> s / c <= t / c.
Proof. intros. apply Z.div_le_mono; lia. Qed.

Lemma fl_get_lookup fl n pg :
  0 <= n -> pages fl !! Z.to_nat n = Some pg -> fl_get fl n = Ok pg.
Proof.
  intros Hn Hl. unfold fl_get, index_Z, index.
  destruct (Z.ltb_spec n 0); [lia|]. now rewrite nth_error_lookup, Hl.
Qed.

Lemma fl_set_lookup fl n f pg pg' :
  0 <= n -> pages fl !! Z.to_nat n = Some pg -> f pg = Ok pg' ->
  fl_set fl n f =
  Ok (mkFreeList (<[Z.to_nat n := pg']> (pages fl))
                 (headPage fl) (headSeq fl) (tailPage fl) (tailSeq fl) (maxSeq fl)).
Proof.
  intros Hn Hl Hf. unfold fl_set, index_Z, index.
  destruct (Z.ltb_spec n 0); [lia|]. rewrite nth_error_lookup, Hl. cbn [bind].
  now rewrite Hf.
Qed.

Section FreeListRefine.

Variable PAGE : Z.
Hypothesis HPAGE : 24 <= PAGE.

Local Abbreviation CAP := (FREE_LIST_CAP PAGE).

Lemma cap_pos : 0 < CAP.
Proof. pose proof (cap_bounds PAGE HPAGE). lia. Qed.

Lemma mod_cap_bounds s : 0 <= s mod CAP < CAP.
Proof. apply Z.mod_pos_bound. apply cap_pos. Qed.

(** A node or an item of a represented list is a page of the store. *)
Lemma Rep_page fl a tb n :
  Rep PAGE fl a tb -> n ∈ a_nodes a ++ a_items a ->
  0 < n < a_npages a /\
  exists pg, pages fl !! Z.to_nat n = Some pg /\ node_ok PAGE pg.
Proof.
  intros R Hn. pose proof (r_valid _ _ _ _ R n Hn) as Hv. split; [exact Hv|].
  rewrite <- (r_np _ _ _ _ R) in Hv.
  destruct (lookup_lt_is_Some_2 (pages fl) (Z.to_nat n) ltac:(lia)) as [pg Hpg].
  exists pg. split; [exact Hpg|].
  exact (proj1 (Forall_lookup _ _) (r_pages _ _ _ _ R) _ _ Hpg).
Qed.

Lemma Rep_nodes_length fl a tb :
  Rep PAGE fl a tb -> (1 <= length (a_nodes a))%nat.
Proof.
  intros R. pose proof (r_headPage _ _ _ _ R) as H.
  apply lookup_lt_Some in H. lia.
Qed.

Lemma Rep_tail_lookup fl a tb :
  Rep PAGE fl a tb -> a_nodes a !! (length (a_nodes a) - 1)%nat = Some (tailPage fl).
Proof.
  intros R. pose proof (r_tailPage _ _ _ _ R) as H. rewrite last_lookup in H.
  now replace (length (a_nodes a) - 1)%nat with (pred (length (a_nodes a))) by lia.
Qed.

(** The index of the node that holds sequence number [s]. *)
Lemma node_index_last fl a tb :
  Rep PAGE fl a tb ->
  Z.to_nat (tb - a_head a / CAP) = (length (a_nodes a) - 1)%nat.
Proof.
  intros R. pose proof (r_nslen _ _ _ _ R). pose proof (Rep_nodes_length _ _ _ R). lia.
Qed.

(** The first step of [PushTail]: the pointer goes to the slot of
    [tailSeq] in the tail node. *)
Lemma write_tail_refines fl a x :
  represents PAGE fl a -> free_page a x ->
  a_tail a + 1 < 2 ^ 64 -> a_npages a < 2 ^ 64 ->
  exists fl1,
    fl_set fl (tailPage fl) (fun node => setPtr PAGE node (a_tail a mod CAP) x) = Ok fl1 /\
    Rep PAGE (with_tail fl1 (tailPage fl1) (a_tail a + 1))
        (mkAQ (a_head a) (a_max a) (a_tail a + 1) (a_items a ++ [x])
              (a_nodes a) (a_npages a))
        (a_tail a / CAP).
Proof.
  intros R [Hx Hfresh] Ht64 Hnp64. unfold represents in R.
  pose proof cap_pos as HC.
  pose proof (Rep_tail_lookup _ _ _ R) as Htl.
  pose proof (node_index_last _ _ _ R) as Hlast.
  assert (Htp : tailPage fl ∈ a_nodes a ++ a_items a).
  { apply elem_of_app. left. eapply list_elem_of_lookup_2; eauto. }
  destruct (Rep_page _ _ _ _ R Htp) as (Htpv & pg & Hpg & Hpgok).
  destruct (setPtr_laws PAGE HPAGE pg (a_tail a mod CAP) x Hpgok (mod_cap_bounds _)
              ltac:(unfold uint64_ok; lia)) as (pg' & Hset & Hpg'ok & Hget & Hother & Hnext).
  eexists. split; [apply (fl_set_lookup fl (tailPage fl) _ pg pg'); [lia|exact Hpg|exact Hset]|].
  assert (Htpl : (Z.to_nat (tailPage fl) < length (pages fl))%nat)
    by (apply lookup_lt_Some in Hpg; exact Hpg).
  destruct R as [Rh Rm Rt Rnp Rh0 Rhm Rmt Rql Rnl Rtb Rhp Rtp Rpg Rit Rnx Rv Rnd].
  constructor; cbn [with_tail pages headPage headSeq tailPage tailSeq maxSeq
                    a_head a_max a_tail a_items a_nodes a_npages]; try assumption; try lia.
  - now rewrite length_insert.
  - rewrite length_app. cbn [length]. lia.
  - now apply Forall_insert.
  - (* items *)
    intros k x' Hk.
    apply lookup_app_Some in Hk. destruct Hk as [Hk|[Hge Hk]].
    + destruct (Rit k x' Hk) as (n & pgk & Hn & Hp & Hg).
      pose proof (lookup_lt_Some _ _ _ Hk) as Hklt.
      exists n. destruct (Z.eq_dec n (tailPage fl)) as [->|Hne].
      * exists pg'. split; [exact Hn|]. split; [now apply list_lookup_insert_eq|].
        rewrite Hp in Hpg. injection Hpg as ->.
        rewrite Hother; [exact Hg|apply mod_cap_bounds|].
        intros Heq.
        pose proof (NoDup_lookup (a_nodes a) _ _ _
                      (proj1 (proj1 (NoDup_app _ _) Rnd)) Hn Htl) as Hidx.
        assert (Hdiv : (a_head a + Z.of_nat k) / CAP = a_tail a / CAP).
        { pose proof (dm_mono CAP (a_head a) (a_head a + Z.of_nat k) HC ltac:(lia)).
          pose proof (dm_mono CAP (a_head a) (a_tail a) HC ltac:(lia)). lia. }
        pose proof (dm_inj CAP _ _ HC Hdiv Heq). lia.
      * exists pgk. split; [exact Hn|]. split; [|exact Hg].
        rewrite list_lookup_insert_ne; [exact Hp|].
        assert (0 < n).
        { apply (Rv n). apply elem_of_app. left. eapply list_elem_of_lookup_2; eauto. }
        lia.
    + destruct (decide (k - length (a_items a) = 0)%nat) as [E|E];
        [|destruct (k - length (a_items a))%nat; [lia|discriminate]].
      rewrite E in Hk. injection Hk as <-.
      assert (Hs : a_head a + Z.of_nat k = a_tail a) by lia.
      rewrite Hs. exists (tailPage fl), pg'.
      split; [rewrite Hlast; exact Htl|].
      split; [now apply list_lookup_insert_eq | exact Hget].
  - (* next pointers *)
    intros j n n' Hj Hj'.
    destruct (Rnx j n n' Hj Hj') as (pgj & Hp & Hg).
    destruct (Z.eq_dec n (tailPage fl)) as [->|Hne].
    + exists pg'. split; [now apply list_lookup_insert_eq|].
      rewrite Hp in Hpg. injection Hpg as ->. now rewrite Hnext.
    + exists pgj. split; [|exact Hg].
      rewrite list_lookup_insert_ne; [exact Hp|].
      assert (0 < n).
      { apply (Rv n). apply elem_of_app. left. eapply list_elem_of_lookup_2; eauto. }
      lia.
  - (* valid *)
    intros y Hy. rewrite app_assoc in Hy. apply elem_of_app in Hy.
    destruct Hy as [Hy|Hy]; [now apply Rv|].
    apply list_elem_of_singleton in Hy. now subst y.
  - (* nodup *)
    rewrite app_assoc. apply NoDup_app. split; [exact Rnd|]. split.
    + intros y Hy Hy'. apply list_elem_of_singleton in Hy'. now subst y.
    + apply NoDup_singleton.
Qed.

(** The cases of [flPop] on a represented list. *)
Lemma a_flPop_cases fl a tb :
  Rep PAGE fl a tb ->
  (a_head a = a_max a /\ a_flPop PAGE a = (0, 0, a)) \/
  (a_head a < a_max a /\ exists x q, a_items a = x :: q /\
   (((a_head a + 1) mod CAP <> 0 /\
     a_flPop PAGE a =
       (x, 0, mkAQ (a_head a + 1) (a_max a) (a_tail a) q (a_nodes a) (a_npages a))) \/
    ((a_head a + 1) mod CAP = 0 /\ exists h n ns, a_nodes a = h :: n :: ns /\
     a_flPop PAGE a =
       (x, h, mkAQ (a_head a + 1) (a_max a) (a_tail a) q (n :: ns) (a_npages a))))).
Proof.
  intros R. pose proof cap_pos as HC.
  destruct R as [Rh Rm Rt Rnp Rh0 Rhm Rmt Rql Rnl Rtb Rhp Rtp Rpg Rit Rnx Rv Rnd].
  unfold a_flPop.
  destruct (Z.eqb_spec (a_head a) (a_max a)) as [E|E]; [left; auto|right].
  split; [lia|].
  destruct (a_items a) as [|x q] eqn:Eq; [cbn [length] in Rql; lia|].
  exists x, q. split; [reflexivity|].
  destruct (Z.eqb_spec ((a_head a + 1) mod CAP) 0) as [Ew|Ew]; [right|left; auto].
  split; [exact Ew|].
  destruct (dm_wrap CAP (a_head a) HC Ew) as [Hd _].
  pose proof (dm_mono CAP (a_head a + 1) (a_max a) HC ltac:(lia)).
  destruct (a_nodes a) as [|h [|n ns]] eqn:En; cbn [length] in Rnl; try lia.
  exists h, n, ns. auto.
Qed.

Lemma NoDup_app_cons_drop (l q : list Z) x : NoDup (l ++ x :: q) -> NoDup (l ++ q).
Proof.
  intros H. apply NoDup_app in H. destruct H as (Hl & Hd & Hq).
  apply NoDup_cons in Hq. destruct Hq as [_ Hq].
  apply NoDup_app. split; [exact Hl|]. split; [|exact Hq].
  intros y Hy Hy'. apply (Hd y Hy). now apply elem_of_cons; right.
Qed.

(** [flPop] refines [a_flPop]; it leaves the pages as they are. *)
Lemma flPop_refines fl a tb :
  Rep PAGE fl a tb -> a_head a + 1 < 2 ^ 64 ->
  exists fl',
    flPop PAGE fl = Ok (fst (fst (a_flPop PAGE a)), snd (fst (a_flPop PAGE a)), fl') /\
    Rep PAGE fl' (snd (a_flPop PAGE a)) tb /\
    pages fl' = pages fl.
Proof.
  intros R H64. pose proof cap_pos as HC.
  destruct (a_flPop_cases fl a tb R)
    as [[E ->]|(L & x & q & Eq & [[Ew ->]|(Ew & h & n & ns & En & ->)])];
    cbn [fst snd].
  - exists fl. split; [|auto]. unfold flPop.
    rewrite (r_head _ _ _ _ R), (r_max _ _ _ _ R), E, Z.eqb_refl. reflexivity.
  - (* the head stays in its node *)
    destruct (dm_step CAP (a_head a) HC Ew) as [Hd Hm].
    destruct R as [Rh Rm Rt Rnp Rh0 Rhm Rmt Rql Rnl Rtb Rhp Rtp Rpg Rit Rnx Rv Rnd].
    rewrite Eq in *.
    destruct (Rit 0%nat x eq_refl) as (n0 & pg & Hn & Hp & Hg).
    replace (a_head a + Z.of_nat 0) with (a_head a) in Hn, Hg by lia.
    rewrite Z.sub_diag in Hn. change (Z.to_nat 0) with 0%nat in Hn.
    rewrite Rhp in Hn. injection Hn as <-.
    assert (Hhp : 0 < headPage fl).
    { apply (Rv (headPage fl)). apply elem_of_app. left.
      eapply list_elem_of_lookup_2; eauto. }
    eexists. split.
    + unfold flPop. rewrite Rh, Rm.
      destruct (Z.eqb_spec (a_head a) (a_max a)); [lia|].
      rewrite (fl_get_lookup fl (headPage fl) pg) by (lia || assumption). cbn [bind].
      unfold seq2idx. rewrite Hg. cbn [bind].
      rewrite wrap64_small by lia.
      destruct (Z.eqb_spec ((a_head a + 1) mod CAP) 0); [contradiction|]. reflexivity.
    + split; [|reflexivity].
      constructor; cbn [pages headPage headSeq tailPage tailSeq maxSeq
                        a_head a_max a_tail a_items a_nodes a_npages];
        try assumption; try lia.
      * cbn [length] in Rql. lia.
      * intros k x' Hk. destruct (Rit (S k) x' Hk) as (n1 & pg1 & Hn1 & Hp1 & Hg1).
        replace (a_head a + 1 + Z.of_nat k) with (a_head a + Z.of_nat (S k)) by lia.
        rewrite Hd. eauto.
      * intros y Hy. apply Rv. apply elem_of_app in Hy. apply elem_of_app.
        destruct Hy; [now left | right; now apply elem_of_cons; right].
      * now apply NoDup_app_cons_drop with x.
  - (* the head moves to the next node *)
    destruct (dm_wrap CAP (a_head a) HC Ew) as [Hd Hm].
    destruct R as [Rh Rm Rt Rnp Rh0 Rhm Rmt Rql Rnl Rtb Rhp Rtp Rpg Rit Rnx Rv Rnd].
    rewrite Eq, En in *.
    destruct (Rit 0%nat x eq_refl) as (n0 & pg & Hn & Hp & Hg).
    replace (a_head a + Z.of_nat 0) with (a_head a) in Hn, Hg by lia.
    rewrite Z.sub_diag in Hn. change (Z.to_nat 0) with 0%nat in Hn.
    cbn in Hn, Rhp. injection Hn as <-. injection Rhp as Rhp.
    assert (Hhp : 0 < h).
    { apply (Rv h). apply elem_of_app. left. now apply elem_of_cons; left. }
    assert (Hn0 : 0 < n).
    { apply (Rv n). apply elem_of_app. left. apply elem_of_cons; right.
      now apply elem_of_cons; left. }
    destruct (Rnx 0%nat h n eq_refl eq_refl) as (pg0 & Hp0 & Hnext).
    rewrite Hp in Hp0. injection Hp0 as <-.
    eexists. split.
    + unfold flPop. rewrite Rh, Rm.
      destruct (Z.eqb_spec (a_head a) (a_max a)); [lia|].
      rewrite (fl_get_lookup fl (headPage fl) pg) by (rewrite <- ?Rhp; lia || assumption).
      cbn [bind]. unfold seq2idx. rewrite Hg. cbn [bind].
      rewrite wrap64_small by lia.
      destruct (Z.eqb_spec ((a_head a + 1) mod CAP) 0); [|contradiction].
      rewrite Hnext. cbn [bind].
      destruct (Z.eqb_spec n 0); [lia|]. cbn [negb assert bind].
      rewrite <- Rhp. reflexivity.
    + split; [|reflexivity].
      constructor; cbn [pages headPage headSeq tailPage tailSeq maxSeq
                        a_head a_max a_tail a_items a_nodes a_npages];
        try assumption; try lia.
      * cbn [length] in Rql. lia.
      * cbn [length] in Rnl |- *. lia.
      * reflexivity.
      * intros k x' Hk. destruct (Rit (S k) x' Hk) as (n1 & pg1 & Hn1 & Hp1 & Hg1).
        replace (a_head a + 1 + Z.of_nat k) with (a_head a + Z.of_nat (S k)) by lia.
        rewrite Hd.
        pose proof (dm_mono CAP (a_head a + 1) (a_head a + Z.of_nat (S k)) HC ltac:(lia)).
        exists n1, pg1. split; [|auto].
        replace (Z.to_nat ((a_head a + Z.of_nat (S k)) / CAP - a_head a / CAP))
          with (S (Z.to_nat ((a_head a + Z.of_nat (S k)) / CAP - (a_head a / CAP + 1))))
          in Hn1 by lia.
        exact Hn1.
      * intros j m m' Hj Hj'. apply (Rnx (S j) m m'); assumption.
      * intros y Hy. apply Rv. apply elem_of_app in Hy. apply elem_of_app.
        destruct Hy as [Hy|Hy]; [left; now apply elem_of_cons; right|].
        right; now apply elem_of_cons; right.
      * apply NoDup_app_cons_drop in Rnd. cbn in Rnd. now apply NoDup_cons in Rnd.
Qed.

(** [fl.new] adds a page and touches nothing else. *)
Lemma new_page_refines fl a tb :
  Rep PAGE fl a tb ->
  snd (fl_new fl (repeat 0 (Z.to_nat PAGE))) = a_npages a /\
  Rep PAGE (fst (fl_new fl (repeat 0 (Z.to_nat PAGE))))
      (mkAQ (a_head a) (a_max a) (a_tail a) (a_items a) (a_nodes a) (a_npages a + 1)) tb.
Proof.
  intros R.
  destruct R as [Rh Rm Rt Rnp Rh0 Rhm Rmt Rql Rnl Rtb Rhp Rtp Rpg Rit Rnx Rv Rnd].
  unfold fl_new. cbn [fst snd]. split; [exact Rnp|].
  constructor; cbn [pages headPage headSeq tailPage tailSeq maxSeq
                    a_head a_max a_tail a_items a_nodes a_npages]; try assumption; try lia.
  - rewrite length_app. cbn [length]. lia.
  - apply Forall_app. split; [exact Rpg|]. constructor; [|constructor].
    unfold node_ok. rewrite repeat_length. lia.
  - intros k x Hk. destruct (Rit k x Hk) as (n & pg & Hn & Hp & Hg).
    exists n, pg. split; [exact Hn|]. split; [|exact Hg]. now apply lookup_app_l_Some.
  - intros j n n' Hj Hj'. destruct (Rnx j n n' Hj Hj') as (pg & Hp & Hg).
    exists pg. split; [|exact Hg]. now apply lookup_app_l_Some.
  - intros x Hx. specialize (Rv x Hx). lia.
Qed.

(** The full tail node is linked to its successor [nx], which becomes
    the tail node. *)
Lemma link_refines fl a nx :
  Rep PAGE fl a (a_tail a / CAP - 1) ->
  0 < nx < a_npages a -> nx ∉ a_nodes a ++ a_items a -> a_npages a < 2 ^ 64 ->
  exists fl3,
    fl_set fl (tailPage fl) (fun node => setNext node nx) = Ok fl3 /\
    represents PAGE (with_tail fl3 nx (tailSeq fl3))
      (mkAQ (a_head a) (a_max a) (a_tail a) (a_items a) (a_nodes a ++ [nx]) (a_npages a)).
Proof.
  intros R Hnx Hfresh Hnp64. unfold represents.
  pose proof cap_pos as HC.
  pose proof (Rep_tail_lookup _ _ _ R) as Htl.
  pose proof (Rep_nodes_length _ _ _ R) as Hlen.
  assert (Htp : tailPage fl ∈ a_nodes a ++ a_items a).
  { apply elem_of_app. left. eapply list_elem_of_lookup_2; eauto. }
  destruct (Rep_page _ _ _ _ R Htp) as (Htpv & pg & Hpg & Hpgok).
  destruct (setNext_laws PAGE HPAGE pg nx Hpgok ltac:(unfold uint64_ok; lia))
    as (pg' & Hset & Hpg'ok & Hgetn & Hptr).
  eexists. split; [apply (fl_set_lookup fl (tailPage fl) _ pg pg'); [lia|exact Hpg|exact Hset]|].
  assert (Htpl : (Z.to_nat (tailPage fl) < length (pages fl))%nat)
    by (apply lookup_lt_Some in Hpg; exact Hpg).
  destruct R as [Rh Rm Rt Rnp Rh0 Rhm Rmt Rql Rnl Rtb Rhp Rtp Rpg Rit Rnx Rv Rnd].
  assert (Hnd : NoDup (a_nodes a)) by exact (proj1 (proj1 (NoDup_app _ _) Rnd)).
  constructor; cbn [with_tail pages headPage headSeq tailPage tailSeq maxSeq
                    a_head a_max a_tail a_items a_nodes a_npages]; try assumption; try lia.
  - now rewrite length_insert.
  - rewrite length_app. cbn [length]. lia.
  - now apply lookup_app_l_Some.
  - apply last_snoc.
  - now apply Forall_insert.
  - intros k x' Hk. destruct (Rit k x' Hk) as (n & pgk & Hn & Hp & Hg).
    exists n. destruct (Z.eq_dec n (tailPage fl)) as [->|Hne].
    + exists pg'. split; [now apply lookup_app_l_Some|].
      split; [now apply list_lookup_insert_eq|].
      rewrite Hp in Hpg. injection Hpg as ->.
      rewrite Hptr; [exact Hg | apply mod_cap_bounds].
    + exists pgk. split; [now apply lookup_app_l_Some|]. split; [|exact Hg].
      rewrite list_lookup_insert_ne; [exact Hp|].
      assert (0 < n).
      { apply (Rv n). apply elem_of_app. left. eapply list_elem_of_lookup_2; eauto. }
      lia.
  - intros j n n' Hj Hj'.
    destruct (Nat.lt_ge_cases (S j) (length (a_nodes a))) as [L|L].
    + rewrite lookup_app_l in Hj, Hj' by lia.
      destruct (Rnx j n n' Hj Hj') as (pgj & Hp & Hg).
      assert (Hne : n <> tailPage fl).
      { intros ->. pose proof (NoDup_lookup _ _ _ _ Hnd Hj Htl). lia. }
      exists pgj. split; [|exact Hg].
      rewrite list_lookup_insert_ne; [exact Hp|].
      assert (0 < n).
      { apply (Rv n). apply elem_of_app. left. eapply list_elem_of_lookup_2; eauto. }
      lia.
    + destruct (Nat.eq_dec (S j) (length (a_nodes a))) as [E|E].
      * rewrite lookup_app_l in Hj by lia.
        rewrite lookup_app_r in Hj' by lia.
        replace (S j - length (a_nodes a))%nat with 0%nat in Hj' by lia.
        cbn in Hj'. injection Hj' as <-.
        replace j with (length (a_nodes a) - 1)%nat in Hj by lia.
        rewrite Htl in Hj. injection Hj as <-.
        exists pg'. split; [now apply list_lookup_insert_eq | exact Hgetn].
      * apply lookup_lt_Some in Hj'. rewrite length_app in Hj'. cbn [length] in Hj'. lia.
  - intros y Hy. rewrite <- app_assoc in Hy. apply elem_of_app in Hy.
    destruct Hy as [Hy|Hy]; [apply Rv; apply elem_of_app; now left|].
    apply elem_of_cons in Hy. destruct Hy as [->|Hy]; [exact Hnx|].
    apply Rv; apply elem_of_app; now right.
  - rewrite <- app_assoc. cbn [app].
    apply NoDup_app in Rnd. destruct Rnd as (Hn1 & Hd & Hq).
    apply NoDup_app. split; [exact Hn1|]. split.
    + intros y Hy Hy'. apply elem_of_cons in Hy'. destruct Hy' as [->|Hy'].
      * apply Hfresh. apply elem_of_app. now left.
      * now apply (Hd y).
    + apply NoDup_cons. split; [|exact Hq].
      intros Hy. apply Hfresh. apply elem_of_app. now right.
Qed.

Lemma mod_after_wrap s : (s + 1) mod CAP = 0 -> (s + 1 + 1) mod CAP <> 0.
Proof.
  intros H. pose proof (cap_bounds PAGE HPAGE) as [HC _].
  pose proof (Z.div_mod (s + 1) CAP ltac:(lia)) as E. rewrite H in E.
  replace (s + 1 + 1) with (1 + (s + 1) / CAP * CAP) by lia.
  rewrite Z.mod_add by lia. rewrite Z.mod_small by lia. lia.
Qed.

(** [PushTail] refines [a_PushTail] and does not panic when it frees a
    free page. *)
Lemma PushTail_refines fl a x :
  represents PAGE fl a -> free_page a x -> headroom a 1 ->
  exists fl', PushTail PAGE fl x = Ok fl' /\ represents PAGE fl' (a_PushTail PAGE a x).
Proof.
  intros R Hfree [Ht64 Hnp64]. pose proof cap_pos as HC.
  destruct (write_tail_refines fl a x R Hfree ltac:(lia) ltac:(lia)) as (fl1 & Hset & R1).
  unfold PushTail, seq2idx. rewrite (r_tail _ _ _ _ R). rewrite Hset. cbn [bind].
  destruct (fl_set_counters _ _ _ _ Hset) as (Hh1 & Ht1 & Hm1 & Hhp1 & Htp1).
  rewrite Ht1, (r_tail _ _ _ _ R).
  rewrite (wrap64_small (a_tail a + 1)) by (pose proof (r_h0 _ _ _ _ R);
    pose proof (r_hm _ _ _ _ R); pose proof (r_mt _ _ _ _ R); lia).
  cbn [with_tail tailSeq]. unfold a_PushTail.
  set (a1 := mkAQ (a_head a) (a_max a) (a_tail a + 1) (a_items a ++ [x])
                  (a_nodes a) (a_npages a)) in *.
  destruct (Z.eqb_spec ((a_tail a + 1) mod CAP) 0) as [Ew|Ew].
  2:{ (* the tail node has room *)
      eexists. split; [reflexivity|]. unfold represents.
      destruct (dm_step CAP (a_tail a) HC Ew) as [Hd _].
      subst a1. cbn [a_tail]. rewrite Hd. exact R1. }
  (* the tail node is full *)
  destruct (dm_wrap CAP (a_tail a) HC Ew) as [Hd _].
  assert (H1h : a_head a1 + 1 < 2 ^ 64).
  { subst a1. cbn [a_head]. pose proof (r_hm _ _ _ _ R). pose proof (r_mt _ _ _ _ R). lia. }
  destruct (flPop_refines _ a1 _ R1 H1h) as (fl2 & Hpop & R2 & Hpg2).
  rewrite Hpop. cbn [bind].
  destruct (flPop_counters _ _ _ _ _ Hpop) as (Ht2 & Hm2 & Htp2 & _).
  cbn [with_tail tailSeq tailPage maxSeq] in Ht2, Hm2, Htp2.
  assert (Hnp : 0 < a_npages a).
  { assert (Hin : tailPage fl ∈ a_nodes a ++ a_items a).
    { apply elem_of_app; left. eapply list_elem_of_lookup_2. apply (Rep_tail_lookup _ _ _ R). }
    pose proof (proj1 (Rep_page _ _ _ _ R Hin)). lia. }
  destruct (a_flPop_cases _ a1 _ R1)
    as [[E Ea]|(L & y & q & Eq & [[Ewh Ea]|(Ewh & h & n & ns & En & Ea)])];
    rewrite Ea in *; cbn [fst snd] in *.
  - (* nothing below the watermark: a new page *)
    change (0 =? 0) with true. cbn iota.
    destruct (new_page_refines fl2 a1 _ R2) as [Hn R3].
    destruct (fl_new fl2 (repeat 0 (Z.to_nat PAGE))) as [fl3 nx] eqn:Enew.
    cbn [fst snd] in Hn, R3. subst nx.
    set (a2 := mkAQ (a_head a1) (a_max a1) (a_tail a1) (a_items a1) (a_nodes a1)
                    (a_npages a1 + 1)) in *.
    assert (R3' : Rep PAGE fl3 a2 (a_tail a2 / CAP - 1)).
    { subst a2 a1. cbn [a_tail] in *. rewrite Hd.
      replace (a_tail a / CAP + 1 - 1) with (a_tail a / CAP) by lia. exact R3. }
    assert (Hf3 : a_npages a1 ∉ a_nodes a2 ++ a_items a2).
    { intros Hin. pose proof (r_valid _ _ _ _ R1 _ Hin). lia. }
    destruct (link_refines fl3 a2 (a_npages a1) R3'
                ltac:(subst a2 a1; cbn [a_npages]; lia) Hf3
                ltac:(subst a2 a1; cbn [a_npages]; lia)) as (fl4 & Hlink & R4).
    rewrite Hlink. cbn [bind]. change (negb (0 =? 0)) with false. cbn iota.
    eexists. split; [reflexivity|].
    exact R4.
  - (* the popped page becomes the tail node *)
    set (a2 := mkAQ (a_head a1 + 1) (a_max a1) (a_tail a1) q (a_nodes a1) (a_npages a1)) in *.
    assert (Hy : 0 < y < a_npages a1).
    { apply (r_valid _ _ _ _ R1). apply elem_of_app. right. rewrite Eq. now left. }
    assert (Hyf : y ∉ a_nodes a2 ++ a_items a2).
    { pose proof (r_nodup _ _ _ _ R1) as Hnd. rewrite Eq in Hnd.
      subst a2. cbn [a_nodes a_items].
      apply NoDup_app in Hnd. destruct Hnd as (_ & Hd1 & Hd2).
      apply NoDup_cons in Hd2. destruct Hd2 as [Hd2 _].
      intros Hin. apply elem_of_app in Hin. destruct Hin as [Hin|Hin]; [|contradiction].
      apply (Hd1 y Hin). now left. }
    destruct (Z.eqb_spec y 0) as [|_]; [lia|].
    assert (R2' : Rep PAGE fl2 a2 (a_tail a2 / CAP - 1)).
    { subst a2 a1. cbn [a_tail] in *. rewrite Hd.
      replace (a_tail a / CAP + 1 - 1) with (a_tail a / CAP) by lia. exact R2. }
    destruct (link_refines fl2 a2 y R2' Hy Hyf
                ltac:(subst a2 a1; cbn [a_npages]; lia)) as (fl4 & Hlink & R4).
    rewrite Hlink. cbn [bind]. change (negb (0 =? 0)) with false. cbn iota.
    eexists. split; [reflexivity|]. exact R4.
  - (* and the exhausted head node is queued in it *)
    set (a2 := mkAQ (a_head a1 + 1) (a_max a1) (a_tail a1) q (n :: ns) (a_npages a1)) in *.
    pose proof (r_nodup _ _ _ _ R1) as Hnd. rewrite Eq, En in Hnd.
    assert (Hy : 0 < y < a_npages a1).
    { apply (r_valid _ _ _ _ R1). apply elem_of_app. right. rewrite Eq. now left. }
    assert (Hh : 0 < h < a_npages a1).
    { apply (r_valid _ _ _ _ R1). apply elem_of_app. left. rewrite En. now left. }
    assert (Hyf : y ∉ a_nodes a2 ++ a_items a2).
    { subst a2. cbn [a_nodes a_items].
      apply NoDup_app in Hnd. destruct Hnd as (_ & Hd1 & Hd2).
      apply NoDup_cons in Hd2. destruct Hd2 as [Hd2 _].
      intros Hin. apply elem_of_app in Hin. destruct Hin as [Hin|Hin]; [|contradiction].
      apply (Hd1 y); [now right | now left]. }
    destruct (Z.eqb_spec y 0) as [|_]; [lia|].
    assert (R2' : Rep PAGE fl2 a2 (a_tail a2 / CAP - 1)).
    { subst a2 a1. cbn [a_tail] in *. rewrite Hd.
      replace (a_tail a / CAP + 1 - 1) with (a_tail a / CAP) by lia. exact R2. }
    destruct (link_refines fl2 a2 y R2' Hy Hyf
                ltac:(subst a2 a1; cbn [a_npages]; lia)) as (fl4 & Hlink & R4).
    rewrite Hlink. cbn [bind].
    destruct (Z.eqb_spec h 0) as [|_]; [lia|]. cbn [negb].
    set (a3 := mkAQ (a_head a2) (a_max a2) (a_tail a2) (a_items a2) (a_nodes a2 ++ [y])
                    (a_npages a2)) in *.
    assert (Hhf : free_page a3 h).
    { split; [exact Hh|]. subst a3 a2. cbn [a_nodes a_items].
      cbn [app] in Hnd. apply NoDup_cons in Hnd. destruct Hnd as [Hnd _].
      intros Hin. apply Hnd.
      rewrite <- app_assoc in Hin. cbn [app] in Hin.
      apply elem_of_cons in Hin. destruct Hin as [->|Hin]; [now left|].
      right. apply elem_of_app in Hin. apply elem_of_app.
      destruct Hin as [Hin|Hin]; [now left|]. right.
      apply elem_of_cons in Hin. destruct Hin as [->|Hin]; [now left | now right]. }
    destruct (write_tail_refines _ a3 h R4 Hhf
                ltac:(subst a3 a2 a1; cbn [a_tail]; lia)
                ltac:(subst a3 a2 a1; cbn [a_npages]; lia)) as (fl5 & Hset5 & R5).
    assert (Ez : a_tail a3 mod CAP = 0) by (subst a3 a2 a1; exact Ew).
    rewrite Ez in Hset5. rewrite Hset5. cbn [bind].
    eexists. split; [reflexivity|].
    destruct (fl_set_counters _ _ _ _ Hset5) as (_ & Ht5 & _).
    destruct (fl_set_counters _ _ _ _ Hlink) as (_ & Ht4 & _).
    cbn [with_tail tailSeq] in Ht5.
    assert (Et : a_tail a3 = a_tail a + 1) by reflexivity.
    rewrite Ht5, Ht4, Ht2, <- Et.
    rewrite wrap64_small by (pose proof (r_h0 _ _ _ _ R); pose proof (r_hm _ _ _ _ R);
                             pose proof (r_mt _ _ _ _ R); lia).
    unfold represents. cbn [a_tail].
    assert (Ew' : (a_tail a3 + 1) mod CAP <> 0)
      by (rewrite Et; now apply mod_after_wrap).
    destruct (dm_step CAP (a_tail a3) HC Ew') as [Hd' _].
    rewrite Hd'. exact R5.
Qed.

(** [PopHead] refines [a_PopHead] and does not panic. *)
Lemma PopHead_refines fl a :
  represents PAGE fl a -> headroom a 1 ->
  exists fl',
    PopHead PAGE fl = Ok (fst (a_PopHead PAGE a), fl') /\
    represents PAGE fl' (snd (a_PopHead PAGE a)).
Proof.
  intros R [Ht64 Hnp64]. pose proof cap_pos as HC. unfold represents in R.
  assert (H1h : a_head a + 1 < 2 ^ 64).
  { pose proof (r_hm _ _ _ _ R). pose proof (r_mt _ _ _ _ R). lia. }
  destruct (flPop_refines _ a _ R H1h) as (fl2 & Hpop & R2 & Hpg2).
  unfold PopHead, a_PopHead. rewrite Hpop. cbn [bind].
  destruct (a_flPop_cases _ a _ R)
    as [[E Ea]|(L & y & q & Eq & [[Ewh Ea]|(Ewh & h & n & ns & En & Ea)])];
    rewrite Ea in *; cbn [fst snd] in *.
  - change (negb (0 =? 0)) with false. cbn iota. cbn [fst snd]. eauto.
  - change (negb (0 =? 0)) with false. cbn iota. cbn [fst snd]. eauto.
  - pose proof (r_nodup _ _ _ _ R) as Hnd. rewrite Eq, En in Hnd.
    assert (Hh : 0 < h < a_npages a).
    { apply (r_valid _ _ _ _ R). apply elem_of_app. left. rewrite En. now left. }
    destruct (Z.eqb_spec h 0) as [|_]; [lia|]. cbn [negb].
    set (a2 := mkAQ (a_head a + 1) (a_max a) (a_tail a) q (n :: ns) (a_npages a)) in *.
    assert (Hhf : free_page a2 h).
    { split; [exact Hh|]. subst a2. cbn [a_nodes a_items].
      cbn [app] in Hnd. apply NoDup_cons in Hnd. destruct Hnd as [Hnd _].
      intros Hin. apply Hnd. cbn [app].
      apply elem_of_cons in Hin. destruct Hin as [->|Hin]; [now left|].
      right. apply elem_of_app in Hin. apply elem_of_app.
      destruct Hin as [Hin|Hin]; [now left|]. right. now right. }
    destruct (PushTail_refines fl2 a2 h R2 Hhf
                ltac:(split; subst a2; cbn [a_tail a_npages]; lia)) as (fl3 & Hpush & R3).
    rewrite Hpush. cbn [bind fst snd]. eauto.
Qed.

(** One operation of a run refines [a_step]. *)
Lemma step_refines fl a o :
  represents PAGE fl a ->
  match o with OpPushTail ptr => free_page a ptr | _ => True end ->
  headroom a 1 ->
  exists fl' r,
    step PAGE fl o = Ok (fl', r) /\ represents PAGE fl' (a_step PAGE a o) /\
    r = match o with OpPopHead => Some (fst (a_PopHead PAGE a)) | _ => None end.
Proof.
  intros R Hfree Hroom. destruct o as [ptr| |]; cbn [step a_step].
  - destruct (PushTail_refines fl a ptr R Hfree Hroom) as (fl' & -> & R').
    cbn [bind]. eauto.
  - destruct (PopHead_refines fl a R Hroom) as (fl' & -> & R').
    cbn [bind]. eauto.
  - exists (SetMaxSeq fl), None. split; [reflexivity|]. split; [|reflexivity].
    unfold represents in *.
    destruct R as [Rh Rm Rt Rnp Rh0 Rhm Rmt Rql Rnl Rtb Rhp Rtp Rpg Rit Rnx Rv Rnd].
    constructor; cbn [SetMaxSeq a_SetMaxSeq pages headPage headSeq tailPage tailSeq maxSeq
                      a_head a_max a_tail a_items a_nodes a_npages]; try assumption; lia.
Qed.

End FreeListRefine.

(** ** The free list: properties of the queue *)

Section FreeListQueue.

Variable PAGE : Z.
Hypothesis HPAGE : 24 <= PAGE.

Local Abbreviation CAP := (FREE_LIST_CAP PAGE).

Lemma represents_aq_ok fl a tb : Rep PAGE fl a tb -> aq_ok a.
Proof.
  intros R. unfold aq_ok.
  pose proof (r_h0 _ _ _ _ R). pose proof (r_hm _ _ _ _ R).
  pose proof (r_mt _ _ _ _ R). pose proof (r_qlen _ _ _ _ R). auto.
Qed.

(** [flPop] takes the first committed item, if there is one. *)
Lemma committed_flPop a :
  aq_ok a ->
  let '(ptr, h, a') := a_flPop PAGE a in
  aq_ok a' /\ a_tail a' = a_tail a /\ a_max a' = a_max a /\ a_npages a' = a_npages a /\
  a_head a <= a_head a' <= a_head a + 1 /\
  ((a_head a = a_max a /\ ptr = 0 /\ h = 0 /\ a' = a) \/
   (a_head a < a_max a /\ a_head a' = a_head a + 1 /\
    a_items a = ptr :: a_items a' /\ committed a = ptr :: committed a')).
Proof.
  intros (H0 & Hhm & Hmt & Hlen). unfold a_flPop.
  destruct (Z.eqb_spec (a_head a) (a_max a)) as [E|E].
  { unfold aq_ok. repeat split; auto; try lia. }
  destruct (a_items a) as [|x q] eqn:Eq; [cbn [length] in Hlen; lia|].
  assert (Hc : forall ns,
            committed a =
            x :: committed (mkAQ (a_head a + 1) (a_max a) (a_tail a) q ns (a_npages a))).
  { intros ns. unfold committed. cbn [a_max a_head a_items]. rewrite Eq.
    replace (Z.to_nat (a_max a - a_head a))
      with (S (Z.to_nat (a_max a - (a_head a + 1)))) by lia.
    reflexivity. }
  cbn [length] in Hlen.
  destruct ((a_head a + 1) mod CAP =? 0); [destruct (a_nodes a) as [|h ns]|];
    (split; [unfold aq_ok; cbn [a_head a_max a_tail a_items]; lia|]);
    do 3 (split; [reflexivity|]);
    (split; [cbn [a_head]; lia|]);
    right; (split; [lia|]); (split; [reflexivity|]); (split; [reflexivity|]); apply Hc.
Qed.

Lemma committed_snoc a x :
  aq_ok a ->
  committed (mkAQ (a_head a) (a_max a) (a_tail a + 1) (a_items a ++ [x])
                  (a_nodes a) (a_npages a)) = committed a.
Proof.
  intros (H0 & Hhm & Hmt & Hlen). unfold committed. cbn [a_max a_head a_items].
  apply take_app_le. lia.
Qed.

(** [PushTail] adds nothing to the committed items: it leaves them, or
    consumes the first one for a new tail node. *)
Lemma committed_PushTail a x :
  aq_ok a ->
  aq_ok (a_PushTail PAGE a x) /\
  a_max (a_PushTail PAGE a x) = a_max a /\
  a_tail a < a_tail (a_PushTail PAGE a x) <= a_tail a + 2 /\
  a_npages a <= a_npages (a_PushTail PAGE a x) <= a_npages a + 1 /\
  (committed (a_PushTail PAGE a x) = committed a \/
   exists y, committed a = y :: committed (a_PushTail PAGE a x)).
Proof.
  intros Hok. pose proof Hok as (H0 & Hhm & Hmt & Hlen).
  pose proof (committed_snoc a x Hok) as Hc1.
  unfold a_PushTail.
  set (a1 := mkAQ (a_head a) (a_max a) (a_tail a + 1) (a_items a ++ [x])
                  (a_nodes a) (a_npages a)) in *.
  assert (Hok1 : aq_ok a1).
  { unfold aq_ok, a1. cbn [a_head a_max a_tail a_items]. rewrite length_app.
    cbn [length]. lia. }
  destruct ((a_tail a + 1) mod CAP =? 0).
  2:{ split; [exact Hok1|]. split; [reflexivity|].
      split; [subst a1; cbn [a_tail]; lia|]. split; [subst a1; cbn [a_npages]; lia|].
      left. exact Hc1. }
  pose proof (committed_flPop a1 Hok1) as Hpop.
  destruct (a_flPop PAGE a1) as [[next head] a2].
  destruct Hpop as (Hok2 & Ht2 & Hm2 & Hnp2 & Hh2 & Hcase).
  assert (Hcom : forall hd nx np,
            committed (mkAQ (a_head a2) (a_max a2) (a_tail a2 + 1) (a_items a2 ++ [hd])
                            nx np) = committed a2).
  { intros. destruct Hok2 as (? & ? & ? & ?). unfold committed.
    cbn [a_max a_head a_items]. apply take_app_le. lia. }
  assert (Hcom' : forall nx np,
            committed (mkAQ (a_head a2) (a_max a2) (a_tail a2) (a_items a2) nx np)
            = committed a2) by reflexivity.
  assert (Hc2 : committed a2 = committed a \/ exists y, committed a = y :: committed a2).
  { destruct Hcase as [(_ & _ & _ & ->)|(_ & _ & _ & Hc)]; [left; exact Hc1|].
    right. exists next. now rewrite <- Hc1. }
  destruct Hok2 as (? & ? & ? & ?).
  subst a1. cbn [a_tail a_max a_npages] in *.
  destruct (next =? 0); destruct (negb (head =? 0));
    unfold aq_ok; cbn [a_head a_max a_tail a_items a_npages];
    rewrite ?length_app; cbn [length];
    (split; [lia|]); (split; [lia|]); (split; [lia|]); (split; [lia|]);
    rewrite ?Hcom, ?Hcom'; exact Hc2.
Qed.

(** [PopHead] returns the first committed item, or 0 when there is none,
    and adds nothing to the committed items. *)
Lemma committed_PopHead a :
  aq_ok a ->
  aq_ok (snd (a_PopHead PAGE a)) /\
  a_max (snd (a_PopHead PAGE a)) = a_max a /\
  a_tail a <= a_tail (snd (a_PopHead PAGE a)) <= a_tail a + 2 /\
  a_npages a <= a_npages (snd (a_PopHead PAGE a)) <= a_npages a + 1 /\
  ((a_head a = a_max a /\ fst (a_PopHead PAGE a) = 0 /\ snd (a_PopHead PAGE a) = a) \/
   (exists c, committed a = fst (a_PopHead PAGE a) :: c /\
      (committed (snd (a_PopHead PAGE a)) = c \/
       exists y, c = y :: committed (snd (a_PopHead PAGE a))))).
Proof.
  intros Hok. unfold a_PopHead.
  pose proof (committed_flPop a Hok) as Hpop.
  destruct (a_flPop PAGE a) as [[ptr head] a1].
  destruct Hpop as (Hok1 & Ht1 & Hm1 & Hnp1 & Hh1 & Hcase).
  destruct (negb (head =? 0)) eqn:Eh; cbn [fst snd].
  - destruct (committed_PushTail a1 head Hok1) as (Hok2 & Hm2 & Ht2 & Hnp2 & Hc2).
    split; [exact Hok2|]. split; [lia|]. split; [lia|]. split; [lia|].
    destruct Hcase as [(_ & _ & -> & _)|(_ & _ & _ & Hc)]; [discriminate Eh|].
    right. exists (committed a1). auto.
  - split; [exact Hok1|]. split; [lia|]. split; [lia|]. split; [lia|].
    destruct Hcase as [(? & ? & _ & ?)|(_ & _ & _ & Hc)]; [left; auto|].
    right. exists (committed a1). auto.
Qed.

End FreeListQueue.

(** ** The free list: runs *)

Lemma free_pageb_sound a ptr : free_pageb a ptr = true -> free_page a ptr.
Proof.
  unfold free_pageb, free_page. rewrite !andb_true_iff, negb_true_iff.
  intros [[H1 H2] H3]. apply Z.ltb_lt in H1, H2. split; [lia|].
  intros Hin. apply list_elem_of_In in Hin.
  assert (existsb (Z.eqb ptr) (a_nodes a ++ a_items a) = true); [|congruence].
  apply existsb_exists. exists ptr. split; [exact Hin | apply Z.eqb_refl].
Qed.

Lemma frees_okb_sound PAGE ops : forall a,
  frees_okb PAGE a ops = true -> frees_ok PAGE a ops.
Proof.
  induction ops as [|o ops IH]; intros a H; cbn [frees_okb frees_ok] in *; [exact I|].
  apply andb_true_iff in H. destruct H as [H1 H2]. split; [|now apply IH].
  destruct o; auto. now apply free_pageb_sound.
Qed.

(** When [headSeq] equals [maxSeq], [PopHead] returns no item and leaves
    the list as it is. *)
Lemma PopHead_at_watermark PAGE fl :
  headSeq fl = maxSeq fl -> PopHead PAGE fl = Ok (0, fl).
Proof.
  intros H. unfold PopHead, flPop. rewrite H, Z.eqb_refl. reflexivity.
Qed.

Section FreeListRuns.

Variable PAGE : Z.
Hypothesis HPAGE : 24 <= PAGE.

Local Abbreviation CAP := (FREE_LIST_CAP PAGE).

(** The fresh list represents the empty queue. *)
Lemma fresh_represents pages0 p0 :
  Forall (node_ok PAGE) pages0 -> 0 < p0 < Z.of_nat (length pages0) ->
  represents PAGE (fl_fresh pages0 p0) (a_fresh (Z.of_nat (length pages0)) p0).
Proof.
  intros Hpg Hp. unfold represents, fl_fresh, a_fresh. cbn [a_tail].
  assert (H0 : 0 / CAP = 0) by (apply Z.div_0_l; pose proof (cap_pos PAGE HPAGE); lia).
  rewrite H0.
  constructor; cbn [pages headPage headSeq tailPage tailSeq maxSeq
                    a_head a_max a_tail a_items a_nodes a_npages];
    try reflexivity; try assumption; try lia.
  - intros k x Hk. destruct k; discriminate Hk.
  - intros j n n' _ Hj. destruct j; discriminate Hj.
  - intros x Hx. rewrite app_nil_r in Hx. apply list_elem_of_singleton in Hx. now subst.
  - rewrite app_nil_r. apply NoDup_singleton.
Qed.

Lemma a_step_bounds a o :
  aq_ok a ->
  aq_ok (a_step PAGE a o) /\
  a_tail a <= a_tail (a_step PAGE a o) <= a_tail a + 2 /\
  a_npages a <= a_npages (a_step PAGE a o) <= a_npages a + 1.
Proof.
  intros Hok. destruct o as [ptr| |]; cbn [a_step].
  - destruct (committed_PushTail PAGE a ptr Hok) as (? & ? & ? & ? & ?).
    split; [assumption|]. lia.
  - destruct (committed_PopHead PAGE a Hok) as (? & ? & ? & ? & ?).
    split; [assumption|]. lia.
  - unfold a_SetMaxSeq, aq_ok in *. cbn [a_head a_max a_tail a_items a_npages]. lia.
Qed.

Lemma headroom_step a o n :
  aq_ok a -> 0 <= n -> headroom a (n + 1) ->
  headroom a 1 /\ headroom (a_step PAGE a o) n.
Proof.
  intros Hok Hn [H1 H2]. destruct (a_step_bounds a o Hok) as (_ & Ht & Hnp).
  unfold headroom. lia.
Qed.

(** A run that frees free pages does not panic and refines the run of
    the queue. *)
Lemma run_refines ops : forall fl a,
  represents PAGE fl a -> frees_ok PAGE a ops ->
  headroom a (Z.of_nat (length ops)) ->
  exists fl',
    run PAGE fl ops = Ok (fl', snd (a_run PAGE a ops)) /\
    represents PAGE fl' (fst (a_run PAGE a ops)).
Proof.
  induction ops as [|o ops IH]; intros fl a R Hf Hroom; cbn [run a_run].
  - exists fl. auto.
  - cbn [frees_ok] in Hf. destruct Hf as [Hf1 Hf2].
    cbn [length] in Hroom. rewrite Nat2Z.inj_succ in Hroom.
    destruct (headroom_step a o (Z.of_nat (length ops))
                (represents_aq_ok PAGE _ _ _ R) ltac:(lia)
                ltac:(now replace (Z.of_nat (length ops) + 1)
                        with (Z.succ (Z.of_nat (length ops))) by lia))
      as [Hr1 Hr2].
    destruct (step_refines PAGE HPAGE fl a o R Hf1 Hr1) as (fl1 & r & Hstep & R1 & Hr).
    destruct (IH fl1 _ R1 Hf2 Hr2) as (fl2 & Hrun & R2).
    rewrite Hstep. cbn [bind]. rewrite Hrun. cbn [bind].
    destruct (a_run PAGE (a_step PAGE a o) ops) as [a2 rs]. cbn [fst snd] in *.
    exists fl2. split; [|exact R2]. subst r. destruct o; reflexivity.
Qed.

Lemma committed_shrinks (c c' : list Z) :
  c' = c \/ (exists y, c = y :: c') -> forall z, z ∈ c' -> z ∈ c.
Proof. intros [->|[y ->]] z Hz; [exact Hz | now right]. Qed.

Lemma committed_items a z : z ∈ committed a -> z ∈ a_items a.
Proof.
  unfold committed. intros H. apply elem_of_take in H.
  destruct H as (i & Hi & _). eapply list_elem_of_lookup_2; eauto.
Qed.

(** The head node that [PopHead] pushes is a node of the list: it is not
    page 0 and it is not queued. *)
Lemma recycled_node fl a z :
  represents PAGE fl a -> headroom a 1 -> z ∈ recycled PAGE fl ->
  z <> 0 /\ z ∉ a_items a.
Proof.
  intros R [Hr _] Hz. pose proof (represents_aq_ok PAGE _ _ _ R) as (H0 & Hhm & Hmt & _).
  destruct (flPop_refines PAGE HPAGE fl a _ R ltac:(lia)) as (fl1 & Hpop & _).
  unfold recycled in Hz. rewrite Hpop in Hz.
  destruct (a_flPop_cases PAGE HPAGE fl a _ R)
    as [[_ E]|(_ & x & q & Eq & [[_ E]|(_ & h & n & ns & En & E)])];
    rewrite E in Hz; cbn [fst snd] in Hz.
  - cbn in Hz. inversion Hz.
  - cbn in Hz. inversion Hz.
  - pose proof (r_valid _ _ _ _ R h) as Hv.
    pose proof (r_nodup _ _ _ _ R) as Hnd. rewrite En in Hv, Hnd.
    assert (Hh : 0 < h) by (apply Hv; left).
    destruct (Z.eqb_spec h 0) as [?|_]; [lia|]. cbn [negb] in Hz.
    apply list_elem_of_singleton in Hz. subst z. split; [lia|].
    cbn [app] in Hnd. apply NoDup_cons in Hnd. destruct Hnd as [Hnot _].
    intros Hin. apply Hnot. right. apply elem_of_app. now right.
Qed.

(** The barrier along a run: the pending pages stay out of the committed
    items, from which alone [PopHead] takes what it returns. *)
Lemma barrier_from ops : forall fl a pending,
  represents PAGE fl a -> frees_ok PAGE a ops ->
  headroom a (Z.of_nat (length ops)) ->
  (forall z, z ∈ pending -> z <> 0 /\ z ∉ committed a) ->
  barrier_holds PAGE fl pending ops.
Proof.
  induction ops as [|o ops IH]; intros fl a pending R Hf Hroom Hpend;
    cbn [barrier_holds]; [exact I|].
  cbn [frees_ok] in Hf. destruct Hf as [Hf1 Hf2].
  cbn [length] in Hroom. rewrite Nat2Z.inj_succ in Hroom.
  pose proof (represents_aq_ok PAGE _ _ _ R) as Hok.
  destruct (headroom_step a o (Z.of_nat (length ops)) Hok ltac:(lia)
              ltac:(now replace (Z.of_nat (length ops) + 1)
                      with (Z.succ (Z.of_nat (length ops))) by lia))
    as [Hr1 Hr2].
  destruct o as [ptr| |].
  - intros fl' Hpush.
    destruct (PushTail_refines PAGE HPAGE fl a ptr R Hf1 Hr1) as (fl1 & Hpush1 & R1).
    rewrite Hpush in Hpush1. injection Hpush1 as <-.
    destruct (committed_PushTail PAGE a ptr Hok) as (_ & _ & _ & _ & Hc).
    apply (IH fl' (a_PushTail PAGE a ptr)); auto.
    intros z Hz. apply elem_of_cons in Hz. destruct Hz as [->|Hz].
    + destruct Hf1 as [Hp Hfresh]. split; [lia|].
      intros Hin. apply (committed_shrinks _ _ Hc) in Hin.
      apply Hfresh. apply elem_of_app. right. now apply committed_items.
    + destruct (Hpend z Hz) as [Hz0 Hzc]. split; [exact Hz0|].
      intros Hin. apply Hzc. now apply (committed_shrinks _ _ Hc).
  - intros ptr fl' Hpop.
    destruct (PopHead_refines PAGE HPAGE fl a R Hr1) as (fl1 & Hpop1 & R1).
    rewrite Hpop in Hpop1. injection Hpop1 as -> <-.
    destruct (committed_PopHead PAGE a Hok) as (_ & _ & _ & _ & Hc).
    split.
    + intros Hin. destruct (Hpend _ Hin) as [Hz0 Hzc].
      destruct Hc as [(_ & E & _)|(c & Ec & _)]; [congruence|].
      apply Hzc. rewrite Ec. now left.
    + apply (IH fl' (snd (a_PopHead PAGE a))); auto.
      assert (Hsub : forall z, z ∈ committed (snd (a_PopHead PAGE a)) -> z ∈ committed a).
      { intros z Hin.
        destruct Hc as [(_ & _ & E)|(c & Ec & Hc)]; [now rewrite E in Hin|].
        rewrite Ec. right. now apply (committed_shrinks _ _ Hc). }
      intros z Hz. apply elem_of_app in Hz. destruct Hz as [Hz|Hz].
      * destruct (recycled_node fl a z R Hr1 Hz) as [Hz0 Hzi]. split; [exact Hz0|].
        intros Hin. apply Hzi. apply committed_items. now apply Hsub.
      * destruct (Hpend z Hz) as [Hz0 Hzc]. split; [exact Hz0|].
        intros Hin. apply Hzc. now apply Hsub.
  - apply (IH (SetMaxSeq fl) (a_SetMaxSeq a)); auto.
    + destruct (step_refines PAGE HPAGE fl a OpSetMaxSeq R I Hr1)
        as (fl1 & r & Hstep & R1 & _).
      cbn [step] in Hstep. injection Hstep as <- _. exact R1.
    + intros z Hz. inversion Hz.
Qed.

(** C4. Watermark barrier: along every sequence of operations on a
    well-formed list in which each [PushTail] frees a free page (a page of
    the store other than page 0 that is neither queued nor a node of the
    list) and for which the 64-bit counters have room, the operations
    return (none panics) and no [PopHead] returns a page that a
    [PushTail] of the sequence pushed since the latest [SetMaxSeq]; and
    whenever [headSeq] equals [maxSeq], [PopHead] returns no item (the
    value 0) and leaves the list unchanged. *)
Theorem watermark_barrier (fl : FreeList) (a : AQ) (ops : list op) :
  represents PAGE fl a -> frees_ok PAGE a ops ->
  headroom a (Z.of_nat (length ops)) ->
  (exists fl' rs, run PAGE fl ops = Ok (fl', rs)) /\
  barrier_holds PAGE fl [] ops /\
  (forall fl0, headSeq fl0 = maxSeq fl0 -> PopHead PAGE fl0 = Ok (0, fl0)).
Proof.
  intros R Hf Hroom. split; [|split].
  - destruct (run_refines ops fl a R Hf Hroom) as (fl' & Hrun & _). eauto.
  - apply (barrier_from ops fl a []); auto. intros z Hz. inversion Hz.
  - intros fl0. apply PopHead_at_watermark.
Qed.

End FreeListRuns.

Lemma watermark_barrier_witness :
  let page := repeat 0 (Z.to_nat 40) in
  let fl := fl_fresh [page; page; page; page; page; page; page; page; page; page] 1 in
  let ops := [OpPushTail 2; OpPushTail 3; OpPushTail 4; OpPushTail 5; OpPushTail 6;
              OpSetMaxSeq; OpPushTail 7; OpPopHead; OpPopHead; OpPopHead; OpPopHead;
              OpPushTail 8; OpPopHead; OpPopHead; OpSetMaxSeq; OpPopHead] in
  (exists fl' rs, run 40 fl ops = Ok (fl', rs)) /\
  barrier_holds 40 fl [] ops /\
  (forall fl0, headSeq fl0 = maxSeq fl0 -> PopHead 40 fl0 = Ok (0, fl0)).
Proof.
  intros page fl ops.
  apply (watermark_barrier 40 ltac:(lia) fl (a_fresh 10 1) ops).
  - apply (fresh_represents 40 ltac:(lia)
             [page; page; page; page; page; page; page; page; page; page] 1).
    + repeat (apply List.Forall_cons; [reflexivity|]). apply List.Forall_nil.
    + cbn [length]. lia.
  - apply frees_okb_sound. vm_compute. reflexivity.
  - unfold headroom, a_fresh. cbn [a_tail a_npages length ops]. lia.
Defined.

(** C4 as the specification states it, for every sequence of operations,
    fails: [PushTail] takes any page number, also one that is queued
    already. After [PushTail 5], [SetMaxSeq], [PushTail 5] the page 5 has
    been pushed since the latest [SetMaxSeq], and the next [PopHead]
    returns 5. *)
Lemma barrier_breaks_on_double_free :
  let page := repeat 0 (Z.to_nat 40) in
  let fl := fl_fresh [page; page; page; page; page; page; page; page; page; page] 1 in
  let ops := [OpPushTail 5; OpSetMaxSeq; OpPushTail 5; OpPopHead] in
  (let* (fl', rs) := run 40 fl ops in Ok rs) = Ok [5] /\
  ~ barrier_holds 40 fl [] ops.
Proof.
  intros page fl ops. split; [vm_compute; reflexivity|].
  intros H. cbn [ops barrier_holds] in H.
  destruct (PushTail 40 fl 5) as [fl1| |] eqn:E1;
    try (vm_compute in E1; discriminate E1).
  specialize (H fl1 eq_refl).
  vm_compute in E1. injection E1 as <-.
  match type of H with forall fl', ?t = _ -> _ =>
    destruct t as [fl2| |] eqn:E2; try (vm_compute in E2; discriminate E2) end.
  specialize (H fl2 eq_refl).
  vm_compute in E2. injection E2 as <-.
  match type of H with forall ptr fl', ?t = _ -> _ =>
    destruct t as [[p fl3]| |] eqn:E3; try (vm_compute in E3; discriminate E3) end.
  destruct (H p fl3 eq_refl) as [Hp _].
  vm_compute in E3. injection E3 as <- _.
  apply Hp. constructor.
Qed.

(** ** The free list: first in, first out *)

Lemma a_run_app PAGE l1 : forall a l2,
  a_run PAGE a (l1 ++ l2) =
  (fst (a_run PAGE (fst (a_run PAGE a l1)) l2),
   snd (a_run PAGE a l1) ++ snd (a_run PAGE (fst (a_run PAGE a l1)) l2)).
Proof.
  induction l1 as [|o l1 IH]; intros a l2; cbn [app a_run fst snd].
  - now destruct (a_run PAGE a l2).
  - rewrite IH. destruct (a_run PAGE (a_step PAGE a o) l1) as [a1 r1].
    cbn [fst snd]. destruct o; reflexivity.
Qed.

Lemma frees_ok_app PAGE l1 : forall a l2,
  frees_ok PAGE a l1 -> frees_ok PAGE (fst (a_run PAGE a l1)) l2 ->
  frees_ok PAGE a (l1 ++ l2).
Proof.
  induction l1 as [|o l1 IH]; intros a l2 H1 H2; cbn [app a_run fst frees_ok] in *.
  - exact H2.
  - destruct H1 as [Ho H1]. split; [exact Ho|]. apply IH; [exact H1|].
    destruct (a_run PAGE (a_step PAGE a o) l1). exact H2.
Qed.

Lemma frees_ok_pops PAGE n : forall a, frees_ok PAGE a (repeat OpPopHead n).
Proof. induction n as [|n IH]; intros a; cbn [repeat frees_ok]; auto. Qed.

Section FreeListFifo.

Variable PAGE : Z.
Hypothesis HPAGE : 24 <= PAGE.

Local Abbreviation CAP := (FREE_LIST_CAP PAGE).

(** [PushTail] on a list with nothing below the watermark: a full tail
    node is followed by a new page. *)
Lemma a_PushTail_empty a x :
  a_head a = a_max a ->
  a_PushTail PAGE a x =
  mkAQ (a_head a) (a_max a) (a_tail a + 1) (a_items a ++ [x])
       (if (a_tail a + 1) mod CAP =? 0 then a_nodes a ++ [a_npages a] else a_nodes a)
       (if (a_tail a + 1) mod CAP =? 0 then a_npages a + 1 else a_npages a).
Proof.
  intros E. unfold a_PushTail, a_flPop. cbn [a_head a_max a_tail a_items a_nodes a_npages].
  destruct ((a_tail a + 1) mod CAP =? 0); [|reflexivity].
  rewrite E, Z.eqb_refl. cbn. reflexivity.
Qed.

Lemma push_phase xs : forall a,
  a_head a = a_max a -> NoDup xs ->
  (forall x, x ∈ xs -> 0 < x < a_npages a /\ x ∉ a_nodes a ++ a_items a) ->
  (forall n, n ∈ a_nodes a -> n < a_npages a) ->
  frees_ok PAGE a (map OpPushTail xs) /\
  snd (a_run PAGE a (map OpPushTail xs)) = [] /\
  a_head (fst (a_run PAGE a (map OpPushTail xs))) = a_head a /\
  a_max (fst (a_run PAGE a (map OpPushTail xs))) = a_max a /\
  a_tail (fst (a_run PAGE a (map OpPushTail xs))) = a_tail a + Z.of_nat (length xs) /\
  a_items (fst (a_run PAGE a (map OpPushTail xs))) = a_items a ++ xs.
Proof.
  induction xs as [|x xs IH]; intros a E Hnd Hfree Hnodes; cbn [map a_run frees_ok length].
  - cbn [fst snd]. rewrite app_nil_r. repeat split; lia.
  - apply NoDup_cons in Hnd. destruct Hnd as [Hx Hnd].
    cbn [a_step]. rewrite (a_PushTail_empty a x E).
    set (a1 := mkAQ _ _ _ _ _ _).
    assert (Hnp : a_npages a <= a_npages a1)
      by (subst a1; cbn [a_npages]; destruct (_ =? 0); lia).
    assert (Hn1 : forall n, n ∈ a_nodes a1 -> n < a_npages a1).
    { subst a1. cbn [a_nodes a_npages]. intros n Hn.
      destruct ((a_tail a + 1) mod CAP =? 0); [|now apply Hnodes].
      apply elem_of_app in Hn. destruct Hn as [Hn|Hn].
      - apply Hnodes in Hn. lia.
      - apply list_elem_of_singleton in Hn. lia. }
    assert (Hf1 : forall y, y ∈ xs -> 0 < y < a_npages a1 /\ y ∉ a_nodes a1 ++ a_items a1).
    { intros y Hy. destruct (Hfree y ltac:(now right)) as [Hy1 Hy2].
      split; [lia|]. intros Hin. apply elem_of_app in Hin.
      assert (Hyn : y ∉ a_nodes a) by (intros ?; apply Hy2, elem_of_app; now left).
      assert (Hyi : y ∉ a_items a) by (intros ?; apply Hy2, elem_of_app; now right).
      destruct Hin as [Hin|Hin].
      - subst a1. cbn [a_nodes] in Hin.
        destruct ((a_tail a + 1) mod CAP =? 0); [|now apply Hyn].
        apply elem_of_app in Hin. destruct Hin as [Hin|Hin]; [now apply Hyn|].
        apply list_elem_of_singleton in Hin. lia.
      - subst a1. cbn [a_items] in Hin. apply elem_of_app in Hin.
        destruct Hin as [Hin|Hin]; [now apply Hyi|].
        apply list_elem_of_singleton in Hin. subst y. now apply Hx. }
    destruct (IH a1 ltac:(subst a1; exact E) Hnd Hf1 Hn1)
      as (Hok & Hrs & Hh & Hm & Ht & Hi).
    destruct (a_run PAGE a1 (map OpPushTail xs)) as [a2 rs]. cbn [fst snd] in *.
    split; [split; [apply Hfree; now left | exact Hok]|].
    split; [exact Hrs|]. split; [rewrite Hh; reflexivity|].
    split; [rewrite Hm; reflexivity|].
    split; [rewrite Ht; subst a1; cbn [a_tail]; lia|].
    rewrite Hi. subst a1. cbn [a_items]. rewrite <- app_assoc. reflexivity.
Qed.

(** While the pages are popped, the head nodes pushed back at the tail do
    not fill the tail node. *)
Lemma no_rollover M t :
  0 <= M -> M mod CAP + M / CAP < CAP -> M < t <= M + M / CAP -> t mod CAP <> 0.
Proof.
  intros HM Hc Ht. pose proof (cap_pos PAGE HPAGE) as HC.
  pose proof (Z.div_mod M CAP ltac:(lia)) as Hdm.
  pose proof (Z.mod_pos_bound M CAP HC) as Hr.
  replace t with (M mod CAP + (t - M) + M / CAP * CAP) by lia.
  rewrite Z.mod_add by lia. rewrite Z.mod_small by lia. lia.
Qed.

Lemma pop_step xs j a :
  Z.of_nat (length xs) mod CAP + Z.of_nat (length xs) / CAP < CAP ->
  popping PAGE xs j a -> (j < length xs)%nat ->
  exists x, xs !! j = Some x /\ fst (a_PopHead PAGE a) = x /\
            popping PAGE xs (S j) (snd (a_PopHead PAGE a)).
Proof.
  intros Hc (Hh & Hm & Ht & extra & Hi) Hj. pose proof (cap_pos PAGE HPAGE) as HC.
  destruct (lookup_lt_is_Some_2 xs j Hj) as [x Hx]. exists x. split; [exact Hx|].
  assert (Hd : drop j xs = x :: drop (S j) xs) by now apply drop_S.
  assert (Hle : Z.of_nat j / CAP <= Z.of_nat (S j) / CAP) by (apply dm_mono; lia).
  unfold a_PopHead, a_flPop. rewrite Hh, Hm.
  destruct (Z.eqb_spec (Z.of_nat j) (Z.of_nat (length xs))) as [?|_]; [lia|].
  rewrite Hi, Hd. cbn [app].
  replace (Z.of_nat j + 1) with (Z.of_nat (S j)) by lia.
  destruct (Z.eqb_spec (Z.of_nat (S j) mod CAP) 0) as [Ew|Ew].
  - assert (Hw : Z.of_nat (S j) / CAP = Z.of_nat j / CAP + 1).
    { replace (Z.of_nat (S j)) with (Z.of_nat j + 1) in * by lia.
      now destruct (dm_wrap CAP (Z.of_nat j) HC Ew). }
    assert (Hq : Z.of_nat (S j) / CAP <= Z.of_nat (length xs) / CAP)
      by (apply dm_mono; lia).
    destruct (a_nodes a) as [|h ns].
    + cbn [Z.eqb negb fst snd]. split; [reflexivity|].
      unfold popping. cbn [a_head a_max a_tail a_items].
      split; [reflexivity|]. split; [reflexivity|]. split; [lia|]. now exists extra.
    + destruct (Z.eqb_spec h 0) as [E0|E0]; cbn [negb fst snd].
      * split; [reflexivity|]. unfold popping. cbn [a_head a_max a_tail a_items].
        split; [reflexivity|]. split; [reflexivity|]. split; [lia|]. now exists extra.
      * split; [reflexivity|]. unfold a_PushTail.
        cbn [a_head a_max a_tail a_items a_nodes a_npages].
        assert (Hnr : (a_tail a + 1) mod CAP <> 0)
          by (apply (no_rollover (Z.of_nat (length xs))); lia).
        destruct (Z.eqb_spec ((a_tail a + 1) mod CAP) 0) as [?|_]; [contradiction|].
        unfold popping. cbn [a_head a_max a_tail a_items].
        split; [reflexivity|]. split; [reflexivity|]. split; [lia|].
        exists (extra ++ [h]). now rewrite app_assoc.
  - cbn [Z.eqb negb fst snd]. split; [reflexivity|].
    unfold popping. cbn [a_head a_max a_tail a_items].
    split; [reflexivity|]. split; [reflexivity|]. split; [lia|]. now exists extra.
Qed.

Lemma pop_phase xs n : forall j a,
  Z.of_nat (length xs) mod CAP + Z.of_nat (length xs) / CAP < CAP ->
  popping PAGE xs j a -> (j + n <= length xs)%nat ->
  snd (a_run PAGE a (repeat OpPopHead n)) = take n (drop j xs).
Proof.
  induction n as [|n IH]; intros j a Hc Hp Hn; cbn [repeat a_run].
  - reflexivity.
  - destruct (pop_step xs j a Hc Hp ltac:(lia)) as (x & Hx & Hfst & Hp1).
    cbn [a_step]. specialize (IH (S j) _ Hc Hp1 ltac:(lia)).
    destruct (a_run PAGE (snd (a_PopHead PAGE a)) (repeat OpPopHead n)) as [a2 rs].
    cbn [fst snd] in *. rewrite Hfst, IH.
    rewrite (drop_S xs x j Hx). reflexivity.
Qed.

(** On the queue, the pops return the pages in the order of the pushes. *)
Lemma a_fifo np0 p0 (xs : list Z) :
  0 < p0 < np0 -> NoDup xs ->
  (forall x, x ∈ xs -> 0 < x < np0 /\ x <> p0) ->
  Z.of_nat (length xs) mod CAP + Z.of_nat (length xs) / CAP < CAP ->
  frees_ok PAGE (a_fresh np0 p0) (push_then_pop xs) /\
  snd (a_run PAGE (a_fresh np0 p0) (push_then_pop xs)) = xs.
Proof.
  intros Hp Hnd Hxs Hc. unfold push_then_pop.
  destruct (push_phase xs (a_fresh np0 p0) eq_refl Hnd) as (Hok & Hrs & Hh & Hm & Ht & Hi).
  { intros x Hx. destruct (Hxs x Hx) as [Hx1 Hx2]. unfold a_fresh.
    cbn [a_npages a_nodes a_items]. split; [exact Hx1|].
    rewrite app_nil_r. intros Hin. apply list_elem_of_singleton in Hin. contradiction. }
  { unfold a_fresh. cbn [a_npages a_nodes]. intros n Hn.
    apply list_elem_of_singleton in Hn. lia. }
  split.
  - apply frees_ok_app; [exact Hok|]. cbn [frees_ok]. split; [exact I|].
    apply frees_ok_pops.
  - rewrite a_run_app, Hrs. cbn [app snd a_run a_step].
    set (a1 := fst (a_run PAGE (a_fresh np0 p0) (map OpPushTail xs))) in *.
    pose proof (pop_phase xs (length xs) 0 (a_SetMaxSeq a1) Hc) as Hpop.
    destruct (a_run PAGE (a_SetMaxSeq a1) (repeat OpPopHead (length xs))) as [a2 rs].
    cbn [snd] in *. rewrite Hpop.
    + rewrite drop_0. apply firstn_all.
    + unfold popping, a_SetMaxSeq. cbn [a_head a_max a_tail a_items].
      unfold a_fresh in Hh, Ht, Hi. cbn [a_head a_tail a_items] in Hh, Ht, Hi.
      rewrite Hh, Ht, Hi. cbn [app].
      rewrite Z.div_0_l by (pose proof (cap_pos PAGE HPAGE); lia).
      split; [reflexivity|]. split; [lia|]. split; [lia|].
      exists []. rewrite drop_0, app_nil_r. reflexivity.
    + lia.
Qed.

End FreeListFifo.

(** C3 (amended). The free list is FIFO as long as the head nodes given
    back while popping do not fill the tail node: on a fresh list (one
    empty node [p0] in a store [pages0]), pushing M distinct free pages
    [xs] with [PushTail], calling [SetMaxSeq], then calling [PopHead] M
    times returns exactly [xs], in the order pushed, whenever
    M mod FREE_LIST_CAP + M / FREE_LIST_CAP < FREE_LIST_CAP; this covers
    every M up to the capacity and M beyond it, across the rollover of the
    tail node and of the head node. *)
Theorem fifo_order (PAGE : Z) (pages0 : list LNode) (p0 : Z) (xs : list Z) :
  24 <= PAGE ->
  Forall (node_ok PAGE) pages0 ->
  0 < p0 < Z.of_nat (length pages0) ->
  NoDup xs ->
  (forall x, x ∈ xs -> 0 < x < Z.of_nat (length pages0) /\ x <> p0) ->
  Z.of_nat (length xs) mod FREE_LIST_CAP PAGE
    + Z.of_nat (length xs) / FREE_LIST_CAP PAGE < FREE_LIST_CAP PAGE ->
  Z.of_nat (length pages0) + 4 * Z.of_nat (length xs) + 2 < 2 ^ 64 ->
  exists fl', run PAGE (fl_fresh pages0 p0) (push_then_pop xs) = Ok (fl', xs).
Proof.
  intros HPAGE Hpg Hp Hnd Hxs Hc H64.
  destruct (a_fifo PAGE HPAGE (Z.of_nat (length pages0)) p0 xs Hp Hnd Hxs Hc)
    as [Hok Hrs].
  destruct (run_refines PAGE HPAGE (push_then_pop xs) (fl_fresh pages0 p0)
              (a_fresh (Z.of_nat (length pages0)) p0))
    as (fl' & Hrun & _).
  - now apply fresh_represents.
  - exact Hok.
  - unfold headroom, a_fresh, push_then_pop. cbn [a_tail a_npages].
    rewrite length_app, length_map. cbn [length]. rewrite repeat_length. lia.
  - exists fl'. rewrite Hrun, Hrs. reflexivity.
Qed.

Lemma fifo_order_witness :
  let page := repeat 0 (Z.to_nat 40) in
  let pages0 := [page; page; page; page; page; page; page; page; page; page] in
  exists fl', run 40 (fl_fresh pages0 1) (push_then_pop [2; 3; 4; 5; 6; 7])
              = Ok (fl', [2; 3; 4; 5; 6; 7]).
Proof.
  intros page pages0.
  apply (fifo_order 40 pages0 1 [2; 3; 4; 5; 6; 7]).
  - lia.
  - repeat (apply List.Forall_cons; [reflexivity|]). apply List.Forall_nil.
  - change (Z.of_nat (length pages0)) with 10. lia.
  - apply (bool_decide_unpack _). vm_compute. reflexivity.
  - intros x Hx. change (Z.of_nat (length pages0)) with 10.
    repeat (apply elem_of_cons in Hx; destruct Hx as [->|Hx]; [lia|]).
    inversion Hx.
  - vm_compute. reflexivity.
  - change (Z.of_nat (length pages0)) with 10. cbn [length]. lia.
Defined.

(** With as many pages as fill one node and all but one slot of the next
    (M = 2 * FREE_LIST_CAP - 1; here 8-byte header and four slots, M = 7),
    the head node given back after the fourth [PopHead] fills the tail
    node, and the new tail node is taken from the head of the list: page
    6, pushed fifth, is never returned, and the seventh [PopHead] returns
    0. *)
Lemma fifo_breaks_on_recycled_tail :
  let page := repeat 0 (Z.to_nat 40) in
  let pages0 := [page; page; page; page; page; page; page; page; page; page] in
  let xs := [2; 3; 4; 5; 6; 7; 8] in
  FREE_LIST_CAP 40 < Z.of_nat (length xs) /\ NoDup xs /\
  (let* (fl', rs) := run 40 (fl_fresh pages0 1) (push_then_pop xs) in Ok rs)
    = Ok [2; 3; 4; 5; 7; 8; 0] /\
  ~ (exists fl', run 40 (fl_fresh pages0 1) (push_then_pop xs) = Ok (fl', xs)).
Proof.
  intros page pages0 xs.
  assert (E : (let* (fl', rs) := run 40 (fl_fresh pages0 1) (push_then_pop xs) in Ok rs)
              = Ok [2; 3; 4; 5; 7; 8; 0]) by (vm_compute; reflexivity).
  split; [vm_compute; reflexivity|].
  split; [apply (bool_decide_unpack _); vm_compute; reflexivity|].
  split; [exact E|].
  intros [fl' H]. rewrite H in E. cbn [bind] in E. discriminate E.
Qed.

(** The same on pages of 4096 bytes (511 slots a node) with M = 1021:
    page number 512 of the pushes becomes the new tail node, and the last
    [PopHead] returns 0. *)
Lemma fifo_breaks_on_4096_byte_pages :
  let pages0 := repeat (repeat 0 (Z.to_nat 4096)) 1030 in
  let xs := map Z.of_nat (seq 2 1021) in
  FREE_LIST_CAP 4096 < Z.of_nat (length xs) /\ NoDup xs /\
  (let* (fl', rs) := run 4096 (fl_fresh pages0 1) (push_then_pop xs) in Ok rs)
    = Ok (take 511 xs ++ drop 512 xs ++ [0]).
Proof.
  intros pages0 xs.
  split; [vm_compute; reflexivity|].
  split; [apply (bool_decide_unpack _); vm_compute; reflexivity|].
  vm_compute. reflexivity.
Qed.

(** * Further properties of the value codec *)

Lemma bytes_Count_nonneg l b : 0 <= bytes_Count l b.
Proof. induction l as [|x l IH]; cbn [bytes_Count]; [lia|]. destruct (x =? b); lia. Qed.

Lemma escape_loop_no_nul l : bytes_ok l -> Forall (fun b => b <> 0) (escape_loop l).
Proof.
  induction 1 as [|x l Hx _ IH]; cbn [escape_loop]; [constructor|].
  unfold byte_ok in Hx. destruct (Z.leb_spec x 1).
  - constructor; [lia|]. constructor; [|exact IH].
    rewrite Z.mod_small by lia. lia.
  - constructor; [lia | exact IH].
Qed.

Lemma escape_loop_length l :
  bytes_ok l ->
  Z.of_nat (length (escape_loop l)) =
  Z.of_nat (length l) + bytes_Count l 0 + (bytes_Count l 1).
Proof.
  induction 1 as [|x l Hx _ IH]; cbn [escape_loop length bytes_Count]; [reflexivity|].
  unfold byte_ok in Hx. destruct (Z.leb_spec x 1).
  - cbn [length]. destruct (Z.eqb_spec x 0), (Z.eqb_spec x 1); lia.
  - destruct (Z.eqb_spec x 0), (Z.eqb_spec x 1); cbn [length]; lia.
Qed.

(** X1. The escaped form of a byte string holds no 0x00 byte, so the
    0x00 that [encodeValues] appends is the first one; it consists of
    bytes, and it is longer than the input by one byte for each 0x00 and
    each 0x01 of the input. *)
Theorem escapeString_no_nul (l : list Z) :
  bytes_ok l ->
  Forall (fun b => b <> 0) (escapeString l) /\
  bytes_ok (escapeString l) /\
  Z.of_nat (length (escapeString l)) =
    Z.of_nat (length l) + bytes_Count l 0 + bytes_Count l 1.
Proof.
  intros Hl. rewrite (escapeString_loop l Hl).
  split; [now apply escape_loop_no_nul|].
  split; [now apply escape_loop_ok|]. now apply escape_loop_length.
Qed.

Lemma escapeString_no_nul_witness :
  Forall (fun b => b <> 0) (escapeString [0; 97; 1; 0]) /\
  bytes_ok (escapeString [0; 97; 1; 0]) /\
  Z.of_nat (length (escapeString [0; 97; 1; 0])) =
    Z.of_nat (length [0; 97; 1; 0]) + bytes_Count [0; 97; 1; 0] 0 + bytes_Count [0; 97; 1; 0] 1.
Proof.
  apply (escapeString_no_nul [0; 97; 1; 0]).
  repeat (apply List.Forall_cons; [unfold byte_ok; lia|]). apply List.Forall_nil.
Defined.

Lemma unescape_loop_dangling l :
  bytes_Count l 1 = 0 -> unescape_loop (l ++ [1]) = Panic.
Proof.
  induction l as [|x l IH]; cbn [bytes_Count app unescape_loop]; intros H.
  - reflexivity.
  - pose proof (bytes_Count_nonneg l 1).
    destruct (Z.eqb_spec x 1); [lia|]. rewrite IH by lia. reflexivity.
Qed.

Lemma unescape_loop_bad_escape l n r :
  bytes_Count l 1 = 0 -> n <> 1 -> n <> 2 -> unescape_loop (l ++ 1 :: n :: r) = Panic.
Proof.
  induction l as [|x l IH]; cbn [bytes_Count app unescape_loop]; intros H H1 H2.
  - destruct (Z.eqb_spec n 1), (Z.eqb_spec n 2); try contradiction. reflexivity.
  - pose proof (bytes_Count_nonneg l 1).
    destruct (Z.eqb_spec x 1); [lia|]. rewrite IH by (auto; lia). reflexivity.
Qed.

Lemma bytes_Count_app l1 l2 b :
  bytes_Count (l1 ++ l2) b = bytes_Count l1 b + bytes_Count l2 b.
Proof. induction l1 as [|x l1 IH]; cbn [app bytes_Count]; [lia|]. rewrite IH. lia. Qed.

(** X2. [unescapeString] panics on a string that is not an escaped form:
    when the first 0x01 is the last byte (the escaped byte is missing) and
    when the first 0x01 is followed by a byte other than 0x01 and 0x02
    (the [assert] of the loop). *)
Theorem unescapeString_malformed_panics (l : list Z) :
  bytes_Count l 1 = 0 ->
  unescapeString (l ++ [1]) = Panic /\
  (forall n r, n <> 1 -> n <> 2 -> unescapeString (l ++ 1 :: n :: r) = Panic).
Proof.
  intros H. split.
  - unfold unescapeString. rewrite bytes_Count_app, H. cbn [bytes_Count Z.eqb].
    now apply unescape_loop_dangling.
  - intros n r H1 H2. unfold unescapeString. rewrite bytes_Count_app, H.
    cbn [bytes_Count]. rewrite Z.eqb_refl.
    pose proof (bytes_Count_nonneg r 1).
    destruct (Z.eqb_spec (0 + (1 + ((if n =? 1 then 1 else 0) + bytes_Count r 1))) 0) as [E|_].
    + destruct (n =? 1); lia.
    + now apply unescape_loop_bad_escape.
Qed.

Lemma unescapeString_malformed_panics_witness :
  unescapeString ([97; 98] ++ [1]) = Panic /\
  (forall n r, n <> 1 -> n <> 2 -> unescapeString ([97; 98] ++ 1 :: n :: r) = Panic).
Proof. apply (unescapeString_malformed_panics [97; 98]). reflexivity. Defined.

Lemma PutUint32_length p : length (BigEndian.PutUint32 p) = 4%nat.
Proof. unfold BigEndian.PutUint32. now rewrite length_rev, le_digits_length. Qed.

Lemma encodeKey_app prefix vals enc :
  encodeValues [] vals = Ok enc ->
  encodeKey [] prefix vals = Ok (BigEndian.PutUint32 prefix ++ enc).
Proof.
  intros H. unfold encodeKey. cbn [app]. now apply encodeValues_app.
Qed.

Lemma decodeKey_app prefix enc out :
  decodeKey (BigEndian.PutUint32 prefix ++ enc) out = decodeValues enc out.
Proof.
  unfold decodeKey. rewrite length_app, PutUint32_length. cbn [Nat.ltb Nat.leb Nat.add].
  change 4%nat with (length (BigEndian.PutUint32 prefix)) at 1.
  now rewrite skipn_app, skipn_all, Nat.sub_diag.
Qed.

(** X3. Round trip of keys: for every prefix, every sequence of typed
    values and every [out] of the same type shape, [encodeKey] returns
    the four big-endian bytes of the prefix followed by the encoding of
    the values, and [decodeKey] on that key fills [out] with the tags and
    payloads of the values (with the values themselves when the
    unselected fields are zero on both sides). *)
Theorem decodeKey_encodeKey (prefix : Z) (vals out : list Value) :
  Forall typed vals ->
  map Type_ out = map Type_ vals ->
  exists enc out',
    encodeValues [] vals = Ok enc /\
    encodeKey [] prefix vals = Ok (BigEndian.PutUint32 prefix ++ enc) /\
    decodeKey (BigEndian.PutUint32 prefix ++ enc) out = Ok out' /\
    Forall2 same_payload vals out' /\
    (Forall canonical vals -> Forall canonical out -> out' = vals).
Proof.
  intros Hty Hshape.
  destruct (encodeValues_typed vals Hty) as [enc Henc].
  exists enc, (zip_with filled vals out).
  split; [exact Henc|]. split; [now apply encodeKey_app|]. split; [|split].
  - rewrite decodeKey_app. unfold decodeValues.
    rewrite <- (app_nil_r enc).
    rewrite (decode_encode_loop vals out enc [] Hty Hshape Henc). reflexivity.
  - now apply zip_filled_payload.
  - intros Hcv Hco. now apply zip_filled_canonical.
Qed.

Lemma decodeKey_encodeKey_witness :
  exists enc out',
    encodeValues [] [mkValue TYPE_INT64 (-7) []; mkValue TYPE_BYTES 0 [0; 1; 2]] = Ok enc /\
    encodeKey [] 100 [mkValue TYPE_INT64 (-7) []; mkValue TYPE_BYTES 0 [0; 1; 2]]
      = Ok (BigEndian.PutUint32 100 ++ enc) /\
    decodeKey (BigEndian.PutUint32 100 ++ enc)
      [mkValue TYPE_INT64 0 []; mkValue TYPE_BYTES 0 []] = Ok out' /\
    Forall2 same_payload [mkValue TYPE_INT64 (-7) []; mkValue TYPE_BYTES 0 [0; 1; 2]] out' /\
    (Forall canonical [mkValue TYPE_INT64 (-7) []; mkValue TYPE_BYTES 0 [0; 1; 2]] ->
     Forall canonical [mkValue TYPE_INT64 0 []; mkValue TYPE_BYTES 0 []] ->
     out' = [mkValue TYPE_INT64 (-7) []; mkValue TYPE_BYTES 0 [0; 1; 2]]).
Proof.
  apply (decodeKey_encodeKey 100
           [mkValue TYPE_INT64 (-7) []; mkValue TYPE_BYTES 0 [0; 1; 2]]
           [mkValue TYPE_INT64 0 []; mkValue TYPE_BYTES 0 []]).
  - solve_typed.
  - reflexivity.
Defined.

(** Strings of equal length that compare as [Lt] still do when each is
    followed by more bytes. *)
Lemma bytes_Compare_app_lt a : forall b s t,
  length a = length b -> bytes_Compare a b = Lt -> bytes_Compare (a ++ s) (b ++ t) = Lt.
Proof.
  induction a as [|x a IH]; intros [|y b] s t Hlen H; try discriminate.
  cbn [app bytes_Compare] in *. destruct (x ?= y); try discriminate; auto.
Qed.

Lemma encodeValues_from out vals e :
  encodeValues out vals = Ok e ->
  exists enc, encodeValues [] vals = Ok enc /\ e = out ++ enc.
Proof.
  revert out e. induction vals as [|v vs IH]; intros out e H; cbn [encodeValues] in *.
  - injection H as <-. exists []. now rewrite app_nil_r.
  - destruct (encodeValue v) as [ev| |]; cbn [bind] in *; try discriminate.
    destruct (IH _ _ H) as (enc & Henc & ->).
    exists (ev ++ enc). split; [|now rewrite app_assoc].
    now apply (encodeValues_app ([] ++ ev)) in Henc.
Qed.

(** X4. The keys of a table with a smaller prefix all sort before the
    keys of a table with a larger prefix, whatever values they encode:
    each table owns one contiguous range of the key space. *)
Theorem encodeKey_orders_tables (p q : Z) (vals1 vals2 : list Value) (k1 k2 : list Z) :
  uint32_ok p -> uint32_ok q -> p < q ->
  encodeKey [] p vals1 = Ok k1 -> encodeKey [] q vals2 = Ok k2 ->
  bytes_lt k1 k2.
Proof.
  intros Hp Hq Hlt H1 H2. unfold encodeKey in H1, H2. cbn [app] in H1, H2.
  destruct (encodeValues_from _ _ _ H1) as (e1 & _ & ->).
  destruct (encodeValues_from _ _ _ H2) as (e2 & _ & ->).
  unfold bytes_lt. apply bytes_Compare_app_lt.
  - now rewrite !PutUint32_length.
  - unfold BigEndian.PutUint32. unfold uint32_ok in Hp, Hq.
    rewrite be_digits_compare by (change (256 ^ Z.of_nat 4) with (2 ^ 32); lia).
    now apply Z.compare_lt_iff.
Qed.

Lemma encodeKey_orders_tables_witness :
  bytes_lt [0; 0; 0; 100; 128; 0; 0; 0; 0; 0; 0; 9] [0; 0; 0; 101; 97; 0].
Proof.
  apply (encodeKey_orders_tables 100 101
           [mkValue TYPE_INT64 9 []] [mkValue TYPE_BYTES 0 [97]]).
  - unfold uint32_ok. lia.
  - unfold uint32_ok. lia.
  - lia.
  - reflexivity.
  - reflexivity.
Defined.

Lemma encodeValues_app_list vals1 : forall vals2 e1 e2,
  encodeValues [] vals1 = Ok e1 -> encodeValues [] vals2 = Ok e2 ->
  encodeValues [] (vals1 ++ vals2) = Ok (e1 ++ e2).
Proof.
  induction vals1 as [|v vs IH]; intros vals2 e1 e2 H1 H2.
  - injection H1 as <-. exact H2.
  - cbn [app encodeValues] in *.
    destruct (encodeValue v) as [ev| |] eqn:Ev; cbn [bind] in *; try discriminate.
    destruct (encodeValues_from _ _ _ H1) as (enc & Henc & ->).
    cbn [app] in *.
    rewrite (encodeValues_app ev _ _ (IH _ _ _ Henc H2)).
    now rewrite app_assoc.
Qed.

(** The escaped forms of [x < y], each closed by its 0x00, compare as
    [Lt] whatever follows them. *)
Lemma escape_loop_lt_ext x : forall y s t,
  bytes_ok x -> bytes_ok y -> bytes_lt x y ->
  bytes_lt (escape_loop x ++ 0 :: s) (escape_loop y ++ 0 :: t).
Proof.
  unfold bytes_lt.
  induction x as [|a x IH]; intros [|b y] s t Hx Hy Hlt; try discriminate.
  - inversion Hy as [|? ? Hb _]; subst. unfold byte_ok in Hb.
    cbn [escape_loop]. destruct (Z.leb_spec b 1); cbn [app bytes_Compare].
    + reflexivity.
    + destruct (Z.compare_spec 0 b); try lia; reflexivity.
  - inversion Hx as [|? ? Ha Hx']; inversion Hy as [|? ? Hb Hy']; subst.
    unfold byte_ok in Ha, Hb.
    cbn [bytes_Compare] in Hlt. cbn [escape_loop].
    destruct (Z.compare_spec a b) as [E|L|G]; try discriminate.
    + subst b. destruct (Z.leb_spec a 1); cbn [app bytes_Compare];
        rewrite ?Z.compare_refl; now apply IH.
    + destruct (Z.leb_spec a 1), (Z.leb_spec b 1); cbn [app bytes_Compare]; try lia.
      * assert (a = 0) by lia. assert (b = 1) by lia. subst. reflexivity.
      * destruct (Z.compare_spec 1 b); try lia; reflexivity.
      * destruct (Z.compare_spec a b); try lia; reflexivity.
Qed.

Lemma encodeValue_lt_ext a b s t :
  value_lt a b ->
  exists ea eb, encodeValue a = Ok ea /\ encodeValue b = Ok eb /\
                bytes_lt (ea ++ s) (eb ++ t).
Proof.
  intros [(Ta & Tb & Ha & Hb & Hlt)|(Ta & Tb & Ha & Hb & Hlt)]; unfold encodeValue.
  - rewrite Ta, Tb. cbn [Z.eqb TYPE_INT64 Pos.eqb]. do 2 eexists.
    split; [reflexivity|]. split; [reflexivity|].
    rewrite !int64_bias_range by assumption.
    unfold bytes_lt. apply bytes_Compare_app_lt.
    + unfold BigEndian.PutUint64. now rewrite !length_rev, !le_digits_length.
    + unfold BigEndian.PutUint64. unfold int64_ok in Ha, Hb.
      rewrite be_digits_compare by (change (256 ^ Z.of_nat 8) with (2 ^ 64); lia).
      apply Z.compare_lt_iff. lia.
  - rewrite Ta, Tb. cbn [Z.eqb TYPE_INT64 TYPE_BYTES Pos.eqb]. do 2 eexists.
    split; [reflexivity|]. split; [reflexivity|].
    rewrite !escapeString_loop by assumption. rewrite <- !app_assoc. cbn [app].
    now apply escape_loop_lt_ext.
Qed.

(** X5. Composite keys sort column by column: when two sequences of
    typed values agree on their first columns and the first column in
    which they differ holds a smaller value in the first sequence (a
    smaller integer, or a byte string that is lexicographically
    smaller), the encoding of the first sequence is below the encoding
    of the second under unsigned byte-wise comparison, whatever columns
    follow. *)
Theorem encodeValues_lex_order (ps r1 r2 : list Value) (a b : Value) :
  Forall typed ps -> value_lt a b -> Forall typed r1 -> Forall typed r2 ->
  exists e1 e2,
    encodeValues [] (ps ++ a :: r1) = Ok e1 /\
    encodeValues [] (ps ++ b :: r2) = Ok e2 /\
    bytes_lt e1 e2.
Proof.
  intros Hps Hab Hr1 Hr2.
  destruct (encodeValues_typed ps Hps) as [ep Hep].
  destruct (encodeValues_typed r1 Hr1) as [f1 Hf1].
  destruct (encodeValues_typed r2 Hr2) as [f2 Hf2].
  destruct (encodeValue_lt_ext a b f1 f2 Hab) as (ea & eb & Hea & Heb & Hlt).
  exists (ep ++ ea ++ f1), (ep ++ eb ++ f2).
  split; [|split].
  - apply encodeValues_app_list; [exact Hep|]. now apply encodeValues_cons.
  - apply encodeValues_app_list; [exact Hep|]. now apply encodeValues_cons.
  - unfold bytes_lt. rewrite bytes_Compare_app_same. exact Hlt.
Qed.

Lemma encodeValues_lex_order_witness :
  exists e1 e2,
    encodeValues [] ([mkValue TYPE_INT64 4 []] ++
                     mkValue TYPE_BYTES 0 [97] :: [mkValue TYPE_INT64 9 []]) = Ok e1 /\
    encodeValues [] ([mkValue TYPE_INT64 4 []] ++
                     mkValue TYPE_BYTES 0 [97; 0] :: [mkValue TYPE_INT64 (-9) []]) = Ok e2 /\
    bytes_lt e1 e2.
Proof.
  apply (encodeValues_lex_order [mkValue TYPE_INT64 4 []]
           [mkValue TYPE_INT64 9 []] [mkValue TYPE_INT64 (-9) []]
           (mkValue TYPE_BYTES 0 [97]) (mkValue TYPE_BYTES 0 [97; 0])).
  - solve_typed.
  - right. cbn [Type_ Str]. split; [reflexivity|]. split; [reflexivity|].
    split; [solve_bytes_ok|]. split; [solve_bytes_ok|]. reflexivity.
  - solve_typed.
  - solve_typed.
Defined.

Lemma encodeValues_inj vals1 vals2 enc :
  Forall typed vals1 -> Forall typed vals2 ->
  Forall canonical vals1 -> Forall canonical vals2 ->
  map Type_ vals1 = map Type_ vals2 ->
  encodeValues [] vals1 = Ok enc -> encodeValues [] vals2 = Ok enc ->
  vals1 = vals2.
Proof.
  intros T1 T2 C1 C2 Hs E1 E2.
  pose proof (decode_encode_loop vals1 vals1 enc [] T1 eq_refl E1) as D1.
  pose proof (decode_encode_loop vals2 vals1 enc [] T2 Hs E2) as D2.
  rewrite D1 in D2. injection D2 as D.
  rewrite (zip_filled_canonical vals1 vals1 eq_refl T1 C1 C1) in D.
  rewrite (zip_filled_canonical vals2 vals1 Hs T2 C2 C1) in D. exact D.
Qed.

(** X6. Distinct rows get distinct encodings: two sequences of typed
    values of the same type shape, with their unselected fields at zero,
    that [encodeValues] maps to the same bytes are equal. *)
Theorem encodeValues_injective (vals1 vals2 : list Value) (enc : list Z) :
  Forall typed vals1 -> Forall typed vals2 ->
  Forall canonical vals1 -> Forall canonical vals2 ->
  map Type_ vals1 = map Type_ vals2 ->
  encodeValues [] vals1 = Ok enc -> encodeValues [] vals2 = Ok enc ->
  vals1 = vals2.
Proof. apply encodeValues_inj. Qed.

Lemma encodeValues_injective_witness :
  [mkValue TYPE_BYTES 0 [1; 0]; mkValue TYPE_INT64 3 []] =
  [mkValue TYPE_BYTES 0 [1; 0]; mkValue TYPE_INT64 3 []].
Proof.
  apply (encodeValues_injective
           [mkValue TYPE_BYTES 0 [1; 0]; mkValue TYPE_INT64 3 []]
           [mkValue TYPE_BYTES 0 [1; 0]; mkValue TYPE_INT64 3 []]
           [1; 2; 1; 1; 0; 128; 0; 0; 0; 0; 0; 0; 3]).
  - solve_typed.
  - solve_typed.
  - repeat (apply List.Forall_cons; [split; [reflexivity + discriminate | reflexivity + discriminate]|]).
    apply List.Forall_nil.
  - repeat (apply List.Forall_cons; [split; [reflexivity + discriminate | reflexivity + discriminate]|]).
    apply List.Forall_nil.
  - reflexivity.
  - reflexivity.
  - reflexivity.
Defined.

Lemma decodeValue_nil o : decodeValue [] o = Panic.
Proof.
  unfold decodeValue.
  destruct (Type_ o =? TYPE_INT64); [reflexivity|].
  destruct (Type_ o =? TYPE_BYTES); reflexivity.
Qed.

(** X7. [decodeValues] accepts the encoding only: on the encoding of
    typed values followed by any further byte it panics (the [assert] on
    the rest of the input), and it panics on an empty input when a value
    is still to be read. *)
Theorem decodeValues_rejects_other_lengths (vals out : list Value) (enc extra : list Z) :
  Forall typed vals -> map Type_ out = map Type_ vals ->
  encodeValues [] vals = Ok enc ->
  (extra <> [] -> decodeValues (enc ++ extra) out = Panic) /\
  (forall o os, decodeValues [] (o :: os) = Panic).
Proof.
  intros Hty Hs Henc. split.
  - intros Hex. unfold decodeValues.
    rewrite (decode_encode_loop vals out enc extra Hty Hs Henc). cbn [bind].
    destruct extra; [contradiction|]. reflexivity.
  - intros o os. unfold decodeValues. cbn [decodeValues_loop].
    now rewrite decodeValue_nil.
Qed.

Lemma decodeValues_rejects_other_lengths_witness :
  ([7] <> [] -> decodeValues ([97; 0] ++ [7]) [mkValue TYPE_BYTES 0 []] = Panic) /\
  (forall o os, decodeValues [] (o :: os) = Panic).
Proof.
  apply (decodeValues_rejects_other_lengths [mkValue TYPE_BYTES 0 [97]]
           [mkValue TYPE_BYTES 0 []] [97; 0] [7]).
  - solve_typed.
  - reflexivity.
  - reflexivity.
Defined.

Lemma encodeValue_cases v :
  (known_type v /\ exists e, encodeValue v = Ok e) \/
  (~ known_type v /\ encodeValue v = Panic).
Proof.
  unfold encodeValue, known_type.
  destruct (Z.eqb_spec (Type_ v) TYPE_INT64) as [E|N1]; [left; eauto|].
  destruct (Z.eqb_spec (Type_ v) TYPE_BYTES) as [E|N2]; [left; eauto|].
  right. split; [|reflexivity]. intros [?|?]; contradiction.
Qed.

(** X8. [encodeValues] reports no error: it returns the encoding when
    every value has the tag INT64 or BYTES, and it panics exactly when
    some value has another tag (such as the tag 0 of a column that a
    record leaves out). *)
Theorem encodeValues_panics_iff (out : list Z) (vals : list Value) :
  (encodeValues out vals = Panic <-> Exists (fun v => ~ known_type v) vals) /\
  (Forall known_type vals <-> exists enc, encodeValues out vals = Ok enc) /\
  no_error (encodeValues out vals).
Proof.
  revert out. induction vals as [|v vs IH]; intros out; cbn [encodeValues].
  - split; [|split].
    + split; [discriminate | intros H; inversion H].
    + split; [eauto | constructor].
    + apply no_error_Ok.
  - destruct (encodeValue_cases v) as [[Hk [e He]]|[Hk He]]; rewrite He; cbn [bind].
    + destruct (IH (out ++ e)) as (IH1 & IH2 & IH3). split; [|split].
      * rewrite IH1. split; [now right|].
        intros H. inversion H; subst; [contradiction | assumption].
      * rewrite <- IH2. split; [intros H; now inversion H | now constructor].
      * exact IH3.
    + split; [|split].
      * split; [now left | reflexivity].
      * split; [intros H; inversion H; contradiction | intros [? ?]; discriminate].
      * apply no_error_Panic.
Qed.

(** X9. [encodeValues] only appends: the result is [out] followed by the
    encodings of the values one after the other, so that encoding a
    sequence in two parts gives the same bytes as encoding it at once. *)
Theorem encodeValues_appends (out : list Z) (vals1 vals2 : list Value) :
  encodeValues out (vals1 ++ vals2) =
    (let* e := encodeValues out vals1 in encodeValues e vals2) /\
  (forall e, encodeValues out vals1 = Ok e ->
     exists enc, encodeValues [] vals1 = Ok enc /\ e = out ++ enc).
Proof.
  split; [|intros e; apply encodeValues_from].
  revert out. induction vals1 as [|v vs IH]; intros out; cbn [app encodeValues bind].
  - reflexivity.
  - destruct (encodeValue v) as [ev| |]; cbn [bind]; [apply IH | reflexivity | reflexivity].
Qed.

(** * Further properties of records and of their checks *)

Lemma Get_index_lt cols : forall key i,
  Get_index cols key = Some i -> (i < length cols)%nat /\ nth_error cols i = Some key.
Proof.
  induction cols as [|c cs IH]; intros key i H; cbn [Get_index] in H; [discriminate|].
  destruct (String.eqb_spec c key) as [->|N].
  - injection H as <-. cbn. split; [lia | reflexivity].
  - destruct (Get_index cs key) as [k|] eqn:E; [|discriminate].
    injection H as <-. destruct (IH _ _ E). cbn. split; [lia | assumption].
Qed.

Lemma Get_index_None cols key : Get_index cols key = None <-> ~ In key cols.
Proof.
  induction cols as [|c cs IH]; cbn [Get_index In]; [tauto|].
  destruct (String.eqb_spec c key) as [->|N].
  - split; [discriminate | tauto].
  - destruct (Get_index cs key); cbn [option_map].
    + split; [discriminate|]. intros H. exfalso. apply H. right.
      destruct IH as [_ IH]. destruct (in_dec string_dec key cs) as [Hin|Hout]; [assumption|].
      now specialize (IH Hout).
    + split; [|reflexivity]. intros _ [?|?]; [contradiction|]. now apply IH.
Qed.

Lemma Get_index_app cols c key :
  Get_index (cols ++ [c]) key =
  match Get_index cols key with
  | Some i => Some i
  | None => if String.eqb c key then Some (length cols) else None
  end.
Proof.
  induction cols as [|c0 cs IH]; cbn [app Get_index length].
  - destruct (String.eqb c key); reflexivity.
  - destruct (String.eqb c0 key); [reflexivity|]. rewrite IH.
    destruct (Get_index cs key); [reflexivity|].
    destruct (String.eqb c key); reflexivity.
Qed.

(** [Get] on a record with one more entry at its end. *)
Lemma Get_snoc rec col v key :
  length (RCols rec) = length (RVals rec) ->
  Get (mkRecord (RCols rec ++ [col]) (RVals rec ++ [v])) key =
  match Get_index (RCols rec) key with
  | Some _ => Get rec key
  | None => if String.eqb col key then Ok (Some v) else Ok None
  end.
Proof.
  intros Hlen. unfold Get. cbn [RCols RVals]. rewrite Get_index_app.
  destruct (Get_index (RCols rec) key) as [i|] eqn:E.
  - destruct (Get_index_lt _ _ _ E) as [Hi _].
    rewrite nth_error_app1 by lia. reflexivity.
  - destruct (String.eqb col key); [|reflexivity].
    rewrite Hlen, nth_error_app2 by lia. now rewrite Nat.sub_diag.
Qed.

(** X10. [Get] returns the first entry stored under a name. After
    [AddStr] or [AddInt64] of a column that the record does not hold yet,
    [Get] of that column returns the added value; other columns are read
    as before; and adding a column that the record already holds changes
    nothing that [Get] returns: the earlier entry hides the new one. *)
Theorem Get_after_Add (rec : Record_) (col key : string) (s : list Z) (i : Z) :
  length (RCols rec) = length (RVals rec) ->
  (~ In col (RCols rec) ->
     Get (AddStr rec col s) col = Ok (Some (mkValue TYPE_BYTES 0 s)) /\
     Get (AddInt64 rec col i) col = Ok (Some (mkValue TYPE_INT64 i []))) /\
  (key <> col \/ In key (RCols rec) ->
     Get (AddStr rec col s) key = Get rec key /\
     Get (AddInt64 rec col i) key = Get rec key) /\
  length (RCols (AddStr rec col s)) = length (RVals (AddStr rec col s)) /\
  length (RCols (AddInt64 rec col i)) = length (RVals (AddInt64 rec col i)).
Proof.
  intros Hlen. unfold AddStr, AddInt64. split; [|split; [|split]].
  - intros Hnew. apply Get_index_None in Hnew.
    rewrite !Get_snoc by assumption. rewrite Hnew, String.eqb_refl. auto.
  - intros Hk. rewrite !Get_snoc by assumption.
    destruct (Get_index (RCols rec) key) eqn:E; [auto|].
    destruct Hk as [Hk|Hk]; [|now apply Get_index_None in E].
    destruct (String.eqb_spec col key) as [->|_]; [contradiction|].
    unfold Get. rewrite E. auto.
  - cbn [RCols RVals]. rewrite !length_app. cbn [length]. lia.
  - cbn [RCols RVals]. rewrite !length_app. cbn [length]. lia.
Qed.

Lemma Get_after_Add_witness :
  let rec := AddInt64 Record_empty "id" 1 in
  (~ In "name"%string (RCols rec) ->
     Get (AddStr rec "name" [98]) "name" = Ok (Some (mkValue TYPE_BYTES 0 [98])) /\
     Get (AddInt64 rec "name" 5) "name" = Ok (Some (mkValue TYPE_INT64 5 []))) /\
  ("id"%string <> "name"%string \/ In "id"%string (RCols rec) ->
     Get (AddStr rec "name" [98]) "id" = Get rec "id" /\
     Get (AddInt64 rec "name" 5) "id" = Get rec "id") /\
  length (RCols (AddStr rec "name" [98])) = length (RVals (AddStr rec "name" [98])) /\
  length (RCols (AddInt64 rec "name" 5)) = length (RVals (AddInt64 rec "name" 5)).
Proof.
  intros rec.
  apply (Get_after_Add rec "name" "id" [98] 5). reflexivity.
Defined.

(** X11. What [reorderRecord] returns: one value per schema column, in
    schema order; at the position of a column that the record holds, the
    record's first value under that name, whose tag is the column's
    declared type; at the position of a column that the record does not
    hold, the zero value. *)
Theorem reorderRecord_shape (tdef : TableDef) (rec : Record_) (vals : list Value) :
  reorderRecord tdef rec = Ok vals ->
  length (RCols rec) = length (RVals rec) /\
  length vals = length (Cols tdef) /\
  forall j c, nth_error (Cols tdef) j = Some c ->
    (Get rec c = Ok None /\ nth_error vals j = Some Value_zero) \/
    (exists v, Get rec c = Ok (Some v) /\ nth_error vals j = Some v /\
               nth_error (Types tdef) j = Some (Type_ v)).
Proof.
  unfold reorderRecord. intros H.
  destruct (Nat.eqb_spec (length (RCols rec)) (length (RVals rec))) as [E|N];
    cbn [assert bind] in H; [|discriminate].
  split; [exact E|]. exact (reorder_loop_shape tdef rec (Cols tdef) 0 vals H).
Qed.

Lemma reorderRecord_shape_witness :
  let tdef := mkTableDef "t" [TYPE_INT64; TYPE_BYTES] ["id"; "name"]%string 1 100 [["id"%string]] in
  let rec := AddInt64 (AddStr Record_empty "other" [1]) "id" 7 in
  let vals := [mkValue TYPE_INT64 7 []; Value_zero] in
  length (RCols rec) = length (RVals rec) /\
  length vals = length (Cols tdef) /\
  forall j c, nth_error (Cols tdef) j = Some c ->
    (Get rec c = Ok None /\ nth_error vals j = Some Value_zero) \/
    (exists v, Get rec c = Ok (Some v) /\ nth_error vals j = Some v /\
               nth_error (Types tdef) j = Some (Type_ v)).
Proof.
  intros tdef rec vals. apply (reorderRecord_shape tdef rec vals). reflexivity.
Defined.

(** X12. What [checkRecord] accepts: when [checkRecord(tdef, rec, n)]
    succeeds, it returns one value per schema column; each of the first
    [n] columns is held by the record with a non-zero tag equal to the
    column's declared type, and every later position has the tag 0 (the
    record does not supply that column). *)
Theorem checkRecord_ok_shape (tdef : TableDef) (rec : Record_) (n : Z) (vals : list Value) :
  checkRecord tdef rec n = Ok vals ->
  length vals = length (Cols tdef) /\
  (forall j c, nth_error (Cols tdef) j = Some c -> Z.of_nat j < n ->
     exists v, Get rec c = Ok (Some v) /\ nth_error vals j = Some v /\
               Type_ v <> 0 /\ nth_error (Types tdef) j = Some (Type_ v)) /\
  (forall j v, nth_error vals j = Some v -> n <= Z.of_nat j -> Type_ v = 0).
Proof.
  unfold checkRecord. intros H.
  destruct (reorderRecord tdef rec) as [vs| |] eqn:Er; cbn [bind] in H; try discriminate.
  destruct (valuesComplete tdef vs n) as [[]| |] eqn:Ev; cbn [bind] in H; try discriminate.
  injection H as <-.
  destruct (reorderRecord_shape_aux tdef rec vs Er) as (Hlen & Hs).
  pose proof (valuesComplete_loop_ok tdef vs 0 n Ev) as Hc.
  split; [exact Hlen|]. split.
  - intros j c Hj Hn. destruct (Hs j c Hj) as [[_ Hz]|(v & Hg & Hv & Ht)].
    + destruct (Hc j _ Hz) as [Hne _]. exfalso. now apply Hne.
    + exists v. destruct (Hc j _ Hv) as [Hne _]. auto.
  - intros j v Hj Hn. now destruct (Hc j v Hj) as [_ Hz]; apply Hz.
Qed.

Lemma checkRecord_ok_shape_witness :
  let tdef := mkTableDef "t" [TYPE_INT64; TYPE_BYTES] ["id"; "name"]%string 1 100 [["id"%string]] in
  let rec := AddInt64 Record_empty "id" 7 in
  let vals := [mkValue TYPE_INT64 7 []; Value_zero] in
  length vals = length (Cols tdef) /\
  (forall j c, nth_error (Cols tdef) j = Some c -> Z.of_nat j < 1 ->
     exists v, Get rec c = Ok (Some v) /\ nth_error vals j = Some v /\
               Type_ v <> 0 /\ nth_error (Types tdef) j = Some (Type_ v)) /\
  (forall j v, nth_error vals j = Some v -> 1 <= Z.of_nat j -> Type_ v = 0).
Proof.
  intros tdef rec vals. apply (checkRecord_ok_shape tdef rec 1 vals). reflexivity.
Defined.

Lemma schema_type_Ok tdef c t :
  index_Z (Types tdef) (slices_Index (Cols tdef) c) = Ok t ->
  exists k, Get_index (Cols tdef) c = Some k /\ nth_error (Types tdef) k = Some t.
Proof.
  unfold index_Z, slices_Index. destruct (Get_index (Cols tdef) c) as [k|]; [|discriminate].
  destruct (Z.ltb_spec (Z.of_nat k) 0); [lia|]. rewrite Nat2Z.id.
  intros Hi. apply index_Ok in Hi. eauto.
Qed.

Lemma getValues_loop_ok tdef rec cols : forall i vals,
  getValues_loop tdef rec cols i = Ok vals ->
  length vals = length cols /\
  forall j c, nth_error cols j = Some c ->
    exists v k, Get rec c = Ok (Some v) /\ nth_error vals j = Some v /\
                Get_index (Cols tdef) c = Some k /\
                nth_error (Types tdef) k = Some (Type_ v).
Proof.
  induction cols as [|c cs IH]; intros i vals H; cbn [getValues_loop] in H.
  - injection H as <-. split; [reflexivity|]. intros [|j] c' Hc; discriminate.
  - destruct (Get rec c) as [[v|]| |] eqn:Eg; cbn [bind] in H; try discriminate.
    2:{ destruct (index (Cols tdef) i); discriminate. }
    destruct (index_Z (Types tdef) (slices_Index (Cols tdef) c)) as [t| |] eqn:Et;
      cbn [bind] in H; try discriminate.
    destruct (Z.eqb_spec (Type_ v) t) as [Etv|N]; cbn [negb] in H; [|discriminate].
    destruct (getValues_loop tdef rec cs (S i)) as [out| |] eqn:Er; cbn [bind] in H;
      try discriminate.
    injection H as <-. destruct (IH _ _ Er) as [Hl Hs].
    split; [cbn [length]; lia|].
    intros [|j] c' Hc; cbn [nth_error] in *; [|now apply Hs].
    injection Hc as <-. destruct (schema_type_Ok _ _ _ Et) as (k & Hk & Ht).
    exists v, k. rewrite Etv. auto.
Qed.

(** X13. What [getValues] returns: one value per requested column, in
    the order of the request, each being the record's first value under
    that name, with a tag equal to the type that the schema declares for
    the first column of that name. *)
Theorem getValues_ok_shape (tdef : TableDef) (rec : Record_) (cols : list string)
    (vals : list Value) :
  getValues tdef rec cols = Ok vals ->
  length vals = length cols /\
  forall j c, nth_error cols j = Some c ->
    exists v k, Get rec c = Ok (Some v) /\ nth_error vals j = Some v /\
                Get_index (Cols tdef) c = Some k /\
                nth_error (Types tdef) k = Some (Type_ v).
Proof. apply getValues_loop_ok. Qed.

Lemma getValues_ok_shape_witness :
  let tdef := mkTableDef "t" [TYPE_INT64; TYPE_BYTES] ["id"; "name"]%string 1 100 [["id"%string]] in
  let rec := AddInt64 (AddStr Record_empty "name" [98]) "id" 7 in
  let vals := [mkValue TYPE_INT64 7 []] in
  length vals = length ["id"%string] /\
  forall j c, nth_error ["id"%string] j = Some c ->
    exists v k, Get rec c = Ok (Some v) /\ nth_error vals j = Some v /\
                Get_index (Cols tdef) c = Some k /\
                nth_error (Types tdef) k = Some (Type_ v).
Proof.
  intros tdef rec vals. apply (getValues_ok_shape tdef rec ["id"%string] vals). reflexivity.
Defined.

Lemma getValues_loop_unknown tdef rec c v cs pre : forall i vs,
  getValues_loop tdef rec pre i = Ok vs ->
  Get rec c = Ok (Some v) -> ~ In c (Cols tdef) ->
  getValues_loop tdef rec (pre ++ c :: cs) i = Panic.
Proof.
  induction pre as [|p pre IH]; intros i vs H Hg Hc; cbn [app getValues_loop] in *.
  - rewrite Hg. cbn [bind]. apply Get_index_None in Hc.
    unfold slices_Index, index_Z. rewrite Hc. reflexivity.
  - destruct (Get rec p) as [[w|]| |]; cbn [bind] in *; try discriminate.
    2:{ destruct (index (Cols tdef) i); discriminate. }
    destruct (index_Z (Types tdef) (slices_Index (Cols tdef) p)) as [t| |];
      cbn [bind] in *; try discriminate.
    destruct (negb (Type_ w =? t)); [discriminate|].
    destruct (getValues_loop tdef rec pre (S i)) as [out| |] eqn:Er; cbn [bind] in H;
      try discriminate.
    rewrite (IH _ _ Er Hg Hc). reflexivity.
Qed.

(** X14. [getValues] panics on a requested column that the record holds
    and the schema does not declare: [slices.Index] returns -1 and
    [tdef.Types[-1]] is out of range. This holds at the first such column
    of the request when the columns before it are returned without
    error. *)
Theorem getValues_unknown_column_panics (tdef : TableDef) (rec : Record_)
    (pre cs : list string) (c : string) (v : Value) (vs : list Value) :
  getValues tdef rec pre = Ok vs ->
  Get rec c = Ok (Some v) -> ~ In c (Cols tdef) ->
  getValues tdef rec (pre ++ c :: cs) = Panic.
Proof. unfold getValues. intros Hp Hg Hc. exact (getValues_loop_unknown tdef rec c v cs pre 0%nat vs Hp Hg Hc). Qed.

Lemma getValues_unknown_column_panics_witness :
  let tdef := mkTableDef "t" [TYPE_INT64; TYPE_BYTES] ["id"; "name"]%string 1 100 [["id"%string]] in
  let rec := AddInt64 (AddStr Record_empty "nick" [98]) "id" 7 in
  getValues tdef rec (["id"%string] ++ "nick"%string :: ["name"%string]) = Panic.
Proof.
  intros tdef rec.
  apply (getValues_unknown_column_panics tdef rec ["id"%string] ["name"%string] "nick"
           (mkValue TYPE_BYTES 0 [98]) [mkValue TYPE_INT64 7 []]).
  - reflexivity.
  - reflexivity.
  - cbn. intros [E|[E|[]]]; discriminate.
Defined.

Lemma checkRecord_Ok_inv tdef rec n vals :
  checkRecord tdef rec n = Ok vals ->
  reorderRecord tdef rec = Ok vals /\ valuesComplete tdef vals n = Ok tt.
Proof.
  unfold checkRecord. intros H.
  destruct (reorderRecord tdef rec) as [vs| |]; cbn [bind] in H; try discriminate.
  destruct (valuesComplete tdef vs n) as [[]| |] eqn:Ev; cbn [bind] in H; try discriminate.
  injection H as <-. auto.
Qed.

(** The loop of [valuesComplete] passes over values that are as they
    must be. *)
Lemma valuesComplete_loop_skip tdef pre : forall i n rest,
  (forall j w, nth_error pre j = Some w ->
     (Z.of_nat (i + j) < n -> Type_ w <> 0) /\ (n <= Z.of_nat (i + j) -> Type_ w = 0)) ->
  valuesComplete_loop tdef (pre ++ rest) i n =
  valuesComplete_loop tdef rest (i + length pre) n.
Proof.
  induction pre as [|w pre IH]; intros i n rest Hok; cbn [app length].
  - now rewrite Nat.add_0_r.
  - cbn [valuesComplete_loop].
    destruct (Hok 0%nat w eq_refl) as [H1 H2]. rewrite Nat.add_0_r in H1, H2.
    assert (Hnext : forall j w', nth_error pre j = Some w' ->
              (Z.of_nat (S i + j) < n -> Type_ w' <> 0) /\
              (n <= Z.of_nat (S i + j) -> Type_ w' = 0)).
    { intros j w' Hj. replace (S i + j)%nat with (i + S j)%nat by lia. now apply Hok. }
    destruct (Z.ltb_spec (Z.of_nat i) n) as [Hi|Hi];
      destruct (Z.eqb_spec (Type_ w) 0) as [Hw|Hw]; cbn [andb negb].
    + exfalso. now apply H1.
    + destruct (Z.leb_spec n (Z.of_nat i)); [lia|]. cbn [andb].
      rewrite (IH _ _ _ Hnext). f_equal. lia.
    + destruct (Z.leb_spec n (Z.of_nat i)); cbn [andb];
        rewrite (IH _ _ _ Hnext); f_equal; lia.
    + exfalso. now apply Hw, H2.
Qed.

Lemma firstn_skipn_nth {A} (l : list A) (p : nat) (x : A) :
  nth_error l p = Some x -> l = firstn p l ++ x :: skipn (S p) l.
Proof.
  revert p. induction l as [|a l IH]; intros [|p] H; cbn in *; try discriminate.
  - now injection H as ->.
  - f_equal. now apply IH.
Qed.

Lemma valuesComplete_extra tdef vals n p v c :
  0 <= n -> p = Z.to_nat n ->
  nth_error vals p = Some v -> Type_ v <> 0 ->
  (forall j w, nth_error vals j = Some w -> (j < p)%nat -> Type_ w <> 0) ->
  nth_error (Cols tdef) p = Some c ->
  valuesComplete tdef vals n = Error (Errorf "extra column: " c).
Proof.
  intros Hn Hp Hv Hty Hpre Hc. unfold valuesComplete.
  rewrite (firstn_skipn_nth vals p v Hv).
  assert (Hlen : length (firstn p vals) = p).
  { apply firstn_length_le. apply Nat.lt_le_incl. apply nth_error_Some. congruence. }
  rewrite valuesComplete_loop_skip.
  - rewrite Hlen. cbn [Nat.add valuesComplete_loop].
    destruct (Z.ltb_spec (Z.of_nat p) n); [lia|]. cbn [andb].
    destruct (Z.leb_spec n (Z.of_nat p)); [|lia].
    destruct (Z.eqb_spec (Type_ v) 0); [contradiction|]. cbn [andb negb].
    apply index_Ok in Hc. rewrite Hc. reflexivity.
  - intros j w Hj. cbn [Nat.add].
    assert (j < p)%nat.
    { rewrite <- Hlen. apply nth_error_Some. congruence. }
    rewrite nth_error_firstn in Hj.
    destruct (Nat.ltb_spec j p); [|lia].
    split; [intros _; now apply (Hpre j) | lia].
Qed.

(** X15. Records naming rows take the primary key only: on a record
    that supplies every schema column (one that [checkRecord] accepts as
    a full row), [dbDelete] fails with "extra column" naming the first
    column after the primary key, and so does [dbScan] when such a record
    is its first bound; nothing is deleted and nothing is sought. *)
Theorem key_records_reject_value_columns (db : DB) (tdef : TableDef) (rec : Record_)
    (vals : list Value) (c : string) :
  checkRecord tdef rec (Z.of_nat (length (Cols tdef))) = Ok vals ->
  0 <= PKeys tdef ->
  nth_error (Cols tdef) (Z.to_nat (PKeys tdef)) = Some c ->
  dbDelete db tdef rec = Error (Errorf "extra column: " c) /\
  (forall cmp1 cmp2 key2, legal_range cmp1 cmp2 ->
     exists sc, dbScan db tdef (Scanner_new cmp1 cmp2 rec key2)
                = Ok (sc, Some (Errorf "extra column: " c))).
Proof.
  intros Hfull Hpk Hc.
  destruct (checkRecord_Ok_inv _ _ _ _ Hfull) as [Hre Hvc].
  destruct (reorderRecord_shape_aux _ _ _ Hre) as [Hlen _].
  pose proof (valuesComplete_loop_ok tdef vals 0 _ Hvc) as Hall.
  assert (Hp : (Z.to_nat (PKeys tdef) < length vals)%nat).
  { rewrite Hlen. apply nth_error_Some. congruence. }
  destruct (nth_error vals (Z.to_nat (PKeys tdef))) as [v|] eqn:Ev;
    [|apply nth_error_None in Ev; lia].
  assert (Hcheck : checkRecord tdef rec (PKeys tdef) = Error (Errorf "extra column: " c)).
  { unfold checkRecord. rewrite Hre. cbn [bind].
    rewrite (valuesComplete_extra tdef vals (PKeys tdef) _ v c Hpk eq_refl Ev); auto.
    - apply (Hall _ _ Ev). cbn [Nat.add]. rewrite Hlen in Hp. lia.
    - intros j w Hj Hjp. apply (Hall _ _ Hj). cbn [Nat.add]. rewrite Hlen in Hp. lia. }
  split.
  - unfold dbDelete. rewrite Hcheck. reflexivity.
  - intros cmp1 cmp2 key2 Hlegal. apply legal_range_dec in Hlegal.
    unfold dbScan, Scanner_new. cbn [Cmp1 Cmp2 Key1 Key2 iter keyEnd].
    rewrite Hlegal, Hcheck. eauto.
Qed.

Lemma key_records_reject_value_columns_witness :
  let tdef := mkTableDef "t" [TYPE_INT64; TYPE_BYTES] ["id"; "name"]%string 1 100 [["id"%string]] in
  let rec := AddStr (AddInt64 Record_empty "id" 7) "name" [98] in
  let db := mkDB "" (mkKV "" []) ∅ in
  dbDelete db tdef rec = Error (Errorf "extra column: " "name") /\
  (forall cmp1 cmp2 key2, legal_range cmp1 cmp2 ->
     exists sc, dbScan db tdef (Scanner_new cmp1 cmp2 rec key2)
                = Ok (sc, Some (Errorf "extra column: " "name"))).
Proof.
  intros tdef rec db.
  apply (key_records_reject_value_columns db tdef rec
           [mkValue TYPE_INT64 7 []; mkValue TYPE_BYTES 0 [98]] "name").
  - reflexivity.
  - cbn. lia.
  - reflexivity.
Defined.

Lemma reorder_loop_eq tdef rec cols : forall i out,
  length out = length cols ->
  (forall j c, nth_error cols j = Some c ->
     (Get rec c = Ok None /\ nth_error out j = Some Value_zero) \/
     (exists v, Get rec c = Ok (Some v) /\ nth_error out j = Some v /\
                nth_error (Types tdef) (i + j) = Some (Type_ v))) ->
  reorder_loop tdef rec cols i = Ok out.
Proof.
  induction cols as [|c cs IH]; intros i [|o out] Hlen Hs; try discriminate.
  - reflexivity.
  - cbn [reorder_loop].
    assert (Hrest : reorder_loop tdef rec cs (S i) = Ok out).
    { apply IH; [cbn in Hlen; lia|]. intros j c' Hj.
      replace (S i + j)%nat with (i + S j)%nat by lia. now apply (Hs (S j)). }
    destruct (Hs 0%nat c eq_refl) as [[Hg Ho]|(v & Hg & Ho & Ht)];
      rewrite Hg; cbn [bind]; cbn [nth_error] in Ho; injection Ho as ->.
    + rewrite Hrest. reflexivity.
    + rewrite Nat.add_0_r in Ht. apply index_Ok in Ht. rewrite Ht. cbn [bind].
      rewrite Z.eqb_refl. cbn [negb]. rewrite Hrest. reflexivity.
Qed.

(** [Get] returns on a record with as many values as names. *)
Lemma Get_returns rec c :
  length (RCols rec) = length (RVals rec) -> exists o, Get rec c = Ok o.
Proof.
  intros Hlen. unfold Get. destruct (Get_index (RCols rec) c) as [i|] eqn:Ei; [|eauto].
  apply Get_index_lt in Ei. destruct Ei as [Hi _].
  destruct (nth_error (RVals rec) i) eqn:En; [eauto|].
  apply nth_error_None in En. lia.
Qed.

(** [reorderRecord] succeeds on a record whose schema columns have their
    declared types. *)
Lemma reorderRecord_typed tdef rec :
  length (RCols rec) = length (RVals rec) ->
  (forall k c v, nth_error (Cols tdef) k = Some c -> Get rec c = Ok (Some v) ->
     nth_error (Types tdef) k = Some (Type_ v)) ->
  exists vals, reorderRecord tdef rec = Ok vals.
Proof.
  intros Hlen Hty.
  exists (map (fun c => match Get rec c with Ok (Some v) => v | _ => Value_zero end)
              (Cols tdef)).
  unfold reorderRecord. rewrite Hlen, Nat.eqb_refl. cbn [assert bind].
  apply reorder_loop_eq; [apply length_map|].
  intros j c Hj. rewrite nth_error_map, Hj. cbn [option_map Nat.add].
  destruct (Get_returns rec c Hlen) as [[v|] Hg]; rewrite Hg.
  - right. exists v. split; [reflexivity|]. split; [reflexivity|]. now apply (Hty j c v).
  - left. auto.
Qed.

(** After [reorderRecord], the first schema column that the record does
    not hold is the one [dbUpdate] reports. *)
Lemma dbUpdate_first_missing db tdef dbreq vals j c :
  reorderRecord tdef (URecord dbreq) = Ok vals ->
  nth_error (Cols tdef) j = Some c ->
  Get (URecord dbreq) c = Ok None ->
  (forall k c', (k < j)%nat -> nth_error (Cols tdef) k = Some c' ->
     exists v, Get (URecord dbreq) c' = Ok (Some v) /\ Type_ v <> 0) ->
  dbUpdate db tdef dbreq = Error (Errorf "missing column: " c).
Proof.
  intros Hre Hc Hg Hbefore.
  destruct (reorderRecord_shape_aux _ _ _ Hre) as [Hlen Hs].
  assert (Hj : (j < length (Cols tdef))%nat) by (apply nth_error_Some; congruence).
  assert (Hz : nth_error vals j = Some Value_zero).
  { destruct (Hs j c Hc) as [[_ Hz]|(v & Hv & _)]; [exact Hz | congruence]. }
  unfold dbUpdate, checkRecord. rewrite Hre. cbn [bind].
  unfold valuesComplete. rewrite (firstn_skipn_nth vals j _ Hz).
  assert (Hfl : length (firstn j vals) = j) by (apply firstn_length_le; lia).
  rewrite valuesComplete_loop_skip.
  - rewrite Hfl. cbn [Nat.add valuesComplete_loop Value_zero Type_].
    destruct (Z.ltb_spec (Z.of_nat j) (Z.of_nat (length (Cols tdef)))); [|lia].
    cbn [Z.eqb andb]. apply index_Ok in Hc. rewrite Hc. reflexivity.
  - intros k w Hk. cbn [Nat.add].
    assert (Hkj : (k < j)%nat) by (rewrite <- Hfl; apply nth_error_Some; congruence).
    rewrite nth_error_firstn in Hk. destruct (Nat.ltb_spec k j); [|lia].
    split; [intros _ | lia].
    destruct (nth_error (Cols tdef) k) as [c'|] eqn:Ec;
      [|apply nth_error_None in Ec; lia].
    destruct (Hbefore k c' Hkj Ec) as (v & Hv & Hne).
    destruct (Hs k c' Ec) as [[Hn _]|(v' & Hv' & Hw & _)]; [congruence|].
    congruence.
Qed.

(** X16. A row must supply every column: when a record has no entry for a
    schema column [c], [dbUpdate] (and with it Insert, Update and Upsert)
    never succeeds, whatever the mode, so the store is not written: it
    returns an error or panics. When moreover the record has as many
    values as names, every schema column it holds has the declared type
    of that column, and it holds every schema column before [c] with a
    non-zero tag, the error is "missing column" naming [c]. *)
Theorem dbUpdate_missing_column (db : DB) (tdef : TableDef) (rec : Record_) (mode : Z)
    (f1 f2 : bool) (j : nat) (c : string) :
  nth_error (Cols tdef) j = Some c ->
  Get rec c = Ok None ->
  (forall r, dbUpdate db tdef (mkDBUpdateReq rec mode f1 f2) <> Ok r) /\
  (length (RCols rec) = length (RVals rec) ->
   (forall k c' v, nth_error (Cols tdef) k = Some c' -> Get rec c' = Ok (Some v) ->
      nth_error (Types tdef) k = Some (Type_ v)) ->
   (forall k c', (k < j)%nat -> nth_error (Cols tdef) k = Some c' ->
      exists v, Get rec c' = Ok (Some v) /\ Type_ v <> 0) ->
   dbUpdate db tdef (mkDBUpdateReq rec mode f1 f2) = Error (Errorf "missing column: " c)).
Proof.
  intros Hc Hg. split.
  - intros r H. unfold dbUpdate in H. cbn [URecord] in H.
    destruct (checkRecord tdef rec (Z.of_nat (length (Cols tdef)))) as [vals| |] eqn:E;
      cbn [bind] in H; try discriminate.
    destruct (checkRecord_Ok_inv _ _ _ _ E) as [Hre Hvc].
    destruct (reorderRecord_shape_aux _ _ _ Hre) as [Hlen Hs].
    assert (Hj : (j < length (Cols tdef))%nat) by (apply nth_error_Some; congruence).
    destruct (Hs j c Hc) as [[_ Hz]|(v & Hv & _)]; [|congruence].
    destruct (valuesComplete_loop_ok tdef vals 0 _ Hvc j _ Hz) as [Hne _].
    apply Hne; [cbn [Nat.add]; lia | reflexivity].
  - intros Hlen Hty Hbefore.
    destruct (reorderRecord_typed tdef rec Hlen Hty) as [vals Hre].
    now apply (dbUpdate_first_missing db tdef (mkDBUpdateReq rec mode f1 f2) vals j c).
Qed.

Lemma dbUpdate_missing_column_witness :
  let tdef := mkTableDef "t" [TYPE_INT64; TYPE_BYTES; TYPE_BYTES] ["id"; "name"; "mail"]%string
                         1 100 [["id"%string]] in
  let rec := AddStr (AddInt64 Record_empty "id" 7) "mail" [109] in
  let db := mkDB "" (mkKV "" []) ∅ in
  (forall r, dbUpdate db tdef (mkDBUpdateReq rec MODE_INSERT_ONLY false false) <> Ok r) /\
  dbUpdate db tdef (mkDBUpdateReq rec MODE_INSERT_ONLY false false)
    = Error (Errorf "missing column: " "name").
Proof.
  intros tdef rec db.
  destruct (dbUpdate_missing_column db tdef rec MODE_INSERT_ONLY false false 1 "name")
    as [Hno Herr]; [reflexivity | reflexivity |].
  split; [exact Hno|]. apply Herr.
  - reflexivity.
  - intros k c' v Hk Hv.
    destruct k as [|[|[|k]]]; cbn in Hk; [| | |destruct k; discriminate];
      injection Hk as <-; cbn in Hv; try discriminate; injection Hv as <-; reflexivity.
  - intros k c' Hk Hc. assert (k = 0%nat) by lia. subst k.
    cbn in Hc. injection Hc as <-.
    exists (mkValue TYPE_INT64 7 []). split; [reflexivity | discriminate].
Defined.

(** * Further properties of the table store *)

Lemma Get_index_NoDup cols : forall j c,
  NoDup cols -> nth_error cols j = Some c -> Get_index cols c = Some j.
Proof.
  induction cols as [|c0 cs IH]; intros j c Hnd Hj; [destruct j; discriminate|].
  apply NoDup_cons in Hnd. destruct Hnd as [Hc0 Hnd]. cbn [Get_index].
  destruct j as [|j]; cbn [nth_error] in Hj.
  - injection Hj as ->. now rewrite String.eqb_refl.
  - destruct (String.eqb_spec c0 c) as [->|_].
    + exfalso. apply Hc0. apply list_elem_of_In. eapply nth_error_In; eauto.
    + rewrite (IH _ _ Hnd Hj). reflexivity.
Qed.

Lemma getValues_loop_eq tdef rec cols : forall i out,
  length out = length cols ->
  (forall j c, nth_error cols j = Some c ->
     exists v k, Get rec c = Ok (Some v) /\ nth_error out j = Some v /\
                 Get_index (Cols tdef) c = Some k /\
                 nth_error (Types tdef) k = Some (Type_ v)) ->
  getValues_loop tdef rec cols i = Ok out.
Proof.
  induction cols as [|c cs IH]; intros i [|o out] Hlen Hs; try discriminate.
  - reflexivity.
  - cbn [getValues_loop].
    assert (Hrest : getValues_loop tdef rec cs (S i) = Ok out).
    { apply IH; [cbn in Hlen; lia|]. intros j c' Hj. now apply (Hs (S j)). }
    destruct (Hs 0%nat c eq_refl) as (v & k & Hg & Ho & Hk & Ht).
    rewrite Hg. cbn [bind]. cbn [nth_error] in Ho. injection Ho as ->.
    unfold slices_Index, index_Z. rewrite Hk.
    destruct (Z.ltb_spec (Z.of_nat k) 0); [lia|]. rewrite Nat2Z.id.
    apply index_Ok in Ht. rewrite Ht. cbn [bind].
    rewrite Z.eqb_refl. cbn [negb]. rewrite Hrest. reflexivity.
Qed.

Lemma valuesComplete_all_ok tdef vals n :
  (forall j w, nth_error vals j = Some w ->
     (Z.of_nat j < n -> Type_ w <> 0) /\ (n <= Z.of_nat j -> Type_ w = 0)) ->
  valuesComplete tdef vals n = Ok tt.
Proof.
  intros H. unfold valuesComplete. rewrite <- (app_nil_r vals).
  rewrite valuesComplete_loop_skip; [reflexivity | exact H].
Qed.

(** What the conditional write leaves in the store. *)
Lemma tree_update_cases t key val mode :
  (snd (tree_update t key val mode) = false -> fst (fst (tree_update t key val mode)) = t) /\
  (snd (tree_update t key val mode) = true ->
     tree_get (fst (fst (tree_update t key val mode))) key = Some val) /\
  (mode = MODE_UPSERT -> snd (tree_update t key val mode) = true).
Proof.
  induction t as [|[k v] r IH]; cbn [tree_update].
  - destruct (Z.eqb_spec mode MODE_UPDATE_ONLY) as [E|N]; cbn [fst snd tree_get].
    + split; [auto|]. split; [discriminate|]. intros ->. discriminate.
    + rewrite bytes_Compare_refl. split; [discriminate|]. auto.
  - destruct (bytes_Compare k key) eqn:Ec.
    + destruct (Z.eqb_spec mode MODE_INSERT_ONLY) as [E|N]; cbn [fst snd tree_get].
      * split; [auto|]. split; [discriminate|]. intros ->. discriminate.
      * rewrite bytes_Compare_refl. split; [discriminate|]. auto.
    + destruct (tree_update r key val mode) as [[r' a] u]. cbn [fst snd tree_get] in *.
      rewrite Ec. destruct IH as (I1 & I2 & I3).
      split; [intros Hu; now rewrite (I1 Hu)|]. auto.
    + destruct (Z.eqb_spec mode MODE_UPDATE_ONLY) as [E|N]; cbn [fst snd tree_get].
      * split; [auto|]. split; [discriminate|]. intros ->. discriminate.
      * rewrite bytes_Compare_refl. split; [discriminate|]. auto.
Qed.

Lemma dbUpdate_exact_flags db tdef rec mode f1 f2 values kvals key vvals val :
  checkRecord tdef rec (Z.of_nat (length (Cols tdef))) = Ok values ->
  slice_to values (PKeys tdef) = Ok kvals ->
  encodeKey [] (Prefix tdef) kvals = Ok key ->
  slice_from values (PKeys tdef) = Ok vvals ->
  encodeValues [] vvals = Ok val ->
  dbUpdate db tdef (mkDBUpdateReq rec mode f1 f2) =
  Ok (mkDB (Path db)
           (mkKV (KVPath (kv db)) (fst (fst (tree_update (tree (kv db)) key val mode))))
           (tables db),
      mkDBUpdateReq rec mode (snd (tree_update (tree (kv db)) key val mode))
                    (snd (fst (tree_update (tree (kv db)) key val mode))),
      snd (tree_update (tree (kv db)) key val mode)).
Proof.
  intros H1 H2 H3 H4 H5. unfold dbUpdate. cbn [URecord UMode].
  rewrite H1. cbn [bind]. rewrite H2. cbn [bind]. rewrite H3. cbn [bind].
  rewrite H4. cbn [bind]. rewrite H5. cbn [bind].
  unfold KV_Update. cbn [Key Val Mode].
  destruct (tree_update (tree (kv db)) key val mode) as [[t a] u].
  cbn [bind fst snd Updated Added]. reflexivity.
Qed.

Lemma blanks_canonical types : Forall canonical (blanks types).
Proof.
  unfold blanks. induction types as [|t ts IH]; cbn [map]; constructor; [|exact IH].
  split; reflexivity.
Qed.

(** The decoder reads an encoding back into blank values. *)
Lemma decodeValues_blanks vals enc :
  Forall typed vals -> Forall canonical vals ->
  encodeValues [] vals = Ok enc ->
  decodeValues enc (blanks (map Type_ vals)) = Ok vals.
Proof.
  intros Hty Hc Henc.
  assert (Hs : map Type_ (blanks (map Type_ vals)) = map Type_ vals).
  { unfold blanks. rewrite map_map. cbn [Type_]. now rewrite map_id. }
  unfold decodeValues. rewrite <- (app_nil_r enc).
  rewrite (decode_encode_loop vals _ enc [] Hty Hs Henc). cbn [bind length Nat.eqb assert].
  rewrite (zip_filled_canonical vals _ Hs Hty Hc (blanks_canonical _)). reflexivity.
Qed.

Lemma Get_index_firstn cols : forall p j c,
  Get_index cols c = Some j ->
  Get_index (firstn p cols) c = if (j <? p)%nat then Some j else None.
Proof.
  induction cols as [|c0 cs IH]; intros p j c H; cbn [Get_index] in H; [discriminate|].
  destruct p as [|p]; [destruct (j <? 0)%nat eqn:E; [apply Nat.ltb_lt in E; lia | reflexivity]|].
  cbn [firstn Get_index]. destruct (String.eqb c0 c).
  - injection H as <-. reflexivity.
  - destruct (Get_index cs c) as [k|] eqn:Ek; [|discriminate]. injection H as <-.
    rewrite (IH p k c Ek). change (S k <? S p)%nat with (k <? p)%nat.
    destruct (k <? p)%nat; reflexivity.
Qed.

(** The facts about a full row that [checkRecord] has accepted. *)
Lemma full_row_facts tdef rec values :
  length (Types tdef) = length (Cols tdef) ->
  checkRecord tdef rec (Z.of_nat (length (Cols tdef))) = Ok values ->
  length values = length (Cols tdef) /\
  map Type_ values = Types tdef /\
  (forall j c, nth_error (Cols tdef) j = Some c ->
     exists v, Get rec c = Ok (Some v) /\ nth_error values j = Some v /\ Type_ v <> 0).
Proof.
  intros Hty Hfull.
  destruct (checkRecord_Ok_inv _ _ _ _ Hfull) as [Hre Hvc].
  destruct (reorderRecord_shape_aux _ _ _ Hre) as [Hlen Hs].
  pose proof (valuesComplete_loop_ok tdef values 0 _ Hvc) as Hall.
  assert (Hcol : forall j c, nth_error (Cols tdef) j = Some c ->
            exists v, Get rec c = Ok (Some v) /\ nth_error values j = Some v /\
                      Type_ v <> 0 /\ nth_error (Types tdef) j = Some (Type_ v)).
  { intros j c Hj.
    assert (Hjl : (j < length (Cols tdef))%nat) by (apply nth_error_Some; congruence).
    destruct (Hs j c Hj) as [[_ Hz]|(v & Hg & Hv & Ht)].
    - destruct (Hall j _ Hz) as [Hne _]. exfalso. apply Hne; [cbn [Nat.add]; lia | reflexivity].
    - exists v. destruct (Hall j _ Hv) as [Hne _].
      repeat split; auto. apply Hne. cbn [Nat.add]. lia. }
  split; [exact Hlen|]. split.
  - apply list_eq. intros j. rewrite list_lookup_fmap, <- !nth_error_lookup.
    destruct (nth_error (Cols tdef) j) as [c|] eqn:Ec.
    + destruct (Hcol j c Ec) as (v & _ & Hv & _ & Ht). rewrite Hv, Ht. reflexivity.
    + apply nth_error_None in Ec.
      assert (E1 : nth_error values j = None) by (apply nth_error_None; lia).
      assert (E2 : nth_error (Types tdef) j = None) by (apply nth_error_None; lia).
      rewrite E1, E2. reflexivity.
  - intros j c Hj. destruct (Hcol j c Hj) as (v & ? & ? & ? & _). eauto.
Qed.

(** The record of the primary key of a row passes the check of [dbGet]
    and [dbScan]. *)
Lemma key_record_check tdef values :
  schema_ok tdef ->
  length values = length (Cols tdef) ->
  map Type_ values = Types tdef ->
  Forall (fun v => Type_ v <> 0) values ->
  checkRecord tdef (mkRecord (firstn (Z.to_nat (PKeys tdef)) (Cols tdef))
                             (firstn (Z.to_nat (PKeys tdef)) values)) (PKeys tdef)
  = Ok (firstn (Z.to_nat (PKeys tdef)) values ++
        repeat Value_zero (length (Cols tdef) - Z.to_nat (PKeys tdef))).
Proof.
  intros (Hty & Hnd & Hpk & _) Hlen Htypes Hnz.
  set (p := Z.to_nat (PKeys tdef)).
  assert (Hp : (p <= length (Cols tdef))%nat) by lia.
  set (out := firstn p values ++ repeat Value_zero (length (Cols tdef) - p)).
  assert (Hout : forall j, nth_error out j =
            if (j <? p)%nat then nth_error values j
            else if (j <? length (Cols tdef))%nat then Some Value_zero else None).
  { intros j. unfold out. destruct (Nat.ltb_spec j p).
    - rewrite nth_error_app1 by (rewrite firstn_length_le; lia).
      rewrite nth_error_firstn. destruct (Nat.ltb_spec j p); [reflexivity | lia].
    - rewrite nth_error_app2 by (rewrite firstn_length_le; lia).
      rewrite firstn_length_le by lia.
      destruct (Nat.ltb_spec j (length (Cols tdef))).
      + apply nth_error_repeat. lia.
      + apply nth_error_None. rewrite repeat_length. lia. }
  unfold checkRecord.
  assert (Hre : reorderRecord tdef (mkRecord (firstn p (Cols tdef)) (firstn p values)) = Ok out).
  { unfold reorderRecord. cbn [RCols RVals].
    rewrite !firstn_length_le by lia. rewrite Nat.eqb_refl. cbn [assert bind].
    apply reorder_loop_eq.
    - unfold out. rewrite length_app, repeat_length, firstn_length_le by lia. lia.
    - intros j c Hj. cbn [Nat.add]. rewrite Hout.
      assert (Hjl : (j < length (Cols tdef))%nat) by (apply nth_error_Some; congruence).
      pose proof (Get_index_NoDup _ _ _ Hnd Hj) as Hgi.
      unfold Get. cbn [RCols RVals]. rewrite (Get_index_firstn _ p _ _ Hgi).
      destruct (Nat.ltb_spec j p) as [Hjp|Hjp].
      + right. destruct (nth_error values j) as [v|] eqn:Ev;
          [|apply nth_error_None in Ev; lia].
        exists v. rewrite nth_error_firstn.
        destruct (Nat.ltb_spec j p); [|lia]. rewrite Ev.
        split; [reflexivity|]. split; [reflexivity|].
        rewrite <- Htypes. rewrite nth_error_map, Ev. reflexivity.
      + left. destruct (Nat.ltb_spec j (length (Cols tdef))); [auto | lia]. }
  rewrite Hre. cbn [bind].
  rewrite valuesComplete_all_ok; [reflexivity|].
  intros j w Hj. rewrite Hout in Hj. destruct (Nat.ltb_spec j p) as [Hjp|Hjp].
  - split; [intros _ | lia].
    eapply (proj1 (List.Forall_forall _ _) Hnz). eapply nth_error_In; eauto.
  - split; [lia | intros _].
    destruct (j <? length (Cols tdef))%nat; [|discriminate]. now injection Hj as <-.
Qed.

Lemma slice_to_firstn {A} (l : list A) (n : Z) :
  0 <= n <= Z.of_nat (length l) -> slice_to l n = Ok (firstn (Z.to_nat n) l).
Proof.
  intros H. unfold slice_to.
  destruct (Z.ltb_spec n 0); [lia|]. destruct (Z.ltb_spec (Z.of_nat (length l)) n); [lia|].
  reflexivity.
Qed.

Lemma slice_from_skipn {A} (l : list A) (n : Z) :
  0 <= n <= Z.of_nat (length l) -> slice_from l n = Ok (skipn (Z.to_nat n) l).
Proof.
  intros H. unfold slice_from.
  destruct (Z.ltb_spec n 0); [lia|]. destruct (Z.ltb_spec (Z.of_nat (length l)) n); [lia|].
  reflexivity.
Qed.

(** [dbGet] finds a row stored under the key of [probe] and decodes
    it. *)
Lemma dbGet_found_row db tdef probe values ek ev :
  schema_ok tdef ->
  length values = length (Cols tdef) ->
  map Type_ values = Types tdef ->
  Forall typed values -> Forall canonical values ->
  getValues tdef probe (firstn (Z.to_nat (PKeys tdef)) (Cols tdef))
    = Ok (firstn (Z.to_nat (PKeys tdef)) values) ->
  encodeValues [] (firstn (Z.to_nat (PKeys tdef)) values) = Ok ek ->
  encodeValues [] (skipn (Z.to_nat (PKeys tdef)) values) = Ok ev ->
  tree_get (tree (kv db)) (BigEndian.PutUint32 (Prefix tdef) ++ ek) = Some ev ->
  dbGet db tdef probe = Ok (true, mkRecord (Cols tdef) values).
Proof.
  intros Hok Hlen Htypes Hty Hcan Hprobe Hek Hev Hget.
  pose proof Hok as (HtyLen & Hnd & Hpk & Hidx).
  set (p := Z.to_nat (PKeys tdef)) in *.
  assert (Hnz : Forall (fun v => Type_ v <> 0) values).
  { eapply List.Forall_impl; [|exact Hty]. intros v [[E _]|[E _]]; rewrite E; discriminate. }
  assert (Hfl : length (firstn p values) = p) by (apply firstn_length_le; lia).
  rewrite (dbGet_exact db tdef probe (firstn p (Cols tdef)) (firstn p values)
             (firstn p values ++ repeat Value_zero (length (Cols tdef) - p))
             (firstn p values) (BigEndian.PutUint32 (Prefix tdef) ++ ek)).
  - rewrite Hget. cbv zeta. fold (blanks (Types tdef)).
    assert (Hbl : length (blanks (Types tdef)) = length (Cols tdef))
      by (unfold blanks; now rewrite length_map).
    rewrite slice_to_firstn by lia. cbn [bind].
    rewrite slice_from_skipn by lia.
    fold p. rewrite <- Htypes. unfold blanks at 1 2.
    rewrite firstn_map, skipn_map, firstn_map, skipn_map.
    fold (blanks (map Type_ (firstn p values))).
    fold (blanks (map Type_ (skipn p values))).
    rewrite decodeKey_app.
    rewrite (decodeValues_blanks _ _ (Forall_take _ _ _ Hty) (Forall_take _ _ _ Hcan) Hek).
    cbn [bind].
    rewrite (decodeValues_blanks _ _ (Forall_drop _ _ _ Hty) (Forall_drop _ _ _ Hcan) Hev).
    cbn [bind]. now rewrite firstn_skipn.
  - now apply index_Ok.
  - exact Hprobe.
  - now apply key_record_check.
  - rewrite slice_to_firstn by (rewrite length_app, repeat_length, Hfl; lia).
    fold p. rewrite firstn_app, Hfl, Nat.sub_diag, firstn_all2 by lia.
    cbn [firstn]. now rewrite app_nil_r.
  - now apply encodeKey_app.
Qed.

(** A record that holds a full row yields its primary key to
    [getValues]. *)
Lemma getValues_key_of_row tdef rec values :
  schema_ok tdef ->
  checkRecord tdef rec (Z.of_nat (length (Cols tdef))) = Ok values ->
  getValues tdef rec (firstn (Z.to_nat (PKeys tdef)) (Cols tdef))
    = Ok (firstn (Z.to_nat (PKeys tdef)) values).
Proof.
  intros (HtyLen & Hnd & Hpk & Hidx) Hfull.
  destruct (full_row_facts tdef rec values HtyLen Hfull) as (Hlen & Htypes & Hcol).
  set (p := Z.to_nat (PKeys tdef)).
  unfold getValues. apply getValues_loop_eq.
  - rewrite !firstn_length_le by lia. reflexivity.
  - intros j c Hj. rewrite nth_error_firstn in Hj.
    destruct (Nat.ltb_spec j p) as [Hjp|]; [|discriminate].
    destruct (Hcol j c Hj) as (v & Hg & Hv & _).
    exists v, j. split; [exact Hg|]. split.
    + rewrite nth_error_firstn. destruct (Nat.ltb_spec j p); [exact Hv | lia].
    + split; [now apply Get_index_NoDup|].
      rewrite <- Htypes, nth_error_map, Hv. reflexivity.
Qed.

(** X17. A row that was written can be read back. For a schema with one
    type per column, distinct column names and the first [PKeys] columns
    as primary key, and a record that holds a full row of typed values:
    [dbUpdate] returns without error; with mode upsert it writes; when it
    reports that it wrote, [dbGet] on the new database, with the same
    record or with any record holding the same primary key, finds the row
    and returns all its columns in schema order; when it reports that it
    did not write, the database is unchanged. (The store is the ordered
    key-value store as the specification describes it.) *)
Theorem row_readable_after_update (db : DB) (tdef : TableDef) (rec : Record_) (mode : Z)
    (f1 f2 : bool) (values : list Value) :
  schema_ok tdef ->
  checkRecord tdef rec (Z.of_nat (length (Cols tdef))) = Ok values ->
  Forall typed values -> Forall canonical values ->
  exists db' req' b,
    dbUpdate db tdef (mkDBUpdateReq rec mode f1 f2) = Ok (db', req', b) /\
    UUpdated req' = b /\
    (mode = MODE_UPSERT -> b = true) /\
    (b = false -> db' = db) /\
    (b = true ->
       dbGet db' tdef rec = Ok (true, mkRecord (Cols tdef) values) /\
       forall probe,
         getValues tdef probe (firstn (Z.to_nat (PKeys tdef)) (Cols tdef))
           = Ok (firstn (Z.to_nat (PKeys tdef)) values) ->
         dbGet db' tdef probe = Ok (true, mkRecord (Cols tdef) values)).
Proof.
  intros Hok Hfull Hty Hcan.
  pose proof Hok as (HtyLen & Hnd & Hpk & Hidx).
  destruct (full_row_facts tdef rec values HtyLen Hfull) as (Hlen & Htypes & Hcol).
  set (p := Z.to_nat (PKeys tdef)).
  destruct (encodeValues_typed _ (Forall_take _ p _ Hty)) as [ek Hek].
  destruct (encodeValues_typed _ (Forall_drop _ p _ Hty)) as [ev Hev].
  set (key := BigEndian.PutUint32 (Prefix tdef) ++ ek).
  assert (Hrange : 0 <= PKeys tdef <= Z.of_nat (length values)) by lia.
  pose proof (dbUpdate_exact_flags db tdef rec mode f1 f2 values (firstn p values) key
                (skipn p values) ev Hfull
                (slice_to_firstn values _ Hrange)
                (encodeKey_app _ _ _ Hek)
                (slice_from_skipn values _ Hrange) Hev) as Hup.
  destruct (tree_update_cases (tree (kv db)) key ev mode) as (Hsame & Hnew & Hupsert).
  do 3 eexists. split; [exact Hup|].
  split; [reflexivity|]. split; [exact Hupsert|]. split.
  - intros Hb. rewrite (Hsame Hb). destruct db as [path [kvpath t] tabs]. reflexivity.
  - intros Hb. specialize (Hnew Hb).
    assert (Hfound : forall probe,
              getValues tdef probe (firstn p (Cols tdef)) = Ok (firstn p values) ->
              dbGet (mkDB (Path db)
                       (mkKV (KVPath (kv db)) (fst (fst (tree_update (tree (kv db)) key ev mode))))
                       (tables db)) tdef probe
              = Ok (true, mkRecord (Cols tdef) values)).
    { intros probe Hprobe.
      apply (dbGet_found_row _ tdef probe values ek ev); auto. }
    split; [|exact Hfound].
    apply Hfound. now apply getValues_key_of_row.
Qed.

Lemma row_readable_after_update_witness :
  let tdef := mkTableDef "t" [TYPE_INT64; TYPE_BYTES; TYPE_BYTES]
                ["id"; "name"; "mail"]%string 2 100 [["id"; "name"]%string] in
  let rec := AddInt64 (AddStr (AddStr Record_empty "mail" [0; 64]) "name" [98; 1]) "id" (-3) in
  let values := [mkValue TYPE_INT64 (-3) []; mkValue TYPE_BYTES 0 [98; 1];
                 mkValue TYPE_BYTES 0 [0; 64]] in
  let db := mkDB "" (mkKV "" []) ∅ in
  exists db' req' b,
    dbUpdate db tdef (mkDBUpdateReq rec MODE_INSERT_ONLY false false) = Ok (db', req', b) /\
    UUpdated req' = b /\
    (MODE_INSERT_ONLY = MODE_UPSERT -> b = true) /\
    (b = false -> db' = db) /\
    (b = true ->
       dbGet db' tdef rec = Ok (true, mkRecord (Cols tdef) values) /\
       forall probe,
         getValues tdef probe (firstn (Z.to_nat (PKeys tdef)) (Cols tdef))
           = Ok (firstn (Z.to_nat (PKeys tdef)) values) ->
         dbGet db' tdef probe = Ok (true, mkRecord (Cols tdef) values)).
Proof.
  intros tdef rec values db.
  apply (row_readable_after_update db tdef rec MODE_INSERT_ONLY false false values).
  - split; [reflexivity|]. split.
    + apply (bool_decide_unpack _). vm_compute. reflexivity.
    + split; [cbn; lia | reflexivity].
  - reflexivity.
  - solve_typed.
  - repeat (apply List.Forall_cons;
            [split; [reflexivity + discriminate | reflexivity + discriminate]|]).
    apply List.Forall_nil.
Defined.

Lemma bytes_Compare_ne key key' : key <> key' -> bytes_Compare key key' <> Eq.
Proof. intros Hne E. apply Hne. now apply bytes_Compare_eq. Qed.

(** A conditional write leaves the entries under other keys as they
    are. *)
Lemma tree_get_update_other_mode t key val mode key' :
  key <> key' ->
  tree_get (fst (fst (tree_update t key val mode))) key' = tree_get t key'.
Proof.
  intros Hne. pose proof (bytes_Compare_ne _ _ Hne) as Hk.
  induction t as [|[k v] r IH]; cbn [tree_update].
  - destruct (mode =? MODE_UPDATE_ONLY); cbn [fst tree_get]; [reflexivity|].
    destruct (bytes_Compare key key'); congruence.
  - destruct (bytes_Compare k key) eqn:E.
    + destruct (mode =? MODE_INSERT_ONLY); cbn [fst tree_get]; [reflexivity|].
      apply bytes_Compare_eq in E. subst k.
      destruct (bytes_Compare key key'); congruence.
    + destruct (tree_update r key val mode) as [[r' a] u]. cbn [fst tree_get] in *.
      destruct (bytes_Compare k key'); auto.
    + destruct (mode =? MODE_UPDATE_ONLY); cbn [fst tree_get]; [reflexivity|].
      destruct (bytes_Compare key key') eqn:E'; [congruence | reflexivity|].
      rewrite (bytes_Compare_trans_gt _ _ _ E E'). reflexivity.
Qed.

(** [dbGet] reads the store through one key, which begins with the
    prefix of the table; when the key of the record cannot be built, the
    result does not depend on the store. *)
Lemma dbGet_by_key tdef probe :
  (exists ek, forall db,
     dbGet db tdef probe =
     lookup_row tdef probe (BigEndian.PutUint32 (Prefix tdef) ++ ek) (tree (kv db))) \/
  (forall db0 db1, dbGet db0 tdef probe = dbGet db1 tdef probe).
Proof.
  destruct (index (Indexes tdef) 0) as [pk| |] eqn:E1;
    [|right; intros; unfold dbGet; rewrite E1; reflexivity ..].
  destruct (getValues tdef probe pk) as [vals0| |] eqn:E2;
    [|right; intros; unfold dbGet; rewrite E1; cbn [bind]; rewrite E2; reflexivity ..].
  assert (Hscan : forall db, dbGet db tdef probe =
            let* (sc', err) := dbScan db tdef
                                 (Scanner_new CMP_GE CMP_LE (mkRecord pk vals0) (mkRecord pk vals0)) in
            match err with
            | Some msg => Error msg
            | None =>
                let* v := Sc.Valid sc' in
                if negb v then Ok (false, probe)
                else let* rec' := Sc.Deref sc' probe in Ok (true, rec')
            end).
  { intros db. unfold dbGet. rewrite E1. cbn [bind]. rewrite E2. reflexivity. }
  assert (Hlegal : ((0 <? CMP_GE) && (CMP_LE <? 0) || (CMP_GE <? 0) && (0 <? CMP_LE)) = true)
    by reflexivity.
  destruct (checkRecord tdef (mkRecord pk vals0) (PKeys tdef)) as [vals| |] eqn:E3.
  2,3: right; intros; rewrite !Hscan; unfold dbScan, Scanner_new;
       cbn [Cmp1 Cmp2 Key1 Key2 iter keyEnd]; rewrite Hlegal, E3; reflexivity.
  destruct (slice_to vals (PKeys tdef)) as [k| |] eqn:E4.
  2,3: right; intros; rewrite !Hscan; unfold dbScan, Scanner_new;
       cbn [Cmp1 Cmp2 Key1 Key2 iter keyEnd]; rewrite Hlegal, E3, E4; reflexivity.
  destruct (encodeKey [] (Prefix tdef) k) as [key| |] eqn:E5.
  2,3: right; intros; rewrite !Hscan; unfold dbScan, Scanner_new;
       cbn [Cmp1 Cmp2 Key1 Key2 iter keyEnd]; rewrite Hlegal, E3, E4; cbn [bind];
       rewrite E5; reflexivity.
  left. pose proof E5 as E5'. unfold encodeKey in E5'. cbn [app] in E5'.
  destruct (encodeValues_from _ _ _ E5') as (ek & _ & ->).
  exists ek. intros db. unfold lookup_row.
  apply (dbGet_exact db tdef probe pk vals0 vals k _ E1 E2 E3 E4 E5).
Qed.

Lemma PutUint32_inj p q :
  uint32_ok p -> uint32_ok q -> BigEndian.PutUint32 p = BigEndian.PutUint32 q -> p = q.
Proof.
  unfold BigEndian.PutUint32, uint32_ok. intros Hp Hq E.
  apply (f_equal (@rev Z)) in E. rewrite !rev_involutive in E.
  apply (f_equal le_value) in E.
  rewrite !le_value_digits_small in E by (change (256 ^ Z.of_nat 4) with (2 ^ 32); lia).
  exact E.
Qed.

Lemma dbUpdate_Ok_inv db tdef dbreq db' req' b :
  dbUpdate db tdef dbreq = Ok (db', req', b) ->
  exists ek val,
    db' = mkDB (Path db)
            (mkKV (KVPath (kv db))
               (fst (fst (tree_update (tree (kv db))
                            (BigEndian.PutUint32 (Prefix tdef) ++ ek) val (UMode dbreq)))))
            (tables db).
Proof.
  unfold dbUpdate. intros H.
  inv_bind H. inv_bind H. inv_bind H. inv_bind H. inv_bind H.
  unfold KV_Update in H. cbn [Key Val Mode] in H.
  unfold encodeKey in Ha1. cbn [app] in Ha1.
  destruct (encodeValues_from _ _ _ Ha1) as (ek & _ & ->).
  destruct (tree_update _ _ _ _) as [[t a'] u] eqn:Et. cbn [bind] in H.
  injection H as <- _ _. exists ek, a3. rewrite Et. reflexivity.
Qed.

(** X18. Tables do not interfere: a write to a table through [dbUpdate]
    (Insert, Update or Upsert) changes no result of [dbGet] on a table
    with another prefix, for any record and whatever the write did. *)
Theorem tables_do_not_interfere (db db' : DB) (tdefA tdefB : TableDef)
    (dbreq req' : DBUpdateReq) (b : bool) (probe : Record_) :
  uint32_ok (Prefix tdefA) -> uint32_ok (Prefix tdefB) ->
  Prefix tdefA <> Prefix tdefB ->
  dbUpdate db tdefA dbreq = Ok (db', req', b) ->
  dbGet db' tdefB probe = dbGet db tdefB probe.
Proof.
  intros HA HB Hne Hup.
  destruct (dbUpdate_Ok_inv _ _ _ _ _ _ Hup) as (ekA & val & ->).
  destruct (dbGet_by_key tdefB probe) as [[ekB Hkey]|Hind]; [|apply Hind].
  rewrite !Hkey. unfold lookup_row. cbn [kv tree].
  rewrite tree_get_update_other_mode; [reflexivity|].
  intros E. apply Hne. apply (PutUint32_inj _ _ HA HB).
  apply (f_equal (firstn 4)) in E.
  rewrite !firstn_app, !PutUint32_length in E. cbn [Nat.sub firstn] in E.
  rewrite !app_nil_r in E. rewrite !firstn_all2 in E by (rewrite PutUint32_length; lia).
  exact E.
Qed.

Lemma tables_do_not_interfere_witness :
  let ta := mkTableDef "a" [TYPE_INT64] ["id"%string] 1 100 [["id"%string]] in
  let tb := mkTableDef "b" [TYPE_INT64] ["id"%string] 1 101 [["id"%string]] in
  let db := mkDB "" (mkKV "" []) ∅ in
  let rec := AddInt64 Record_empty "id" 1 in
  let db' := mkDB "" (mkKV "" [([0; 0; 0; 100; 128; 0; 0; 0; 0; 0; 0; 1], [])]) ∅ in
  dbGet db' tb rec = dbGet db tb rec.
Proof.
  intros ta tb db rec db'.
  apply (tables_do_not_interfere db db' ta tb (mkDBUpdateReq rec MODE_UPSERT false false)
           (mkDBUpdateReq rec MODE_UPSERT true true) true rec).
  - unfold uint32_ok. cbn. lia.
  - unfold uint32_ok. cbn. lia.
  - discriminate.
  - reflexivity.
Defined.

(** The key columns that [getValues] returns for a schema have the
    types of the first schema columns. *)
Lemma getValues_key_types tdef probe pvals :
  schema_ok tdef ->
  getValues tdef probe (firstn (Z.to_nat (PKeys tdef)) (Cols tdef)) = Ok pvals ->
  length pvals = Z.to_nat (PKeys tdef) /\
  map Type_ pvals = firstn (Z.to_nat (PKeys tdef)) (Types tdef).
Proof.
  intros (HtyLen & Hnd & Hpk & _) Hg.
  set (p := Z.to_nat (PKeys tdef)) in *.
  destruct (getValues_loop_ok _ _ _ _ _ Hg) as [Hlen Hs].
  rewrite firstn_length_le in Hlen by lia. split; [exact Hlen|].
  apply list_eq. intros j. rewrite list_lookup_fmap, <- !nth_error_lookup.
  rewrite nth_error_firstn. destruct (Nat.ltb_spec j p) as [Hj|Hj].
  - destruct (nth_error (Cols tdef) j) as [c|] eqn:Ec; [|apply nth_error_None in Ec; lia].
    destruct (Hs j c) as (v & k & _ & Hv & Hk & Ht).
    { rewrite nth_error_firstn. destruct (Nat.ltb_spec j p); [exact Ec | lia]. }
    rewrite (Get_index_NoDup _ _ _ Hnd Ec) in Hk. injection Hk as <-.
    rewrite Hv, Ht. reflexivity.
  - assert (E : nth_error pvals j = None) by (apply nth_error_None; lia).
    rewrite E. reflexivity.
Qed.

(** X29. Rows do not interfere: a write of one row through [dbUpdate]
    changes no result of [dbGet] for a record whose primary key differs
    from that of the row written (same table, typed key values). *)
Theorem rows_do_not_interfere (db db' : DB) (tdef : TableDef) (rec probe : Record_)
    (mode : Z) (f1 f2 b : bool) (req' : DBUpdateReq) (values pvals : list Value) :
  schema_ok tdef ->
  checkRecord tdef rec (Z.of_nat (length (Cols tdef))) = Ok values ->
  Forall typed values -> Forall canonical values ->
  getValues tdef probe (firstn (Z.to_nat (PKeys tdef)) (Cols tdef)) = Ok pvals ->
  Forall typed pvals -> Forall canonical pvals ->
  pvals <> firstn (Z.to_nat (PKeys tdef)) values ->
  dbUpdate db tdef (mkDBUpdateReq rec mode f1 f2) = Ok (db', req', b) ->
  dbGet db' tdef probe = dbGet db tdef probe.
Proof.
  intros Hok Hfull Hty Hcan Hprobe Hpty Hpcan Hne Hup.
  pose proof Hok as (HtyLen & Hnd & Hpk & Hidx).
  destruct (full_row_facts tdef rec values HtyLen Hfull) as (Hlen & Htypes & _).
  destruct (getValues_key_types tdef probe pvals Hok Hprobe) as [Hplen Hptypes].
  set (p := Z.to_nat (PKeys tdef)) in *.
  (* the write *)
  destruct (encodeValues_typed _ (Forall_take _ p _ Hty)) as [ek Hek].
  destruct (encodeValues_typed _ (Forall_drop _ p _ Hty)) as [ev Hev].
  assert (Hrange : 0 <= PKeys tdef <= Z.of_nat (length values)) by lia.
  rewrite (dbUpdate_exact_flags db tdef rec mode f1 f2 values (firstn p values)
             (BigEndian.PutUint32 (Prefix tdef) ++ ek) (skipn p values) ev Hfull
             (slice_to_firstn values _ Hrange) (encodeKey_app _ _ _ Hek)
             (slice_from_skipn values _ Hrange) Hev) in Hup.
  injection Hup as <- _ _.
  (* the read *)
  destruct (encodeValues_typed _ Hpty) as [pk Hpk'].
  set (full := pvals ++ skipn p values).
  assert (Hfl : firstn p full = pvals).
  { unfold full. rewrite firstn_app, Hplen, Nat.sub_diag, firstn_all2 by lia.
    cbn [firstn]. apply app_nil_r. }
  assert (Hcheck : checkRecord tdef (mkRecord (firstn p (Cols tdef)) pvals) (PKeys tdef)
                   = Ok (pvals ++ repeat Value_zero (length (Cols tdef) - p))).
  { rewrite <- Hfl. apply key_record_check; [exact Hok | | |].
    - unfold full. rewrite length_app, length_skipn. lia.
    - unfold full. rewrite map_app, Hptypes, <- Htypes, <- skipn_map.
      apply firstn_skipn.
    - unfold full. apply Forall_app. split.
      + eapply List.Forall_impl; [|exact Hpty].
        intros v [[E _]|[E _]]; rewrite E; discriminate.
      + apply Forall_drop. eapply List.Forall_impl; [|exact Hty].
        intros v [[E _]|[E _]]; rewrite E; discriminate. }
  assert (Hread : forall db0, dbGet db0 tdef probe =
            lookup_row tdef probe (BigEndian.PutUint32 (Prefix tdef) ++ pk) (tree (kv db0))).
  { intros db0. unfold lookup_row.
    apply (dbGet_exact db0 tdef probe (firstn p (Cols tdef)) pvals
             (pvals ++ repeat Value_zero (length (Cols tdef) - p)) pvals).
    - now apply index_Ok.
    - exact Hprobe.
    - exact Hcheck.
    - rewrite slice_to_firstn by (rewrite length_app, repeat_length; lia).
      fold p. rewrite firstn_app, Hplen, Nat.sub_diag, firstn_all2 by lia.
      cbn [firstn]. now rewrite app_nil_r.
    - now apply encodeKey_app. }
  rewrite !Hread. unfold lookup_row. cbn [kv tree].
  rewrite tree_get_update_other_mode; [reflexivity|].
  intros E.
  change (BigEndian.PutUint32 (Prefix tdef) ++ ek = BigEndian.PutUint32 (Prefix tdef) ++ pk) in E.
  apply app_inv_head in E. subst pk. apply Hne. symmetry.
  apply (encodeValues_inj _ _ ek); auto using Forall_take.
  rewrite Hptypes, <- Htypes. now rewrite firstn_map.
Qed.

Lemma rows_do_not_interfere_witness :
  let tdef := mkTableDef "t" [TYPE_INT64; TYPE_BYTES] ["id"; "name"]%string 1 100 [["id"%string]] in
  let rec := AddStr (AddInt64 Record_empty "id" 7) "name" [98] in
  let probe := AddInt64 Record_empty "id" 8 in
  let db := mkDB "" (mkKV "" [([0; 0; 0; 100; 128; 0; 0; 0; 0; 0; 0; 8], [99; 0])]) ∅ in
  let db' := mkDB "" (mkKV "" [([0; 0; 0; 100; 128; 0; 0; 0; 0; 0; 0; 7], [98; 0]);
                               ([0; 0; 0; 100; 128; 0; 0; 0; 0; 0; 0; 8], [99; 0])]) ∅ in
  dbGet db' tdef probe = dbGet db tdef probe.
Proof.
  intros tdef rec probe db db'.
  apply (rows_do_not_interfere db db' tdef rec probe MODE_INSERT_ONLY false false true
           (mkDBUpdateReq rec MODE_INSERT_ONLY true true)
           [mkValue TYPE_INT64 7 []; mkValue TYPE_BYTES 0 [98]] [mkValue TYPE_INT64 8 []]).
  - split; [reflexivity|]. split.
    + apply (bool_decide_unpack _). vm_compute. reflexivity.
    + split; [cbn; lia | reflexivity].
  - reflexivity.
  - solve_typed.
  - repeat (apply List.Forall_cons;
            [split; [reflexivity + discriminate | reflexivity + discriminate]|]).
    apply List.Forall_nil.
  - reflexivity.
  - solve_typed.
  - repeat (apply List.Forall_cons;
            [split; [reflexivity + discriminate | reflexivity + discriminate]|]).
    apply List.Forall_nil.
  - cbn. discriminate.
  - reflexivity.
Defined.

Lemma bytes_of_string_ok s : bytes_ok (bytes_of_string s).
Proof.
  unfold bytes_of_string, bytes_ok. apply List.Forall_forall. intros b Hb.
  apply in_map_iff in Hb. destruct Hb as (c & <- & _).
  pose proof (N_ascii_bounded c). unfold byte_ok. lia.
Qed.

(** The lookup of a table definition in [@table]. *)
Lemma dbGet_table_row db name :
  dbGet db TDEF_TABLE (AddStr Record_empty "name" (bytes_of_string name)) =
  lookup_row TDEF_TABLE (AddStr Record_empty "name" (bytes_of_string name))
             (table_key name) (tree (kv db)).
Proof.
  unfold lookup_row.
  apply (dbGet_exact db TDEF_TABLE _ ["name"%string]
           [mkValue TYPE_BYTES 0 (bytes_of_string name)]
           [mkValue TYPE_BYTES 0 (bytes_of_string name); Value_zero]
           [mkValue TYPE_BYTES 0 (bytes_of_string name)]
           (table_key name)); reflexivity.
Qed.

Lemma lookup_table_row rec name val t :
  bytes_ok val ->
  tree_get t (table_key name) = Some (escapeString val ++ [0]) ->
  lookup_row TDEF_TABLE rec (table_key name) t =
  Ok (true, mkRecord ["name"; "def"]%string
              [mkValue TYPE_BYTES 0 (bytes_of_string name); mkValue TYPE_BYTES 0 val]).
Proof.
  intros Hval Hget. unfold lookup_row. rewrite Hget. cbv zeta.
  change (slice_to (map (fun t => mkValue t 0 []) (Types TDEF_TABLE)) (PKeys TDEF_TABLE))
    with (Ok (blanks (map Type_ [mkValue TYPE_BYTES 0 (bytes_of_string name)]))).
  change (slice_from (map (fun t => mkValue t 0 []) (Types TDEF_TABLE)) (PKeys TDEF_TABLE))
    with (Ok (blanks (map Type_ [mkValue TYPE_BYTES 0 val]))).
  cbn [bind]. unfold table_key. rewrite decodeKey_app.
  rewrite (decodeValues_blanks [mkValue TYPE_BYTES 0 (bytes_of_string name)]).
  - cbn [bind]. rewrite (decodeValues_blanks [mkValue TYPE_BYTES 0 val]).
    + reflexivity.
    + constructor; [|constructor]. right. split; [reflexivity | exact Hval].
    + constructor; [|constructor]. split; [discriminate | reflexivity].
    + reflexivity.
  - constructor; [|constructor]. right. split; [reflexivity | apply bytes_of_string_ok].
  - constructor; [|constructor]. split; [discriminate | reflexivity].
  - reflexivity.
Qed.

Section TableLookup.

Variable json_Marshal : TableDef -> result (list Z).
Variable json_Unmarshal : list Z -> result TableDef.

Lemma getTableDef_missing db name :
  INTERNAL_TABLES !! name = None -> tables db !! name = None ->
  tree_get (tree (kv db)) (table_key name) = None ->
  getTableDef json_Unmarshal db name = Ok (db, None).
Proof.
  intros Hi Hc Hs. unfold getTableDef, getTableDefDB. rewrite Hi, Hc.
  rewrite dbGet_table_row. unfold lookup_row. rewrite Hs. reflexivity.
Qed.

(** X19. Operations on a table that does not exist: when the name is not
    that of an internal table, is not in the cache of the handle and has
    no row in [@table], then [Get], [Set] (and with it Insert, Update and
    Upsert), [Delete] and [Scan] fail with "table not found" naming the
    table; the handle is left as it is and a scan request is not filled
    in. *)
Theorem table_not_found (db : DB) (name : string) :
  INTERNAL_TABLES !! name = None -> tables db !! name = None ->
  tree_get (tree (kv db)) (table_key name) = None ->
  (forall rec, DB_Get json_Unmarshal db name rec
               = Error (Errorf "table not found: " name)) /\
  (forall dbreq, DB_Set json_Unmarshal db name dbreq
                 = Error (Errorf "table not found: " name)) /\
  (forall rec, DB_Insert json_Unmarshal db name rec
               = Error (Errorf "table not found: " name)) /\
  (forall rec, DB_Delete json_Unmarshal db name rec
               = Error (Errorf "table not found: " name)) /\
  (forall req, DB_Scan json_Unmarshal db name req
               = Ok (db, req, Some (Errorf "table not found: " name))).
Proof.
  intros Hi Hc Hs. pose proof (getTableDef_missing db name Hi Hc Hs) as Hg.
  unfold DB_Insert, DB_Get, DB_Set, DB_Delete, DB_Scan. rewrite Hg. cbn [bind].
  repeat split; reflexivity.
Qed.

End TableLookup.

Lemma table_not_found_witness :
  (forall rec, DB_Get (fun _ => Panic) (DB_fresh "") "users" rec
               = Error (Errorf "table not found: " "users")) /\
  (forall dbreq, DB_Set (fun _ => Panic) (DB_fresh "") "users" dbreq
                 = Error (Errorf "table not found: " "users")) /\
  (forall rec, DB_Insert (fun _ => Panic) (DB_fresh "") "users" rec
               = Error (Errorf "table not found: " "users")) /\
  (forall rec, DB_Delete (fun _ => Panic) (DB_fresh "") "users" rec
               = Error (Errorf "table not found: " "users")) /\
  (forall req, DB_Scan (fun _ => Panic) (DB_fresh "") "users" req
               = Ok (DB_fresh "", req, Some (Errorf "table not found: " "users"))).
Proof.
  apply (table_not_found (fun _ => Panic) (DB_fresh "") "users"); reflexivity.
Defined.

Section TableRegistry.

Variable json_Marshal : TableDef -> result (list Z).
Variable json_Unmarshal : list Z -> result TableDef.

(** What a successful [TableNew] has done. *)
Lemma TableNew_Ok_inv db tdef db' tdef' :
  TableNew json_Marshal db tdef = Ok (db', tdef') ->
  exists prefix val t1,
    TABLE_PREFIX_MIN <= prefix /\
    tdef' = mkTableDef (Name tdef) (Types tdef) (Cols tdef) (PKeys tdef) prefix
                       (Indexes tdef) /\
    json_Marshal tdef' = Ok val /\
    tables db' = tables db /\
    tree (kv db') =
      fst (fst (tree_update t1 (table_key (Name tdef)) (escapeString val ++ [0]) 0)).
Proof.
  intros H. unfold TableNew in H.
  inv_bind H. clear Ha a.
  destruct (dbGet db TDEF_TABLE _) as [[ok table]|m|] eqn:Ht; try discriminate.
  destruct ok; [discriminate|].
  apply dbGet_not_found in Ht. subst table.
  inv_bind H. clear Ha a.
  destruct (dbGet db TDEF_META _) as [[ok meta]|m|] eqn:Hm; try discriminate.
  inv_bind H. destruct a as [prefix meta1].
  assert (Hprefix : TABLE_PREFIX_MIN <= prefix).
  { destruct ok.
    - inv_bind Ha. inv_bind Ha. inv_bind Ha. injection Ha as <- _.
      destruct a1. apply assert_Ok in Ha2. apply Z.ltb_lt in Ha2. lia.
    - injection Ha as <- _. lia. }
  clear Ha. cbv zeta in H.
  inv_bind H. inv_bind H. inv_bind H. inv_bind H. destruct a2 as [[db1 r1] b1].
  inv_bind H. inv_bind H. destruct a3 as [[db2 r2] b2].
  injection H as <- <-.
  destruct (json_Marshal _) as [val| |] eqn:Ej; try discriminate. injection Ha3 as <-.
  rewrite (dbUpdate_exact_flags db1 TDEF_TABLE
             (AddStr (AddStr Record_empty "name" (bytes_of_string (Name tdef))) "def" val)
             0 false false
             [mkValue TYPE_BYTES 0 (bytes_of_string (Name tdef)); mkValue TYPE_BYTES 0 val]
             [mkValue TYPE_BYTES 0 (bytes_of_string (Name tdef))]
             (table_key (Name tdef))
             [mkValue TYPE_BYTES 0 val]
             (escapeString val ++ [0])
             eq_refl eq_refl eq_refl eq_refl eq_refl) in Ha4.
  injection Ha4 as <- _ _.
  destruct (dbUpdate_Ok_inv _ _ _ _ _ _ Ha2) as (ek & v1 & ->).
  exists prefix, val. eexists.
  split; [exact Hprefix|]. split; [reflexivity|]. split; [reflexivity|].
  split; reflexivity.
Qed.

(** X20. A table that [TableNew] has created is registered: its
    definition, with the prefix that the call assigned (100 or more), is
    what [getTableDefDB] reads back from [@table] under the table's name,
    and a further [TableNew] of any definition with that name fails with
    "table exists". This assumes of the JSON library that the bytes it
    produced for the definition unmarshal to the definition. *)
Theorem TableNew_registers (db db' : DB) (tdef tdef' : TableDef) :
  TableNew json_Marshal db tdef = Ok (db', tdef') ->
  (forall v, json_Marshal tdef' = Ok v -> bytes_ok v /\ json_Unmarshal v = Ok tdef') ->
  getTableDefDB json_Unmarshal db' (Name tdef) = Ok (Some tdef') /\
  (forall tdef2, Name tdef2 = Name tdef -> tableDefCheck tdef2 = Ok tt ->
     TableNew json_Marshal db' tdef2 = Error (Errorf "table exists: " (Name tdef))) /\
  tdef' = mkTableDef (Name tdef) (Types tdef) (Cols tdef) (PKeys tdef) (Prefix tdef')
                     (Indexes tdef) /\
  TABLE_PREFIX_MIN <= Prefix tdef'.
Proof.
  intros Hnew Hjson.
  destruct (TableNew_Ok_inv db tdef db' tdef' Hnew)
    as (prefix & val & t1 & Hprefix & Hdef & Hval & _ & Htree).
  destruct (Hjson val Hval) as [Hbytes Hun].
  assert (Hget : tree_get (tree (kv db')) (table_key (Name tdef))
                 = Some (escapeString val ++ [0])).
  { rewrite Htree. apply tree_get_update_same. }
  assert (Hrow : forall rec,
            lookup_row TDEF_TABLE rec (table_key (Name tdef)) (tree (kv db')) =
            Ok (true, mkRecord ["name"; "def"]%string
                        [mkValue TYPE_BYTES 0 (bytes_of_string (Name tdef));
                         mkValue TYPE_BYTES 0 val])).
  { intros rec. now apply lookup_table_row. }
  split; [|split; [|split]].
  - unfold getTableDefDB. rewrite dbGet_table_row, Hrow. cbn [negb].
    change (Get_Str _ "def") with (Ok val). cbn [bind]. rewrite Hun. reflexivity.
  - intros tdef2 Hname Hcheck. unfold TableNew. rewrite Hcheck. cbn [bind].
    rewrite Hname, dbGet_table_row, Hrow. reflexivity.
  - rewrite Hdef at 1. rewrite Hdef. reflexivity.
  - rewrite Hdef. exact Hprefix.
Qed.

End TableRegistry.

Lemma TableNew_registers_witness :
  let t := mkTableDef "users" [TYPE_INT64; TYPE_BYTES] ["id"; "name"]%string 1 0 [["id"%string]] in
  let t' := mkTableDef "users" [TYPE_INT64; TYPE_BYTES] ["id"; "name"]%string 1 100 [["id"%string]] in
  let marshal := fun _ : TableDef => Ok [123; 125] in
  let unmarshal := fun _ : list Z => Ok t' in
  let db' := mkDB "" (mkKV "" [([0; 0; 0; 1; 110; 101; 120; 116; 95; 112; 114; 101; 102; 105; 120; 0],
                                [101; 1; 1; 1; 1; 1; 1; 0]);
                               ([0; 0; 0; 2; 117; 115; 101; 114; 115; 0], [123; 125; 0])]) ∅ in
  getTableDefDB unmarshal db' (Name t) = Ok (Some t') /\
  (forall tdef2, Name tdef2 = Name t -> tableDefCheck tdef2 = Ok tt ->
     TableNew marshal db' tdef2 = Error (Errorf "table exists: " (Name t))) /\
  t' = mkTableDef (Name t) (Types t) (Cols t) (PKeys t) (Prefix t') (Indexes t) /\
  TABLE_PREFIX_MIN <= Prefix t'.
Proof.
  intros t t' marshal unmarshal db'.
  apply (TableNew_registers marshal unmarshal (DB_fresh "") db' t t').
  - reflexivity.
  - intros v Hv. injection Hv as <-. split; [|reflexivity].
    repeat (apply List.Forall_cons; [unfold byte_ok; lia|]). apply List.Forall_nil.
Defined.

(** * Further properties of scanners and of the definition cache *)

Lemma decodeValue_type inp o o' rest :
  decodeValue inp o = Ok (o', rest) -> Type_ o' = Type_ o.
Proof.
  unfold decodeValue. intros H.
  destruct (Type_ o =? TYPE_INT64).
  - inv_bind H. now injection H as <- _.
  - destruct (Type_ o =? TYPE_BYTES); [|discriminate].
    inv_bind H. inv_bind H. now injection H as <- _.
Qed.

Lemma decodeValues_loop_types out : forall inp out' rest,
  decodeValues_loop inp out = Ok (out', rest) -> map Type_ out' = map Type_ out.
Proof.
  induction out as [|o os IH]; intros inp out' rest H; cbn [decodeValues_loop] in H.
  - now injection H as <- _.
  - inv_bind H. destruct a as [o1 inp1]. inv_bind H. destruct a as [os1 rest1].
    injection H as <- _. cbn [map].
    rewrite (decodeValue_type _ _ _ _ Ha), (IH _ _ _ Ha0). reflexivity.
Qed.

Lemma decodeValues_types inp out out' :
  decodeValues inp out = Ok out' -> map Type_ out' = map Type_ out.
Proof.
  unfold decodeValues. intros H. inv_bind H. destruct a as [o r]. inv_bind H.
  injection H as <-. eapply decodeValues_loop_types; eauto.
Qed.

(** X22. What [Deref] hands back: the record it returns names the
    schema's columns in schema order and holds one value per declared
    type, each tagged with that type, whatever the record held before the
    call; the keys decoded from the entry's key come first, the other
    columns from its value. *)
Theorem Deref_shape (sc : Scanner) (rec rec' : Record_) :
  Sc.Deref sc rec = Ok rec' ->
  exists tdef,
    sc_tdef sc = Some tdef /\
    RCols rec' = Cols tdef /\
    map Type_ (RVals rec') = Types tdef /\
    length (RVals rec') = length (Types tdef) /\
    forall rec2, Sc.Deref sc rec2 = Ok rec'.
Proof.
  unfold Sc.Deref. intros H. inv_bind H. inv_bind H.
  destruct (iter sc) as [it|]; [|discriminate].
  destruct (sc_tdef sc) as [tdef|]; [|discriminate].
  exists tdef. split; [reflexivity|].
  assert (Hall : forall rec2 : Record_,
            (let* (key, val) := Iter.Deref it in
             let vals := map (fun t => mkValue t 0 []) (Types tdef) in
             let* kvals := slice_to vals (PKeys tdef) in
             let* kvals' := decodeKey key kvals in
             let* vvals := slice_from vals (PKeys tdef) in
             let* vvals' := decodeValues val vvals in
             Ok (mkRecord (Cols tdef) (kvals' ++ vvals'))) = Ok rec') by (intros _; exact H).
  inv_bind H. destruct a1 as [key val]. cbv zeta in H.
  inv_bind H. inv_bind H. inv_bind H. inv_bind H. injection H as <-.
  cbn [RCols RVals].
  assert (Hmap : map Type_ (a2 ++ a4) = Types tdef).
  { rewrite map_app.
    unfold decodeKey in Ha3. destruct (length key <? 4)%nat; [discriminate|].
    rewrite (decodeValues_types _ _ _ Ha3), (decodeValues_types _ _ _ Ha5).
    unfold slice_to in Ha2. unfold slice_from in Ha4.
    destruct ((PKeys tdef <? 0) || _); [discriminate|].
    injection Ha2 as <-. injection Ha4 as <-.
    rewrite <- map_app, firstn_skipn, map_map. cbn [Type_]. apply map_id. }
  split; [reflexivity|]. split; [exact Hmap|]. split.
  - rewrite <- Hmap. now rewrite length_map.
  - intros rec2. rewrite Ha. cbn [bind]. rewrite Ha0. cbn [bind]. exact (Hall rec2).
Qed.

Lemma Deref_shape_witness :
  let tdef := mkTableDef "t" [TYPE_INT64; TYPE_BYTES] ["id"; "name"]%string 1 100 [["id"%string]] in
  let t := [([0; 0; 0; 100; 128; 0; 0; 0; 0; 0; 0; 7], [98; 0])] in
  let sc := mkScanner CMP_GE CMP_LE Record_empty Record_empty (Some tdef)
              (Some (mkBIter t 0)) [0; 0; 0; 100; 128; 0; 0; 0; 0; 0; 0; 9] in
  let rec' := mkRecord ["id"; "name"]%string [mkValue TYPE_INT64 7 []; mkValue TYPE_BYTES 0 [98]] in
  exists tdef0,
    sc_tdef sc = Some tdef0 /\
    RCols rec' = Cols tdef0 /\
    map Type_ (RVals rec') = Types tdef0 /\
    length (RVals rec') = length (Types tdef0) /\
    forall rec2, Sc.Deref sc rec2 = Ok rec'.
Proof.
  intros tdef t sc rec'.
  apply (Deref_shape sc (AddStr Record_empty "junk" [1]) rec'). reflexivity.
Defined.

Section TableCache.

Variable json_Unmarshal : list Z -> result TableDef.

(** X23. Definitions are served from the cache: once [getTableDef] has
    returned a definition for a name, a further [getTableDef] of that
    name on the handle it left returns the same definition and leaves
    the handle as it is, whatever the store holds by then; the first
    call changes nothing of the handle but the cache. *)
Theorem getTableDef_cached (db db' : DB) (name : string) (t : TableDef) :
  getTableDef json_Unmarshal db name = Ok (db', Some t) ->
  Path db' = Path db /\ kv db' = kv db /\
  forall store,
    getTableDef json_Unmarshal (mkDB (Path db') store (tables db')) name
    = Ok (mkDB (Path db') store (tables db'), Some t).
Proof.
  unfold getTableDef. intros H.
  destruct (INTERNAL_TABLES !! name) as [ti|] eqn:Ei.
  - injection H as <- <-. split; [reflexivity|]. split; [reflexivity|].
    intros store. reflexivity.
  - destruct (tables db !! name) as [tc|] eqn:Ec.
    + injection H as <- <-. split; [reflexivity|]. split; [reflexivity|].
      intros store. cbn [tables]. now rewrite Ec.
    + inv_bind H. destruct a as [td|]; [|discriminate].
      injection H as <- <-. cbn [Path kv tables]. split; [reflexivity|].
      split; [reflexivity|]. intros store. now rewrite lookup_insert_eq.
Qed.

End TableCache.

Lemma getTableDef_cached_witness :
  let t := mkTableDef "users" [TYPE_INT64] ["id"%string] 1 100 [["id"%string]] in
  let db := mkDB "" (mkKV "" []) (<["users"%string := t]> ∅) in
  Path db = Path db /\ kv db = kv db /\
  forall store,
    getTableDef (fun _ => Panic) (mkDB (Path db) store (tables db)) "users"
    = Ok (mkDB (Path db) store (tables db), Some t).
Proof.
  intros t db.
  apply (getTableDef_cached (fun _ => Panic) db db "users" t). reflexivity.
Defined.

(** * Further properties of the free list *)

Section FreeListNodeLaws.

Variable PAGE : Z.
Hypothesis HPAGE : 24 <= PAGE.

Local Abbreviation CAP := (FREE_LIST_CAP PAGE).

(** X24. The slots of a node are independent: on a page of the page
    size, [setPtr] at an index below the capacity returns a page of the
    same size in which [getPtr] reads the written value at that index and
    the former values at the others, with the next pointer unchanged;
    [setNext] changes the next pointer, which [getNext] then reads, and no
    slot. *)
Theorem node_slots_independent (pg : LNode) (i v n : Z) :
  node_ok PAGE pg -> 0 <= i < CAP -> uint64_ok v -> uint64_ok n ->
  (exists pg',
     setPtr PAGE pg i v = Ok pg' /\ node_ok PAGE pg' /\
     getPtr pg' i = Ok v /\
     (forall j, 0 <= j < CAP -> j <> i -> getPtr pg' j = getPtr pg j) /\
     getNext pg' = getNext pg) /\
  (exists pg',
     setNext pg n = Ok pg' /\ node_ok PAGE pg' /\
     getNext pg' = Ok n /\
     (forall j, 0 <= j < CAP -> getPtr pg' j = getPtr pg j)).
Proof.
  intros Hpg Hi Hv Hn. split.
  - exact (setPtr_laws PAGE HPAGE pg i v Hpg Hi Hv).
  - exact (setNext_laws PAGE HPAGE pg n Hpg Hn).
Qed.

(** X25. Indexes outside the slots, for an index whose byte offset
    [8 + 8 * idx] is in the range of [int] (the product does not wrap
    around), on a page of the page size. From the capacity on [setPtr]
    panics (its [assert]) and [getPtr] panics (fewer than eight bytes are
    left at that offset). Below -1 both panic (a negative slice bound).
    The index -1 is not refused: [getPtr] reads the next pointer and
    [setPtr] overwrites it, as [getNext] and [setNext] do. *)
Theorem node_index_out_of_range (pg : LNode) (i v : Z) :
  node_ok PAGE pg -> - 2 ^ 63 <= 8 + 8 * i < 2 ^ 63 ->
  (CAP <= i -> setPtr PAGE pg i v = Panic /\ getPtr pg i = Panic) /\
  (i < -1 -> setPtr PAGE pg i v = Panic /\ getPtr pg i = Panic) /\
  (i = -1 -> setPtr PAGE pg i v = setNext pg v /\ getPtr pg i = getNext pg).
Proof.
  intros Hpg _. pose proof (cap_bounds PAGE HPAGE) as [Hc2 Hc8].
  pose proof Hpg as Hok. unfold node_ok in Hpg. split; [|split].
  - intros Hi. split.
    + unfold setPtr. destruct (Z.ltb_spec i CAP); [lia | reflexivity].
    + unfold getPtr, slice_from, FREE_LIST_HEADER.
      destruct (Z.ltb_spec (8 + 8 * i) 0); [lia|].
      destruct (Z.ltb_spec (Z.of_nat (length pg)) (8 + 8 * i)); cbn [orb bind];
        [reflexivity|].
      unfold LittleEndian.Uint64.
      assert (Hlt : (length (skipn (Z.to_nat (8 + 8 * i)) pg) < 8)%nat).
      { rewrite length_skipn.
        assert (PAGE - 8 < 8 * CAP + 8).
        { unfold FREE_LIST_CAP, FREE_LIST_HEADER.
          pose proof (Z.mod_pos_bound (PAGE - 8) 8 ltac:(lia)).
          pose proof (Z.div_mod (PAGE - 8) 8 ltac:(lia)). lia. }
        lia. }
      apply Nat.ltb_lt in Hlt. rewrite Hlt. reflexivity.
  - intros Hi. split.
    + unfold setPtr. destruct (Z.ltb_spec i CAP); [|lia]. cbn [assert bind].
      unfold slice_from, FREE_LIST_HEADER.
      destruct (Z.ltb_spec (8 + 8 * i) 0); [reflexivity | lia].
    + unfold getPtr, slice_from, FREE_LIST_HEADER.
      destruct (Z.ltb_spec (8 + 8 * i) 0); [reflexivity | lia].
  - intros ->. split.
    + rewrite (setNext_eq PAGE HPAGE pg v Hok).
      unfold setPtr. destruct (Z.ltb_spec (-1) CAP); [|lia]. cbn [assert bind].
      unfold slice_from, FREE_LIST_HEADER. change (8 + 8 * -1) with 0.
      change (0 <? 0) with false. cbn [orb].
      destruct (Z.ltb_spec (Z.of_nat (length pg)) 0); [lia|]. cbn [bind].
      change (Z.to_nat 0) with 0%nat. rewrite skipn_O.
      unfold LittleEndian.PutUint64.
      destruct (Nat.ltb_spec (length pg) 8); [lia|]. cbn [bind].
      unfold overwrite. change (Z.to_nat 0) with 0%nat. cbn [firstn app Nat.add].
      rewrite (skipn_all2 (n := length (le_digits 8 v ++ drop 8 pg)));
        [now rewrite app_nil_r|].
      rewrite length_app, le_digits_length, length_skipn. lia.
    + rewrite (getNext_eq PAGE HPAGE pg Hok).
      unfold getPtr, slice_from, FREE_LIST_HEADER. change (8 + 8 * -1) with 0.
      change (0 <? 0) with false. cbn [orb].
      destruct (Z.ltb_spec (Z.of_nat (length pg)) 0); [lia|]. cbn [bind].
      change (Z.to_nat 0) with 0%nat. rewrite skipn_O.
      unfold LittleEndian.Uint64.
      destruct (Nat.ltb_spec (length pg) 8); [lia | reflexivity].
Qed.

End FreeListNodeLaws.

Lemma node_slots_independent_witness :
  let pg := repeat 0 (Z.to_nat 40) in
  (exists pg',
     setPtr 40 pg 3 (2 ^ 64 - 1) = Ok pg' /\ node_ok 40 pg' /\
     getPtr pg' 3 = Ok (2 ^ 64 - 1) /\
     (forall j, 0 <= j < FREE_LIST_CAP 40 -> j <> 3 -> getPtr pg' j = getPtr pg j) /\
     getNext pg' = getNext pg) /\
  (exists pg',
     setNext pg 77 = Ok pg' /\ node_ok 40 pg' /\
     getNext pg' = Ok 77 /\
     (forall j, 0 <= j < FREE_LIST_CAP 40 -> getPtr pg' j = getPtr pg j)).
Proof.
  intros pg. apply (node_slots_independent 40 ltac:(lia) pg 3 (2 ^ 64 - 1) 77).
  - reflexivity.
  - vm_compute. split; [discriminate | reflexivity].
  - unfold uint64_ok. lia.
  - unfold uint64_ok. lia.
Defined.

Lemma node_index_out_of_range_witness :
  let pg := repeat 0 (Z.to_nat 40) in
  (setPtr 40 pg 4 9 = Panic /\ getPtr pg 4 = Panic) /\
  (setPtr 40 pg (-2) 9 = Panic /\ getPtr pg (-2) = Panic) /\
  (setPtr 40 pg (-1) 9 = setNext pg 9 /\ getPtr pg (-1) = getNext pg).
Proof.
  intros pg.
  assert (Hpg : node_ok 40 pg) by reflexivity.
  split; [|split].
  - apply (proj1 (node_index_out_of_range 40 ltac:(lia) pg 4 9 Hpg ltac:(lia))).
    vm_compute. discriminate.
  - apply (proj1 (proj2 (node_index_out_of_range 40 ltac:(lia) pg (-2) 9 Hpg ltac:(lia)))).
    lia.
  - apply (proj2 (proj2 (node_index_out_of_range 40 ltac:(lia) pg (-1) 9 Hpg ltac:(lia)))).
    reflexivity.
Defined.

Lemma written_within_refl fl ws : written_within fl fl ws.
Proof. split; [lia | auto]. Qed.

Lemma written_within_trans fl1 fl2 fl3 ws :
  written_within fl1 fl2 ws -> written_within fl2 fl3 ws -> written_within fl1 fl3 ws.
Proof. intros [L1 H1] [L2 H2]. split; [lia|]. intros p pg Hp Hw. auto. Qed.

Lemma written_within_pages fl fl' ws :
  pages fl' = pages fl -> written_within fl fl' ws.
Proof. intros E. unfold written_within. rewrite E. split; [lia | auto]. Qed.

Lemma fl_set_written fl p f fl' ws :
  fl_set fl p f = Ok fl' -> p ∈ ws ->
  written_within fl fl' ws /\ length (pages fl') = length (pages fl).
Proof.
  unfold fl_set. intros H Hp. inv_bind H. inv_bind H. injection H as <-.
  unfold written_within. cbn [pages]. unfold index_Z in Ha.
  destruct (Z.ltb_spec p 0); [discriminate|].
  split; [|apply length_insert]. split; [rewrite length_insert; lia|].
  intros q pg Hq Hw. rewrite list_lookup_insert_ne; [exact Hq|].
  intros E. apply Hw. subst q. rewrite Z2Nat.id by lia. exact Hp.
Qed.

Lemma fl_new_written fl node ws :
  written_within fl (fst (fl_new fl node)) ws /\
  length (pages (fst (fl_new fl node))) = S (length (pages fl)) /\
  tailPage (fst (fl_new fl node)) = tailPage fl.
Proof.
  unfold fl_new, written_within. cbn [fst pages tailPage]. split; [|split; [|reflexivity]].
  - split; [rewrite length_app; lia|]. intros p pg Hp _.
    rewrite lookup_app_l; [exact Hp|]. eapply lookup_lt_Some; eauto.
  - rewrite length_app. cbn [length]. lia.
Qed.

Section FreeListFrame.

Variable PAGE : Z.

Lemma flPop_pages fl ptr head fl' :
  flPop PAGE fl = Ok (ptr, head, fl') ->
  pages fl' = pages fl /\ tailPage fl' = tailPage fl.
Proof.
  unfold flPop. intros H.
  destruct (headSeq fl =? maxSeq fl); [injection H as _ _ <-; auto|].
  inv_bind H. inv_bind H.
  destruct (seq2idx PAGE (wrap64 (headSeq fl + 1)) =? 0).
  - inv_bind H. inv_bind H. injection H as _ _ <-. auto.
  - injection H as _ _ <-. auto.
Qed.

Lemma PushTail_written fl ptr fl' :
  PushTail PAGE fl ptr = Ok fl' ->
  written_within fl fl' [tailPage fl; tailPage fl'] /\
  (length (pages fl') <= S (length (pages fl)))%nat.
Proof.
  unfold PushTail. intros H. inv_bind H. rename a into fl1.
  destruct (fl_set_counters _ _ _ _ Ha) as (_ & _ & _ & _ & Ht1).
  set (fl2 := with_tail fl1 (tailPage fl1) (wrap64 (tailSeq fl1 + 1))) in *.
  destruct (seq2idx PAGE (tailSeq fl2) =? 0).
  2:{ injection H as <-. cbn [tailPage pages with_tail fl2].
      destruct (fl_set_written _ _ _ _ [tailPage fl; tailPage fl1] Ha ltac:(left)) as [W L].
      split; [exact W | lia]. }
  inv_bind H. destruct a as [[next head] fl3].
  destruct (flPop_pages _ _ _ _ Ha0) as [Hp3 Ht3]. cbn [pages tailPage with_tail fl2] in Hp3, Ht3.
  destruct (next =? 0).
  - (* a new page *)
    cbv beta iota zeta in H.
    destruct (fl_new fl3 (repeat 0 (Z.to_nat PAGE))) as [fl4 nx] eqn:En.
    pose proof (fl_new_written fl3 (repeat 0 (Z.to_nat PAGE))) as Hnew.
    rewrite En in Hnew. cbn [fst] in Hnew.
    inv_bind H. rename a into fl5.
    destruct (fl_set_counters _ _ _ _ Ha1) as (_ & _ & _ & _ & Ht5).
    assert (Hfinal : forall flx, tailPage flx = nx ->
              (written_within fl5 flx [tailPage fl; nx] /\
               length (pages flx) = length (pages fl5)) ->
              written_within fl flx [tailPage fl; tailPage flx] /\
              (length (pages flx) <= S (length (pages fl)))%nat).
    { intros flx Etx [Wx Lx]. rewrite Etx.
      destruct (fl_set_written _ _ _ _ [tailPage fl; nx] Ha ltac:(left)) as [W1 L1].
      destruct (Hnew [tailPage fl; nx]) as (W4 & L4 & T4).
      destruct (fl_set_written _ _ _ _ [tailPage fl; nx] Ha1
                  ltac:(rewrite T4, Ht3, Ht1; left)) as [W5 L5].
      split.
      - eapply written_within_trans; [exact W1|].
        eapply written_within_trans; [apply written_within_pages; exact Hp3 | ].
        eapply written_within_trans; [exact W4|].
        eapply written_within_trans; [exact W5 | exact Wx].
      - rewrite Lx, L5, L4, Hp3, L1. lia. }
    destruct (negb (head =? 0)).
    + inv_bind H. injection H as <-.
      destruct (fl_set_counters _ _ _ _ Ha2) as (_ & _ & _ & _ & Ht7).
      cbn [tailPage with_tail] in Ht7.
      apply Hfinal; [exact Ht7|].
      exact (fl_set_written _ _ _ _ [tailPage fl; nx] Ha2 ltac:(right; left)).
    + injection H as <-. apply Hfinal; [reflexivity|].
      split; [apply written_within_pages; reflexivity | reflexivity].
  - (* the popped page *)
    cbv beta iota zeta in H.
    inv_bind H. rename a into fl5.
    assert (Hfinal : forall flx, tailPage flx = next ->
              (written_within fl5 flx [tailPage fl; next] /\
               length (pages flx) = length (pages fl5)) ->
              written_within fl flx [tailPage fl; tailPage flx] /\
              (length (pages flx) <= S (length (pages fl)))%nat).
    { intros flx Etx [Wx Lx]. rewrite Etx.
      destruct (fl_set_written _ _ _ _ [tailPage fl; next] Ha ltac:(left)) as [W1 L1].
      destruct (fl_set_written _ _ _ _ [tailPage fl; next] Ha1
                  ltac:(rewrite Ht3, Ht1; left)) as [W5 L5].
      split.
      - eapply written_within_trans; [exact W1|].
        eapply written_within_trans; [apply written_within_pages; exact Hp3 | ].
        eapply written_within_trans; [exact W5 | exact Wx].
      - rewrite Lx, L5, Hp3, L1. lia. }
    destruct (negb (head =? 0)).
    + inv_bind H. injection H as <-.
      destruct (fl_set_counters _ _ _ _ Ha2) as (_ & _ & _ & _ & Ht7).
      cbn [tailPage with_tail] in Ht7.
      apply Hfinal; [exact Ht7|].
      exact (fl_set_written _ _ _ _ [tailPage fl; next] Ha2 ltac:(right; left)).
    + injection H as <-. apply Hfinal; [reflexivity|].
      split; [apply written_within_pages; reflexivity | reflexivity].
Qed.

(** X26. The list writes to its tail node only: [flPop] changes no page;
    [PushTail] and [PopHead] leave every page of the store as it was,
    except the tail node before the call and the tail node after it, and
    they append at most one page to the store. Pages that belong to
    other structures are never written. *)
Theorem free_list_writes_tail_only (fl : FreeList) :
  (forall ptr head fl', flPop PAGE fl = Ok (ptr, head, fl') -> pages fl' = pages fl) /\
  (forall ptr fl', PushTail PAGE fl ptr = Ok fl' ->
     written_within fl fl' [tailPage fl; tailPage fl'] /\
     (length (pages fl') <= S (length (pages fl)))%nat) /\
  (forall ptr fl', PopHead PAGE fl = Ok (ptr, fl') ->
     written_within fl fl' [tailPage fl; tailPage fl'] /\
     (length (pages fl') <= S (length (pages fl)))%nat).
Proof.
  split; [|split].
  - intros ptr head fl' H. now destruct (flPop_pages _ _ _ _ H).
  - intros ptr fl'. apply PushTail_written.
  - intros ptr fl' H. unfold PopHead in H. inv_bind H. destruct a as [[p head] fl1].
    destruct (flPop_pages _ _ _ _ Ha) as [Hp Ht].
    destruct (negb (head =? 0)).
    + inv_bind H. injection H as _ <-.
      destruct (PushTail_written _ _ _ Ha0) as [W L]. rewrite Ht, Hp in *.
      split; [|exact L].
      eapply written_within_trans; [apply written_within_pages; exact Hp | exact W].
    + injection H as _ <-. rewrite Hp. split; [|lia].
      apply written_within_pages. exact Hp.
Qed.

End FreeListFrame.

Lemma perm_new_node (n i : list Z) x np :
  (n ++ [np]) ++ (i ++ [x]) ≡ₚ x :: (n ++ i) ++ [np].
Proof.
  rewrite <- !Permutation_cons_append. cbn [app].
  rewrite <- Permutation_middle. rewrite perm_swap. reflexivity.
Qed.

Lemma perm_reuse (n i : list Z) x : (n ++ [x]) ++ i ≡ₚ x :: n ++ i.
Proof. rewrite <- Permutation_cons_append. reflexivity. Qed.

Lemma perm_reuse_head (n i : list Z) x h : (n ++ [x]) ++ (i ++ [h]) ≡ₚ x :: h :: n ++ i.
Proof.
  rewrite <- !Permutation_cons_append. cbn [app].
  rewrite <- Permutation_middle. reflexivity.
Qed.

Section FreeListConservation.

Variable PAGE : Z.
Hypothesis HPAGE : 24 <= PAGE.

Local Abbreviation CAP := (FREE_LIST_CAP PAGE).

(** What [flPop] takes out of the list. *)
Lemma a_flPop_held a :
  a_npages (snd (a_flPop PAGE a)) = a_npages a /\
  ((snd (a_flPop PAGE a) = a /\ fst (fst (a_flPop PAGE a)) = 0 /\
    snd (fst (a_flPop PAGE a)) = 0) \/
   (snd (fst (a_flPop PAGE a)) = 0 /\
    held a ≡ₚ fst (fst (a_flPop PAGE a)) :: held (snd (a_flPop PAGE a))) \/
   (held a ≡ₚ fst (fst (a_flPop PAGE a)) :: snd (fst (a_flPop PAGE a))
              :: held (snd (a_flPop PAGE a)))).
Proof.
  unfold a_flPop, held.
  destruct (a_head a =? a_max a); [cbn [fst snd]; auto|].
  destruct (a_items a) as [|x q] eqn:Ei; [cbn [fst snd]; auto|].
  destruct ((a_head a + 1) mod CAP =? 0).
  - destruct (a_nodes a) as [|h ns] eqn:En; cbn [fst snd a_npages a_nodes a_items app].
    + split; [reflexivity|]. right. left. auto.
    + split; [reflexivity|]. right. right.
      change (h :: ns ++ x :: q) with ((h :: ns) ++ x :: q).
      rewrite <- Permutation_middle. reflexivity.
  - cbn [fst snd a_npages a_nodes a_items]. split; [reflexivity|]. right. left.
    split; [reflexivity|]. rewrite <- Permutation_middle. reflexivity.
Qed.

Lemma held_snoc a x :
  held (mkAQ (a_head a) (a_max a) (a_tail a + 1) (a_items a ++ [x])
             (a_nodes a) (a_npages a)) ≡ₚ x :: held a.
Proof.
  unfold held. cbn [a_nodes a_items]. rewrite app_assoc.
  symmetry. apply Permutation_cons_append.
Qed.

(** What [PushTail] adds to the list: the page pushed and, when it had
    to allocate a node, the page appended to the store. *)
Lemma a_PushTail_held a x :
  0 ∉ held a -> x <> 0 ->
  (held (a_PushTail PAGE a x) ≡ₚ x :: held a /\
   a_npages (a_PushTail PAGE a x) = a_npages a) \/
  (held (a_PushTail PAGE a x) ≡ₚ x :: held a ++ [a_npages a] /\
   a_npages (a_PushTail PAGE a x) = a_npages a + 1).
Proof.
  intros H0 Hx. unfold a_PushTail.
  set (a1 := mkAQ (a_head a) (a_max a) (a_tail a + 1) (a_items a ++ [x])
                  (a_nodes a) (a_npages a)).
  pose proof (held_snoc a x) as H1. fold a1 in H1.
  assert (H01 : 0 ∉ held a1).
  { rewrite H1. intros Hin. apply elem_of_cons in Hin. destruct Hin; [lia | contradiction]. }
  destruct ((a_tail a + 1) mod CAP =? 0); [|left; auto].
  pose proof (a_flPop_held a1) as [Hnp Hc].
  destruct (a_flPop PAGE a1) as [[next head] a2]. cbn [fst snd] in Hnp, Hc.
  destruct Hc as [(-> & -> & ->)|[(-> & Hp)|Hp]].
  - right. cbn [Z.eqb negb a_npages a_nodes a_items a1]. split; [|reflexivity].
    unfold held. cbn [a_nodes a_items]. apply perm_new_node.
  - left. assert (Hn : next <> 0).
    { intros ->. apply H01. rewrite Hp. now left. }
    destruct (Z.eqb_spec next 0); [contradiction|].
    cbn [Z.eqb negb a_npages a_nodes a_items]. split; [|exact Hnp].
    rewrite <- H1, Hp. unfold held. cbn [a_nodes a_items]. apply perm_reuse.
  - left. assert (Hn : next <> 0).
    { intros ->. apply H01. rewrite Hp. now left. }
    assert (Hh : head <> 0).
    { intros ->. apply H01. rewrite Hp. right. now left. }
    destruct (Z.eqb_spec next 0); [contradiction|].
    destruct (Z.eqb_spec head 0); [contradiction|].
    cbn [negb a_npages a_nodes a_items]. split; [|exact Hnp].
    rewrite <- H1, Hp. unfold held. cbn [a_nodes a_items]. apply perm_reuse_head.
Qed.

Lemma not_elem_of_perm_cons (x y : Z) (l l' : list Z) :
  l ≡ₚ y :: l' -> x ∉ l -> x ∉ l'.
Proof. intros Hp Hx Hin. apply Hx. rewrite Hp. now right. Qed.

(** What [PopHead] takes out of the list. *)
Lemma a_PopHead_held a :
  0 ∉ held a ->
  (snd (a_PopHead PAGE a) = a /\ fst (a_PopHead PAGE a) = 0) \/
  ((fst (a_PopHead PAGE a) :: held (snd (a_PopHead PAGE a))) ≡ₚ held a /\
   a_npages (snd (a_PopHead PAGE a)) = a_npages a) \/
  ((fst (a_PopHead PAGE a) :: held (snd (a_PopHead PAGE a))) ≡ₚ held a ++ [a_npages a] /\
   a_npages (snd (a_PopHead PAGE a)) = a_npages a + 1).
Proof.
  intros H0. unfold a_PopHead.
  pose proof (a_flPop_held a) as [Hnp Hc].
  destruct (a_flPop PAGE a) as [[p h] a1]. cbn [fst snd] in Hnp, Hc.
  destruct Hc as [(-> & -> & ->)|[(-> & Hp)|Hp]].
  - left. cbn [Z.eqb negb fst snd]. auto.
  - right. left. cbn [Z.eqb negb fst snd]. split; [now symmetry | exact Hnp].
  - assert (Hh : h <> 0).
    { intros ->. apply H0. rewrite Hp. right. now left. }
    destruct (Z.eqb_spec h 0); [contradiction|]. cbn [negb fst snd].
    assert (H01 : 0 ∉ held a1).
    { eapply not_elem_of_perm_cons; [reflexivity|].
      eapply not_elem_of_perm_cons; [exact Hp | exact H0]. }
    destruct (a_PushTail_held a1 h H01 Hh) as [[Hq Hn]|[Hq Hn]].
    + right. left. split; [|lia]. rewrite Hq, Hp. reflexivity.
    + right. right. split; [|lia]. rewrite Hq, Hp, Hnp. reflexivity.
Qed.

Lemma represents_held fl a :
  represents PAGE fl a ->
  (0 ∉ held a) /\ NoDup (held a) /\ NoDup (held a ++ [a_npages a]).
Proof.
  intros R. pose proof (r_valid _ _ _ _ R) as Hv. pose proof (r_nodup _ _ _ _ R) as Hnd.
  fold (held a) in Hv, Hnd. split; [|split; [exact Hnd|]].
  - intros Hin. apply Hv in Hin. lia.
  - apply NoDup_app. split; [exact Hnd|]. split; [|apply NoDup_singleton].
    intros x Hx Hin. apply list_elem_of_singleton in Hin. apply Hv in Hx. lia.
Qed.

(** X27. [PopHead] hands out the oldest page: on a well-formed list
    whose head is below the watermark, [PopHead] returns the first of the
    queued pages; this page is not page 0 and is not a node of the list,
    and after the call the list holds it no longer, neither as an item
    nor as a node, so that no page is handed out twice. On a list whose
    head is at the watermark it returns 0 and changes nothing. *)
Theorem PopHead_returns_oldest (fl : FreeList) (a : AQ) :
  represents PAGE fl a -> headroom a 1 ->
  (a_head a = a_max a -> PopHead PAGE fl = Ok (0, fl)) /\
  (a_head a < a_max a ->
     exists x q fl',
       a_items a = x :: q /\ PopHead PAGE fl = Ok (x, fl') /\
       0 < x /\ (x ∉ a_nodes a) /\
       represents PAGE fl' (snd (a_PopHead PAGE a)) /\
       x ∉ held (snd (a_PopHead PAGE a))).
Proof.
  intros R Hroom. split.
  - intros E. apply PopHead_at_watermark.
    now rewrite (r_head _ _ _ _ R), (r_max _ _ _ _ R).
  - intros Hlt.
    destruct (PopHead_refines PAGE HPAGE fl a R Hroom) as (fl' & Hpop & R').
    destruct (represents_held fl a R) as (H0 & Hnd & Hnd1).
    assert (Hx : exists x q, a_items a = x :: q /\ fst (a_PopHead PAGE a) = x).
    { destruct (a_flPop_cases PAGE HPAGE fl a _ R)
        as [[E _]|(_ & x & q & Eq & [[_ E]|(_ & h & n & ns & _ & E)])]; [lia| |];
        exists x, q; (split; [exact Eq|]); unfold a_PopHead; rewrite E;
        destruct (negb (_ =? 0)); reflexivity. }
    destruct Hx as (x & q & Eq & Efst). rewrite Efst in Hpop.
    exists x, q, fl'. split; [exact Eq|]. split; [exact Hpop|].
    assert (Hin : x ∈ held a).
    { unfold held. apply elem_of_app. right. rewrite Eq. now left. }
    split; [apply (r_valid _ _ _ _ R x Hin)|]. split.
    + intros Hn. unfold held in Hnd. apply NoDup_app in Hnd.
      destruct Hnd as (_ & Hdis & _). apply (Hdis x Hn). rewrite Eq. now left.
    + split; [exact R'|].
      destruct (a_PopHead_held a H0) as [[Ea _]|[[Hp _]|[Hp _]]].
      * exfalso.
        destruct (committed_PopHead PAGE a (represents_aq_ok PAGE _ _ _ R))
          as (_ & _ & _ & _ & [(E & _)|(c & Hc & Hc')]); [lia|].
        rewrite Ea in Hc'. apply (f_equal (@length Z)) in Hc.
        destruct Hc' as [Hc'|[y Hc']]; apply (f_equal (@length Z)) in Hc';
          cbn [length] in *; lia.
      * rewrite Efst in Hp. rewrite <- Hp in Hnd. now apply NoDup_cons in Hnd.
      * rewrite Efst in Hp. rewrite <- Hp in Hnd1. now apply NoDup_cons in Hnd1.
Qed.

(** X28. Pages are conserved: an operation on a well-formed list returns
    without panic and leaves a well-formed list; the pages that the list
    holds afterwards (as nodes or as items), together with the page that
    a [PopHead] returned, are exactly the pages it held before, together
    with the page that a [PushTail] freed and with the page appended to
    the store when a node had to be allocated. No page is lost and none
    appears twice. *)
Theorem pages_are_conserved (fl : FreeList) (a : AQ) (o : op) :
  represents PAGE fl a ->
  match o with OpPushTail ptr => free_page a ptr | _ => True end ->
  headroom a 1 ->
  exists fl' r,
    step PAGE fl o = Ok (fl', r) /\ represents PAGE fl' (a_step PAGE a o) /\
    NoDup (held (a_step PAGE a o)) /\
    a_npages (a_step PAGE a o) = Z.of_nat (length (pages fl')) /\
    let grown := if a_npages (a_step PAGE a o) =? a_npages a then [] else [a_npages a] in
    match o with
    | OpPushTail ptr => r = None /\ held (a_step PAGE a o) ≡ₚ (ptr :: held a ++ grown)
    | OpPopHead =>
        exists x, r = Some x /\
          ((x = 0 /\ a_step PAGE a o = a) \/
           (x :: held (a_step PAGE a o)) ≡ₚ held a ++ grown)
    | OpSetMaxSeq => r = None /\ held (a_step PAGE a o) = held a
    end.
Proof.
  intros R Hfree Hroom.
  destruct (step_refines PAGE HPAGE fl a o R Hfree Hroom) as (fl' & r & Hstep & R' & Hr).
  destruct (represents_held fl a R) as (H0 & _ & _).
  destruct (represents_held fl' _ R') as (_ & Hnd' & _).
  exists fl', r. split; [exact Hstep|]. split; [exact R'|]. split; [exact Hnd'|].
  split; [symmetry; apply (r_np _ _ _ _ R')|].
  destruct o as [ptr| |]; cbn [a_step] in *.
  - split; [exact Hr|]. destruct Hfree as [Hp _].
    destruct (a_PushTail_held a ptr H0 ltac:(lia)) as [[Hq Hn]|[Hq Hn]]; rewrite Hn.
    + rewrite Z.eqb_refl, app_nil_r. exact Hq.
    + destruct (Z.eqb_spec (a_npages a + 1) (a_npages a)); [lia | exact Hq].
  - exists (fst (a_PopHead PAGE a)). split; [exact Hr|].
    destruct (a_PopHead_held a H0) as [[Ea E0]|[[Hq Hn]|[Hq Hn]]].
    + left. auto.
    + right. rewrite Hn, Z.eqb_refl, app_nil_r. exact Hq.
    + right. rewrite Hn.
      destruct (Z.eqb_spec (a_npages a + 1) (a_npages a)); [lia | exact Hq].
  - split; [exact Hr | reflexivity].
Qed.

End FreeListConservation.

Lemma PopHead_returns_oldest_witness :
  let page := repeat 0 (Z.to_nat 40) in
  let fl0 := fl_fresh [page; page; page; page; page; page; page; page; page; page] 1 in
  let ops := [OpPushTail 2; OpPushTail 3; OpPushTail 4; OpPushTail 5; OpPushTail 6;
              OpSetMaxSeq; OpPopHead; OpPopHead; OpPopHead] in
  let a := fst (a_run 40 (a_fresh 10 1) ops) in
  exists fl,
    run 40 fl0 ops = Ok (fl, [2; 3; 4]) /\
    (a_head a = a_max a -> PopHead 40 fl = Ok (0, fl)) /\
    (a_head a < a_max a ->
       exists x q fl',
         a_items a = x :: q /\ PopHead 40 fl = Ok (x, fl') /\
         0 < x /\ (x ∉ a_nodes a) /\
         represents 40 fl' (snd (a_PopHead 40 a)) /\
         x ∉ held (snd (a_PopHead 40 a))).
Proof.
  intros page fl0 ops a.
  assert (H40 : 24 <= 40) by lia.
  destruct (run_refines 40 H40 ops fl0 (a_fresh 10 1)) as (fl & Hrun & R).
  - apply (fresh_represents 40 H40
             [page; page; page; page; page; page; page; page; page; page] 1).
    + repeat (apply List.Forall_cons; [reflexivity|]). apply List.Forall_nil.
    + cbn [length]. lia.
  - apply frees_okb_sound. vm_compute. reflexivity.
  - unfold headroom, a_fresh. cbn [a_tail a_npages length ops]. lia.
  - exists fl. split; [exact Hrun|].
    apply (PopHead_returns_oldest 40 H40 fl a R).
    vm_compute. split; reflexivity.
Defined.

Lemma pages_are_conserved_witness :
  let page := repeat 0 (Z.to_nat 40) in
  let fl := fl_fresh [page; page; page; page; page; page; page; page; page; page] 1 in
  let a := a_fresh 10 1 in
  exists fl' r,
    step 40 fl (OpPushTail 7) = Ok (fl', r) /\ represents 40 fl' (a_step 40 a (OpPushTail 7)) /\
    NoDup (held (a_step 40 a (OpPushTail 7))) /\
    a_npages (a_step 40 a (OpPushTail 7)) = Z.of_nat (length (pages fl')) /\
    let grown := if a_npages (a_step 40 a (OpPushTail 7)) =? a_npages a then []
                 else [a_npages a] in
    r = None /\ held (a_step 40 a (OpPushTail 7)) ≡ₚ (7 :: held a ++ grown).
Proof.
  intros page fl a.
  assert (H40 : 24 <= 40) by lia.
  apply (pages_are_conserved 40 H40 fl a (OpPushTail 7)).
  - apply (fresh_represents 40 H40
             [page; page; page; page; page; page; page; page; page; page] 1).
    + repeat (apply List.Forall_cons; [reflexivity|]). apply List.Forall_nil.
    + cbn [length]. lia.
  - apply free_pageb_sound. vm_compute. reflexivity.
  - unfold headroom, a, a_fresh. cbn [a_tail a_npages]. lia.
Defined.

(** * Deleting rows *)

Lemma bytes_Compare_lt_gt a b : bytes_Compare a b = Gt <-> bytes_Compare b a = Lt.
Proof.
  rewrite (bytes_Compare_antisym a b). destruct (bytes_Compare a b); cbn; split;
    intros H; congruence.
Qed.

Lemma bytes_lt_trans a b c : bytes_lt a b -> bytes_lt b c -> bytes_lt a c.
Proof.
  unfold bytes_lt. intros H1 H2.
  apply bytes_Compare_lt_gt in H1, H2. apply bytes_Compare_lt_gt.
  eapply bytes_Compare_trans_gt; eauto.
Qed.

Lemma keys_ascending_cons k v r :
  keys_ascending ((k, v) :: r) <-> head_above k r /\ keys_ascending r.
Proof. cbn [keys_ascending]. destruct r as [|[k' v'] r']; cbn [head_above]; tauto. Qed.

Lemma tree_delete_head k key r :
  keys_ascending r -> head_above k r -> head_above k (fst (tree_delete r key)).
Proof.
  destruct r as [|[k1 v1] r1]; cbn [tree_delete]; [auto|].
  intros Hs Hk. apply (proj1 (keys_ascending_cons _ _ _)) in Hs. destruct Hs as [H1 Hs1].
  cbn [head_above] in Hk.
  destruct (bytes_Compare k1 key).
  - cbn [fst]. destruct r1 as [|[k2 v2] r2]; cbn [head_above] in *; [exact I|].
    eapply bytes_lt_trans; eauto.
  - destruct (tree_delete r1 key). exact Hk.
  - destruct (tree_delete r1 key). exact Hk.
Qed.

Lemma tree_delete_ascending t key :
  keys_ascending t -> keys_ascending (fst (tree_delete t key)).
Proof.
  induction t as [|[k v] r IH]; cbn [tree_delete]; [auto|].
  intros Hs. apply (proj1 (keys_ascending_cons _ _ _)) in Hs. destruct Hs as [Hk Hr].
  pose proof (tree_delete_head k key r Hr Hk) as Hh. specialize (IH Hr).
  destruct (bytes_Compare k key); [exact Hr | |];
    destruct (tree_delete r key) as [r' b]; cbn [fst] in *;
    apply (proj2 (keys_ascending_cons _ _ _)); auto.
Qed.

(** After a delete, the key is not found. *)
Lemma tree_delete_get t key :
  keys_ascending t -> tree_get (fst (tree_delete t key)) key = None.
Proof.
  induction t as [|[k v] r IH]; cbn [tree_delete]; [reflexivity|].
  intros Hs. apply (proj1 (keys_ascending_cons _ _ _)) in Hs. destruct Hs as [Hk Hr]. specialize (IH Hr).
  destruct (bytes_Compare k key) eqn:E.
  - apply bytes_Compare_eq in E. subst k. cbn [fst].
    destruct r as [|[k1 v1] r1]; [reflexivity|]. cbn [head_above] in Hk. cbn [tree_get].
    apply bytes_Compare_lt_gt in Hk. now rewrite Hk.
  - destruct (tree_delete r key) as [r' b]. cbn [fst tree_get] in *. now rewrite E.
  - destruct (tree_delete r key) as [r' b]. cbn [fst tree_get] in *. now rewrite E.
Qed.

Lemma tree_delete_absent t key :
  snd (tree_delete t key) = false -> fst (tree_delete t key) = t.
Proof.
  induction t as [|[k v] r IH]; cbn [tree_delete]; [reflexivity|].
  destruct (bytes_Compare k key); [discriminate | |];
    destruct (tree_delete r key) as [r' b]; cbn [fst snd] in *;
    intros Hb; now rewrite (IH Hb).
Qed.

Lemma tree_update_head k key val mode r :
  head_above k r -> bytes_lt k key ->
  head_above k (fst (fst (tree_update r key val mode))).
Proof.
  destruct r as [|[k1 v1] r1]; cbn [tree_update]; intros Hk Hlt.
  - destruct (mode =? MODE_UPDATE_ONLY); cbn [fst head_above]; auto.
  - cbn [head_above] in Hk. destruct (bytes_Compare k1 key).
    + destruct (mode =? MODE_INSERT_ONLY); cbn [fst head_above]; auto.
    + destruct (tree_update r1 key val mode) as [[r' a] u]. exact Hk.
    + destruct (mode =? MODE_UPDATE_ONLY); cbn [fst head_above]; auto.
Qed.

(** The conditional write keeps the entries in ascending key order. *)
Lemma tree_update_ascending t key val mode :
  keys_ascending t -> keys_ascending (fst (fst (tree_update t key val mode))).
Proof.
  induction t as [|[k v] r IH]; cbn [tree_update].
  - intros _. destruct (mode =? MODE_UPDATE_ONLY); cbn; auto.
  - intros Hs. pose proof Hs as Hs0.
    apply (proj1 (keys_ascending_cons _ _ _)) in Hs. destruct Hs as [Hk Hr]. specialize (IH Hr).
    destruct (bytes_Compare k key) eqn:E.
    + destruct (mode =? MODE_INSERT_ONLY); cbn [fst]; [exact Hs0|].
      apply bytes_Compare_eq in E. subst k. apply (proj2 (keys_ascending_cons _ _ _)). auto.
    + pose proof (tree_update_head k key val mode r Hk E) as Hh.
      destruct (tree_update r key val mode) as [[r' a] u]. cbn [fst] in *.
      apply (proj2 (keys_ascending_cons _ _ _)). auto.
    + destruct (mode =? MODE_UPDATE_ONLY); cbn [fst]; [exact Hs0|].
      apply (proj2 (keys_ascending_cons _ _ _)). split; [|exact Hs0].
      cbn [head_above]. now apply bytes_Compare_lt_gt.
Qed.

(** The record of a primary key passes the check of [dbGet]. *)
Lemma key_record_check_gen tdef kvals :
  schema_ok tdef ->
  length kvals = Z.to_nat (PKeys tdef) ->
  map Type_ kvals = firstn (Z.to_nat (PKeys tdef)) (Types tdef) ->
  Forall (fun v => Type_ v <> 0) kvals ->
  checkRecord tdef (mkRecord (firstn (Z.to_nat (PKeys tdef)) (Cols tdef)) kvals) (PKeys tdef)
  = Ok (kvals ++ repeat Value_zero (length (Cols tdef) - Z.to_nat (PKeys tdef))).
Proof.
  intros (Hty & Hnd & Hpk & _) Hlen Htypes Hnz.
  set (p := Z.to_nat (PKeys tdef)) in *.
  assert (Hp : (p <= length (Cols tdef))%nat) by lia.
  set (out := kvals ++ repeat Value_zero (length (Cols tdef) - p)).
  assert (Hout : forall j, nth_error out j =
            if (j <? p)%nat then nth_error kvals j
            else if (j <? length (Cols tdef))%nat then Some Value_zero else None).
  { intros j. unfold out. destruct (Nat.ltb_spec j p).
    - now rewrite nth_error_app1 by lia.
    - rewrite nth_error_app2 by lia. rewrite Hlen.
      destruct (Nat.ltb_spec j (length (Cols tdef))).
      + apply nth_error_repeat. lia.
      + apply nth_error_None. rewrite repeat_length. lia. }
  unfold checkRecord.
  assert (Hre : reorderRecord tdef (mkRecord (firstn p (Cols tdef)) kvals) = Ok out).
  { unfold reorderRecord. cbn [RCols RVals].
    rewrite firstn_length_le by lia. rewrite Hlen, Nat.eqb_refl. cbn [assert bind].
    apply reorder_loop_eq.
    - unfold out. rewrite length_app, repeat_length. lia.
    - intros j c Hj. cbn [Nat.add]. rewrite Hout.
      assert (Hjl : (j < length (Cols tdef))%nat) by (apply nth_error_Some; congruence).
      pose proof (Get_index_NoDup _ _ _ Hnd Hj) as Hgi.
      unfold Get. cbn [RCols RVals]. rewrite (Get_index_firstn _ p _ _ Hgi).
      destruct (Nat.ltb_spec j p) as [Hjp|Hjp].
      + right. destruct (nth_error kvals j) as [v|] eqn:Ev;
          [|apply nth_error_None in Ev; lia].
        exists v. split; [reflexivity|]. split; [reflexivity|].
        assert (E : nth_error (map Type_ kvals) j = Some (Type_ v))
          by (rewrite nth_error_map, Ev; reflexivity).
        rewrite Htypes, nth_error_firstn in E.
        destruct (Nat.ltb_spec j p); [exact E | lia].
      + left. destruct (Nat.ltb_spec j (length (Cols tdef))); [auto | lia]. }
  rewrite Hre. cbn [bind].
  rewrite valuesComplete_all_ok; [reflexivity|].
  intros j w Hj. rewrite Hout in Hj. destruct (Nat.ltb_spec j p) as [Hjp|Hjp].
  - split; [intros _ | lia].
    eapply (proj1 (List.Forall_forall _ _) Hnz). eapply nth_error_In; eauto.
  - split; [lia | intros _].
    destruct (j <? length (Cols tdef))%nat; [|discriminate]. now injection Hj as <-.
Qed.

(** The facts about a key record that [checkRecord] has accepted. *)
Lemma key_row_facts tdef rec vals :
  schema_ok tdef ->
  checkRecord tdef rec (PKeys tdef) = Ok vals ->
  length (firstn (Z.to_nat (PKeys tdef)) vals) = Z.to_nat (PKeys tdef) /\
  map Type_ (firstn (Z.to_nat (PKeys tdef)) vals)
    = firstn (Z.to_nat (PKeys tdef)) (Types tdef) /\
  Forall (fun v => Type_ v <> 0) (firstn (Z.to_nat (PKeys tdef)) vals) /\
  getValues tdef rec (firstn (Z.to_nat (PKeys tdef)) (Cols tdef))
    = Ok (firstn (Z.to_nat (PKeys tdef)) vals).
Proof.
  intros (HtyLen & Hnd & Hpk & _) Hcheck.
  destruct (checkRecord_Ok_inv _ _ _ _ Hcheck) as [Hre Hvc].
  destruct (reorderRecord_shape_aux _ _ _ Hre) as [Hlen Hs].
  pose proof (valuesComplete_loop_ok tdef vals 0 _ Hvc) as Hall.
  set (p := Z.to_nat (PKeys tdef)) in *.
  assert (Hcol : forall j c, nth_error (Cols tdef) j = Some c -> (j < p)%nat ->
            exists v, Get rec c = Ok (Some v) /\ nth_error vals j = Some v /\
                      Type_ v <> 0 /\ nth_error (Types tdef) j = Some (Type_ v)).
  { intros j c Hj Hjp.
    destruct (Hs j c Hj) as [[_ Hz]|(v & Hg & Hv & Ht)].
    - destruct (Hall j _ Hz) as [Hne _]. exfalso. apply Hne; [cbn [Nat.add]; lia | reflexivity].
    - exists v. destruct (Hall j _ Hv) as [Hne _].
      repeat split; auto. apply Hne. cbn [Nat.add]. lia. }
  assert (Hfl : length (firstn p vals) = p) by (apply firstn_length_le; lia).
  split; [exact Hfl|]. split; [|split].
  - apply list_eq. intros j. rewrite list_lookup_fmap, <- !nth_error_lookup.
    rewrite !nth_error_firstn. destruct (Nat.ltb_spec j p) as [Hj|Hj]; [|reflexivity].
    destruct (nth_error (Cols tdef) j) as [c|] eqn:Ec; [|apply nth_error_None in Ec; lia].
    destruct (Hcol j c Ec Hj) as (v & _ & Hv & _ & Ht). rewrite Hv, Ht. reflexivity.
  - apply List.Forall_forall. intros v Hv. apply In_nth_error in Hv. destruct Hv as [j Hj].
    rewrite nth_error_firstn in Hj. destruct (Nat.ltb_spec j p) as [Hjp|]; [|discriminate].
    destruct (nth_error (Cols tdef) j) as [c|] eqn:Ec; [|apply nth_error_None in Ec; lia].
    destruct (Hcol j c Ec Hjp) as (v' & _ & Hv' & Hne & _). congruence.
  - unfold getValues. apply getValues_loop_eq.
    + rewrite Hfl. symmetry. apply firstn_length_le. lia.
    + intros j c Hj. rewrite nth_error_firstn in Hj.
      destruct (Nat.ltb_spec j p) as [Hjp|]; [|discriminate].
      destruct (Hcol j c Hj Hjp) as (v & Hg & Hv & _ & Ht).
      exists v, j. split; [exact Hg|]. split.
      * rewrite nth_error_firstn. destruct (Nat.ltb_spec j p); [exact Hv | lia].
      * split; [now apply Get_index_NoDup | exact Ht].
Qed.

(** X30. A deleted row is gone: for a schema with one type per column,
    distinct column names and the first [PKeys] columns as primary key,
    on a store whose entries are in ascending key order, when [dbDelete]
    returns, [dbGet] with the same record on the new database reports
    that there is no such row and leaves the record as it is; the entries
    are still in ascending key order, and when [dbDelete] reports that
    the row did not exist the database is unchanged. [dbUpdate] keeps the
    ascending order too. (The store is the ordered key-value store as the
    specification describes it.) *)
Theorem row_gone_after_delete (db db' : DB) (tdef : TableDef) (rec : Record_)
    (existed : bool) :
  schema_ok tdef ->
  keys_ascending (tree (kv db)) ->
  dbDelete db tdef rec = Ok (db', existed) ->
  dbGet db' tdef rec = Ok (false, rec) /\
  keys_ascending (tree (kv db')) /\
  (existed = false -> db' = db) /\
  (forall dbreq db2 req2 b2,
     dbUpdate db tdef dbreq = Ok (db2, req2, b2) -> keys_ascending (tree (kv db2))).
Proof.
  intros Hok Hsorted Hdel.
  pose proof Hok as (HtyLen & Hnd & Hpk & Hidx).
  unfold dbDelete in Hdel.
  inv_bind Hdel. rename a into vals. inv_bind Hdel. rename a into kvals.
  inv_bind Hdel. rename a into key. unfold KV_Del in Hdel.
  destruct (tree_delete (tree (kv db)) key) as [t' b] eqn:Et. cbn [bind] in Hdel.
  injection Hdel as <- <-.
  destruct (key_row_facts tdef rec vals Hok Ha) as (Hfl & Htypes & Hnz & Hget).
  destruct (reorderRecord_shape_aux _ _ _ (proj1 (checkRecord_Ok_inv _ _ _ _ Ha))) as [Hlen _].
  rewrite slice_to_firstn in Ha0 by lia. injection Ha0 as <-.
  set (p := Z.to_nat (PKeys tdef)) in *.
  assert (Et1 : t' = fst (tree_delete (tree (kv db)) key)) by now rewrite Et.
  assert (Eb : b = snd (tree_delete (tree (kv db)) key)) by now rewrite Et.
  split; [|split; [|split]].
  - rewrite (dbGet_exact _ tdef rec (firstn p (Cols tdef)) (firstn p vals)
               (firstn p vals ++ repeat Value_zero (length (Cols tdef) - p))
               (firstn p vals) key).
    + cbn [kv tree]. rewrite Et1, tree_delete_get by exact Hsorted. reflexivity.
    + now apply index_Ok.
    + exact Hget.
    + now apply key_record_check_gen.
    + rewrite slice_to_firstn by (rewrite length_app, repeat_length, Hfl; lia).
      fold p. rewrite firstn_app, Hfl, Nat.sub_diag, firstn_all2 by lia.
      cbn [firstn]. now rewrite app_nil_r.
    + exact Ha1.
  - cbn [kv tree]. rewrite Et1. now apply tree_delete_ascending.
  - intros Hb. rewrite Hb in Eb. symmetry in Eb. apply tree_delete_absent in Eb.
    rewrite Et1, Eb. destruct db as [path [kvpath t] tabs]. reflexivity.
  - intros dbreq db2 req2 b2 Hup.
    destruct (dbUpdate_Ok_inv _ _ _ _ _ _ Hup) as (ek & val & ->).
    cbn [kv tree]. now apply tree_update_ascending.
Qed.

Lemma row_gone_after_delete_witness :
  let tdef := mkTableDef "t" [TYPE_INT64; TYPE_BYTES] ["id"; "name"]%string 1 100 [["id"%string]] in
  let rec := AddInt64 Record_empty "id" 7 in
  let db := mkDB "" (mkKV "" [([0; 0; 0; 100; 128; 0; 0; 0; 0; 0; 0; 7], [98; 0]);
                              ([0; 0; 0; 100; 128; 0; 0; 0; 0; 0; 0; 8], [99; 0])]) ∅ in
  let db' := mkDB "" (mkKV "" [([0; 0; 0; 100; 128; 0; 0; 0; 0; 0; 0; 8], [99; 0])]) ∅ in
  dbGet db' tdef rec = Ok (false, rec) /\
  keys_ascending (tree (kv db')) /\
  (true = false -> db' = db) /\
  (forall dbreq db2 req2 b2,
     dbUpdate db tdef dbreq = Ok (db2, req2, b2) -> keys_ascending (tree (kv db2))).
Proof.
  intros tdef rec db db'.
  apply (row_gone_after_delete db db' tdef rec true).
  - split; [reflexivity|]. split.
    + apply (bool_decide_unpack _). vm_compute. reflexivity.
    + split; [cbn; lia | reflexivity].
  - cbn. split; [reflexivity | auto].
  - reflexivity.
Defined.
